(** * thermo: cubic equation of state, Wilson activity model and the
      pressure-dependent property registry, embedded in Rocq.

    Floating-point numbers of the Python source are modelled by the real
    numbers of the Standard Library; the partial operations of Python
    that have a counterpart there ([/], [math.log], [math.sqrt], list
    indexing) are written out with the exception they raise.  What only
    binary64 has is outside this reading: [math.exp] is the real
    exponential, without its OverflowError and its underflow to zero, and
    no operation rounds.  Where rounding decides, the arithmetic is
    written a second time on IEEE-754 doubles ([WilsonBinary64]). *)

From Stdlib Require Import Reals Lra Lia List String QArith Qreals.
From Stdlib Require PrimFloat.
From stdpp Require Import gmap strings list fin_maps pretty.

(** ** Python exceptions and the result of a call *)

Inductive calc_error :=
| NoMethodSelected
| EvaluationFailed
| InvalidValue
| MethodNotValid.

Inductive exn :=
| ValueError (msg : string)
| ZeroDivisionError
| IndexError
| TypeError
| RuntimeError (why : calc_error)
| Exception (msg : string).

Inductive result (A : Type) :=
| Ok (a : A)
| Raise (e : exn).
Arguments Ok {A} a.
Arguments Raise {A} e.

Definition rbind {A B} (r : result A) (k : A → result B) : result B :=
  match r with
  | Ok a => k a
  | Raise e => Raise e
  end.

#[global] Instance result_ret : MRet result := @Ok.
#[global] Instance result_bind : MBind result := λ A B k r, rbind r k.

Definition is_ok {A} (r : result A) : Prop := ∃ a, r = Ok a.

(** [l[i]] for an index produced by [range]: IndexError out of range. *)
Definition getitem {A} (l : list A) (i : nat) : result A :=
  match l !! i with
  | Some a => Ok a
  | None => Raise IndexError
  end.

(** [[f(i) for i in idx]]: the comprehension yields a list or raises. *)
Fixpoint comprehension {A B} (f : A → result B) (idx : list A) : result (list B) :=
  match idx with
  | [] => Ok []
  | i :: rest =>
      b ← f i; bs ← comprehension f rest; Ok (b :: bs)
  end.

(** [out = []; for i in idx: out.append(f(i))]: the list object [out] is
    visible through every alias while the loop runs, so the rows appended
    before an exception stay in it. *)
Fixpoint append_loop {A B} (f : A → result B) (idx : list A) : list B * option exn :=
  match idx with
  | [] => ([], None)
  | i :: rest =>
      match f i with
      | Raise e => ([], Some e)
      | Ok b => let '(bs, r) := append_loop f rest in (b :: bs, r)
      end
  end.

(** [acc = a0; for i in idx: acc = step(acc, i)] *)
Fixpoint for_acc {A B} (step : B → A → result B) (idx : list A) (a0 : B) : result B :=
  match idx with
  | [] => Ok a0
  | i :: rest => a1 ← step a0 i; for_acc step rest a1
  end.

Section PythonFloat.
Local Open Scope R_scope.

(** Modelled from the spec: the molar gas constant [R], imported by the
    source from [scipy.constants] / [fluids.constants], which are not part
    of the repository. *)
Definition Rgas : R := 8314462618 / 1000000000.

(** [x / y] on floats *)
Definition pdiv (x y : R) : result R :=
  if Req_EM_T y 0 then Raise ZeroDivisionError else Ok (x / y).

(** [math.log] *)
Definition plog (x : R) : result R :=
  if Rlt_dec 0 x then Ok (ln x) else Raise (ValueError "math domain error").

(** [math.sqrt] *)
Definition psqrt (x : R) : result R :=
  if Rle_dec 0 x then Ok (sqrt x) else Raise (ValueError "math domain error").

(** Truth value of a float: [0.0] is false. *)
Definition float_truthy (x : R) : bool :=
  if Req_EM_T x 0 then false else true.

(** Finite sums over [range(n)], the mathematical reading of the
    accumulation loops. *)
Definition Rlist_sum (l : list R) : R := fold_right Rplus 0 l.
Definition Rsum (n : nat) (f : nat → R) : R := Rlist_sum (map f (seq 0 n)).

End PythonFloat.

(** ** State-and-exception monad for methods of a mutable object *)

Definition M (S A : Type) : Type := S → result A * S.

#[global] Instance M_ret {S} : MRet (M S) := λ A a s, (Ok a, s).
#[global] Instance M_bind {S} : MBind (M S) := λ A B k m s,
  match m s with
  | (Ok a, s') => k a s'
  | (Raise e, s') => (Raise e, s')
  end.

(** a pure, possibly raising, computation inside a method *)
Definition lift {S A} (r : result A) : M S A := λ s, (r, s).
(** read an attribute *)
Definition getattr {S A} (f : S → A) : M S A := λ s, (Ok (f s), s).
(** write an attribute *)
Definition setattr {S} (f : S → S) : M S unit := λ s, (Ok tt, f s).

(** ** Closed rational expressions, evaluated in Q *)

Inductive cexp :=
| CZ (z : Z)
| CQ (q : Q)
| CAdd (a b : cexp)
| CSub (a b : cexp)
| CMul (a b : cexp)
| CDiv (a b : cexp)
| COpp (a : cexp)
| CInv (a : cexp)
| CPow (a : cexp) (n : nat).

Fixpoint cR (e : cexp) : R :=
  match e with
  | CZ z => IZR z
  | CQ q => Q2R q
  | CAdd a b => cR a + cR b
  | CSub a b => cR a - cR b
  | CMul a b => cR a * cR b
  | CDiv a b => cR a / cR b
  | COpp a => - cR a
  | CInv a => / cR a
  | CPow a n => cR a ^ n
  end%R.

Fixpoint Qpow (q : Q) (n : nat) : Q :=
  match n with
  | O => 1
  | S n => Qred (q * Qpow q n)
  end%Q.

Fixpoint cQ (e : cexp) : option Q :=
  match e with
  | CZ z => Some (inject_Z z)
  | CQ q => Some (Qred q)
  | CAdd a b =>
      match cQ a, cQ b with Some x, Some y => Some (Qred (x + y)) | _, _ => None end
  | CSub a b =>
      match cQ a, cQ b with Some x, Some y => Some (Qred (x - y)) | _, _ => None end
  | CMul a b =>
      match cQ a, cQ b with Some x, Some y => Some (Qred (x * y)) | _, _ => None end
  | CDiv a b =>
      match cQ a, cQ b with
      | Some x, Some y => if Qeq_bool y 0 then None else Some (Qred (x / y))
      | _, _ => None
      end
  | COpp a => match cQ a with Some x => Some (- x) | None => None end
  | CInv a =>
      match cQ a with
      | Some x => if Qeq_bool x 0 then None else Some (Qred (/ x))
      | None => None
      end
  | CPow a n => match cQ a with Some x => Some (Qpow x n) | None => None end
  end%Q.

(** * The Wilson activity-coefficient model ([thermo/wilson.py]) *)

Module Wilson.
Local Open Scope R_scope.

(** Attributes set by [__init__] and never written again. *)
Record params := {
  T : R;
  xs : list R;
  lambda_coeffs_A : list (list R);
  lambda_coeffs_B : list (list R);
  lambda_coeffs_C : list (list R);
  lambda_coeffs_D : list (list R);
  lambda_coeffs_E : list (list R);
  lambda_coeffs_F : list (list R);
  N : nat;
}.

(** The object: its parameters and the lazily filled attributes; an
    attribute that was never assigned is [None]. *)
Record Wilson := {
  model :> params;
  _lambdas : option (list (list R));
  _xj_Lambda_ijs : option (list R);
  _xj_Lambda_ijs_inv : option (list R);
  _GE : option R;
  _d2GE_dxixjs : option (list (list R));
  _d3GE_dxixjxks : option (list (list (list R)));
}.

Definition cmps (self : params) : list nat := seq 0 (N self).

(** [Wilson(T, xs, ABCDEF=(A, B, C, D, E, F))] *)
Definition __init__ (T0 : R) (xs0 : list R)
    (ABCDEF : list (list R) * list (list R) * list (list R)
            * list (list R) * list (list R) * list (list R)) : Wilson :=
  let '(A, B, C, D, E, F) := ABCDEF in
  {| model := {| T := T0; xs := xs0;
                 lambda_coeffs_A := A; lambda_coeffs_B := B;
                 lambda_coeffs_C := C; lambda_coeffs_D := D;
                 lambda_coeffs_E := E; lambda_coeffs_F := F;
                 N := length A |};
     _lambdas := None; _xj_Lambda_ijs := None; _xj_Lambda_ijs_inv := None;
     _GE := None; _d2GE_dxixjs := None; _d3GE_dxixjxks := None |}.

Definition set_lambdas v (s : Wilson) : Wilson :=
  {| model := model s; _lambdas := Some v;
     _xj_Lambda_ijs := _xj_Lambda_ijs s;
     _xj_Lambda_ijs_inv := _xj_Lambda_ijs_inv s; _GE := _GE s;
     _d2GE_dxixjs := _d2GE_dxixjs s; _d3GE_dxixjxks := _d3GE_dxixjxks s |}.
Definition set_xj_Lambda_ijs v (s : Wilson) : Wilson :=
  {| model := model s; _lambdas := _lambdas s;
     _xj_Lambda_ijs := Some v;
     _xj_Lambda_ijs_inv := _xj_Lambda_ijs_inv s; _GE := _GE s;
     _d2GE_dxixjs := _d2GE_dxixjs s; _d3GE_dxixjxks := _d3GE_dxixjxks s |}.
Definition set_xj_Lambda_ijs_inv v (s : Wilson) : Wilson :=
  {| model := model s; _lambdas := _lambdas s;
     _xj_Lambda_ijs := _xj_Lambda_ijs s;
     _xj_Lambda_ijs_inv := Some v; _GE := _GE s;
     _d2GE_dxixjs := _d2GE_dxixjs s; _d3GE_dxixjxks := _d3GE_dxixjxks s |}.
Definition set_GE v (s : Wilson) : Wilson :=
  {| model := model s; _lambdas := _lambdas s;
     _xj_Lambda_ijs := _xj_Lambda_ijs s;
     _xj_Lambda_ijs_inv := _xj_Lambda_ijs_inv s; _GE := Some v;
     _d2GE_dxixjs := _d2GE_dxixjs s; _d3GE_dxixjxks := _d3GE_dxixjxks s |}.
Definition set_d2GE_dxixjs v (s : Wilson) : Wilson :=
  {| model := model s; _lambdas := _lambdas s;
     _xj_Lambda_ijs := _xj_Lambda_ijs s;
     _xj_Lambda_ijs_inv := _xj_Lambda_ijs_inv s; _GE := _GE s;
     _d2GE_dxixjs := Some v; _d3GE_dxixjxks := _d3GE_dxixjxks s |}.
Definition set_d3GE_dxixjxks v (s : Wilson) : Wilson :=
  {| model := model s; _lambdas := _lambdas s;
     _xj_Lambda_ijs := _xj_Lambda_ijs s;
     _xj_Lambda_ijs_inv := _xj_Lambda_ijs_inv s; _GE := _GE s;
     _d2GE_dxixjs := _d2GE_dxixjs s; _d3GE_dxixjxks := Some v |}.

(** [self.attr = out = []] followed by a loop appending to [out]: the
    attribute holds whatever was appended, also when the loop raises. *)
Definition store_loop {A} (set : list A → Wilson → Wilson)
    (loop : list A * option exn) : M Wilson (list A) := λ self,
  let '(rows, r) := loop in
  (match r with Some e => Raise e | None => Ok rows end, set rows self).

(** [try: return self.attr / except: pass], then the body *)
Definition cached {A} (attr : Wilson → option A) (body : M Wilson A) : M Wilson A :=
  λ self, match attr self with
          | Some v => (Ok v, self)
          | None => body self
          end.

Definition lambdas : M Wilson (list (list R)) :=
  cached _lambdas (
    self ← getattr model;
    let T := T self in
    let cmps := cmps self in
    let T2 := T * T in
    Tinv ← lift (pdiv 1 T);
    let T2inv := Tinv * Tinv in
    logT ← lift (plog T);
    store_loop set_lambdas (append_loop (λ i,
      lambda_coeffs_Ai ← getitem (lambda_coeffs_A self) i;
      lambda_coeffs_Bi ← getitem (lambda_coeffs_B self) i;
      lambda_coeffs_Ci ← getitem (lambda_coeffs_C self) i;
      lambda_coeffs_Di ← getitem (lambda_coeffs_D self) i;
      lambda_coeffs_Ei ← getitem (lambda_coeffs_E self) i;
      lambda_coeffs_Fi ← getitem (lambda_coeffs_F self) i;
      comprehension (λ j,
        a ← getitem lambda_coeffs_Ai j;
        b ← getitem lambda_coeffs_Bi j;
        c ← getitem lambda_coeffs_Ci j;
        d ← getitem lambda_coeffs_Di j;
        e ← getitem lambda_coeffs_Ei j;
        f ← getitem lambda_coeffs_Fi j;
        Ok (exp (a + b * Tinv + c * logT + d * T + e * T2inv + f * T2))) cmps)
      cmps)).

Definition xj_Lambda_ijs : M Wilson (list R) :=
  cached _xj_Lambda_ijs (
    lambdas' ← cached _lambdas lambdas;
    self ← getattr model;
    let xs := xs self in
    let cmps := cmps self in
    store_loop set_xj_Lambda_ijs (append_loop (λ i,
      for_acc (λ tot j,
        xj ← getitem xs j;
        li ← getitem lambdas' i;
        lij ← getitem li j;
        Ok (tot + xj * lij)) cmps 0) cmps)).

Definition xj_Lambda_ijs_inv : M Wilson (list R) :=
  cached _xj_Lambda_ijs_inv (
    xj_Lambda_ijs' ← cached _xj_Lambda_ijs xj_Lambda_ijs;
    inv ← lift (comprehension (λ x, pdiv 1 x) xj_Lambda_ijs');
    _ ← setattr (set_xj_Lambda_ijs_inv inv);
    mret inv).

Definition GE : M Wilson R :=
  cached _GE (
    self ← getattr model;
    let T := T self in
    let xs := xs self in
    let cmps := cmps self in
    lambdas' ← lambdas;
    main_tot ← lift (for_acc (λ main_tot i,
      tot ← for_acc (λ tot j,
        xj ← getitem xs j;
        li ← getitem lambdas' i;
        lij ← getitem li j;
        Ok (tot + xj * lij)) cmps 0;
      xi ← getitem xs i;
      l ← plog tot;
      Ok (main_tot + xi * l)) cmps 0);
    let GE := - main_tot * Rgas * T in
    _ ← setattr (set_GE GE);
    mret GE).

Definition d2GE_dxixjs : M Wilson (list (list R)) :=
  cached _d2GE_dxixjs (
    self ← getattr model;
    let T := T self in
    let xs := xs self in
    let cmps := cmps self in
    let RT := Rgas * T in
    lambdas' ← lambdas;
    xj_Lambda_ijs' ← xj_Lambda_ijs;
    store_loop set_d2GE_dxixjs (append_loop (λ k,
      comprehension (λ m,
        tot ← for_acc (λ tot i,
          xi ← getitem xs i;
          li ← getitem lambdas' i;
          lik ← getitem li k;
          lim ← getitem li m;
          si ← getitem xj_Lambda_ijs' i;
          q ← pdiv (xi * lik * lim) (si * si);
          Ok (tot + q)) cmps 0;
        lk ← getitem lambdas' k;
        lkm ← getitem lk m;
        sk ← getitem xj_Lambda_ijs' k;
        q1 ← pdiv lkm sk;
        let tot := tot - q1 in
        lm ← getitem lambdas' m;
        lmk ← getitem lm k;
        sm ← getitem xj_Lambda_ijs' m;
        q2 ← pdiv lmk sm;
        let tot := tot - q2 in
        Ok (RT * tot)) cmps) cmps)).

Definition d3GE_dxixjxks : M Wilson (list (list (list R))) :=
  cached _d3GE_dxixjxks (
    self ← getattr model;
    let T := T self in
    let xs := xs self in
    let cmps := cmps self in
    let nRT := - Rgas * T in
    lambdas' ← lambdas;
    xj_Lambda_ijs' ← xj_Lambda_ijs;
    xj_Lambda_ijs_invs ← lift (comprehension (λ i, pdiv 1 i) xj_Lambda_ijs');
    store_loop set_d3GE_dxixjxks (append_loop (λ k,
      comprehension (λ m,
        comprehension (λ n,
          tot ← for_acc (λ tot i,
            xi ← getitem xs i;
            li ← getitem lambdas' i;
            lik ← getitem li k;
            lim ← getitem li m;
            lin ← getitem li n;
            let num := 2 * xi * lik * lim * lin in
            vi ← getitem xj_Lambda_ijs_invs i;
            let den := vi * vi * vi in
            Ok (tot + num * den)) cmps 0;
          lk ← getitem lambdas' k;
          lkm ← getitem lk m;
          lkn ← getitem lk n;
          vk ← getitem xj_Lambda_ijs_invs k;
          let tot := tot - lkm * lkn * vk * vk in
          lm ← getitem lambdas' m;
          lmk ← getitem lm k;
          lmn ← getitem lm n;
          vm ← getitem xj_Lambda_ijs_invs m;
          let tot := tot - lmk * lmn * vm * vm in
          ln' ← getitem lambdas' n;
          lnm ← getitem ln' m;
          lnk ← getitem ln' k;
          vn ← getitem xj_Lambda_ijs_invs n;
          let tot := tot - lnm * lnk * vn * vn in
          Ok (nRT * tot)) cmps) cmps) cmps)).

Definition gammas : M Wilson (list R) :=
  self ← getattr model;
  let xs := xs self in
  let cmps := cmps self in
  lambdas' ← cached _lambdas lambdas;
  xj_Lambda_ijs_inv' ← cached _xj_Lambda_ijs_inv xj_Lambda_ijs_inv;
  xj_over_xj_Lambda_ijs ← lift (comprehension (λ j,
    xj ← getitem xs j;
    vj ← getitem xj_Lambda_ijs_inv' j;
    Ok (xj * vj)) cmps);
  lift (comprehension (λ i,
    tot2 ← for_acc (λ tot2 j,
      lj ← getitem lambdas' j;
      lji ← getitem lj i;
      oj ← getitem xj_over_xj_Lambda_ijs j;
      Ok (tot2 - lji * oj)) cmps 1;
    vi ← getitem xj_Lambda_ijs_inv' i;
    Ok (exp tot2 * vi)) cmps).

(** ** The model in mathematical notation *)

Definition entry (m : list (list R)) (i j : nat) : R := nth j (nth i m []) 0.
Definition x (p : params) (i : nat) : R := nth i (xs p) 0.

(** Λ_ij = exp(A_ij + B_ij/T + C_ij ln T + D_ij T + E_ij/T² + F_ij T²) *)
Definition Lambda (p : params) (i j : nat) : R :=
  exp (entry (lambda_coeffs_A p) i j
       + entry (lambda_coeffs_B p) i j / T p
       + entry (lambda_coeffs_C p) i j * ln (T p)
       + entry (lambda_coeffs_D p) i j * T p
       + entry (lambda_coeffs_E p) i j / (T p)²
       + entry (lambda_coeffs_F p) i j * (T p)²).

(** Σ_j x_j Λ_ij *)
Definition xj_Lambda (p : params) (i : nat) : R :=
  Rsum (N p) (λ j, x p j * Lambda p i j).

(** −RT Σ_i x_i ln(Σ_j x_j Λ_ij) *)
Definition GE_formula (p : params) : R :=
  - Rgas * T p * Rsum (N p) (λ i, x p i * ln (xj_Lambda p i)).

(** exp(1 − Σ_j Λ_ji x_j / (Σ_k x_k Λ_jk)) · (1 / Σ_j x_j Λ_ij) *)
Definition gamma_formula (p : params) (i : nat) : R :=
  exp (1 - Rsum (N p) (λ j, Lambda p j i * x p j / xj_Lambda p j))
  * (1 / xj_Lambda p i).

(** RT (Σ_i x_i Λ_ik Λ_im / S_i² − Λ_km / S_k − Λ_mk / S_m) *)
Definition d2GE_formula (p : params) (k m : nat) : R :=
  Rgas * T p *
  (Rsum (N p) (λ i, x p i * Lambda p i k * Lambda p i m / (xj_Lambda p i)²)
   - Lambda p k m / xj_Lambda p k - Lambda p m k / xj_Lambda p m).

(** −RT (Σ_i 2 x_i Λ_ik Λ_im Λ_in / S_i³ − Λ_km Λ_kn / S_k²
         − Λ_mk Λ_mn / S_m² − Λ_nm Λ_nk / S_n²) *)
Definition d3GE_formula (p : params) (k m n : nat) : R :=
  - Rgas * T p *
  (Rsum (N p) (λ i, 2 * x p i * Lambda p i k * Lambda p i m * Lambda p i n
                     / (xj_Lambda p i * xj_Lambda p i * xj_Lambda p i))
   - Lambda p k m * Lambda p k n / (xj_Lambda p k)²
   - Lambda p m k * Lambda p m n / (xj_Lambda p m)²
   - Lambda p n m * Lambda p n k / (xj_Lambda p n)²).

Definition Lambda_matrix (p : params) : list (list R) :=
  map (λ i, map (λ j, Lambda p i j) (cmps p)) (cmps p).
Definition xj_Lambda_vector (p : params) : list R :=
  map (xj_Lambda p) (cmps p).
Definition xj_Lambda_inv_vector (p : params) : list R :=
  map (λ i, 1 / xj_Lambda p i) (cmps p).
Definition d2GE_matrix (p : params) : list (list R) :=
  map (λ k, map (λ m, d2GE_formula p k m) (cmps p)) (cmps p).
Definition d3GE_tensor (p : params) : list (list (list R)) :=
  map (λ k, map (λ m, map (λ n, d3GE_formula p k m n) (cmps p)) (cmps p)) (cmps p).
Definition gamma_vector (p : params) : list R :=
  map (gamma_formula p) (cmps p).

(** ** Well-formed models and consistent objects *)

(** a matrix with at least [n] rows of at least [n] entries *)
Definition square (n : nat) (m : list (list R)) : Prop :=
  (n ≤ length m)%nat ∧ ∀ i, (i < n)%nat → (n ≤ length (nth i m []))%nat.

Record wf (p : params) : Prop := {
  wf_xs : (N p ≤ length (xs p))%nat;
  wf_A : square (N p) (lambda_coeffs_A p);
  wf_B : square (N p) (lambda_coeffs_B p);
  wf_C : square (N p) (lambda_coeffs_C p);
  wf_D : square (N p) (lambda_coeffs_D p);
  wf_E : square (N p) (lambda_coeffs_E p);
  wf_F : square (N p) (lambda_coeffs_F p);
}.

Definition all_nonzero (p : params) : Prop :=
  ∀ i, (i < N p)%nat → xj_Lambda p i ≠ 0.
Definition all_positive (p : params) : Prop :=
  ∀ i, (i < N p)%nat → 0 < xj_Lambda p i.

(** What a lazily filled attribute holds once it is assigned.  The Hessian
    attribute is bound to the empty list before its rows are computed, and
    keeps it when a row sum is zero and the first entry raises. *)
Record consistent (self : Wilson) : Prop := {
  c_lambdas : ∀ v, _lambdas self = Some v → v = Lambda_matrix self;
  c_xj : ∀ v, _xj_Lambda_ijs self = Some v → v = xj_Lambda_vector self;
  c_inv : ∀ v, _xj_Lambda_ijs_inv self = Some v →
          v = xj_Lambda_inv_vector self ∧ all_nonzero self;
  c_GE : ∀ v, _GE self = Some v → v = GE_formula self ∧ all_positive self;
  c_d2 : ∀ v, _d2GE_dxixjs self = Some v →
         (v = d2GE_matrix self ∧ all_nonzero self) ∨ (v = [] ∧ ¬ all_nonzero self);
  c_d3 : ∀ v, _d3GE_dxixjxks self = Some v →
         v = d3GE_tensor self ∧ all_nonzero self;
}.

(** entries of nested lists, as Python's [h[k][m]]: [None] out of range *)
Definition item2 (h : list (list R)) (k m : nat) : option R :=
  match h !! k with
  | Some row => row !! m
  | None => None
  end.
Definition item3 (t : list (list (list R))) (k m n : nat) : option R :=
  match t !! k with
  | Some h => item2 h m n
  | None => None
  end.

(** States after a call: an attribute already present is kept. *)
Definition lambdas_post (self : Wilson) : Wilson :=
  match _lambdas self with
  | Some _ => self
  | None => set_lambdas (Lambda_matrix self) self
  end.

Definition xj_Lambda_ijs_post (self : Wilson) : Wilson :=
  match _xj_Lambda_ijs self with
  | Some _ => self
  | None => set_xj_Lambda_ijs (xj_Lambda_vector self) (lambdas_post self)
  end.

Definition xj_Lambda_ijs_inv_post (self : Wilson) : Wilson :=
  match _xj_Lambda_ijs_inv self with
  | Some _ => self
  | None => set_xj_Lambda_ijs_inv (xj_Lambda_inv_vector self) (xj_Lambda_ijs_post self)
  end.

Definition GE_post (self : Wilson) : Wilson :=
  match _GE self with
  | Some _ => self
  | None => set_GE (GE_formula self) (lambdas_post self)
  end.

Definition d2GE_dxixjs_post (self : Wilson) : Wilson :=
  match _d2GE_dxixjs self with
  | Some _ => self
  | None => set_d2GE_dxixjs (d2GE_matrix self)
              (xj_Lambda_ijs_post (lambdas_post self))
  end.

Definition d3GE_dxixjxks_post (self : Wilson) : Wilson :=
  match _d3GE_dxixjxks self with
  | Some _ => self
  | None => set_d3GE_dxixjxks (d3GE_tensor self)
              (xj_Lambda_ijs_post (lambdas_post self))
  end.

(** ** Objects reachable from the constructor by method calls *)

Inductive call :=
| call_lambdas | call_xj_Lambda_ijs | call_xj_Lambda_ijs_inv | call_GE
| call_d2GE_dxixjs | call_d3GE_dxixjxks | call_gammas.

(** the object after a call, whether it returned or raised *)
Definition after (c : call) (self : Wilson) : Wilson :=
  match c with
  | call_lambdas => (lambdas self).2
  | call_xj_Lambda_ijs => (xj_Lambda_ijs self).2
  | call_xj_Lambda_ijs_inv => (xj_Lambda_ijs_inv self).2
  | call_GE => (GE self).2
  | call_d2GE_dxixjs => (d2GE_dxixjs self).2
  | call_d3GE_dxixjxks => (d3GE_dxixjxks self).2
  | call_gammas => (gammas self).2
  end.

Inductive reachable (init : Wilson) : Wilson → Prop :=
| reach_init : reachable init init
| reach_call c s : reachable init s → reachable init (after c s).

(** A binary mixture used to exercise the statements. *)
Definition example : Wilson :=
  __init__ 300 [1 / 4; 3 / 4]
    ([[0; 1]; [2; 0]], [[0; 30]; [60; 0]], [[0; 0]; [0; 0]],
     [[0; 0]; [0; 0]], [[0; 0]; [0; 0]], [[0; 0]; [0; 0]]).

End Wilson.

(** * Pressure-dependent property registry
      ([thermo/utils/tp_dependent_property.py]) *)

Module TPDependentProperty.
Local Open Scope R_scope.

(** What the class takes from its base class [TDependentProperty], from its
    subclasses and from [thermo.utils.names], none of which is part of the
    repository: the correlation itself, the validity predicate of a
    property value, the validity test of a low-pressure method and the name
    of the sentinel method. *)
Class PropertyMethods := {
  calculate_P : R → R → string → result R;
  test_property_validity : R → bool;
  test_method_validity : R → string → result bool;
  NEGLECT_P : string;
}.

(** One tabular data set: [[Ts, Ps, properties]]. *)
Abbreviation table := (list R * list R * list (list R))%type.

Record TPDependentProperty := {
  all_methods : gset string;
  all_methods_P : gset string;
  tabular_data : gmap string (list R * list R);
  tabular_data_P : gmap string table;
  T_limits : gmap string (R * R);
  tabular_extrapolation_permitted : bool;
  RAISE_PROPERTY_CALCULATION_ERROR : bool;
  _method : option string;
  _method_P : option string;
  TP_cached : option (R * option R);
  prop_cached : option (option R);
}.

Definition KeyError : exn := Exception "KeyError".

(** [method_P] getter *)
Definition method_P (self : TPDependentProperty) : option string := _method_P self.

(** [method_P not in self.all_methods_P]; [None] is never a member of a set
    of names. *)
Definition not_in_methods (method_P : option string) (s : gset string) : bool :=
  match method_P with
  | Some m => negb (bool_decide (m ∈ s))
  | None => true
  end.

Definition is_not_None {A} (o : option A) : bool :=
  match o with Some _ => true | None => false end.

(** [method_P] setter *)
Definition set_method_P (method_P : option string) : M TPDependentProperty unit :=
  λ self,
  if not_in_methods method_P (all_methods_P self) && is_not_None method_P
  then (Raise (ValueError "The given methods is not available for this chemical"), self)
  else
    (Ok tt,
     {| all_methods := all_methods self;
        all_methods_P := all_methods_P self;
        tabular_data := tabular_data self;
        tabular_data_P := tabular_data_P self;
        T_limits := T_limits self;
        tabular_extrapolation_permitted := tabular_extrapolation_permitted self;
        RAISE_PROPERTY_CALCULATION_ERROR := RAISE_PROPERTY_CALCULATION_ERROR self;
        _method := _method self;
        _method_P := method_P;
        TP_cached := None;
        prop_cached := prop_cached self |}).

Definition Rltb (a b : R) : bool := if Rlt_dec a b then true else false.

(** [l[0]] and [l[-1]] *)
Definition first (l : list R) : result R := getitem l 0.
Definition final (l : list R) : result R :=
  match last l with
  | Some a => Ok a
  | None => Raise IndexError
  end.

(** [lo[0] < v < hi[-1]], a chained comparison: the right bound is only
    read when the left comparison holds. *)
Definition strictly_inside (l : list R) (v : R) : result bool :=
  lo ← first l;
  if Rltb lo v then hi ← final l; Ok (Rltb v hi) else Ok false.

(** truth value of [self._method]: [None] and the empty string are false *)
Definition name_truthy (o : option string) : bool :=
  match o with
  | Some s => negb (bool_decide (s = ""))
  | None => false
  end.

Definition test_method_validity_P `{PropertyMethods}
    (self : TPDependentProperty) (T P : R) (method : string) : result bool :=
  match tabular_data_P self !! method with
  | Some (Ts, Ps, properties) =>
      if tabular_extrapolation_permitted self then Ok true
      else
        inT ← strictly_inside Ts T;
        if (inT : bool) then strictly_inside Ps P else Ok false
  | None =>
      if bool_decide (method = NEGLECT_P) then
        if name_truthy (_method self) then
          match _method self with
          | Some m => test_method_validity T m
          | None => Ok false
          end
        else Ok false
      else if bool_decide (method ∈ all_methods_P self) then
        match T_limits self !! method with
        | Some (Tmin, Tmax) => Ok (Rltb Tmin T && Rltb T Tmax)
        | None => Raise KeyError
        end
      else Raise (ValueError "method not valid")
  end.

(** [TP_dependent_property(T, P)]: a value, no value ([None]) or an
    exception. *)
Definition TP_dependent_property `{PropertyMethods}
    (self : TPDependentProperty) (T P : R) : result (option R) :=
  match _method_P self with
  | None =>
      if RAISE_PROPERTY_CALCULATION_ERROR self
      then Raise (RuntimeError NoMethodSelected)
      else Ok None
  | Some method_P =>
      valid ← test_method_validity_P self T P method_P;
      if (valid : bool) then
        match calculate_P T P method_P with
        | Raise _ =>
            if RAISE_PROPERTY_CALCULATION_ERROR self
            then Raise (RuntimeError EvaluationFailed)
            else Ok None
        | Ok prop =>
            if test_property_validity prop then Ok (Some prop)
            else if RAISE_PROPERTY_CALCULATION_ERROR self
            then Raise (RuntimeError InvalidValue)
            else Ok None
        end
      else if RAISE_PROPERTY_CALCULATION_ERROR self
      then Raise (RuntimeError MethodNotValid)
      else Ok None
  end.

(** [all(b > a for a, b in zip(l, l[1:]))] *)
Definition increasing (l : list R) : bool :=
  forallb (λ ab, Rltb ab.1 ab.2) (zip l (tail l)).

(** [self.tabular_data_P[name] = [Ts, Ps, properties]] *)
Definition store_table (name : string) (t : table) (self : TPDependentProperty)
    : TPDependentProperty :=
  {| all_methods := all_methods self;
     all_methods_P := all_methods_P self;
     tabular_data := tabular_data self;
     tabular_data_P := <[name := t]> (tabular_data_P self);
     T_limits := T_limits self;
     tabular_extrapolation_permitted := tabular_extrapolation_permitted self;
     RAISE_PROPERTY_CALCULATION_ERROR := RAISE_PROPERTY_CALCULATION_ERROR self;
     _method := _method self;
     _method_P := _method_P self;
     TP_cached := TP_cached self;
     prop_cached := prop_cached self |}.

(** [self.all_methods_P.add(name)] *)
Definition add_method_P (name : string) (self : TPDependentProperty)
    : TPDependentProperty :=
  {| all_methods := all_methods self;
     all_methods_P := {[name]} ∪ all_methods_P self;
     tabular_data := tabular_data self;
     tabular_data_P := tabular_data_P self;
     T_limits := T_limits self;
     tabular_extrapolation_permitted := tabular_extrapolation_permitted self;
     RAISE_PROPERTY_CALCULATION_ERROR := RAISE_PROPERTY_CALCULATION_ERROR self;
     _method := _method self;
     _method_P := _method_P self;
     TP_cached := TP_cached self;
     prop_cached := prop_cached self |}.

(** the name given to an unnamed data set *)
Definition default_name (self : TPDependentProperty) : string :=
  "Tabular data series #" +:+ pretty (size (tabular_data self)).

(** [add_tabular_data_P(Ts, Ps, properties, name, check_properties)];
    [properties] is a rectangular nested list, flattened by [ravel]. *)
Definition add_tabular_data_P `{PropertyMethods}
    (Ts Ps : list R) (properties : list (list R)) (name : option string)
    (check_properties : bool) : M TPDependentProperty unit :=
  _ ← lift (if check_properties then
              if forallb test_property_validity (concat properties) then Ok tt
              else Raise (ValueError "One of the properties specified are not feasible")
            else Ok tt);
  _ ← lift (if increasing Ts then Ok tt
            else Raise (ValueError "Temperatures are not sorted in increasing order"));
  _ ← lift (if increasing Ps then Ok tt
            else Raise (ValueError "Pressures are not sorted in increasing order"));
  self ← getattr (λ s, s);
  let name := match name with Some n => n | None => default_name self end in
  _ ← setattr (store_table name (Ts, Ps, properties));
  _ ← setattr (add_method_P name);
  set_method_P (Some name).

(** [T_atmospheric_dependent_property(T, P_atm=101325.0)] *)
Definition T_atmospheric_dependent_property `{PropertyMethods}
    (self : TPDependentProperty) (T : R) : result (option R) :=
  TP_dependent_property self T 101325.

(** Strictly increasing, in words: each element is below its successor. *)
Definition strictly_increasing (l : list R) : Prop :=
  ∀ i a b, l !! i = Some a → l !! S i = Some b → a < b.

(** A registry with one correlation, valid between 200 K and 500 K, whose
    value is negative, and a subclass that accepts positive values only. *)
Definition negative_methods : PropertyMethods := {|
  calculate_P := λ _ _ _, Ok (-1);
  test_property_validity := λ v, Rltb 0 v;
  test_method_validity := λ _ _, Ok true;
  NEGLECT_P := "NEGLECT_P";
|}.

Definition quiet_registry : TPDependentProperty := {|
  all_methods := ∅;
  all_methods_P := {["CORRELATION"]};
  tabular_data := ∅;
  tabular_data_P := ∅;
  T_limits := {["CORRELATION" := (200, 500)]};
  tabular_extrapolation_permitted := true;
  RAISE_PROPERTY_CALCULATION_ERROR := false;
  _method := None;
  _method_P := Some "CORRELATION";
  TP_cached := None;
  prop_cached := None;
|}.

End TPDependentProperty.

(** * Cubic equation of state and Peng-Robinson ([thermo/eos.py]) *)

Module EOS.
Local Open Scope R_scope.

(** ** Python numbers: floats and complex numbers *)

Record complex := mkC { re : R; im : R }.

Inductive number :=
| Float (x : R)
| Complex (z : complex).

(** [x.imag] and [x.real] *)
Definition imag (x : number) : R :=
  match x with Float _ => 0 | Complex z => im z end.
Definition real (x : number) : R :=
  match x with Float x => x | Complex z => re z end.

Definition of_float (x : R) : complex := mkC x 0.
Definition Cadd (z w : complex) : complex := mkC (re z + re w) (im z + im w).
Definition Csub (z w : complex) : complex := mkC (re z - re w) (im z - im w).
Definition Cmul (z w : complex) : complex :=
  mkC (re z * re w - im z * im w) (re z * im w + im z * re w).
Definition Cdiv (z w : complex) : result complex :=
  let d := re w * re w + im w * im w in
  if Req_EM_T d 0 then Raise ZeroDivisionError
  else Ok (mkC ((re z * re w + im z * im w) / d) ((im z * re w - re z * im w) / d)).

(** [1j] *)
Definition j1 : complex := mkC 0 1.

(** [x ** y] for a float base and a fractional exponent: a negative base is
    outside the real domain (ValueError in Python 2, which the source
    targets with [from __future__ import division]; Python 3 would yield a
    complex number, on which the later ordering comparison raises). *)
Definition ppow (x y : R) : result R :=
  if Rlt_dec x 0
  then Raise (ValueError "negative number cannot be raised to a fractional power")
  else if Req_EM_T x 0 then Ok 0 else Ok (Rpower x y).

(** Real part of [cmath.atanh(x)] at a real argument:
    ½ ln |(1 + x) / (1 − x)|; the points ±1 are a domain error. *)
Definition atanh_re (x : R) : R := / 2 * ln (Rabs ((1 + x) / (1 - x))).
Definition catanh_real (x : R) : result R :=
  if Req_EM_T x 1 then Raise (ValueError "math domain error")
  else if Req_EM_T x (-1) then Raise (ValueError "math domain error")
  else Ok (atanh_re x).

(** A float where a float is required: the real functions of [math] and the
    ordering comparisons applied to a root raise TypeError on a complex
    number. *)
Definition as_float (x : number) : result R :=
  match x with Float x => Ok x | Complex _ => Raise TypeError end.

(** ** What [eos.py] imports from [thermo.utils] *)

Inductive phase_label := l | g.

(** The derivative utilities live in [thermo.utils], outside the
    repository.  They are arithmetic expressions of their arguments; the
    only way they fail on floats is a division by zero, written [None].
    [log], [exp] and [sqrt] reach [eos.py] through the same module; they
    are read as those of [math] ([plog], [exp], [psqrt]). *)
Class Utils := {
  isobaric_expansion : R → R → option R;
  isothermal_compressibility : R → R → option R;
  Cp_minus_Cv : R → R → R → option R;
  phase_identification_parameter : R → R → R → R → R → option R;
  phase_identification_parameter_phase : R → phase_label;
}.

Definition util (o : option R) : result R :=
  match o with Some x => Ok x | None => Raise ZeroDivisionError end.

(** ** [CUBIC_EOS] *)

(** [all_V(T, P, b, a_alpha)]: the three roots by the closed formula.  The
    sub-expressions that the source repeats in each root are named once;
    they are evaluated in the order of the first root. *)
Definition all_V (T P b a_alpha : R) : result (list number) :=
  if Req_EM_T P 0 then Raise ZeroDivisionError else
  let t1 := -3 * (-3 * P * b^2 - 2 * Rgas * T * b + a_alpha) / P
            + (P * b - Rgas * T)^2 / P^2 in
  let t2 := 27 * (P * b^3 + Rgas * T * b^2 - b * a_alpha) / P
            - 9 * (P * b - Rgas * T) * (-3 * P * b^2 - 2 * Rgas * T * b + a_alpha) / P^2
            + 2 * (P * b - Rgas * T)^3 / P^3 in
  s ← psqrt (-4 * t1^3 + t2^2);
  let t3 := s / 2
            + 27 * (P * b^3 + Rgas * T * b^2 - b * a_alpha) / (2 * P)
            - 9 * (P * b - Rgas * T) * (-3 * P * b^2 - 2 * Rgas * T * b + a_alpha) / (2 * P^2)
            + (P * b - Rgas * T)^3 / P^3 in
  C ← ppow t3 (1 / 3);
  q ← pdiv (- t1) (3 * C);
  let V1 := q - C / 3 - (P * b - Rgas * T) / (3 * P) in
  let u := mkC (-1 / 2) (- (sqrt 3 / 2)) in
  q2 ← Cdiv (of_float (- t1)) (Cmul (Cmul (of_float 3) u) (of_float C));
  r2 ← Cdiv (Cmul u (of_float C)) (of_float 3);
  let V2 := Csub (Csub q2 r2) (of_float ((P * b - Rgas * T) / (3 * P))) in
  let u' := mkC (-1 / 2) (sqrt 3 / 2) in
  q3 ← Cdiv (of_float (- t1)) (Cmul (Cmul (of_float 3) u') (of_float C));
  r3 ← Cdiv (Cmul u' (of_float C)) (of_float 3);
  let V3 := Csub (Csub q3 r3) (of_float ((P * b - Rgas * T) / (3 * P))) in
  Ok [Float V1; Complex V2; Complex V3].

Definition first_derivatives (T V b a_alpha da_alpha_dT d2a_alpha_dT2 : R)
    : result (R * R * R * R * R * R) :=
  q1 ← pdiv Rgas (V - b);
  q2 ← pdiv da_alpha_dT (V * (V + b) + b * (V - b));
  let dP_dT := q1 - q2 in
  q3 ← pdiv (- Rgas * T) ((V - b)^2);
  q4 ← pdiv ((-2 * V - 2 * b) * a_alpha) ((V * (V + b) + b * (V - b))^2);
  let dP_dV := q3 - q4 in
  q5 ← pdiv (- dP_dT) dP_dV;
  let dV_dT := q5 in
  q6 ← pdiv (- dV_dT) dP_dT;
  let dV_dP := q6 in
  dT_dV ← pdiv 1 dV_dT;
  dT_dP ← pdiv 1 dP_dT;
  Ok (dP_dT, dP_dV, dV_dT, dV_dP, dT_dV, dT_dP).

Definition second_derivatives (T V b a_alpha da_alpha_dT d2a_alpha_dT2 : R)
    : result (R * R * R * R * R * R) :=
  let D := V * (V + b) + b * (V - b) in
  q1 ← pdiv (- d2a_alpha_dT2) D;
  let d2P_dT2 := q1 in
  q2 ← pdiv (2 * Rgas * T) ((V - b)^3);
  q3 ← pdiv ((-4 * V - 4 * b) * (-2 * V - 2 * b) * a_alpha) (D^3);
  q4 ← pdiv (2 * a_alpha) (D^2);
  let d2P_dV2 := q2 - q3 + q4 in
  q5 ← pdiv Rgas ((V - b)^2);
  q6 ← pdiv ((-2 * V - 2 * b) * da_alpha_dT) (D^2);
  q7 ← pdiv (- Rgas) (V - b);
  q8 ← pdiv da_alpha_dT D;
  q9 ← pdiv (- Rgas * T) ((V - b)^2);
  q10 ← pdiv ((-2 * V - 2 * b) * a_alpha) (D^2);
  q11 ← pdiv ((q5 + q6) * (q7 + q8)) ((q9 - q10)^2);
  q12 ← pdiv (- Rgas * T) ((V - b)^2);
  q13 ← pdiv ((-2 * V - 2 * b) * a_alpha) (D^2);
  q14 ← pdiv d2a_alpha_dT2 (D * (q12 - q13));
  let d2V_dT2 := q11 + q14 in
  let d2V_dP2 := 0 in
  d2T_dV2 ← pdiv 1 d2V_dT2;
  let d2T_dP2 := 0 in
  Ok (d2P_dT2, d2P_dV2, d2V_dT2, d2V_dP2, d2T_dV2, d2T_dP2).

Definition second_derivatives_mixed (T V b a_alpha da_alpha_dT : R)
    : result (R * R * R) :=
  let d2V_dPdT := 0 in
  q1 ← pdiv (- Rgas) ((V - b)^2);
  q2 ← pdiv ((-2 * V - 2 * b) * da_alpha_dT) ((V * (V + b) + b * (V - b))^2);
  let d2P_dTdV := q1 - q2 in
  let d2T_dPdV := 0 in
  Ok (d2V_dPdT, d2P_dTdV, d2T_dPdV).

(** The attributes stored for one phase suffix ([_l] or [_g]). *)
Record bundle := {
  beta : R; kappa_T : R; PIP : R; Cp_m_Cv : R;
  dP_dT : R; dP_dV : R; dV_dT : R; dV_dP : R; dT_dV : R; dT_dP : R;
  d2P_dT2 : R; d2P_dV2 : R; d2V_dT2 : R; d2V_dP2 : R; d2T_dV2 : R; d2T_dP2 : R;
  d2V_dPdT : R; d2P_dTdV : R; d2T_dPdV : R;
  H_dep : R; S_dep : R; V_dep : R; U_dep : R; G_dep : R; A_dep : R;
  fugacity : R; phi : R;
}.

(** The attributes written by [set_from_PT] and [set_derivs_from_phase];
    [None] is an attribute that was never assigned. *)
Record phases := {
  phase : option phase_label;
  Vl : option number;
  Vg : option number;
  props_l : option bundle;
  props_g : option bundle;
}.

Definition no_phases : phases :=
  {| phase := None; Vl := None; Vg := None; props_l := None; props_g := None |}.

Definition set_phase v (s : phases) : phases :=
  {| phase := Some v; Vl := Vl s; Vg := Vg s;
     props_l := props_l s; props_g := props_g s |}.
Definition set_Vl v (s : phases) : phases :=
  {| phase := phase s; Vl := Some v; Vg := Vg s;
     props_l := props_l s; props_g := props_g s |}.
Definition set_Vg v (s : phases) : phases :=
  {| phase := phase s; Vl := Vl s; Vg := Some v;
     props_l := props_l s; props_g := props_g s |}.
Definition set_props (ph : phase_label) v (s : phases) : phases :=
  match ph with
  | l => {| phase := phase s; Vl := Vl s; Vg := Vg s;
            props_l := Some v; props_g := props_g s |}
  | g => {| phase := phase s; Vl := Vl s; Vg := Vg s;
            props_l := props_l s; props_g := Some v |}
  end.
Definition props (ph : phase_label) (s : phases) : option bundle :=
  match ph with l => props_l s | g => props_g s end.

(** The values computed by [set_derivs_from_phase] before they are stored. *)
Definition derivs `{Utils} (T P V b a_alpha da_alpha_dT d2a_alpha_dT2 : R)
    : result (phase_label * bundle) :=
  '(dP_dT, dP_dV, dV_dT, dV_dP, dT_dV, dT_dP) ←
    first_derivatives T V b a_alpha da_alpha_dT d2a_alpha_dT2;
  '(d2P_dT2, d2P_dV2, d2V_dT2, d2V_dP2, d2T_dV2, d2T_dP2) ←
    second_derivatives T V b a_alpha da_alpha_dT d2a_alpha_dT2;
  '(d2V_dPdT, d2P_dTdV, d2T_dPdV) ←
    second_derivatives_mixed T V b a_alpha da_alpha_dT;
  beta ← util (isobaric_expansion V dV_dT);
  kappa ← util (isothermal_compressibility V dV_dP);
  Cp_m_Cv ← util (Cp_minus_Cv T d2P_dT2 dP_dV);
  PIP ← util (phase_identification_parameter V dP_dT dP_dV d2P_dV2 d2P_dTdV);
  let phase := phase_identification_parameter_phase PIP in
  x ← pdiv ((V + b) * sqrt 2) b;
  at1 ← catanh_real (x / 2);
  let H_dep := P * V - Rgas * T
               + sqrt 2 * at1 * (da_alpha_dT * T - a_alpha) / b / 2 in
  y ← pdiv (P * V) (Rgas * T);
  ly ← plog y;
  lV ← plog V;
  lVb ← plog (V - b);
  let S_dep := Rgas * ly
               + (da_alpha_dT * sqrt 2 * at1 - 2 * Rgas * b * (lV - lVb)) / b / 2 in
  q ← pdiv (Rgas * T) P;
  let V_dep := V - q in
  let U_dep := H_dep - P * V_dep in
  let G_dep := H_dep - T * S_dep in
  let A_dep := U_dep - T * S_dep in
  let fugacity := P * exp (G_dep / (Rgas * T)) in
  let phi := fugacity / P in
  Ok (phase,
      {| beta := beta; kappa_T := kappa; PIP := PIP; Cp_m_Cv := Cp_m_Cv;
         dP_dT := dP_dT; dP_dV := dP_dV; dV_dT := dV_dT;
         dV_dP := dV_dP; dT_dV := dT_dV; dT_dP := dT_dP;
         d2P_dT2 := d2P_dT2; d2P_dV2 := d2P_dV2; d2V_dT2 := d2V_dT2;
         d2V_dP2 := d2V_dP2; d2T_dV2 := d2T_dV2; d2T_dP2 := d2T_dP2;
         d2V_dPdT := d2V_dPdT; d2P_dTdV := d2P_dTdV; d2T_dPdV := d2T_dPdV;
         H_dep := H_dep; S_dep := S_dep; V_dep := V_dep;
         U_dep := U_dep; G_dep := G_dep; A_dep := A_dep;
         fugacity := fugacity; phi := phi |}).

(** [set_derivs_from_phase(T, P, V, b, a_alpha, da_alpha_dT, d2a_alpha_dT2)]:
    everything is computed first, then stored under the suffix of the
    phase found. *)
Definition set_derivs_from_phase `{Utils}
    (T P : R) (V : number) (b a_alpha da_alpha_dT d2a_alpha_dT2 : R)
    : M phases phase_label :=
  '(phase, values) ← lift (V ← as_float V;
                           derivs T P V b a_alpha da_alpha_dT d2a_alpha_dT2);
  _ ← setattr (set_props phase values);
  mret phase.

(** [abs(i.imag) > 1E-9] *)
Definition has_imag (i : number) : bool :=
  if Rlt_dec (1 / 1000000000) (Rabs (imag i)) then true else false.
(** [i.imag == 0] *)
Definition imag_is_zero (i : number) : bool :=
  if Req_EM_T (imag i) 0 then true else false.

(** [min(Vs)] and [max(Vs)]: an empty list is a ValueError; comparing
    raises TypeError as soon as a complex number takes part. *)
Fixpoint extremum (pick_new : R → R → bool) (best : number) (rest : list number)
    : result number :=
  match rest with
  | [] => Ok best
  | v :: rest =>
      x ← as_float v;
      y ← as_float best;
      extremum pick_new (if pick_new x y then v else best) rest
  end.
Definition py_min (Vs : list number) : result number :=
  match Vs with
  | [] => Raise (ValueError "min() arg is an empty sequence")
  | v :: rest => extremum (λ x y, if Rlt_dec x y then true else false) v rest
  end.
Definition py_max (Vs : list number) : result number :=
  match Vs with
  | [] => Raise (ValueError "max() arg is an empty sequence")
  | v :: rest => extremum (λ x y, if Rlt_dec y x then true else false) v rest
  end.

(** [set_from_PT(T, P, Vs, b, a_alpha, da_alpha_dT, d2a_alpha_dT2)] *)
Definition set_from_PT `{Utils} (T P : R) (Vs : list number)
    (b a_alpha da_alpha_dT d2a_alpha_dT2 : R) : M phases unit :=
  let i_roots := length (filter (λ i, has_imag i = true) Vs) in
  if Nat.eqb i_roots 2 then
    V ← lift (getitem (filter (λ i, imag_is_zero i = true) Vs) 0);
    ph ← set_derivs_from_phase T P V b a_alpha da_alpha_dT d2a_alpha_dT2;
    _ ← setattr (set_phase ph);
    match ph with
    | l => setattr (set_Vl V)
    | g => setattr (set_Vg V)
    end
  else if Nat.eqb i_roots 1 then
    let Vs := filter (λ i, imag_is_zero i = true) Vs in
    '(lo, hi) ← lift (lo ← py_min Vs; hi ← py_max Vs; Ok (lo, hi));
    _ ← setattr (set_Vl lo);
    _ ← setattr (set_Vg hi);
    _ ← set_derivs_from_phase T P lo b a_alpha da_alpha_dT d2a_alpha_dT2;
    _ ← set_derivs_from_phase T P hi b a_alpha da_alpha_dT d2a_alpha_dT2;
    mret tt
  else
    lift (Raise (Exception "Three roots not possible")).

(** ** [PR] *)

(** Python values, as far as the argument check of the constructor needs
    them: [None], a float, a list. *)
#[warnings="-register-all"]
Inductive pyval :=
| PyNone
| PyFloat (x : R)
| PyList (items : list pyval).

(** truth value: [None], [0.0] and the empty list are false *)
Definition truthy (v : pyval) : bool :=
  match v with
  | PyNone => false
  | PyFloat x => float_truthy x
  | PyList [] => false
  | PyList (_ :: _) => true
  end.
(** [a and b], [a or b] return one of their operands *)
Definition py_and (a b : pyval) : pyval := if truthy a then b else a.
Definition py_or (a b : pyval) : pyval := if truthy a then a else b.

Definition arg (o : option R) : pyval :=
  match o with Some x => PyFloat x | None => PyNone end.

(** arithmetic on an argument that may be [None] *)
Definition need (o : option R) : result R :=
  match o with Some x => Ok x | None => Raise TypeError end.

Definition c1 : R := 0.4572355289213821893834601962251837888504.
Definition c2 : R := 0.0777960739038884559718447100373331839711.

(** [(T/Tc)**0.5]: the square root, a domain error below zero *)
Definition pow_half (x : R) : result R :=
  if Rlt_dec x 0
  then Raise (ValueError "negative number cannot be raised to a fractional power")
  else Ok (sqrt x).

(** [set_a_alpha(T)] *)
Definition set_a_alpha (a kappa Tc T : R) : result R :=
  Tr ← pdiv T Tc;
  r ← pow_half Tr;
  Ok (a * (1 + kappa * (1 - r))^2).

(** The temperature from [P] and [V], the closed formula of the
    constructor. *)
Definition solve_T (Tc a b kappa P V : R) : result R :=
  s ← psqrt ((V - b)^3 * (V^2 + 2 * V * b - b^2) * (P * Rgas * Tc * V^2 +
           2 * P * Rgas * Tc * V * b - P * Rgas * Tc * b^2 - P * V * a * kappa^2
           + P * a * b * kappa^2 + Rgas * Tc * a * kappa^2 +
           2 * Rgas * Tc * a * kappa + Rgas * Tc * a));
  pdiv (Tc * (-2 * a * kappa * s * (kappa + 1) * (Rgas * Tc * V^2 +
              2 * Rgas * Tc * V * b - Rgas * Tc * b^2 - V * a * kappa^2 +
              a * b * kappa^2)^2 + (V - b) * (Rgas^2 * Tc^2 * V^4 +
              4 * Rgas^2 * Tc^2 * V^3 * b + 2 * Rgas^2 * Tc^2 * V^2 * b^2 -
              4 * Rgas^2 * Tc^2 * V * b^3 + Rgas^2 * Tc^2 * b^4 -
              2 * Rgas * Tc * V^3 * a * kappa^2 -
              2 * Rgas * Tc * V^2 * a * b * kappa^2 +
              6 * Rgas * Tc * V * a * b^2 * kappa^2 -
              2 * Rgas * Tc * a * b^3 * kappa^2 + V^2 * a^2 * kappa^4 -
              2 * V * a^2 * b * kappa^4 +
              a^2 * b^2 * kappa^4) * (P * Rgas * Tc * V^4 +
              4 * P * Rgas * Tc * V^3 * b + 2 * P * Rgas * Tc * V^2 * b^2 -
              4 * P * Rgas * Tc * V * b^3 + P * Rgas * Tc * b^4 -
              P * V^3 * a * kappa^2 - P * V^2 * a * b * kappa^2 +
              3 * P * V * a * b^2 * kappa^2 - P * a * b^3 * kappa^2 +
              Rgas * Tc * V^2 * a * kappa^2 + 2 * Rgas * Tc * V^2 * a * kappa +
              Rgas * Tc * V^2 * a + 2 * Rgas * Tc * V * a * b * kappa^2 +
              4 * Rgas * Tc * V * a * b * kappa + 2 * Rgas * Tc * V * a * b -
              Rgas * Tc * a * b^2 * kappa^2 - 2 * Rgas * Tc * a * b^2 * kappa -
              Rgas * Tc * a * b^2 + V * a^2 * kappa^4 + 2 * V * a^2 * kappa^3 +
              V * a^2 * kappa^2 - a^2 * b * kappa^4 - 2 * a^2 * b * kappa^3 -
              a^2 * b * kappa^2)))
       ((Rgas * Tc * V^2 + 2 * Rgas * Tc * V * b - Rgas * Tc * b^2 -
       V * a * kappa^2 + a * b * kappa^2)^2 * (Rgas^2 * Tc^2 * V^4 +
       4 * Rgas^2 * Tc^2 * V^3 * b + 2 * Rgas^2 * Tc^2 * V^2 * b^2 -
       4 * Rgas^2 * Tc^2 * V * b^3 + Rgas^2 * Tc^2 * b^4 -
       2 * Rgas * Tc * V^3 * a * kappa^2 -
       2 * Rgas * Tc * V^2 * a * b * kappa^2 +
       6 * Rgas * Tc * V * a * b^2 * kappa^2 -
       2 * Rgas * Tc * a * b^3 * kappa^2 + V^2 * a^2 * kappa^4 -
       2 * V * a^2 * b * kappa^4 + a^2 * b^2 * kappa^4)).

(** The object left by a constructor call that did not raise. *)
Record PR := {
  Tc : R; Pc : R; omega : R;
  T : R; P : R; V : option R;
  a : R; b : R; kappa : R;
  a_alpha : R; da_alpha_dT : R; d2a_alpha_dT2 : R;
  state :> phases;
}.

Definition missing_args : exn :=
  Exception "Either T and P, or T and V, or P and V are required".

(** [not ([T and P] or [T and V] or [P and V])]: each operand of [or] is a
    list of one element. *)
Definition args_rejected (T P V : option R) : bool :=
  negb (truthy (py_or (py_or (PyList [py_and (arg T) (arg P)])
                             (PyList [py_and (arg T) (arg V)]))
                      (PyList [py_and (arg P) (arg V)]))).

(** [PR(Tc, Pc, omega, T, P, V)] *)
Definition __init__ `{Utils} (Tc Pc omega : R) (T P V : option R) : result PR :=
  a ← pdiv (c1 * Rgas^2 * Tc^2) Pc;
  b ← pdiv (c2 * Rgas * Tc) Pc;
  let kappa := 0.37464 + 1.54226 * omega - 0.26992 * omega^2 in
  if args_rejected T P V then Raise missing_args else
  '(T, P, a_alpha, Vs) ←
    (if truthy (arg V) then
       V' ← need V;
       if truthy (arg P) then
         P ← need P;
         T ← solve_T Tc a b kappa P V';
         a_alpha ← set_a_alpha a kappa Tc T;
         Ok (T, P, a_alpha, [Float V'; Complex j1; Complex j1])
       else
         T ← need T;
         a_alpha ← set_a_alpha a kappa Tc T;
         q1 ← pdiv (Rgas * T) (V' - b);
         q2 ← pdiv a_alpha (V' * (V' + b) + b * (V' - b));
         let P := q1 - q2 in
         Ok (T, P, a_alpha, [Float V'; Complex j1; Complex j1])
     else
       T ← need T;
       a_alpha ← set_a_alpha a kappa Tc T;
       P ← need P;
       Vs ← all_V T P b a_alpha;
       Ok (T, P, a_alpha, Vs));
  Tr ← pdiv T Tc;
  r ← psqrt Tr;
  da_alpha_dT ← pdiv (- a * kappa * r * (kappa * (- r + 1) + 1)) T;
  q3 ← pdiv kappa Tc;
  q4 ← pdiv (r * (kappa * (r - 1) - 1)) T;
  d2a_alpha_dT2 ← pdiv (a * kappa * (q3 - q4)) (2 * T);
  match set_from_PT T P Vs b a_alpha da_alpha_dT d2a_alpha_dT2 no_phases with
  | (Raise e, _) => Raise e
  | (Ok _, st) =>
      Ok {| Tc := Tc; Pc := Pc; omega := omega; T := T; P := P; V := V;
            a := a; b := b; kappa := kappa; a_alpha := a_alpha;
            da_alpha_dT := da_alpha_dT; d2a_alpha_dT2 := d2a_alpha_dT2;
            state := st |}
  end.

(** ** The utilities as the specification describes them *)

Definition quotient (x y : R) : option R :=
  if Req_EM_T y 0 then None else Some (x / y).

(** Modelled from the spec: [isobaric_expansion], [isothermal_compressibility],
    [Cp_minus_Cv] and [phase_identification_parameter_phase] of
    [thermo.utils], which is missing from the repository:
    β = (1/V)(∂V/∂T), κ = −(1/V)(∂V/∂P), Cp − Cv = −T (∂P/∂T)² / (∂P/∂V),
    and a root is liquid-like when PIP > 1, vapor-like otherwise.  The
    specification gives no formula for the parameter itself; the instance
    takes the one of Venkatarathnam and Oellrich,
    PIP = V (∂²P/∂V∂T / ∂P/∂T − ∂²P/∂V² / ∂P/∂V). *)
Definition spec_utils : Utils := {|
  isobaric_expansion := λ V dV_dT, quotient dV_dT V;
  isothermal_compressibility := λ V dV_dP, quotient (- dV_dP) V;
  Cp_minus_Cv := λ T dP_dT dP_dV, quotient (- T * dP_dT^2) dP_dV;
  phase_identification_parameter := λ V dP_dT dP_dV d2P_dV2 d2P_dVdT,
    match quotient d2P_dVdT dP_dT, quotient d2P_dV2 dP_dV with
    | Some q1, Some q2 => Some (V * (q1 - q2))
    | _, _ => None
    end;
  phase_identification_parameter_phase := λ PIP,
    if Rlt_dec 1 PIP then l else g;
|}.

(** A computation that does not raise the constructor's own exception. *)
Definition quiet {A} (r : result A) : Prop := ∀ e, r = Raise e → e ≠ missing_args.

(** how many of [T], [P], [V] a call supplies *)
Definition supplied (T P V : option R) : nat :=
  length (filter is_Some [T; P; V]).

(** Candidate roots whose only (nearly) real member carries a rounding-size
    imaginary part. *)
Definition inexact_roots : list number :=
  [Complex (mkC (13 / 100000) (1 / 10^20));
   Complex (mkC (-1 / 10000) (3 / 10000));
   Complex (mkC (-1 / 10000) (-3 / 10000))].

(** ** The cubic in mathematical form *)

(** P = RT/(V − b) − a_alpha/(V(V + b) + b(V − b)) *)
Definition P_eos (T V b a_alpha : R) : R :=
  Rgas * T / (V - b) - a_alpha / (V * (V + b) + b * (V - b)).

(** the monic cubic V³ + c₂V² + c₁V + c₀ of the equation of state at (T, P) *)
Definition coef2 (T P b : R) : R := (P * b - Rgas * T) / P.
Definition coef1 (T P b a_alpha : R) : R :=
  (-3 * P * b^2 - 2 * Rgas * T * b + a_alpha) / P.
Definition coef0 (T P b a_alpha : R) : R :=
  (P * b^3 + Rgas * T * b^2 - b * a_alpha) / P.
Definition cubic (k2 k1 k0 x : R) : R := x^3 + k2 * x^2 + k1 * x + k0.
Definition Delta0 (k2 k1 : R) : R := k2^2 - 3 * k1.
Definition Delta1 (k2 k1 k0 : R) : R := 2 * k2^3 - 9 * k2 * k1 + 27 * k0.

(** When [V] is a root, the other two are −(c₂ + V)/2 ± √(−W): [W] is the
    square of the imaginary part of the conjugate pair. *)
Definition pair_imag_sq (k2 k1 V : R) : R :=
  3 / 4 * V^2 + 1 / 2 * k2 * V - k2^2 / 4 + k1.

(** a list of candidates with one float and two complex numbers whose
    imaginary parts pass the threshold *)
Definition single_real (V : R) (Vs : list number) : Prop :=
  ∃ z2 z3, Vs = [Float V; Complex z2; Complex z3]
           ∧ has_imag (Complex z2) = true ∧ has_imag (Complex z3) = true.

(** the conjugate pair passes the threshold of [set_from_PT] and the cube
    root of [all_V] is taken of a positive number *)
Definition cardano_single (T P V b a_alpha : R) : Prop :=
  let k2 := coef2 T P b in
  let k1 := coef1 T P b a_alpha in
  let k0 := coef0 T P b a_alpha in
  (1 / 1000000000)^2 < pair_imag_sq k2 k1 V
  ∧ (0 <= Delta1 k2 k1 k0 ∨ Delta0 k2 k1 < 0).

(** the square root in the closed formula of [solve_T] is the non-negative
    one: the formula returns the temperature of the state on this branch *)
Definition solve_T_branch (Tc a b kappa T V : R) : Prop :=
  let X := Rgas * Tc * (V * (V + b) + b * (V - b)) - a * kappa^2 * (V - b) in
  X ≠ 0 ∧ 0 <= X * sqrt (T / Tc) + a * kappa * (1 + kappa) * (V - b).

(** the object with another [V] attribute *)
Definition with_V (v : option R) (o : PR) : PR :=
  {| Tc := Tc o; Pc := Pc o; omega := omega o; T := T o; P := P o; V := v;
     a := a o; b := b o; kappa := kappa o; a_alpha := a_alpha o;
     da_alpha_dT := da_alpha_dT o; d2a_alpha_dT2 := d2a_alpha_dT2 o;
     state := state o |}.

(** The constructor after its three cases: the derivatives of [a_alpha]
    and the call of [set_from_PT]. *)
Definition finish `{Utils} (Tc Pc omega : R) (V : option R)
    (a b kappa T P a_alpha : R) (Vs : list number) : result PR :=
  Tr ← pdiv T Tc;
  r ← psqrt Tr;
  da_alpha_dT ← pdiv (- a * kappa * r * (kappa * (- r + 1) + 1)) T;
  q3 ← pdiv kappa Tc;
  q4 ← pdiv (r * (kappa * (r - 1) - 1)) T;
  d2a_alpha_dT2 ← pdiv (a * kappa * (q3 - q4)) (2 * T);
  match set_from_PT T P Vs b a_alpha da_alpha_dT d2a_alpha_dT2 no_phases with
  | (Raise e, _) => Raise e
  | (Ok _, st) =>
      Ok {| Tc := Tc; Pc := Pc; omega := omega; T := T; P := P; V := V;
            a := a; b := b; kappa := kappa; a_alpha := a_alpha;
            da_alpha_dT := da_alpha_dT; d2a_alpha_dT2 := d2a_alpha_dT2;
            state := st |}
  end.

Definition kappa_of (omega : R) : R :=
  0.37464 + 1.54226 * omega - 0.26992 * omega^2.

(** n-hexane, the substance of the calls at the end of [eos.py], at
    T = 0.64 Tc. *)
Definition hexane_Tc : R := 507.6.
Definition hexane_Pc : R := 3025000.
Definition hexane_omega : R := 0.2975.
Definition hexane_T : R := 324.864.
Definition hexane_a : R := c1 * Rgas^2 * hexane_Tc^2 / hexane_Pc.
Definition hexane_b : R := c2 * Rgas * hexane_Tc / hexane_Pc.
Definition hexane_a_alpha : R :=
  hexane_a * (1 + kappa_of hexane_omega * (1 - 4 / 5))^2.
(** two molar volumes of the compressed liquid: at the pressure of the
    first the cubic has one real root, at the pressure of the second
    (about 4 bar) it has three *)
Definition hexane_V : R := 0.000134.
Definition hexane_V_loop : R := 0.000135.

End EOS.

(** * Calls, ranking and fallback of the property registry
      ([thermo/utils/tp_dependent_property.py]) *)

Module TPCalls.
Import TPDependentProperty.
Local Open Scope R_scope.

(** What the methods below take from the base class [TDependentProperty]
    and from the subclasses, which are not part of the repository: the
    low-pressure evaluation [T_dependent_property], read here as a function
    of the object and the temperature, and the class attribute
    [ranked_methods_P]. *)
Class BaseProperty := {
  T_dependent_property : TPDependentProperty → R → result (option R);
  ranked_methods_P : list string;
}.

Definition AttributeError : exn := Exception "AttributeError".

#[local] Instance R_eq_dec : EqDecision R := Req_EM_T.

(** [self.prop_cached = v] and [self.TP_cached = (T, P)] *)
Definition set_prop_cached (v : option R) (self : TPDependentProperty)
    : TPDependentProperty :=
  {| all_methods := all_methods self;
     all_methods_P := all_methods_P self;
     tabular_data := tabular_data self;
     tabular_data_P := tabular_data_P self;
     T_limits := T_limits self;
     tabular_extrapolation_permitted := tabular_extrapolation_permitted self;
     RAISE_PROPERTY_CALCULATION_ERROR := RAISE_PROPERTY_CALCULATION_ERROR self;
     _method := _method self;
     _method_P := _method_P self;
     TP_cached := TP_cached self;
     prop_cached := Some v |}.
Definition set_TP_cached (k : R * option R) (self : TPDependentProperty)
    : TPDependentProperty :=
  {| all_methods := all_methods self;
     all_methods_P := all_methods_P self;
     tabular_data := tabular_data self;
     tabular_data_P := tabular_data_P self;
     T_limits := T_limits self;
     tabular_extrapolation_permitted := tabular_extrapolation_permitted self;
     RAISE_PROPERTY_CALCULATION_ERROR := RAISE_PROPERTY_CALCULATION_ERROR self;
     _method := _method self;
     _method_P := _method_P self;
     TP_cached := Some k;
     prop_cached := prop_cached self |}.

(** [(T, P) == self.TP_cached] *)
Definition same_point (k : R * option R) (c : option (R * option R)) : bool :=
  match c with
  | Some k' => bool_decide (k = k')
  | None => false
  end.

(** the evaluation that [__call__] stores: [TP_dependent_property(T, P)],
    or [T_dependent_property(T)] when [P] is [None] *)
Definition evaluate `{PropertyMethods} `{BaseProperty}
    (self : TPDependentProperty) (T : R) (P : option R) : result (option R) :=
  match P with
  | Some p => TP_dependent_property self T p
  | None => T_dependent_property self T
  end.

(** [__call__(T, P)] *)
Definition __call__ `{PropertyMethods} `{BaseProperty} (T : R) (P : option R)
    : M TPDependentProperty (option R) := λ self,
  if same_point (T, P) (TP_cached self) then
    match prop_cached self with
    | Some v => (Ok v, self)
    | None => (Raise AttributeError, self)
    end
  else
    match evaluate self T P with
    | Ok v => (Ok v, set_TP_cached (T, P) (set_prop_cached v self))
    | Raise e => (Raise e, self)
    end.

(** [l.remove(x)]: the first occurrence is removed *)
Fixpoint remove_first (x : string) (l : list string) : list string :=
  match l with
  | [] => []
  | y :: l => if bool_decide (x = y) then l else y :: remove_first x l
  end.

(** [[i for i in l if f(i)]] where [f] may raise *)
Fixpoint filter_result {A} (f : A → result bool) (l : list A) : result (list A) :=
  match l with
  | [] => Ok []
  | i :: l =>
      keep ← f i;
      rest ← filter_result f l;
      Ok (if (keep : bool) then i :: rest else rest)
  end.

(** [test_method_validity_P(T, None, method)]: the comparison of a
    pressure bound with [None] raises TypeError; the other cases do not
    read [P]. *)
Definition test_method_validity_P_None `{PropertyMethods}
    (self : TPDependentProperty) (T : R) (method : string) : result bool :=
  match tabular_data_P self !! method with
  | Some (Ts, Ps, properties) =>
      if tabular_extrapolation_permitted self then Ok true
      else
        inT ← strictly_inside Ts T;
        if (inT : bool) then _ ← first Ps; Raise TypeError else Ok false
  | None =>
      if bool_decide (method = NEGLECT_P) then
        if name_truthy (_method self) then
          match _method self with
          | Some m => test_method_validity T m
          | None => Ok false
          end
        else Ok false
      else if bool_decide (method ∈ all_methods_P self) then
        match T_limits self !! method with
        | Some (Tmin, Tmax) => Ok (Rltb Tmin T && Rltb T Tmax)
        | None => Raise KeyError
        end
      else Raise (ValueError "method not valid")
  end.

(** [valid_methods_P(T=None, P=None)] *)
Definition valid_methods_P `{PropertyMethods} `{BaseProperty}
    (self : TPDependentProperty) (T P : option R) : result (list string) :=
  let all_methods := all_methods_P self in
  let sorted_methods :=
    filter (λ i, i ∈ all_methods) ranked_methods_P in
  let current_method := _method_P self in
  let sorted_methods :=
    match current_method with
    | Some m =>
        if bool_decide (m ∈ sorted_methods)
        then m :: remove_first m sorted_methods
        else sorted_methods
    | None => sorted_methods
    end in
  match T with
  | Some t =>
      filter_result (λ i,
        match P with
        | Some p => test_method_validity_P self t p i
        | None => test_method_validity_P_None self t i
        end) sorted_methods
  | None => Ok sorted_methods
  end.

(** [TP_or_T_dependent_property(T, P)] *)
Definition TP_or_T_dependent_property `{PropertyMethods} `{BaseProperty}
    (self : TPDependentProperty) (T : R) (P : option R) : result (option R) :=
  match P with
  | Some p =>
      prop ← TP_dependent_property self T p;
      match prop with
      | None => T_dependent_property self T
      | Some v => Ok (Some v)
      end
  | None => T_dependent_property self T
  end.

(** the cache of [__call__] agrees with a fresh evaluation *)
Definition coherent `{PropertyMethods} `{BaseProperty}
    (self : TPDependentProperty) : Prop :=
  ∀ k, TP_cached self = Some k →
    ∃ v, prop_cached self = Some v ∧ evaluate self k.1 k.2 = Ok v.

(** the selected pressure-dependent method is a registered one *)
Definition selected_known (self : TPDependentProperty) : Prop :=
  ∀ m, _method_P self = Some m → m ∈ all_methods_P self.

(** the low-pressure evaluation does not read the cache of [__call__] *)
Definition cache_blind `{BaseProperty} : Prop :=
  ∀ self k v T,
    T_dependent_property (set_TP_cached k (set_prop_cached v self)) T
    = T_dependent_property self T.

(** A base class whose low-pressure evaluation yields no value, with two
    ranked methods. *)
Definition silent_base : BaseProperty := {|
  T_dependent_property := λ _ _, Ok None;
  ranked_methods_P := ["CORRELATION"; "OTHER"];
|}.

End TPCalls.

(** * The functions behind the attributes of the equation of state
      ([thermo/eos.py]) *)

Module EOSFunctions.
Import EOS.
Local Open Scope R_scope.

(** [a_alpha] as [set_a_alpha] computes it, as a function of the
    temperature, and the closed forms that the constructor stores in
    [da_alpha_dT] and [d2a_alpha_dT2] *)
Definition a_alpha_at (a kappa Tc t : R) : R :=
  a * (1 + kappa * (1 - sqrt (t / Tc)))^2.
Definition da_alpha_dT_at (a kappa Tc t : R) : R :=
  - a * kappa * sqrt (t / Tc) * (kappa * (- sqrt (t / Tc) + 1) + 1) / t.
Definition d2a_alpha_dT2_at (a kappa Tc t : R) : R :=
  a * kappa * (kappa / Tc - sqrt (t / Tc) * (kappa * (sqrt (t / Tc) - 1) - 1) / t)
  / (2 * t).
(** the closed forms of ∂P/∂T and ∂P/∂V in [first_derivatives], as
    functions of the volume *)
Definition dP_dT_at (b da_alpha_dT v : R) : R :=
  Rgas / (v - b) - da_alpha_dT / (v * (v + b) + b * (v - b)).
Definition dP_dV_at (T b a_alpha v : R) : R :=
  - Rgas * T / (v - b)^2 - (-2 * v - 2 * b) * a_alpha / (v * (v + b) + b * (v - b))^2.

(** the candidates handed to [set_from_PT]: one float and two complex
    numbers with imaginary parts of the same magnitude *)
Definition paired (v : R) (Vs : list number) : Prop :=
  ∃ z2 z3, Vs = [Float v; Complex z2; Complex z3] ∧ Rabs (im z3) = Rabs (im z2).

End EOSFunctions.

(** * Temperature and composition derivatives of the Wilson model
      ([thermo/wilson.py]) *)

Module WilsonDerivatives.
Import Wilson.
Local Open Scope R_scope.

(** The object with the lazily filled attributes of the derivative methods
    as well; [base] holds the attributes of the methods above. *)
Record object := {
  base : Wilson;
  _dlambdas_dT : option (list (list R));
  _d2lambdas_dT2s : option (list (list R));
  _d3lambdas_dT3s : option (list (list R));
  _xj_dLambda_dTijs : option (list R);
  _xj_d2Lambda_dT2ijs : option (list R);
  _xj_d3Lambda_dT3ijs : option (list R);
  _dGE_dT : option R;
  _d2GE_dT2 : option R;
  _d3GE_dT3 : option R;
  _d2GE_dTdxs : option (list R);
  _dGE_dxs : option (list R);
}.

Definition set_base v (s : object) : object :=
  {| base := v;
     _dlambdas_dT := _dlambdas_dT s;
     _d2lambdas_dT2s := _d2lambdas_dT2s s;
     _d3lambdas_dT3s := _d3lambdas_dT3s s;
     _xj_dLambda_dTijs := _xj_dLambda_dTijs s;
     _xj_d2Lambda_dT2ijs := _xj_d2Lambda_dT2ijs s;
     _xj_d3Lambda_dT3ijs := _xj_d3Lambda_dT3ijs s;
     _dGE_dT := _dGE_dT s;
     _d2GE_dT2 := _d2GE_dT2 s;
     _d3GE_dT3 := _d3GE_dT3 s;
     _d2GE_dTdxs := _d2GE_dTdxs s;
     _dGE_dxs := _dGE_dxs s |}.

Definition set_dlambdas_dT v (s : object) : object :=
  {| base := base s;
     _dlambdas_dT := Some v;
     _d2lambdas_dT2s := _d2lambdas_dT2s s;
     _d3lambdas_dT3s := _d3lambdas_dT3s s;
     _xj_dLambda_dTijs := _xj_dLambda_dTijs s;
     _xj_d2Lambda_dT2ijs := _xj_d2Lambda_dT2ijs s;
     _xj_d3Lambda_dT3ijs := _xj_d3Lambda_dT3ijs s;
     _dGE_dT := _dGE_dT s;
     _d2GE_dT2 := _d2GE_dT2 s;
     _d3GE_dT3 := _d3GE_dT3 s;
     _d2GE_dTdxs := _d2GE_dTdxs s;
     _dGE_dxs := _dGE_dxs s |}.

Definition set_d2lambdas_dT2s v (s : object) : object :=
  {| base := base s;
     _dlambdas_dT := _dlambdas_dT s;
     _d2lambdas_dT2s := Some v;
     _d3lambdas_dT3s := _d3lambdas_dT3s s;
     _xj_dLambda_dTijs := _xj_dLambda_dTijs s;
     _xj_d2Lambda_dT2ijs := _xj_d2Lambda_dT2ijs s;
     _xj_d3Lambda_dT3ijs := _xj_d3Lambda_dT3ijs s;
     _dGE_dT := _dGE_dT s;
     _d2GE_dT2 := _d2GE_dT2 s;
     _d3GE_dT3 := _d3GE_dT3 s;
     _d2GE_dTdxs := _d2GE_dTdxs s;
     _dGE_dxs := _dGE_dxs s |}.

Definition set_d3lambdas_dT3s v (s : object) : object :=
  {| base := base s;
     _dlambdas_dT := _dlambdas_dT s;
     _d2lambdas_dT2s := _d2lambdas_dT2s s;
     _d3lambdas_dT3s := Some v;
     _xj_dLambda_dTijs := _xj_dLambda_dTijs s;
     _xj_d2Lambda_dT2ijs := _xj_d2Lambda_dT2ijs s;
     _xj_d3Lambda_dT3ijs := _xj_d3Lambda_dT3ijs s;
     _dGE_dT := _dGE_dT s;
     _d2GE_dT2 := _d2GE_dT2 s;
     _d3GE_dT3 := _d3GE_dT3 s;
     _d2GE_dTdxs := _d2GE_dTdxs s;
     _dGE_dxs := _dGE_dxs s |}.

Definition set_xj_dLambda_dTijs v (s : object) : object :=
  {| base := base s;
     _dlambdas_dT := _dlambdas_dT s;
     _d2lambdas_dT2s := _d2lambdas_dT2s s;
     _d3lambdas_dT3s := _d3lambdas_dT3s s;
     _xj_dLambda_dTijs := Some v;
     _xj_d2Lambda_dT2ijs := _xj_d2Lambda_dT2ijs s;
     _xj_d3Lambda_dT3ijs := _xj_d3Lambda_dT3ijs s;
     _dGE_dT := _dGE_dT s;
     _d2GE_dT2 := _d2GE_dT2 s;
     _d3GE_dT3 := _d3GE_dT3 s;
     _d2GE_dTdxs := _d2GE_dTdxs s;
     _dGE_dxs := _dGE_dxs s |}.

Definition set_xj_d2Lambda_dT2ijs v (s : object) : object :=
  {| base := base s;
     _dlambdas_dT := _dlambdas_dT s;
     _d2lambdas_dT2s := _d2lambdas_dT2s s;
     _d3lambdas_dT3s := _d3lambdas_dT3s s;
     _xj_dLambda_dTijs := _xj_dLambda_dTijs s;
     _xj_d2Lambda_dT2ijs := Some v;
     _xj_d3Lambda_dT3ijs := _xj_d3Lambda_dT3ijs s;
     _dGE_dT := _dGE_dT s;
     _d2GE_dT2 := _d2GE_dT2 s;
     _d3GE_dT3 := _d3GE_dT3 s;
     _d2GE_dTdxs := _d2GE_dTdxs s;
     _dGE_dxs := _dGE_dxs s |}.

Definition set_xj_d3Lambda_dT3ijs v (s : object) : object :=
  {| base := base s;
     _dlambdas_dT := _dlambdas_dT s;
     _d2lambdas_dT2s := _d2lambdas_dT2s s;
     _d3lambdas_dT3s := _d3lambdas_dT3s s;
     _xj_dLambda_dTijs := _xj_dLambda_dTijs s;
     _xj_d2Lambda_dT2ijs := _xj_d2Lambda_dT2ijs s;
     _xj_d3Lambda_dT3ijs := Some v;
     _dGE_dT := _dGE_dT s;
     _d2GE_dT2 := _d2GE_dT2 s;
     _d3GE_dT3 := _d3GE_dT3 s;
     _d2GE_dTdxs := _d2GE_dTdxs s;
     _dGE_dxs := _dGE_dxs s |}.

Definition set_dGE_dT v (s : object) : object :=
  {| base := base s;
     _dlambdas_dT := _dlambdas_dT s;
     _d2lambdas_dT2s := _d2lambdas_dT2s s;
     _d3lambdas_dT3s := _d3lambdas_dT3s s;
     _xj_dLambda_dTijs := _xj_dLambda_dTijs s;
     _xj_d2Lambda_dT2ijs := _xj_d2Lambda_dT2ijs s;
     _xj_d3Lambda_dT3ijs := _xj_d3Lambda_dT3ijs s;
     _dGE_dT := Some v;
     _d2GE_dT2 := _d2GE_dT2 s;
     _d3GE_dT3 := _d3GE_dT3 s;
     _d2GE_dTdxs := _d2GE_dTdxs s;
     _dGE_dxs := _dGE_dxs s |}.

Definition set_d2GE_dT2 v (s : object) : object :=
  {| base := base s;
     _dlambdas_dT := _dlambdas_dT s;
     _d2lambdas_dT2s := _d2lambdas_dT2s s;
     _d3lambdas_dT3s := _d3lambdas_dT3s s;
     _xj_dLambda_dTijs := _xj_dLambda_dTijs s;
     _xj_d2Lambda_dT2ijs := _xj_d2Lambda_dT2ijs s;
     _xj_d3Lambda_dT3ijs := _xj_d3Lambda_dT3ijs s;
     _dGE_dT := _dGE_dT s;
     _d2GE_dT2 := Some v;
     _d3GE_dT3 := _d3GE_dT3 s;
     _d2GE_dTdxs := _d2GE_dTdxs s;
     _dGE_dxs := _dGE_dxs s |}.

Definition set_d3GE_dT3 v (s : object) : object :=
  {| base := base s;
     _dlambdas_dT := _dlambdas_dT s;
     _d2lambdas_dT2s := _d2lambdas_dT2s s;
     _d3lambdas_dT3s := _d3lambdas_dT3s s;
     _xj_dLambda_dTijs := _xj_dLambda_dTijs s;
     _xj_d2Lambda_dT2ijs := _xj_d2Lambda_dT2ijs s;
     _xj_d3Lambda_dT3ijs := _xj_d3Lambda_dT3ijs s;
     _dGE_dT := _dGE_dT s;
     _d2GE_dT2 := _d2GE_dT2 s;
     _d3GE_dT3 := Some v;
     _d2GE_dTdxs := _d2GE_dTdxs s;
     _dGE_dxs := _dGE_dxs s |}.

Definition set_d2GE_dTdxs v (s : object) : object :=
  {| base := base s;
     _dlambdas_dT := _dlambdas_dT s;
     _d2lambdas_dT2s := _d2lambdas_dT2s s;
     _d3lambdas_dT3s := _d3lambdas_dT3s s;
     _xj_dLambda_dTijs := _xj_dLambda_dTijs s;
     _xj_d2Lambda_dT2ijs := _xj_d2Lambda_dT2ijs s;
     _xj_d3Lambda_dT3ijs := _xj_d3Lambda_dT3ijs s;
     _dGE_dT := _dGE_dT s;
     _d2GE_dT2 := _d2GE_dT2 s;
     _d3GE_dT3 := _d3GE_dT3 s;
     _d2GE_dTdxs := Some v;
     _dGE_dxs := _dGE_dxs s |}.

Definition set_dGE_dxs v (s : object) : object :=
  {| base := base s;
     _dlambdas_dT := _dlambdas_dT s;
     _d2lambdas_dT2s := _d2lambdas_dT2s s;
     _d3lambdas_dT3s := _d3lambdas_dT3s s;
     _xj_dLambda_dTijs := _xj_dLambda_dTijs s;
     _xj_d2Lambda_dT2ijs := _xj_d2Lambda_dT2ijs s;
     _xj_d3Lambda_dT3ijs := _xj_d3Lambda_dT3ijs s;
     _dGE_dT := _dGE_dT s;
     _d2GE_dT2 := _d2GE_dT2 s;
     _d3GE_dT3 := _d3GE_dT3 s;
     _d2GE_dTdxs := _d2GE_dTdxs s;
     _dGE_dxs := Some v |}.

(** the object as the constructor leaves it *)
Definition fresh (b : Wilson) : object :=
  {| base := b;
     _dlambdas_dT := None;
     _d2lambdas_dT2s := None;
     _d3lambdas_dT3s := None;
     _xj_dLambda_dTijs := None;
     _xj_d2Lambda_dT2ijs := None;
     _xj_d3Lambda_dT3ijs := None;
     _dGE_dT := None;
     _d2GE_dT2 := None;
     _d3GE_dT3 := None;
     _d2GE_dTdxs := None;
     _dGE_dxs := None |}.


(** a method of the first part, called on the object *)
Definition on_base {A} (m : M Wilson A) : M object A := λ s,
  let '(r, b) := m (base s) in (r, set_base b s).

(** [try: return self.attr / except: pass], then the body *)
Definition cached_attr {A} (attr : object → option A) (body : M object A)
    : M object A :=
  λ self, match attr self with
          | Some v => (Ok v, self)
          | None => body self
          end.

(** [self.attr = out = []] followed by a loop appending to [out] *)
Definition store_rows {A} (set : list A → object → object)
    (loop : list A * option exn) : M object (list A) := λ self,
  let '(rows, r) := loop in
  (match r with Some e => Raise e | None => Ok rows end, set rows self).

Definition params_of : M object params := getattr (λ s, model (base s)).

(** [dlambdas_dT()]: the attribute is bound to the empty list before
    [1.0/T] is evaluated. *)
Definition dlambdas_dT : M object (list (list R)) :=
  cached_attr _dlambdas_dT (
    self ← params_of;
    let T := T self in
    let cmps := cmps self in
    lambdas' ← on_base (cached _lambdas lambdas);
    _ ← setattr (set_dlambdas_dT []);
    let T2 := T + T in
    Tinv ← lift (pdiv 1 T);
    let nT2inv := - Tinv * Tinv in
    let nT3inv2 := 2 * nT2inv * Tinv in
    store_rows set_dlambdas_dT (append_loop (λ i,
      lambdasi ← getitem lambdas' i;
      lambda_coeffs_Bi ← getitem (lambda_coeffs_B self) i;
      lambda_coeffs_Ci ← getitem (lambda_coeffs_C self) i;
      lambda_coeffs_Di ← getitem (lambda_coeffs_D self) i;
      lambda_coeffs_Ei ← getitem (lambda_coeffs_E self) i;
      lambda_coeffs_Fi ← getitem (lambda_coeffs_F self) i;
      comprehension (λ j,
        f ← getitem lambda_coeffs_Fi j;
        d ← getitem lambda_coeffs_Di j;
        c ← getitem lambda_coeffs_Ci j;
        b ← getitem lambda_coeffs_Bi j;
        e ← getitem lambda_coeffs_Ei j;
        lij ← getitem lambdasi j;
        Ok ((T2 * f + d + c * Tinv + b * nT2inv + e * nT3inv2) * lij)) cmps)
      cmps)).

(** [d2lambdas_dT2()]: the method does not look for a stored value; it
    stores its result in [_d2lambdas_dT2s]. *)
Definition d2lambdas_dT2 : M object (list (list R)) :=
  self ← params_of;
  let T := T self in
  let cmps := cmps self in
  lambdas' ← on_base lambdas;
  dlambdas_dT' ← dlambdas_dT;
  Tinv ← lift (pdiv 1 T);
  let nT2inv := - Tinv * Tinv in
  let T3inv2 := 2 * Tinv * Tinv * Tinv in
  let T4inv6 := 6 * Tinv * Tinv * Tinv * Tinv in
  store_rows set_d2lambdas_dT2s (append_loop (λ i,
    lambdasi ← getitem lambdas' i;
    dlambdas_dTi ← getitem dlambdas_dT' i;
    lambda_coeffs_Bi ← getitem (lambda_coeffs_B self) i;
    lambda_coeffs_Ci ← getitem (lambda_coeffs_C self) i;
    lambda_coeffs_Ei ← getitem (lambda_coeffs_E self) i;
    lambda_coeffs_Fi ← getitem (lambda_coeffs_F self) i;
    comprehension (λ j,
      f ← getitem lambda_coeffs_Fi j;
      c ← getitem lambda_coeffs_Ci j;
      b ← getitem lambda_coeffs_Bi j;
      e ← getitem lambda_coeffs_Ei j;
      dl ← getitem dlambdas_dTi j;
      lij ← getitem lambdasi j;
      q ← pdiv (dl * dl) (lij * lij);
      Ok ((2 * f + nT2inv * c + T3inv2 * b + T4inv6 * e + q) * lij)) cmps)
    cmps).

Definition d3lambdas_dT3 : M object (list (list R)) :=
  cached_attr _d3lambdas_dT3s (
    self ← params_of;
    let T := T self in
    let cmps := cmps self in
    lambdas' ← on_base lambdas;
    dlambdas_dT' ← dlambdas_dT;
    Tinv ← lift (pdiv 1 T);
    let nT2inv := - Tinv * Tinv in
    let T3inv2 := 2 * Tinv * Tinv * Tinv in
    let T4inv6 := 6 * Tinv * Tinv * Tinv * Tinv in
    let T2_12 := 12 * Tinv * Tinv in
    store_rows set_d3lambdas_dT3s (append_loop (λ i,
      lambdasi ← getitem lambdas' i;
      dlambdas_dTi ← getitem dlambdas_dT' i;
      lambda_coeffs_Bi ← getitem (lambda_coeffs_B self) i;
      lambda_coeffs_Ci ← getitem (lambda_coeffs_C self) i;
      lambda_coeffs_Ei ← getitem (lambda_coeffs_E self) i;
      lambda_coeffs_Fi ← getitem (lambda_coeffs_F self) i;
      comprehension (λ j,
        f ← getitem lambda_coeffs_Fi j;
        c ← getitem lambda_coeffs_Ci j;
        b ← getitem lambda_coeffs_Bi j;
        e ← getitem lambda_coeffs_Ei j;
        let term2 := 2 * f + nT2inv * c + T3inv2 * b + T4inv6 * e in
        dl ← getitem dlambdas_dTi j;
        lij ← getitem lambdasi j;
        term3 ← pdiv dl lij;
        let term4 := T3inv2 * (c - 3 * b * Tinv - T2_12 * e) in
        Ok ((3 * term2 * term3 + term3 * term3 * term3 + term4) * lij)) cmps)
      cmps)).

(** the accumulation [tot += xs[j]*m[i][j]] over [j], for each [i] *)
Definition weighted_rows (self : params) (m : list (list R)) : list R * option exn :=
  append_loop (λ i,
    for_acc (λ tot j,
      xj ← getitem (xs self) j;
      mi ← getitem m i;
      mij ← getitem mi j;
      Ok (tot + xj * mij)) (cmps self) 0) (cmps self).

Definition xj_dLambda_dTijs : M object (list R) :=
  cached_attr _xj_dLambda_dTijs (
    dlambdas_dT' ← cached_attr _dlambdas_dT dlambdas_dT;
    self ← params_of;
    store_rows set_xj_dLambda_dTijs (weighted_rows self dlambdas_dT')).

(** [xj_d2Lambda_dT2ijs()]: the attribute [_d2lambdas_dT2] that the method
    looks for is assigned nowhere ([d2lambdas_dT2] stores
    [_d2lambdas_dT2s]), so [d2lambdas_dT2()] is called. *)
Definition xj_d2Lambda_dT2ijs : M object (list R) :=
  cached_attr _xj_d2Lambda_dT2ijs (
    d2lambdas_dT2' ← d2lambdas_dT2;
    self ← params_of;
    store_rows set_xj_d2Lambda_dT2ijs (weighted_rows self d2lambdas_dT2')).

(** [xj_d3Lambda_dT3ijs()]: likewise [_d3lambdas_dT3] is assigned nowhere. *)
Definition xj_d3Lambda_dT3ijs : M object (list R) :=
  cached_attr _xj_d3Lambda_dT3ijs (
    d3lambdas_dT3' ← d3lambdas_dT3;
    self ← params_of;
    store_rows set_xj_d3Lambda_dT3ijs (weighted_rows self d3lambdas_dT3')).

(** [sum1 += xs[i]*xj_dLambda_dTijs[i]/xj_Lambda_ijs[i]] *)
Definition sum1_loop (self : params) (xj_Lambda_ijs' xj_dLambda_dTijs' : list R)
    : result R :=
  for_acc (λ sum1 i,
    xi ← getitem (xs self) i;
    di ← getitem xj_dLambda_dTijs' i;
    si ← getitem xj_Lambda_ijs' i;
    q ← pdiv (xi * di) si;
    Ok (sum1 + q)) (cmps self) 0.

(** [sum0 += (xs[i]*xj_d2Lambda_dT2ijs[i]/xj_Lambda_ijs[i]
      - xs[i]*(xj_dLambda_dTijs[i]*xj_dLambda_dTijs[i])
        /(xj_Lambda_ijs[i]*xj_Lambda_ijs[i]))] *)
Definition sum0_loop (self : params)
    (xj_Lambda_ijs' xj_dLambda_dTijs' xj_d2Lambda_dT2ijs' : list R) : result R :=
  for_acc (λ sum0 i,
    xi ← getitem (xs self) i;
    d2i ← getitem xj_d2Lambda_dT2ijs' i;
    si ← getitem xj_Lambda_ijs' i;
    q1 ← pdiv (xi * d2i) si;
    di ← getitem xj_dLambda_dTijs' i;
    q2 ← pdiv (xi * (di * di)) (si * si);
    Ok (sum0 + (q1 - q2))) (cmps self) 0.

Definition dGE_dT : M object R :=
  cached_attr _dGE_dT (
    self ← params_of;
    let T := T self in
    let xs := xs self in
    let cmps := cmps self in
    lambdas' ← on_base lambdas;
    dlambdas_dT' ← dlambdas_dT;
    let RT := T * Rgas in
    xj_Lambda_ijs' ← on_base xj_Lambda_ijs;
    xj_dLambda_dTijs' ← xj_dLambda_dTijs;
    tot ← lift (for_acc (λ tot i,
      xi ← getitem xs i;
      si ← getitem xj_Lambda_ijs' i;
      lg ← plog si;
      Ok (tot + xi * lg)) cmps 0);
    let tot := tot * - Rgas in
    sum1 ← lift (sum1_loop self xj_Lambda_ijs' xj_dLambda_dTijs');
    let tot := tot - RT * sum1 in
    _ ← setattr (set_dGE_dT tot);
    mret tot).

Definition d2GE_dT2 : M object R :=
  cached_attr _d2GE_dT2 (
    self ← params_of;
    let T := T self in
    lambdas' ← on_base lambdas;
    dlambdas_dT' ← dlambdas_dT;
    d2lambdas_dT2' ← d2lambdas_dT2;
    xj_Lambda_ijs' ← on_base xj_Lambda_ijs;
    xj_dLambda_dTijs' ← xj_dLambda_dTijs;
    xj_d2Lambda_dT2ijs' ← xj_d2Lambda_dT2ijs;
    sum1 ← lift (sum1_loop self xj_Lambda_ijs' xj_dLambda_dTijs');
    sum0 ← lift (sum0_loop self xj_Lambda_ijs' xj_dLambda_dTijs' xj_d2Lambda_dT2ijs');
    let v := - Rgas * (T * sum0 + 2 * sum1) in
    _ ← setattr (set_d2GE_dT2 v);
    mret v).

Definition d3GE_dT3 : M object R :=
  cached_attr _d3GE_dT3 (
    self ← params_of;
    let T := T self in
    let xs := xs self in
    let cmps := cmps self in
    lambdas' ← on_base lambdas;
    dlambdas_dT' ← dlambdas_dT;
    d2lambdas_dT2' ← d2lambdas_dT2;
    d3lambdas_dT3' ← d3lambdas_dT3;
    xj_Lambda_ijs' ← on_base xj_Lambda_ijs;
    xj_dLambda_dTijs' ← xj_dLambda_dTijs;
    xj_d2Lambda_dT2ijs' ← xj_d2Lambda_dT2ijs;
    xj_d3Lambda_dT3ijs' ← xj_d3Lambda_dT3ijs;
    sum0 ← lift (sum0_loop self xj_Lambda_ijs' xj_dLambda_dTijs' xj_d2Lambda_dT2ijs');
    sum_d3 ← lift (for_acc (λ sum_d3 i,
      xi ← getitem xs i;
      d3i ← getitem xj_d3Lambda_dT3ijs' i;
      si ← getitem xj_Lambda_ijs' i;
      q ← pdiv (xi * d3i) si;
      Ok (sum_d3 + q)) cmps 0);
    sum_comb ← lift (for_acc (λ sum_comb i,
      xi ← getitem xs i;
      d2i ← getitem xj_d2Lambda_dT2ijs' i;
      di ← getitem xj_dLambda_dTijs' i;
      si ← getitem xj_Lambda_ijs' i;
      q ← pdiv (3 * xi * d2i * di) (si * si);
      Ok (sum_comb + q)) cmps 0);
    sum_last ← lift (for_acc (λ sum_last i,
      xi ← getitem xs i;
      di ← getitem xj_dLambda_dTijs' i;
      si ← getitem xj_Lambda_ijs' i;
      q ← pdiv (2 * xi * di ^ 3) (si * si * si);
      Ok (sum_last + q)) cmps 0);
    let v := - Rgas * (3 * sum0 + T * (sum_d3 - sum_comb + sum_last)) in
    _ ← setattr (set_d3GE_dT3 v);
    mret v).

(** [d2GE_dTdxs()]; [d2lambdas_dT2()] is called and its value not used. *)
Definition d2GE_dTdxs : M object (list R) :=
  cached_attr _d2GE_dTdxs (
    self ← params_of;
    let T := T self in
    let xs := xs self in
    let cmps := cmps self in
    lambdas' ← on_base lambdas;
    dlambdas_dT' ← dlambdas_dT;
    d2lambdas_dT2' ← d2lambdas_dT2;
    xj_Lambda_ijs' ← on_base xj_Lambda_ijs;
    xj_dLambda_dTijs' ← xj_dLambda_dTijs;
    store_rows set_d2GE_dTdxs (append_loop (λ k,
      tot1 ← for_acc (λ tot1 i,
        xi ← getitem xs i;
        dli ← getitem dlambdas_dT' i;
        dlik ← getitem dli k;
        si ← getitem xj_Lambda_ijs' i;
        q1 ← pdiv (xi * dlik) si;
        di ← getitem xj_dLambda_dTijs' i;
        li ← getitem lambdas' i;
        lik ← getitem li k;
        q2 ← pdiv (xi * di * lik) (si * si);
        Ok (tot1 + (q1 - q2))) cmps 0;
      dk ← getitem xj_dLambda_dTijs' k;
      sk ← getitem xj_Lambda_ijs' k;
      q ← pdiv dk sk;
      let tot1 := tot1 + q in
      tot2 ← for_acc (λ tot2 i,
        xi ← getitem xs i;
        li ← getitem lambdas' i;
        lik ← getitem li k;
        si ← getitem xj_Lambda_ijs' i;
        q ← pdiv (xi * lik) si;
        Ok (tot2 + q)) cmps 0;
      lg ← plog sk;
      Ok (- Rgas * (T * tot1 + lg + tot2))) cmps)).

Definition dGE_dxs : M object (list R) :=
  cached_attr _dGE_dxs (
    self ← params_of;
    let T := T self in
    let xs := xs self in
    let cmps := cmps self in
    lambdas' ← on_base lambdas;
    let mRT := - T * Rgas in
    xj_Lambda_ijs' ← on_base xj_Lambda_ijs;
    store_rows set_dGE_dxs (append_loop (λ k,
      tot ← for_acc (λ tot i,
        xi ← getitem xs i;
        li ← getitem lambdas' i;
        lik ← getitem li k;
        si ← getitem xj_Lambda_ijs' i;
        q ← pdiv (xi * lik) si;
        Ok (tot + q)) cmps 0;
      sk ← getitem xj_Lambda_ijs' k;
      lg ← plog sk;
      let tot := tot + lg in
      Ok (mRT * tot)) cmps)).

(** ** The derivatives in mathematical notation *)

(** first, second and third temperature derivative of the exponent of
    Λ_ij *)
Definition g1 (p : params) (i j : nat) : R :=
  2 * T p * entry (lambda_coeffs_F p) i j + entry (lambda_coeffs_D p) i j
  + entry (lambda_coeffs_C p) i j / T p - entry (lambda_coeffs_B p) i j / (T p)^2
  - 2 * entry (lambda_coeffs_E p) i j / (T p)^3.
Definition g2 (p : params) (i j : nat) : R :=
  2 * entry (lambda_coeffs_F p) i j - entry (lambda_coeffs_C p) i j / (T p)^2
  + 2 * entry (lambda_coeffs_B p) i j / (T p)^3
  + 6 * entry (lambda_coeffs_E p) i j / (T p)^4.
Definition g3 (p : params) (i j : nat) : R :=
  2 * entry (lambda_coeffs_C p) i j / (T p)^3
  - 6 * entry (lambda_coeffs_B p) i j / (T p)^4
  - 24 * entry (lambda_coeffs_E p) i j / (T p)^5.

Definition dLambda (p : params) (i j : nat) : R := g1 p i j * Lambda p i j.
Definition d2Lambda (p : params) (i j : nat) : R :=
  (g2 p i j + (g1 p i j)^2) * Lambda p i j.
Definition d3Lambda (p : params) (i j : nat) : R :=
  (g3 p i j + 3 * g1 p i j * g2 p i j + (g1 p i j)^3) * Lambda p i j.

(** Σ_j x_j m_ij *)
Definition weighted (p : params) (m : params → nat → nat → R) (i : nat) : R :=
  Rsum (N p) (λ j, x p j * m p i j).

Definition dGE_dT_formula (p : params) : R :=
  - Rgas * Rsum (N p) (λ i, x p i * ln (xj_Lambda p i))
  - Rgas * T p * Rsum (N p) (λ i, x p i * weighted p dLambda i / xj_Lambda p i).

Definition d2GE_dT2_formula (p : params) : R :=
  - Rgas * (T p * Rsum (N p) (λ i,
                x p i * weighted p d2Lambda i / xj_Lambda p i
                - x p i * (weighted p dLambda i)^2 / (xj_Lambda p i)^2)
            + 2 * Rsum (N p) (λ i, x p i * weighted p dLambda i / xj_Lambda p i)).

Definition d3GE_dT3_formula (p : params) : R :=
  - Rgas * (3 * Rsum (N p) (λ i,
                x p i * weighted p d2Lambda i / xj_Lambda p i
                - x p i * (weighted p dLambda i)^2 / (xj_Lambda p i)^2)
            + T p * Rsum (N p) (λ i,
                x p i * weighted p d3Lambda i / xj_Lambda p i
                - 3 * x p i * weighted p d2Lambda i * weighted p dLambda i
                  / (xj_Lambda p i)^2
                + 2 * x p i * (weighted p dLambda i)^3 / (xj_Lambda p i)^3)).

Definition dGE_dxs_formula (p : params) (k : nat) : R :=
  - Rgas * T p * (Rsum (N p) (λ i, x p i * Lambda p i k / xj_Lambda p i)
                  + ln (xj_Lambda p k)).

Definition d2GE_dTdxs_formula (p : params) (k : nat) : R :=
  - Rgas * (T p * (Rsum (N p) (λ i,
                     x p i * dLambda p i k / xj_Lambda p i
                     - x p i * weighted p dLambda i * Lambda p i k
                       / (xj_Lambda p i)^2)
                   + weighted p dLambda k / xj_Lambda p k)
            + ln (xj_Lambda p k)
            + Rsum (N p) (λ i, x p i * Lambda p i k / xj_Lambda p i)).

Definition matrix_of (p : params) (m : params → nat → nat → R) : list (list R) :=
  map (λ i, map (λ j, m p i j) (cmps p)) (cmps p).
Definition vector_of (p : params) (v : params → nat → R) : list R :=
  map (v p) (cmps p).

(** the model at another temperature, and with another amount of
    component [k] *)
Definition at_T (p : params) (t : R) : params :=
  {| T := t; xs := xs p;
     lambda_coeffs_A := lambda_coeffs_A p; lambda_coeffs_B := lambda_coeffs_B p;
     lambda_coeffs_C := lambda_coeffs_C p; lambda_coeffs_D := lambda_coeffs_D p;
     lambda_coeffs_E := lambda_coeffs_E p; lambda_coeffs_F := lambda_coeffs_F p;
     N := N p |}.
Definition at_x (p : params) (k : nat) (v : R) : params :=
  {| T := T p; xs := <[k := v]> (xs p);
     lambda_coeffs_A := lambda_coeffs_A p; lambda_coeffs_B := lambda_coeffs_B p;
     lambda_coeffs_C := lambda_coeffs_C p; lambda_coeffs_D := lambda_coeffs_D p;
     lambda_coeffs_E := lambda_coeffs_E p; lambda_coeffs_F := lambda_coeffs_F p;
     N := N p |}.

(** ** What the attributes hold after calls that returned *)

Record settled (self : object) : Prop := {
  s_base : consistent (base self);
  s_d1 : ∀ v, _dlambdas_dT self = Some v → v = matrix_of (base self) dLambda;
  s_d2 : ∀ v, _d2lambdas_dT2s self = Some v → v = matrix_of (base self) d2Lambda;
  s_d3 : ∀ v, _d3lambdas_dT3s self = Some v → v = matrix_of (base self) d3Lambda;
  s_x1 : ∀ v, _xj_dLambda_dTijs self = Some v →
         v = vector_of (base self) (λ p, weighted p dLambda);
  s_x2 : ∀ v, _xj_d2Lambda_dT2ijs self = Some v →
         v = vector_of (base self) (λ p, weighted p d2Lambda);
  s_x3 : ∀ v, _xj_d3Lambda_dT3ijs self = Some v →
         v = vector_of (base self) (λ p, weighted p d3Lambda);
  s_G1 : ∀ v, _dGE_dT self = Some v → v = dGE_dT_formula (base self);
  s_G2 : ∀ v, _d2GE_dT2 self = Some v → v = d2GE_dT2_formula (base self);
  s_G3 : ∀ v, _d3GE_dT3 self = Some v → v = d3GE_dT3_formula (base self);
  s_Gx : ∀ v, _dGE_dxs self = Some v → v = vector_of (base self) dGE_dxs_formula;
  s_GTx : ∀ v, _d2GE_dTdxs self = Some v →
          v = vector_of (base self) d2GE_dTdxs_formula;
}.

(** a method returns [v], from every settled object of model [p], and
    leaves such an object *)
Definition returns {A} (p : params) (m : M object A) (v : A) : Prop :=
  ∀ s, model (base s) = p → settled s →
    ∃ s', m s = (Ok v, s') ∧ model (base s') = p ∧ settled s'.

(** ** The constructor with both keyword arguments *)

(** [[[i[k] for i in l] for l in lambda_coeffs]] *)
Definition coefficient (k : nat) (lambda_coeffs : list (list (list R)))
    : result (list (list R)) :=
  comprehension (λ l, comprehension (λ i, getitem i k) l) lambda_coeffs.

(** [Wilson(T, xs, lambda_coeffs=None, ABCDEF=None)]: with neither keyword
    argument the coefficient attributes are set to [None] and
    [len(lambda_coeffs)] raises TypeError. *)
Definition __init__ (T0 : R) (xs0 : list R)
    (lambda_coeffs : option (list (list (list R))))
    (ABCDEF : option (list (list R) * list (list R) * list (list R)
                      * list (list R) * list (list R) * list (list R)))
    : result Wilson :=
  match ABCDEF with
  | Some ABCDEF => Ok (Wilson.__init__ T0 xs0 ABCDEF)
  | None =>
      match lambda_coeffs with
      | Some lambda_coeffs =>
          A ← coefficient 0 lambda_coeffs;
          B ← coefficient 1 lambda_coeffs;
          C ← coefficient 2 lambda_coeffs;
          D ← coefficient 3 lambda_coeffs;
          E ← coefficient 4 lambda_coeffs;
          F ← coefficient 5 lambda_coeffs;
          Ok {| model := {| T := T0; xs := xs0;
                            lambda_coeffs_A := A; lambda_coeffs_B := B;
                            lambda_coeffs_C := C; lambda_coeffs_D := D;
                            lambda_coeffs_E := E; lambda_coeffs_F := F;
                            N := length lambda_coeffs |};
                _lambdas := None; _xj_Lambda_ijs := None;
                _xj_Lambda_ijs_inv := None; _GE := None;
                _d2GE_dxixjs := None; _d3GE_dxixjxks := None |}
      | None => Raise TypeError
      end
  end.

(** the k-th coefficient of every pair (i, j) *)
Definition plane (k : nat) (lambda_coeffs : list (list (list R))) : list (list R) :=
  map (map (λ c, nth k c 0)) lambda_coeffs.

(** every pair (i, j) has more than [k] coefficients *)
Definition deep (k : nat) (lambda_coeffs : list (list (list R))) : Prop :=
  Forall (Forall (λ c, (k < length c)%nat)) lambda_coeffs.

(** The binary mixture of the first part with no material at all: every
    row sum is zero. *)
Definition starved : Wilson :=
  Wilson.__init__ 300 [0; 0]
    ([[0; 1]; [2; 0]], [[0; 30]; [60; 0]], [[0; 0]; [0; 0]],
     [[0; 0]; [0; 0]], [[0; 0]; [0; 0]], [[0; 0]; [0; 0]]).

End WilsonDerivatives.

(** * The composition derivatives of the Wilson model in binary64

    The entries [k][m] and [m][k] of the Hessian are accumulated by the
    same loop with the two subtractions in the opposite order, and the
    products of the Λ in a different order; over the reals that makes no
    difference, in binary64 each operation rounds.  This module is the
    arithmetic of [lambdas], [xj_Lambda_ijs], [d2GE_dxixjs] and
    [d3GE_dxixjxks] on IEEE-754 doubles, operation by operation in the
    order of the source, for a first call on a new object (no attribute
    is cached yet, so the store is left out). *)

Module WilsonBinary64.
Import PrimFloat.
Local Open Scope float_scope.
Set Warnings "-inexact-float".

(** [math.exp] and [math.log] are those of the C library: correctly
    rounded results are not guaranteed, so they are taken as given.
    [math.exp] raises OverflowError, [math.log] ValueError. *)
Class Libm := {
  math_exp : float → result float;
  math_log : float → result float;
}.

(** [x / y] on floats: a zero divisor of either sign raises; nothing else
    does (an overflow is [inf], an invalid operation [nan]). *)
Definition fdiv (x y : float) : result float :=
  if y =? 0 then Raise ZeroDivisionError else Ok (x / y).

(** Modelled from the spec: the molar gas constant, the double nearest to
    the value the specification gives. *)
Definition Rgas : float := 8.314462618.

Record params := {
  T : float;
  xs : list float;
  lambda_coeffs_A : list (list float);
  lambda_coeffs_B : list (list float);
  lambda_coeffs_C : list (list float);
  lambda_coeffs_D : list (list float);
  lambda_coeffs_E : list (list float);
  lambda_coeffs_F : list (list float);
  N : nat;
}.

Definition cmps (self : params) : list nat := seq 0 (N self).

(** [Wilson(T, xs, ABCDEF=(A, B, C, D, E, F))] *)
Definition __init__ (T0 : float) (xs0 : list float)
    (ABCDEF : list (list float) * list (list float) * list (list float)
            * list (list float) * list (list float) * list (list float))
    : params :=
  let '(A, B, C, D, E, F) := ABCDEF in
  {| T := T0; xs := xs0;
     lambda_coeffs_A := A; lambda_coeffs_B := B; lambda_coeffs_C := C;
     lambda_coeffs_D := D; lambda_coeffs_E := E; lambda_coeffs_F := F;
     N := length A |}.

Definition lambdas `{Libm} (self : params) : result (list (list float)) :=
  let T := T self in
  let cmps := cmps self in
  let T2 := T * T in
  Tinv ← fdiv 1 T;
  let T2inv := Tinv * Tinv in
  logT ← math_log T;
  comprehension (λ i,
    lambda_coeffs_Ai ← getitem (lambda_coeffs_A self) i;
    lambda_coeffs_Bi ← getitem (lambda_coeffs_B self) i;
    lambda_coeffs_Ci ← getitem (lambda_coeffs_C self) i;
    lambda_coeffs_Di ← getitem (lambda_coeffs_D self) i;
    lambda_coeffs_Ei ← getitem (lambda_coeffs_E self) i;
    lambda_coeffs_Fi ← getitem (lambda_coeffs_F self) i;
    comprehension (λ j,
      a ← getitem lambda_coeffs_Ai j;
      b ← getitem lambda_coeffs_Bi j;
      c ← getitem lambda_coeffs_Ci j;
      d ← getitem lambda_coeffs_Di j;
      e ← getitem lambda_coeffs_Ei j;
      f ← getitem lambda_coeffs_Fi j;
      math_exp (a + b * Tinv + c * logT + d * T + e * T2inv + f * T2)) cmps)
    cmps.

(** the loop of [xj_Lambda_ijs] over the matrix [lambdas()] returned *)
Definition xj_Lambda_ijs (self : params) (lambdas : list (list float))
    : result (list float) :=
  let xs := xs self in
  let cmps := cmps self in
  comprehension (λ i,
    for_acc (λ tot j,
      xj ← getitem xs j;
      li ← getitem lambdas i;
      lij ← getitem li j;
      Ok (tot + xj * lij)) cmps 0) cmps.

Definition d2GE_dxixjs `{Libm} (self : params) : result (list (list float)) :=
  let T := T self in
  let xs := xs self in
  let cmps := cmps self in
  let RT := Rgas * T in
  lambdas ← lambdas self;
  xj_Lambda_ijs ← xj_Lambda_ijs self lambdas;
  comprehension (λ k,
    comprehension (λ m,
      tot ← for_acc (λ tot i,
        xi ← getitem xs i;
        li ← getitem lambdas i;
        lik ← getitem li k;
        lim ← getitem li m;
        si ← getitem xj_Lambda_ijs i;
        q ← fdiv (xi * lik * lim) (si * si);
        Ok (tot + q)) cmps 0;
      lk ← getitem lambdas k;
      lkm ← getitem lk m;
      sk ← getitem xj_Lambda_ijs k;
      q1 ← fdiv lkm sk;
      let tot := tot - q1 in
      lm ← getitem lambdas m;
      lmk ← getitem lm k;
      sm ← getitem xj_Lambda_ijs m;
      q2 ← fdiv lmk sm;
      let tot := tot - q2 in
      Ok (RT * tot)) cmps) cmps.

Definition d3GE_dxixjxks `{Libm} (self : params)
    : result (list (list (list float))) :=
  let T := T self in
  let xs := xs self in
  let cmps := cmps self in
  let nRT := - Rgas * T in
  lambdas ← lambdas self;
  xj_Lambda_ijs ← xj_Lambda_ijs self lambdas;
  xj_Lambda_ijs_invs ← comprehension (λ i, fdiv 1 i) xj_Lambda_ijs;
  comprehension (λ k,
    comprehension (λ m,
      comprehension (λ n,
        tot ← for_acc (λ tot i,
          xi ← getitem xs i;
          li ← getitem lambdas i;
          lik ← getitem li k;
          lim ← getitem li m;
          lin ← getitem li n;
          let num := 2 * xi * lik * lim * lin in
          vi ← getitem xj_Lambda_ijs_invs i;
          let den := vi * vi * vi in
          Ok (tot + num * den)) cmps 0;
        lk ← getitem lambdas k;
        lkm ← getitem lk m;
        lkn ← getitem lk n;
        vk ← getitem xj_Lambda_ijs_invs k;
        let tot := tot - lkm * lkn * vk * vk in
        lm ← getitem lambdas m;
        lmk ← getitem lm k;
        lmn ← getitem lm n;
        vm ← getitem xj_Lambda_ijs_invs m;
        let tot := tot - lmk * lmn * vm * vm in
        ln' ← getitem lambdas n;
        lnm ← getitem ln' m;
        lnk ← getitem ln' k;
        vn ← getitem xj_Lambda_ijs_invs n;
        let tot := tot - lnm * lnk * vn * vn in
        Ok (nRT * tot)) cmps) cmps) cmps.





End WilsonBinary64.
(** ** Loops that do not raise compute maps and sums *)

Lemma getitem_nth {A} (l : list A) (i : nat) (d : A) :
  (i < length l)%nat → getitem l i = Ok (nth i l d).
Proof.
  intros Hi. unfold getitem.
  destruct (l !! i) as [a|] eqn:E.
  - f_equal. symmetry. apply nth_lookup_Some with (d := d) in E. exact E.
  - apply lookup_ge_None in E. lia.
Qed.

Lemma getitem_map_seq {A} (g : nat → A) (n i : nat) :
  (i < n)%nat → getitem (map g (seq 0 n)) i = Ok (g i).
Proof.
  intros Hi. unfold getitem.
  rewrite list_lookup_fmap, lookup_seq_lt by lia. reflexivity.
Qed.

Lemma comprehension_map {A B} (f : A → result B) (g : A → B) (idx : list A) :
  (∀ i, i ∈ idx → f i = Ok (g i)) → comprehension f idx = Ok (map g idx).
Proof.
  induction idx as [|i rest IH]; intros H; [reflexivity|].
  cbn. rewrite (H i) by constructor. cbn.
  rewrite IH by (intros; apply H; now constructor). reflexivity.
Qed.

Lemma comprehension_raise {A B} (f : A → result B) (g : A → B) (e : exn)
    (idx : list A) :
  (∀ i, i ∈ idx → f i = Ok (g i) ∨ f i = Raise e) →
  (∃ i, i ∈ idx ∧ f i = Raise e) →
  comprehension f idx = Raise e.
Proof.
  induction idx as [|i rest IH]; intros H [j [Hj Hr]].
  - inversion Hj.
  - cbn. destruct (H i) as [E|E]; [constructor| |]; rewrite E; cbn; [|reflexivity].
    inversion Hj; subst; [congruence|].
    rewrite IH; [reflexivity| |eauto].
    intros; apply H; now constructor.
Qed.

Lemma comprehension_fmap {A B C} (f : B → result C) (h : A → B) (idx : list A) :
  comprehension f (map h idx) = comprehension (λ i, f (h i)) idx.
Proof.
  induction idx as [|i rest IH]; [reflexivity|].
  cbn. now rewrite IH.
Qed.

Lemma append_loop_raise_first {A B} (f : A → result B) (e : exn) (i : A)
    (rest : list A) :
  f i = Raise e → append_loop f (i :: rest) = ([], Some e).
Proof. intros H. cbn. now rewrite H. Qed.

Lemma append_loop_map {A B} (f : A → result B) (g : A → B) (idx : list A) :
  (∀ i, i ∈ idx → f i = Ok (g i)) → append_loop f idx = (map g idx, None).
Proof.
  induction idx as [|i rest IH]; intros H; [reflexivity|].
  cbn. rewrite (H i) by constructor.
  rewrite IH by (intros; apply H; now constructor). reflexivity.
Qed.

Lemma run_bind {S A B} (m : M S A) (k : A → M S B) (s : S) :
  (m ≫= k) s = match m s with
               | (Ok a, s') => k a s'
               | (Raise e, s') => (Raise e, s')
               end.
Proof. reflexivity. Qed.

Lemma bind_Ok {A B} (a : A) (k : A → result B) : (Ok a ≫= k) = k a.
Proof. reflexivity. Qed.

Lemma bind_Raise {A B} (e : exn) (k : A → result B) : (Raise e ≫= k) = Raise e.
Proof. reflexivity. Qed.

Lemma bind_inv {A B} (m : result A) (k : A → result B) (b : B) :
  (m ≫= k) = Ok b → ∃ a, m = Ok a ∧ k a = Ok b.
Proof. destruct m as [a|e]; [eauto|discriminate]. Qed.

Lemma pdiv_Ok (x y q : R) : pdiv x y = Ok q → (q = x / y)%R ∧ y ≠ 0%R.
Proof.
  unfold pdiv. destruct (Req_EM_T y 0); [discriminate|].
  intros [= <-]. now split.
Qed.

Lemma pdiv_nonzero (x y : R) : y ≠ 0%R → pdiv x y = Ok (x / y)%R.
Proof. intros Hy. unfold pdiv. now destruct (Req_EM_T y 0). Qed.

Lemma plog_Ok (x q : R) : plog x = Ok q → q = ln x ∧ (0 < x)%R.
Proof.
  unfold plog. destruct (Rlt_dec 0 x); [|discriminate].
  intros [= <-]. now split.
Qed.

Lemma plog_pos (x : R) : (0 < x)%R → plog x = Ok (ln x).
Proof. intros Hx. unfold plog. now destruct (Rlt_dec 0 x). Qed.

Lemma psqrt_Ok (x q : R) : psqrt x = Ok q → q = sqrt x ∧ (0 <= x)%R.
Proof.
  unfold psqrt. destruct (Rle_dec 0 x); [|discriminate].
  intros [= <-]. now split.
Qed.

Lemma psqrt_neg (x : R) :
  (x < 0)%R → psqrt x = Raise (ValueError "math domain error").
Proof. intros Hx. unfold psqrt. destruct (Rle_dec 0 x); [lra|reflexivity]. Qed.

Lemma psqrt_nonneg (x : R) : (0 <= x)%R → psqrt x = Ok (sqrt x).
Proof. intros Hx. unfold psqrt. now destruct (Rle_dec 0 x). Qed.

(** peel one bind off a hypothesis [m ≫= k = Ok b] *)
Ltac bind_step H :=
  let a := fresh "v" in
  let E := fresh "E" in
  apply bind_inv in H; destruct H as [a [E H]].

Ltac mrun :=
  repeat (rewrite run_bind; unfold getattr, lift, setattr; cbn beta iota).

Section Sums.
Local Open Scope R_scope.

Lemma Rlist_sum_nil : Rlist_sum [] = 0.
Proof. reflexivity. Qed.

Lemma Rlist_sum_cons (a : R) (l : list R) : Rlist_sum (a :: l) = a + Rlist_sum l.
Proof. reflexivity. Qed.

Ltac sum_step := cbn [map]; rewrite ?Rlist_sum_cons, ?Rlist_sum_nil.

Lemma for_acc_sum {A} (step : R → A → result R) (g : A → R)
    (idx : list A) (a0 : R) :
  (∀ a i, i ∈ idx → step a i = Ok (a + g i)) →
  for_acc step idx a0 = Ok (a0 + Rlist_sum (map g idx)).
Proof.
  revert a0. induction idx as [|i rest IH]; intros a0 H.
  - cbn [for_acc]. sum_step. f_equal. lra.
  - cbn [for_acc]. rewrite (H a0 i) by constructor. cbn [mbind result_bind rbind].
    rewrite IH by (intros; apply H; now constructor).
    sum_step. f_equal. lra.
Qed.

Lemma for_acc_raise {A} (step : R → A → result R) (g : A → R) (e : exn)
    (idx : list A) (a0 : R) :
  (∀ a i, i ∈ idx → step a i = Ok (a + g i) ∨ step a i = Raise e) →
  (∃ i, i ∈ idx ∧ ∀ a, step a i = Raise e) →
  for_acc step idx a0 = Raise e.
Proof.
  revert a0. induction idx as [|i rest IH]; intros a0 H [j [Hj Hr]].
  - inversion Hj.
  - cbn. destruct (H a0 i) as [E|E]; [constructor| |]; rewrite E; cbn; [|reflexivity].
    inversion Hj; subst; [rewrite Hr in E; discriminate|].
    apply IH; [|eauto]. intros; apply H; now constructor.
Qed.

Lemma Rsum_eq (n : nat) (f : nat → R) :
  Rsum n f = Rlist_sum (map f (seq 0 n)).
Proof. reflexivity. Qed.

Lemma Rlist_sum_ext {A} (f g : A → R) (l : list A) :
  (∀ i, i ∈ l → f i = g i) → Rlist_sum (map f l) = Rlist_sum (map g l).
Proof.
  induction l as [|a l IH]; intros H; sum_step; [reflexivity|].
  rewrite (H a) by constructor.
  rewrite IH by (intros; apply H; now constructor). reflexivity.
Qed.

Lemma Rsum_ext (n : nat) (f g : nat → R) :
  (∀ i, (i < n)%nat → f i = g i) → Rsum n f = Rsum n g.
Proof.
  intros H. rewrite !Rsum_eq. apply Rlist_sum_ext. intros i Hi.
  apply elem_of_seq in Hi. apply H. lia.
Qed.

Lemma Rlist_sum_plus {A} (f g : A → R) (l : list A) :
  Rlist_sum (map (λ i, f i + g i) l) = Rlist_sum (map f l) + Rlist_sum (map g l).
Proof. induction l as [|a l IH]; sum_step; [|rewrite IH]; lra. Qed.

Lemma Rlist_sum_scal {A} (c : R) (f : A → R) (l : list A) :
  Rlist_sum (map (λ i, c * f i) l) = c * Rlist_sum (map f l).
Proof. induction l as [|a l IH]; sum_step; [|rewrite IH]; lra. Qed.

Lemma Rlist_sum_zero {A} (l : list A) : Rlist_sum (map (λ _, 0) l) = 0.
Proof. induction l as [|a l IH]; sum_step; [|rewrite IH]; lra. Qed.

Lemma Rlist_sum_swap {A B} (f : A → B → R) (la : list A) (lb : list B) :
  Rlist_sum (map (λ i, Rlist_sum (map (λ j, f i j) lb)) la)
  = Rlist_sum (map (λ j, Rlist_sum (map (λ i, f i j) la)) lb).
Proof.
  induction la as [|a la IH].
  - sum_step. rewrite Rlist_sum_zero. reflexivity.
  - sum_step. rewrite IH.
    rewrite <- Rlist_sum_plus. apply Rlist_sum_ext. intros j _.
    sum_step. reflexivity.
Qed.

Lemma Rsum_plus (n : nat) (f g : nat → R) :
  Rsum n (λ i, f i + g i) = Rsum n f + Rsum n g.
Proof. rewrite !Rsum_eq. apply Rlist_sum_plus. Qed.

Lemma Rsum_scal (n : nat) (c : R) (f : nat → R) :
  Rsum n (λ i, c * f i) = c * Rsum n f.
Proof. rewrite !Rsum_eq. apply Rlist_sum_scal. Qed.

Lemma Rsum_swap (n m : nat) (f : nat → nat → R) :
  Rsum n (λ i, Rsum m (λ j, f i j)) = Rsum m (λ j, Rsum n (λ i, f i j)).
Proof. apply Rlist_sum_swap. Qed.

End Sums.

(** ** Deciding comparisons of closed rational expressions *)

Section ClosedReals.
Local Open Scope R_scope.


Lemma Q2R_Qred (q : Q) : Q2R (Qred q) = Q2R q.
Proof. apply Qeq_eqR, Qred_correct. Qed.

Lemma Q2R_inject_Z (z : Z) : Q2R (inject_Z z) = IZR z.
Proof. unfold Q2R, inject_Z. cbn. rewrite Rinv_1. ring. Qed.

Lemma Q2R_Qpow (q : Q) (n : nat) : Q2R (Qpow q n) = Q2R q ^ n.
Proof.
  induction n as [|n IH]; cbn [Qpow pow].
  - unfold Q2R. cbn. rewrite Rinv_1. ring.
  - rewrite Q2R_Qred, Q2R_mult, IH. reflexivity.
Qed.

Lemma Qeq_bool_false_neq (q : Q) : Qeq_bool q 0 = false → ¬ (q == 0)%Q.
Proof. intros H E. apply Qeq_bool_iff in E. congruence. Qed.

Lemma cQ_sound (e : cexp) : ∀ q, cQ e = Some q → cR e = Q2R q.
Proof.
  induction e as [z|q0|a IHa b IHb|a IHa b IHb|a IHa b IHb|a IHa b IHb|a IHa|a IHa|a IHa n];
    intros q; cbn [cQ cR].
  - intros [= <-]. now rewrite Q2R_inject_Z.
  - intros [= <-]. now rewrite Q2R_Qred.
  - destruct (cQ a) as [x|]; [|discriminate]. destruct (cQ b) as [y|]; [|discriminate].
    intros [= <-]. now rewrite Q2R_Qred, Q2R_plus, (IHa x), (IHb y).
  - destruct (cQ a) as [x|]; [|discriminate]. destruct (cQ b) as [y|]; [|discriminate].
    intros [= <-]. now rewrite Q2R_Qred, Q2R_minus, (IHa x), (IHb y).
  - destruct (cQ a) as [x|]; [|discriminate]. destruct (cQ b) as [y|]; [|discriminate].
    intros [= <-]. now rewrite Q2R_Qred, Q2R_mult, (IHa x), (IHb y).
  - destruct (cQ a) as [x|]; [|discriminate]. destruct (cQ b) as [y|]; [|discriminate].
    destruct (Qeq_bool y 0) eqn:Ey; [discriminate|].
    intros [= <-]. rewrite Q2R_Qred, Q2R_div by now apply Qeq_bool_false_neq.
    now rewrite (IHa x), (IHb y).
  - destruct (cQ a) as [x|]; [|discriminate].
    intros [= <-]. now rewrite Q2R_opp, (IHa x).
  - destruct (cQ a) as [x|]; [|discriminate].
    destruct (Qeq_bool x 0) eqn:Ex; [discriminate|].
    intros [= <-]. rewrite Q2R_Qred, Q2R_inv by now apply Qeq_bool_false_neq.
    now rewrite (IHa x).
  - destruct (cQ a) as [x|]; [|discriminate].
    intros [= <-]. now rewrite Q2R_Qpow, (IHa x).
Qed.

Lemma Q2R_0' : Q2R 0 = 0.
Proof. unfold Q2R. cbn. lra. Qed.

Lemma c_neq (e : cexp) (q : Q) :
  cQ e = Some q → Qeq_bool q 0 = false → cR e ≠ 0.
Proof.
  intros He Hq. rewrite (cQ_sound e q He). intros E.
  rewrite <- Q2R_0' in E. apply eqR_Qeq in E. now apply Qeq_bool_false_neq in Hq.
Qed.

Lemma c_eq (e : cexp) (q : Q) :
  cQ e = Some q → Qeq_bool q 0 = true → cR e = 0.
Proof.
  intros He Hq. rewrite (cQ_sound e q He), <- Q2R_0'.
  now apply Qeq_eqR, Qeq_bool_iff.
Qed.

Lemma c_pos (e : cexp) (q : Q) :
  cQ e = Some q → Qle_bool q 0 = false → 0 < cR e.
Proof.
  intros He Hq. rewrite (cQ_sound e q He), <- Q2R_0'. apply Qlt_Rlt.
  apply Qnot_le_lt. intros Hle. apply Qle_bool_iff in Hle. congruence.
Qed.

Lemma c_nonneg (e : cexp) (q : Q) :
  cQ e = Some q → Qle_bool 0 q = true → 0 <= cR e.
Proof.
  intros He Hq. rewrite (cQ_sound e q He), <- Q2R_0'. apply Qle_Rle.
  now apply Qle_bool_iff.
Qed.

End ClosedReals.

Ltac reify e :=
  lazymatch e with
  | IZR ?z => constr:(CZ z)
  | Q2R ?q => constr:(CQ q)
  | Rplus ?a ?b => let ra := reify a in let rb := reify b in constr:(CAdd ra rb)
  | Rminus ?a ?b => let ra := reify a in let rb := reify b in constr:(CSub ra rb)
  | Rmult ?a ?b => let ra := reify a in let rb := reify b in constr:(CMul ra rb)
  | Rdiv ?a ?b => let ra := reify a in let rb := reify b in constr:(CDiv ra rb)
  | Ropp ?a => let ra := reify a in constr:(COpp ra)
  | Rinv ?a => let ra := reify a in constr:(CInv ra)
  | pow ?a ?n => let ra := reify a in constr:(CPow ra n)
  | _ => let e' := eval red in e in reify e'
  end.

(** closed rational comparisons, decided by computing in Q *)
Ltac creal :=
  lazymatch goal with
  | |- ?a ≠ ?b =>
      let r := reify (a - b)%R in
      let H := fresh in
      assert (H : (a - b)%R ≠ 0%R)
        by (change (cR r ≠ 0%R); eapply c_neq; vm_compute; reflexivity);
      intros ?; apply H; lra
  | |- @eq R ?a ?b =>
      let r := reify (a - b)%R in
      let H := fresh in
      assert (H : (a - b)%R = 0%R)
        by (change (cR r = 0%R); eapply c_eq; vm_compute; reflexivity);
      lra
  | |- Rlt ?a ?b =>
      let r := reify (b - a)%R in
      let H := fresh in
      assert (H : (0 < b - a)%R)
        by (change (0 < cR r)%R; eapply c_pos; vm_compute; reflexivity);
      lra
  | |- Rle ?a ?b =>
      let r := reify (b - a)%R in
      let H := fresh in
      assert (H : (0 <= b - a)%R)
        by (change (0 <= cR r)%R; eapply c_nonneg; vm_compute; reflexivity);
      lra
  | |- ¬ (Rlt ?a ?b) =>
      let H := fresh in
      assert (H : (b <= a)%R) by creal; lra
  | |- ¬ (Rle ?a ?b) =>
      let H := fresh in
      assert (H : (b < a)%R) by creal; lra
  end.

(** * Facts about the Wilson model *)

Module WilsonFacts.
Import Wilson.
Local Open Scope R_scope.

Lemma getitem_row (n : nat) (m : list (list R)) (i : nat) :
  square n m → (i < n)%nat → getitem m i = Ok (nth i m []).
Proof. intros [Hl _] Hi. apply getitem_nth. lia. Qed.

Lemma getitem_entry (n : nat) (m : list (list R)) (i j : nat) :
  square n m → (i < n)%nat → (j < n)%nat →
  getitem (nth i m []) j = Ok (entry m i j).
Proof. intros [_ Hr] Hi Hj. apply getitem_nth. specialize (Hr i Hi). lia. Qed.

Lemma getitem_x (p : params) (i : nat) :
  wf p → (i < N p)%nat → getitem (xs p) i = Ok (x p i).
Proof. intros Hwf Hi. apply getitem_nth. pose proof (wf_xs p Hwf). lia. Qed.

Lemma in_cmps (p : params) (i : nat) : i ∈ cmps p ↔ (i < N p)%nat.
Proof. unfold cmps. rewrite elem_of_seq. lia. Qed.

Lemma getitem_Lambda_row (p : params) (i : nat) :
  (i < N p)%nat →
  getitem (Lambda_matrix p) i = Ok (map (λ j, Lambda p i j) (cmps p)).
Proof. intros Hi. unfold Lambda_matrix, cmps. now rewrite getitem_map_seq. Qed.

Lemma getitem_Lambda (p : params) (i j : nat) :
  (j < N p)%nat →
  getitem (map (λ j, Lambda p i j) (cmps p)) j = Ok (Lambda p i j).
Proof. intros Hj. unfold cmps. now rewrite getitem_map_seq. Qed.

(** the row computed by [lambdas] for component [i] *)
Lemma lambdas_fresh (self : Wilson) :
  wf self → 0 < T self → _lambdas self = None →
  lambdas self = (Ok (Lambda_matrix self), set_lambdas (Lambda_matrix self) self).
Proof.
  intros Hwf HT Hnone. unfold lambdas, cached. rewrite Hnone.
  rewrite run_bind; unfold getattr; cbn beta iota.
  unfold pdiv, plog.
  destruct (Req_EM_T (T self) 0) as [E|_]; [lra|].
  destruct (Rlt_dec 0 (T self)) as [_|E]; [|lra].
  mrun. unfold store_loop.
  rewrite (append_loop_map _ (λ i, map (λ j, Lambda self i j) (cmps self)));
    [reflexivity|].
  intros i Hi%in_cmps. destruct Hwf.
  rewrite !(getitem_row (N self)), ?bind_Ok by assumption.
  apply comprehension_map. intros j Hj%in_cmps.
  rewrite !(getitem_entry (N self)), ?bind_Ok by assumption.
  unfold Lambda. do 2 f_equal.
  unfold Rsqr. field. lra.
Qed.

Lemma lambdas_post_model self : model (lambdas_post self) = model self.
Proof. unfold lambdas_post. now destruct (_lambdas self). Qed.

Lemma xj_Lambda_ijs_post_model self : model (xj_Lambda_ijs_post self) = model self.
Proof.
  unfold xj_Lambda_ijs_post. destruct (_xj_Lambda_ijs self); [reflexivity|].
  cbn. apply lambdas_post_model.
Qed.

Lemma xj_Lambda_ijs_inv_post_model self :
  model (xj_Lambda_ijs_inv_post self) = model self.
Proof.
  unfold xj_Lambda_ijs_inv_post. destruct (_xj_Lambda_ijs_inv self); [reflexivity|].
  cbn. apply xj_Lambda_ijs_post_model.
Qed.

Lemma GE_post_model self : model (GE_post self) = model self.
Proof.
  unfold GE_post. destruct (_GE self); [reflexivity|].
  cbn. apply lambdas_post_model.
Qed.

Lemma lambdas_post_consistent self : consistent self → consistent (lambdas_post self).
Proof.
  intros H. unfold lambdas_post. destruct (_lambdas self) eqn:E; [exact H|].
  destruct H. constructor; cbn; try assumption. now intros v [= <-].
Qed.

Lemma lambdas_post_cached self :
  consistent self → _lambdas (lambdas_post self) = Some (Lambda_matrix self).
Proof.
  intros H. unfold lambdas_post. destruct (_lambdas self) eqn:E; [|reflexivity].
  rewrite E. f_equal. now apply (c_lambdas _ H).
Qed.

Lemma lambdas_run (self : Wilson) :
  wf self → 0 < T self → consistent self →
  lambdas self = (Ok (Lambda_matrix self), lambdas_post self).
Proof.
  intros Hwf HT Hc. unfold lambdas_post.
  destruct (_lambdas self) as [v|] eqn:E.
  - unfold lambdas, cached. rewrite E. now rewrite (c_lambdas _ Hc v E).
  - now apply lambdas_fresh.
Qed.

Lemma cached_idem {A} (attr : Wilson → option A) (body : M Wilson A) self :
  cached attr (cached attr body) self = cached attr body self.
Proof. unfold cached. now destruct (attr self). Qed.

(** [try: lambdas = self._lambdas / except: lambdas = self.lambdas()] *)
Lemma cached_lambdas self : cached _lambdas lambdas self = lambdas self.
Proof. unfold lambdas. apply cached_idem. Qed.

(** the inner accumulation [tot += xs[j]*lambdas[i][j]] *)
Lemma row_sum_loop (p : params) (i : nat) :
  wf p → (i < N p)%nat →
  for_acc (λ tot j,
      xj ← getitem (xs p) j;
      li ← getitem (Lambda_matrix p) i;
      lij ← getitem li j;
      Ok (tot + xj * lij)) (cmps p) 0
  = Ok (xj_Lambda p i).
Proof.
  intros Hwf Hi.
  rewrite (for_acc_sum _ (λ j, x p j * Lambda p i j)).
  - unfold xj_Lambda. rewrite Rsum_eq. f_equal. unfold cmps. lra.
  - intros a j Hj%in_cmps.
    rewrite getitem_x, bind_Ok by assumption.
    rewrite getitem_Lambda_row, bind_Ok by assumption.
    rewrite getitem_Lambda, bind_Ok by assumption. reflexivity.
Qed.

Lemma xj_Lambda_ijs_run (self : Wilson) :
  wf self → 0 < T self → consistent self →
  xj_Lambda_ijs self = (Ok (xj_Lambda_vector self), xj_Lambda_ijs_post self).
Proof.
  intros Hwf HT Hc. unfold xj_Lambda_ijs, xj_Lambda_ijs_post, cached at 1.
  destruct (_xj_Lambda_ijs self) as [v|] eqn:E.
  - now rewrite (c_xj _ Hc v E).
  - rewrite run_bind.
    rewrite cached_lambdas.
    rewrite lambdas_run by assumption.
    mrun. unfold store_loop. rewrite lambdas_post_model.
    rewrite (append_loop_map _ (xj_Lambda self)); [reflexivity|].
    intros i Hi%in_cmps. now apply row_sum_loop.
Qed.

Lemma xj_Lambda_ijs_post_consistent self :
  consistent self → consistent (xj_Lambda_ijs_post self).
Proof.
  intros H. unfold xj_Lambda_ijs_post.
  destruct (_xj_Lambda_ijs self) eqn:E; [exact H|].
  apply lambdas_post_consistent in H. rewrite <- (lambdas_post_model self).
  destruct H. constructor; cbn; try assumption. now intros v [= <-].
Qed.

Lemma xj_Lambda_ijs_post_cached self :
  consistent self →
  _lambdas (xj_Lambda_ijs_post self) = _lambdas (lambdas_post self) ∨
  _lambdas (xj_Lambda_ijs_post self) = _lambdas self.
Proof.
  intros H. unfold xj_Lambda_ijs_post.
  destruct (_xj_Lambda_ijs self); [now right|now left].
Qed.

Lemma bounded_forall_dec (P : nat → Prop) (n : nat) :
  (∀ i, {P i} + {¬ P i}) →
  {∀ i, (i < n)%nat → P i} + {∃ i, (i < n)%nat ∧ ¬ P i}.
Proof.
  intros dec. induction n as [|n [IH|IH]].
  - left. intros i Hi. lia.
  - destruct (dec n) as [Hn|Hn].
    + left. intros i Hi. destruct (Nat.eq_dec i n) as [->|]; [exact Hn|].
      apply IH. lia.
    + right. exists n. split; [lia|exact Hn].
  - right. destruct IH as [i [Hi Hn]]. exists i. split; [lia|exact Hn].
Qed.

Lemma all_positive_dec (p : params) :
  {all_positive p} + {∃ i, (i < N p)%nat ∧ ¬ 0 < xj_Lambda p i}.
Proof. apply bounded_forall_dec. intros i. apply Rlt_dec. Qed.

Lemma all_nonzero_dec (p : params) :
  {all_nonzero p} + {∃ i, (i < N p)%nat ∧ ¬ xj_Lambda p i ≠ 0}.
Proof.
  apply bounded_forall_dec. intros i.
  destruct (Req_EM_T (xj_Lambda p i) 0); [right|left]; tauto.
Qed.

Lemma all_positive_nonzero (p : params) : all_positive p → all_nonzero p.
Proof. intros H i Hi. specialize (H i Hi). lra. Qed.

(** one pass of the outer loop of [GE] *)
Lemma GE_step (p : params) (main_tot : R) (i : nat) :
  wf p → (i < N p)%nat →
  (tot ← for_acc (λ tot j,
      xj ← getitem (xs p) j;
      li ← getitem (Lambda_matrix p) i;
      lij ← getitem li j;
      Ok (tot + xj * lij)) (cmps p) 0;
   xi ← getitem (xs p) i;
   l ← plog tot;
   Ok (main_tot + xi * l))
  = if Rlt_dec 0 (xj_Lambda p i)
    then Ok (main_tot + x p i * ln (xj_Lambda p i))
    else Raise (ValueError "math domain error").
Proof.
  intros Hwf Hi. rewrite row_sum_loop, bind_Ok by assumption.
  rewrite getitem_x, bind_Ok by assumption.
  unfold plog. now destruct (Rlt_dec 0 (xj_Lambda p i)).
Qed.

Lemma GE_fresh_positive (self : Wilson) :
  wf self → 0 < T self → consistent self → _GE self = None →
  all_positive self →
  GE self = (Ok (GE_formula self), GE_post self).
Proof.
  intros Hwf HT Hc Hnone Hpos. unfold GE, GE_post, cached. rewrite Hnone.
  rewrite run_bind; unfold getattr; cbn beta iota.
  rewrite run_bind, lambdas_run by assumption.
  rewrite run_bind; unfold lift.
  rewrite (for_acc_sum _ (λ i, x self i * ln (xj_Lambda self i))).
  - mrun.
    replace (- (0 + Rlist_sum (map (λ i, x self i * ln (xj_Lambda self i))
                                  (cmps self))) * Rgas * T self)
      with (GE_formula self); [reflexivity|].
    unfold GE_formula. rewrite Rsum_eq. unfold cmps. ring.
  - intros a i Hi%in_cmps. rewrite GE_step by assumption.
    destruct (Rlt_dec 0 (xj_Lambda self i)) as [_|Hn]; [reflexivity|].
    now destruct Hn; apply Hpos.
Qed.

Lemma GE_fresh_raise (self : Wilson) :
  wf self → 0 < T self → consistent self → _GE self = None →
  ¬ all_positive self →
  GE self = (Raise (ValueError "math domain error"), lambdas_post self).
Proof.
  intros Hwf HT Hc Hnone Hneg. unfold GE, cached. rewrite Hnone.
  rewrite run_bind; unfold getattr; cbn beta iota.
  rewrite run_bind, lambdas_run by assumption.
  rewrite run_bind; unfold lift.
  rewrite (for_acc_raise _ (λ i, x self i * ln (xj_Lambda self i))
             (ValueError "math domain error")); [reflexivity| |].
  - intros a i Hi%in_cmps. rewrite GE_step by assumption.
    destruct (Rlt_dec 0 (xj_Lambda self i)); [now left|now right].
  - destruct (all_positive_dec self) as [Hp|[i [Hi Hn]]]; [contradiction|].
    exists i. split; [now apply in_cmps|]. intros a.
    rewrite GE_step by assumption.
    now destruct (Rlt_dec 0 (xj_Lambda self i)).
Qed.

Lemma GE_post_consistent self :
  consistent self → all_positive self → consistent (GE_post self).
Proof.
  intros H Hpos. unfold GE_post. destruct (_GE self) eqn:E; [exact H|].
  apply lambdas_post_consistent in H. rewrite <- (lambdas_post_model self).
  destruct H. constructor; cbn; try assumption.
  intros v [= <-]. split; [reflexivity|].
  now rewrite lambdas_post_model.
Qed.

(** Whatever [GE] returns is the closed formula. *)
Lemma GE_returns (self : Wilson) (g : R) (self' : Wilson) :
  wf self → 0 < T self → consistent self →
  GE self = (Ok g, self') → g = GE_formula self ∧ all_positive self.
Proof.
  intros Hwf HT Hc Hrun.
  destruct (_GE self) as [v|] eqn:E.
  - unfold GE, cached in Hrun. rewrite E in Hrun.
    injection Hrun as <- _. now apply (c_GE _ Hc).
  - destruct (all_positive_dec self) as [Hp|[i [Hi Hn]]].
    + rewrite GE_fresh_positive in Hrun by assumption.
      injection Hrun as <- _. now split.
    + rewrite GE_fresh_raise in Hrun; [discriminate|assumption..|].
      intros Hp. apply Hn, Hp, Hi.
Qed.

Lemma GE_run (self : Wilson) :
  wf self → 0 < T self → consistent self → all_positive self →
  GE self = (Ok (GE_formula self), GE_post self).
Proof.
  intros Hwf HT Hc Hp. destruct (_GE self) as [v|] eqn:E.
  - unfold GE, GE_post, cached. rewrite E.
    now destruct (c_GE _ Hc v E) as [-> _].
  - now apply GE_fresh_positive.
Qed.

(** *** Reciprocal row sums and activity coefficients *)

Lemma inv_comprehension_ok (p : params) :
  all_nonzero p →
  comprehension (λ x, pdiv 1 x) (xj_Lambda_vector p) = Ok (xj_Lambda_inv_vector p).
Proof.
  intros Hnz. unfold xj_Lambda_vector. rewrite comprehension_fmap.
  apply comprehension_map. intros i Hi%in_cmps. unfold pdiv.
  destruct (Req_EM_T (xj_Lambda p i) 0) as [E|_]; [|reflexivity].
  now destruct (Hnz i Hi).
Qed.

Lemma inv_comprehension_raise (p : params) :
  ¬ all_nonzero p →
  comprehension (λ x, pdiv 1 x) (xj_Lambda_vector p) = Raise ZeroDivisionError.
Proof.
  intros Hz. unfold xj_Lambda_vector. rewrite comprehension_fmap.
  apply (comprehension_raise _ (λ i, 1 / xj_Lambda p i)).
  - intros i _. unfold pdiv. destruct (Req_EM_T (xj_Lambda p i) 0); auto.
  - destruct (all_nonzero_dec p) as [Hp|[i [Hi Hn]]]; [contradiction|].
    exists i. split; [now apply in_cmps|]. unfold pdiv.
    destruct (Req_EM_T (xj_Lambda p i) 0); [reflexivity|contradiction].
Qed.

Lemma cached_xj_Lambda_ijs self :
  cached _xj_Lambda_ijs xj_Lambda_ijs self = xj_Lambda_ijs self.
Proof. unfold xj_Lambda_ijs. apply cached_idem. Qed.

Lemma cached_xj_Lambda_ijs_inv self :
  cached _xj_Lambda_ijs_inv xj_Lambda_ijs_inv self = xj_Lambda_ijs_inv self.
Proof. unfold xj_Lambda_ijs_inv. apply cached_idem. Qed.

Lemma xj_Lambda_ijs_inv_run (self : Wilson) :
  wf self → 0 < T self → consistent self → all_nonzero self →
  xj_Lambda_ijs_inv self = (Ok (xj_Lambda_inv_vector self), xj_Lambda_ijs_inv_post self).
Proof.
  intros Hwf HT Hc Hnz. unfold xj_Lambda_ijs_inv, xj_Lambda_ijs_inv_post, cached at 1.
  destruct (_xj_Lambda_ijs_inv self) as [v|] eqn:E.
  - now destruct (c_inv _ Hc v E) as [-> _].
  - rewrite run_bind, cached_xj_Lambda_ijs, xj_Lambda_ijs_run by assumption.
    rewrite run_bind; unfold lift.
    rewrite inv_comprehension_ok by assumption. now mrun.
Qed.

Lemma xj_Lambda_ijs_inv_raise (self : Wilson) :
  wf self → 0 < T self → consistent self → ¬ all_nonzero self →
  xj_Lambda_ijs_inv self = (Raise ZeroDivisionError, xj_Lambda_ijs_post self).
Proof.
  intros Hwf HT Hc Hz. unfold xj_Lambda_ijs_inv, cached at 1.
  destruct (_xj_Lambda_ijs_inv self) as [v|] eqn:E.
  - now destruct (c_inv _ Hc v E) as [_ Hnz].
  - rewrite run_bind, cached_xj_Lambda_ijs, xj_Lambda_ijs_run by assumption.
    rewrite run_bind; unfold lift.
    now rewrite inv_comprehension_raise.
Qed.

Lemma xj_Lambda_ijs_inv_post_consistent self :
  consistent self → all_nonzero self → consistent (xj_Lambda_ijs_inv_post self).
Proof.
  intros H Hnz. unfold xj_Lambda_ijs_inv_post.
  destruct (_xj_Lambda_ijs_inv self) eqn:E; [exact H|].
  apply xj_Lambda_ijs_post_consistent in H.
  rewrite <- (xj_Lambda_ijs_post_model self).
  destruct H. constructor; cbn; try assumption.
  intros v [= <-]. split; [reflexivity|].
  now rewrite xj_Lambda_ijs_post_model.
Qed.

Lemma getitem_inv (p : params) (i : nat) :
  (i < N p)%nat → getitem (xj_Lambda_inv_vector p) i = Ok (1 / xj_Lambda p i).
Proof. intros Hi. unfold xj_Lambda_inv_vector, cmps. now rewrite getitem_map_seq. Qed.

Lemma getitem_xj (p : params) (i : nat) :
  (i < N p)%nat → getitem (xj_Lambda_vector p) i = Ok (xj_Lambda p i).
Proof. intros Hi. unfold xj_Lambda_vector, cmps. now rewrite getitem_map_seq. Qed.

(** the two comprehensions of [gammas] *)
Lemma gammas_body (p : params) :
  wf p →
  (xj_over_xj_Lambda_ijs ← comprehension (λ j,
      xj ← getitem (xs p) j;
      vj ← getitem (xj_Lambda_inv_vector p) j;
      Ok (xj * vj)) (cmps p);
   comprehension (λ i,
      tot2 ← for_acc (λ tot2 j,
        lj ← getitem (Lambda_matrix p) j;
        lji ← getitem lj i;
        oj ← getitem xj_over_xj_Lambda_ijs j;
        Ok (tot2 - lji * oj)) (cmps p) 1;
      vi ← getitem (xj_Lambda_inv_vector p) i;
      Ok (exp tot2 * vi)) (cmps p))
  = Ok (gamma_vector p).
Proof.
  intros Hwf.
  rewrite (comprehension_map _ (λ j, x p j * (1 / xj_Lambda p j))).
  2:{ intros j Hj%in_cmps. rewrite getitem_x, bind_Ok by assumption.
      now rewrite getitem_inv, bind_Ok. }
  rewrite bind_Ok. apply comprehension_map. intros i Hi%in_cmps.
  rewrite (for_acc_sum _ (λ j, - (Lambda p j i * x p j / xj_Lambda p j))).
  2:{ intros a j Hj%in_cmps.
      rewrite getitem_Lambda_row, bind_Ok by assumption.
      rewrite getitem_Lambda, bind_Ok by assumption.
      unfold cmps. rewrite getitem_map_seq, bind_Ok by assumption.
      f_equal. unfold Rdiv. ring. }
  rewrite bind_Ok, getitem_inv, bind_Ok by assumption.
  unfold gamma_formula. do 3 f_equal.
  rewrite Rsum_eq.
  rewrite (Rlist_sum_ext _ (λ j, -1 * (Lambda p j i * x p j / xj_Lambda p j)))
    by (intros; ring).
  rewrite Rlist_sum_scal. unfold cmps. ring.
Qed.

Lemma gammas_run (self : Wilson) :
  wf self → 0 < T self → consistent self → all_nonzero self →
  gammas self = (Ok (gamma_vector self), xj_Lambda_ijs_inv_post (lambdas_post self)).
Proof.
  intros Hwf HT Hc Hnz. unfold gammas.
  rewrite run_bind; unfold getattr; cbn beta iota.
  rewrite run_bind, cached_lambdas, lambdas_run by assumption.
  assert (Hc' := lambdas_post_consistent _ Hc).
  rewrite run_bind, cached_xj_Lambda_ijs_inv.
  rewrite xj_Lambda_ijs_inv_run; rewrite ?lambdas_post_model; try assumption.
  rewrite run_bind; unfold lift.
  pose proof (gammas_body self Hwf) as Hb.
  destruct (comprehension _ (cmps self)) as [o|e] eqn:Ho; [|discriminate].
  rewrite bind_Ok in Hb. now rewrite Hb.
Qed.

Lemma gammas_raise (self : Wilson) :
  wf self → 0 < T self → consistent self → ¬ all_nonzero self →
  gammas self = (Raise ZeroDivisionError, xj_Lambda_ijs_post (lambdas_post self)).
Proof.
  intros Hwf HT Hc Hz. unfold gammas.
  rewrite run_bind; unfold getattr; cbn beta iota.
  rewrite run_bind, cached_lambdas, lambdas_run by assumption.
  assert (Hc' := lambdas_post_consistent _ Hc).
  rewrite run_bind, cached_xj_Lambda_ijs_inv.
  rewrite xj_Lambda_ijs_inv_raise; rewrite ?lambdas_post_model; try assumption.
  reflexivity.
Qed.


(** *** ln γ_i and the excess Gibbs energy *)


Lemma weighted_column_sum (p : params) :
  all_nonzero p →
  Rsum (N p) (λ i, Rsum (N p) (λ j, x p i * (Lambda p j i * x p j / xj_Lambda p j)))
  = Rsum (N p) (x p).
Proof.
  intros Hnz. rewrite Rsum_swap. apply Rsum_ext. intros j Hj.
  rewrite (Rsum_ext _ _ (λ i, x p j / xj_Lambda p j * (x p i * Lambda p j i)))
    by (intros; unfold Rdiv; ring).
  rewrite Rsum_scal. fold (xj_Lambda p j). field. now apply Hnz.
Qed.


(** *** Composition derivatives *)

Ltac eval_items :=
  repeat first
    [ rewrite bind_Ok
    | rewrite getitem_x by assumption
    | rewrite getitem_Lambda_row by assumption
    | rewrite getitem_Lambda by assumption
    | rewrite getitem_xj by assumption
    | rewrite getitem_inv by assumption ];
  cbn zeta.

(** one entry of the Hessian loop *)
Lemma d2GE_entry (p : params) (k m : nat) :
  wf p → (k < N p)%nat → (m < N p)%nat → all_nonzero p →
  (tot ← for_acc (λ tot i,
      xi ← getitem (xs p) i;
      li ← getitem (Lambda_matrix p) i;
      lik ← getitem li k;
      lim ← getitem li m;
      si ← getitem (xj_Lambda_vector p) i;
      q ← pdiv (xi * lik * lim) (si * si);
      Ok (tot + q)) (cmps p) 0;
   lk ← getitem (Lambda_matrix p) k;
   lkm ← getitem lk m;
   sk ← getitem (xj_Lambda_vector p) k;
   q1 ← pdiv lkm sk;
   let tot := tot - q1 in
   lm ← getitem (Lambda_matrix p) m;
   lmk ← getitem lm k;
   sm ← getitem (xj_Lambda_vector p) m;
   q2 ← pdiv lmk sm;
   let tot := tot - q2 in
   Ok (Rgas * T p * tot))
  = Ok (d2GE_formula p k m).
Proof.
  intros Hwf Hk Hm Hnz.
  rewrite (for_acc_sum _
    (λ i, x p i * Lambda p i k * Lambda p i m / (xj_Lambda p i)²)).
  2:{ intros a i Hi%in_cmps.
      rewrite getitem_x, bind_Ok by assumption.
      rewrite getitem_Lambda_row, bind_Ok by assumption.
      rewrite !getitem_Lambda, ?bind_Ok by assumption.
      rewrite getitem_xj, bind_Ok by assumption.
      unfold pdiv.
      destruct (Req_EM_T (xj_Lambda p i * xj_Lambda p i) 0) as [E|_];
        [|reflexivity].
      apply Rmult_integral in E. specialize (Hnz i Hi). tauto. }
  eval_items. unfold pdiv.
  destruct (Req_EM_T (xj_Lambda p k) 0) as [E|_]; [now destruct (Hnz k Hk)|].
  eval_items.
  destruct (Req_EM_T (xj_Lambda p m) 0) as [E|_]; [now destruct (Hnz m Hm)|].
  eval_items. unfold d2GE_formula. rewrite Rsum_eq. unfold cmps.
  f_equal. ring.
Qed.

Lemma d2GE_entry_raise (p : params) (k m : nat) :
  wf p → (k < N p)%nat → (m < N p)%nat → ¬ all_nonzero p →
  (tot ← for_acc (λ tot i,
      xi ← getitem (xs p) i;
      li ← getitem (Lambda_matrix p) i;
      lik ← getitem li k;
      lim ← getitem li m;
      si ← getitem (xj_Lambda_vector p) i;
      q ← pdiv (xi * lik * lim) (si * si);
      Ok (tot + q)) (cmps p) 0;
   lk ← getitem (Lambda_matrix p) k;
   lkm ← getitem lk m;
   sk ← getitem (xj_Lambda_vector p) k;
   q1 ← pdiv lkm sk;
   let tot := tot - q1 in
   lm ← getitem (Lambda_matrix p) m;
   lmk ← getitem lm k;
   sm ← getitem (xj_Lambda_vector p) m;
   q2 ← pdiv lmk sm;
   let tot := tot - q2 in
   Ok (Rgas * T p * tot))
  = Raise ZeroDivisionError.
Proof.
  intros Hwf Hk Hm Hz.
  assert (Hstep : ∀ a i, (i < N p)%nat →
    (xi ← getitem (xs p) i;
     li ← getitem (Lambda_matrix p) i;
     lik ← getitem li k;
     lim ← getitem li m;
     si ← getitem (xj_Lambda_vector p) i;
     q ← pdiv (xi * lik * lim) (si * si);
     Ok (a + q))
    = if Req_EM_T (xj_Lambda p i) 0 then Raise ZeroDivisionError
      else Ok (a + x p i * Lambda p i k * Lambda p i m / (xj_Lambda p i)²)).
  { intros a i Hi.
    rewrite getitem_x, bind_Ok by assumption.
    rewrite getitem_Lambda_row, bind_Ok by assumption.
    rewrite !getitem_Lambda, ?bind_Ok by assumption.
    rewrite getitem_xj, bind_Ok by assumption.
    unfold pdiv.
    destruct (Req_EM_T (xj_Lambda p i * xj_Lambda p i) 0) as [E|E];
      destruct (Req_EM_T (xj_Lambda p i) 0) as [E'|E']; try reflexivity.
    - apply Rmult_integral in E. tauto.
    - rewrite E' in E. lra. }
  rewrite (for_acc_raise _
    (λ i, x p i * Lambda p i k * Lambda p i m / (xj_Lambda p i)²)
    ZeroDivisionError); [reflexivity| |].
  - intros a i Hi%in_cmps. rewrite Hstep by assumption.
    destruct (Req_EM_T (xj_Lambda p i) 0); auto.
  - destruct (all_nonzero_dec p) as [Hp|[i [Hi Hn]]]; [contradiction|].
    exists i. split; [now apply in_cmps|]. intros a.
    rewrite Hstep by assumption.
    destruct (Req_EM_T (xj_Lambda p i) 0); [reflexivity|contradiction].
Qed.

Lemma d2GE_dxixjs_fresh (self : Wilson) :
  wf self → 0 < T self → consistent self → _d2GE_dxixjs self = None →
  all_nonzero self →
  d2GE_dxixjs self = (Ok (d2GE_matrix self), d2GE_dxixjs_post self).
Proof.
  intros Hwf HT Hc Hnone Hnz. unfold d2GE_dxixjs, d2GE_dxixjs_post, cached.
  rewrite Hnone.
  rewrite run_bind; unfold getattr; cbn beta iota.
  rewrite run_bind, lambdas_run by assumption.
  assert (Hc' := lambdas_post_consistent _ Hc).
  rewrite run_bind, xj_Lambda_ijs_run; rewrite ?lambdas_post_model; try assumption.
  unfold store_loop.
  rewrite (append_loop_map _
    (λ k, map (λ m, d2GE_formula self k m) (cmps self))); [reflexivity|].
  intros k Hk%in_cmps. apply comprehension_map. intros m Hm%in_cmps.
  now apply d2GE_entry.
Qed.

(** When some row sum is zero the very first entry raises, after the
    attribute was bound to the still empty list. *)
Lemma d2GE_dxixjs_fresh_raise (self : Wilson) :
  wf self → 0 < T self → consistent self → _d2GE_dxixjs self = None →
  ¬ all_nonzero self →
  d2GE_dxixjs self
  = (Raise ZeroDivisionError,
     set_d2GE_dxixjs [] (xj_Lambda_ijs_post (lambdas_post self))).
Proof.
  intros Hwf HT Hc Hnone Hz. unfold d2GE_dxixjs, cached.
  rewrite Hnone.
  rewrite run_bind; unfold getattr; cbn beta iota.
  rewrite run_bind, lambdas_run by assumption.
  assert (Hc' := lambdas_post_consistent _ Hc).
  rewrite run_bind, xj_Lambda_ijs_run; rewrite ?lambdas_post_model; try assumption.
  unfold store_loop.
  assert (HN : (0 < N self)%nat).
  { destruct (all_nonzero_dec self) as [Hp|[i [Hi _]]]; [contradiction|lia]. }
  unfold cmps at 3. destruct (N self) as [|n] eqn:EN; [lia|].
  cbn [seq]. rewrite (append_loop_raise_first _ ZeroDivisionError); [reflexivity|].
  apply (comprehension_raise _ (λ m, d2GE_formula self 0 m)).
  - intros m Hm%in_cmps. right. apply d2GE_entry_raise; try assumption. lia.
  - exists 0%nat. split; [apply in_cmps; lia|].
    apply d2GE_entry_raise; try assumption; lia.
Qed.

(** one entry of the third-derivative loop *)
Lemma d3GE_entry (p : params) (k m n : nat) :
  wf p → (k < N p)%nat → (m < N p)%nat → (n < N p)%nat → all_nonzero p →
  (tot ← for_acc (λ tot i,
      xi ← getitem (xs p) i;
      li ← getitem (Lambda_matrix p) i;
      lik ← getitem li k;
      lim ← getitem li m;
      lin ← getitem li n;
      let num := 2 * xi * lik * lim * lin in
      vi ← getitem (xj_Lambda_inv_vector p) i;
      let den := vi * vi * vi in
      Ok (tot + num * den)) (cmps p) 0;
   lk ← getitem (Lambda_matrix p) k;
   lkm ← getitem lk m;
   lkn ← getitem lk n;
   vk ← getitem (xj_Lambda_inv_vector p) k;
   let tot := tot - lkm * lkn * vk * vk in
   lm ← getitem (Lambda_matrix p) m;
   lmk ← getitem lm k;
   lmn ← getitem lm n;
   vm ← getitem (xj_Lambda_inv_vector p) m;
   let tot := tot - lmk * lmn * vm * vm in
   ln' ← getitem (Lambda_matrix p) n;
   lnm ← getitem ln' m;
   lnk ← getitem ln' k;
   vn ← getitem (xj_Lambda_inv_vector p) n;
   let tot := tot - lnm * lnk * vn * vn in
   Ok (- Rgas * T p * tot))
  = Ok (d3GE_formula p k m n).
Proof.
  intros Hwf Hk Hm Hn Hnz.
  rewrite (for_acc_sum _
    (λ i, 2 * x p i * Lambda p i k * Lambda p i m * Lambda p i n
          / (xj_Lambda p i * xj_Lambda p i * xj_Lambda p i))).
  2:{ intros a i Hi%in_cmps. eval_items. f_equal. field. now apply Hnz. }
  eval_items. unfold d3GE_formula. rewrite Rsum_eq. unfold cmps, Rsqr.
  f_equal. field. auto.
Qed.

Lemma d3GE_dxixjxks_fresh (self : Wilson) :
  wf self → 0 < T self → consistent self → _d3GE_dxixjxks self = None →
  all_nonzero self →
  d3GE_dxixjxks self = (Ok (d3GE_tensor self), d3GE_dxixjxks_post self).
Proof.
  intros Hwf HT Hc Hnone Hnz. unfold d3GE_dxixjxks, d3GE_dxixjxks_post, cached.
  rewrite Hnone.
  rewrite run_bind; unfold getattr; cbn beta iota.
  rewrite run_bind, lambdas_run by assumption.
  assert (Hc' := lambdas_post_consistent _ Hc).
  rewrite run_bind, xj_Lambda_ijs_run; rewrite ?lambdas_post_model; try assumption.
  rewrite run_bind; unfold lift. rewrite inv_comprehension_ok by assumption.
  unfold store_loop.
  rewrite (append_loop_map _
    (λ k, map (λ m, map (λ n, d3GE_formula self k m n) (cmps self)) (cmps self)));
    [reflexivity|].
  intros k Hk%in_cmps. apply comprehension_map. intros m Hm%in_cmps.
  apply comprehension_map. intros n Hn%in_cmps.
  now apply d3GE_entry.
Qed.

Lemma d3GE_dxixjxks_fresh_raise (self : Wilson) :
  wf self → 0 < T self → consistent self → _d3GE_dxixjxks self = None →
  ¬ all_nonzero self →
  d3GE_dxixjxks self
  = (Raise ZeroDivisionError, xj_Lambda_ijs_post (lambdas_post self)).
Proof.
  intros Hwf HT Hc Hnone Hz. unfold d3GE_dxixjxks, cached.
  rewrite Hnone.
  rewrite run_bind; unfold getattr; cbn beta iota.
  rewrite run_bind, lambdas_run by assumption.
  assert (Hc' := lambdas_post_consistent _ Hc).
  rewrite run_bind, xj_Lambda_ijs_run; rewrite ?lambdas_post_model; try assumption.
  rewrite run_bind; unfold lift. now rewrite inv_comprehension_raise.
Qed.






Lemma item2_matrix (p : params) (k m : nat) :
  item2 (d2GE_matrix p) k m
  = if decide ((k < N p)%nat ∧ (m < N p)%nat) then Some (d2GE_formula p k m)
    else None.
Proof.
  unfold item2, d2GE_matrix, cmps. rewrite list_lookup_fmap.
  destruct (decide (k < N p)%nat) as [Hk|Hk].
  - rewrite lookup_seq_lt by assumption. cbn. rewrite list_lookup_fmap.
    destruct (decide (m < N p)%nat) as [Hm|Hm].
    + rewrite lookup_seq_lt by assumption. cbn.
      destruct (decide _) as [_|Hn]; [reflexivity|tauto].
    + rewrite lookup_seq_ge by lia. cbn.
      destruct (decide _) as [[_ Hn]|_]; [contradiction|reflexivity].
  - rewrite lookup_seq_ge by lia. cbn.
    destruct (decide _) as [[Hn _]|_]; [contradiction|reflexivity].
Qed.

Lemma item3_tensor (p : params) (k m n : nat) :
  item3 (d3GE_tensor p) k m n
  = if decide ((k < N p)%nat ∧ (m < N p)%nat ∧ (n < N p)%nat)
    then Some (d3GE_formula p k m n) else None.
Proof.
  unfold item3, item2, d3GE_tensor, cmps. rewrite list_lookup_fmap.
  destruct (decide (k < N p)%nat) as [Hk|Hk].
  - rewrite lookup_seq_lt by assumption. cbn. rewrite list_lookup_fmap.
    destruct (decide (m < N p)%nat) as [Hm|Hm].
    + rewrite lookup_seq_lt by assumption. cbn. rewrite list_lookup_fmap.
      destruct (decide (n < N p)%nat) as [Hn|Hn].
      * rewrite lookup_seq_lt by assumption. cbn.
        destruct (decide _) as [_|Hx]; [reflexivity|tauto].
      * rewrite lookup_seq_ge by lia. cbn.
        destruct (decide _) as [Hx|_]; [tauto|reflexivity].
    + rewrite lookup_seq_ge by lia. cbn.
      destruct (decide _) as [Hx|_]; [tauto|reflexivity].
  - rewrite lookup_seq_ge by lia. cbn.
    destruct (decide _) as [Hx|_]; [tauto|reflexivity].
Qed.

(** C4: for a well-formed Wilson state with T > 0, [lambdas] returns the
    matrix whose (i,j) entry is
    exp(A_ij + B_ij/T + C_ij ln T + D_ij T + E_ij/T² + F_ij T²); whatever
    [GE] returns equals −R T Σ_i x_i ln(Σ_j x_j Λ_ij) with R = 8.314462618,
    and [GE] does return whenever every row sum Σ_j x_j Λ_ij is positive
    (otherwise [math.log] raises). *)
Theorem C4_lambdas_GE (self : Wilson) :
  wf self → consistent self → 0 < T self →
  (∃ L self', lambdas self = (Ok L, self') ∧
     ∀ i j, (i < N self)%nat → (j < N self)%nat →
       item2 L i j =
       Some (exp (entry (lambda_coeffs_A self) i j
                  + entry (lambda_coeffs_B self) i j / T self
                  + entry (lambda_coeffs_C self) i j * ln (T self)
                  + entry (lambda_coeffs_D self) i j * T self
                  + entry (lambda_coeffs_E self) i j / (T self)²
                  + entry (lambda_coeffs_F self) i j * (T self)²)))
  ∧ (∀ g self', GE self = (Ok g, self') →
       g = - (8314462618 / 1000000000) * T self
           * Rsum (N self) (λ i, x self i
               * ln (Rsum (N self) (λ j, x self j * Lambda self i j))))
  ∧ ((∀ i, (i < N self)%nat →
        0 < Rsum (N self) (λ j, x self j * Lambda self i j)) →
     ∃ g self', GE self = (Ok g, self')).
Proof.
  intros Hwf Hc HT. split; [|split].
  - exists (Lambda_matrix self), (lambdas_post self).
    split; [now apply lambdas_run|].
    intros i j Hi Hj. unfold item2, Lambda_matrix, cmps.
    rewrite list_lookup_fmap, lookup_seq_lt by assumption. cbn.
    rewrite list_lookup_fmap, lookup_seq_lt by assumption. reflexivity.
  - intros g self' Hrun.
    now destruct (GE_returns self g self' Hwf HT Hc Hrun) as [-> _].
  - intros Hpos. exists (GE_formula self), (GE_post self).
    now apply GE_run.
Qed.



Lemma d2GE_dxixjs_run (self : Wilson) :
  wf self → 0 < T self → consistent self → all_nonzero self →
  d2GE_dxixjs self = (Ok (d2GE_matrix self), d2GE_dxixjs_post self).
Proof.
  intros Hwf HT Hc Hnz. destruct (_d2GE_dxixjs self) as [v|] eqn:E.
  - unfold d2GE_dxixjs, d2GE_dxixjs_post, cached. rewrite E.
    destruct (c_d2 _ Hc v E) as [[-> _]|[_ Hz]]; [reflexivity|contradiction].
  - now apply d2GE_dxixjs_fresh.
Qed.

Lemma d3GE_dxixjxks_run (self : Wilson) :
  wf self → 0 < T self → consistent self → all_nonzero self →
  d3GE_dxixjxks self = (Ok (d3GE_tensor self), d3GE_dxixjxks_post self).
Proof.
  intros Hwf HT Hc Hnz. destruct (_d3GE_dxixjxks self) as [v|] eqn:E.
  - unfold d3GE_dxixjxks, d3GE_dxixjxks_post, cached. rewrite E.
    now destruct (c_d3 _ Hc v E) as [-> _].
  - now apply d3GE_dxixjxks_fresh.
Qed.




(** *** The invariant holds for every reachable object *)

Lemma init_consistent T0 xs0 ABCDEF : consistent (__init__ T0 xs0 ABCDEF).
Proof.
  destruct ABCDEF as [[[[[A B] C] D] E] F].
  constructor; cbn; intros v Hv; discriminate.
Qed.

Lemma d2GE_dxixjs_post_consistent self :
  consistent self → all_nonzero self → consistent (d2GE_dxixjs_post self).
Proof.
  intros H Hnz. unfold d2GE_dxixjs_post.
  destruct (_d2GE_dxixjs self) eqn:E; [exact H|].
  apply lambdas_post_consistent, xj_Lambda_ijs_post_consistent in H.
  assert (Hm : model (xj_Lambda_ijs_post (lambdas_post self)) = model self)
    by now rewrite xj_Lambda_ijs_post_model, lambdas_post_model.
  rewrite <- Hm in *.
  destruct H. constructor; cbn; try assumption.
  intros v [= <-]. now left.
Qed.

Lemma d2GE_dxixjs_partial_consistent self :
  consistent self → ¬ all_nonzero self →
  consistent (set_d2GE_dxixjs [] (xj_Lambda_ijs_post (lambdas_post self))).
Proof.
  intros H Hz.
  apply lambdas_post_consistent, xj_Lambda_ijs_post_consistent in H.
  assert (Hm : model (xj_Lambda_ijs_post (lambdas_post self)) = model self)
    by now rewrite xj_Lambda_ijs_post_model, lambdas_post_model.
  rewrite <- Hm in *.
  destruct H. constructor; cbn; try assumption.
  intros v [= <-]. now right.
Qed.

Lemma d3GE_dxixjxks_post_consistent self :
  consistent self → all_nonzero self → consistent (d3GE_dxixjxks_post self).
Proof.
  intros H Hnz. unfold d3GE_dxixjxks_post.
  destruct (_d3GE_dxixjxks self) eqn:E; [exact H|].
  apply lambdas_post_consistent, xj_Lambda_ijs_post_consistent in H.
  assert (Hm : model (xj_Lambda_ijs_post (lambdas_post self)) = model self)
    by now rewrite xj_Lambda_ijs_post_model, lambdas_post_model.
  rewrite <- Hm in *.
  destruct H. constructor; cbn; try assumption.
  intros v [= <-]. now split.
Qed.

Lemma after_consistent (c : call) (self : Wilson) :
  wf self → 0 < T self → consistent self →
  model (after c self) = model self ∧ consistent (after c self).
Proof.
  intros Hwf HT Hc.
  assert (Hl := lambdas_post_consistent _ Hc).
  assert (Hx := xj_Lambda_ijs_post_consistent _ Hc).
  assert (Hlx := xj_Lambda_ijs_post_consistent _ Hl).
  destruct c; cbn [after].
  - rewrite lambdas_run by assumption. cbn. split;
      [apply lambdas_post_model|assumption].
  - rewrite xj_Lambda_ijs_run by assumption. cbn. split;
      [apply xj_Lambda_ijs_post_model|assumption].
  - destruct (all_nonzero_dec self) as [Hp|[i [Hi Hn]]].
    + rewrite xj_Lambda_ijs_inv_run by assumption. cbn. split;
        [apply xj_Lambda_ijs_inv_post_model
        |now apply xj_Lambda_ijs_inv_post_consistent].
    + rewrite xj_Lambda_ijs_inv_raise;
        [|assumption..|intros Hp; apply Hn, Hp, Hi].
      cbn. split; [apply xj_Lambda_ijs_post_model|assumption].
  - destruct (_GE self) as [v|] eqn:E.
    { unfold GE, cached. rewrite E. cbn. now split. }
    destruct (all_positive_dec self) as [Hp|[i [Hi Hn]]].
    + rewrite GE_run by assumption. cbn. split;
        [apply GE_post_model|now apply GE_post_consistent].
    + rewrite GE_fresh_raise;
        [|assumption..|intros Hp; apply Hn, Hp, Hi].
      cbn. split; [apply lambdas_post_model|assumption].
  - destruct (_d2GE_dxixjs self) as [v|] eqn:E.
    { unfold d2GE_dxixjs, cached. rewrite E. cbn. now split. }
    destruct (all_nonzero_dec self) as [Hp|[i [Hi Hn]]].
    + rewrite d2GE_dxixjs_fresh by assumption. cbn. split.
      * unfold d2GE_dxixjs_post. rewrite E. cbn.
        now rewrite xj_Lambda_ijs_post_model, lambdas_post_model.
      * now apply d2GE_dxixjs_post_consistent.
    + assert (Hz : ¬ all_nonzero self) by (intros Hp; apply Hn, Hp, Hi).
      rewrite d2GE_dxixjs_fresh_raise by assumption. cbn. split.
      * now rewrite xj_Lambda_ijs_post_model, lambdas_post_model.
      * now apply d2GE_dxixjs_partial_consistent.
  - destruct (_d3GE_dxixjxks self) as [v|] eqn:E.
    { unfold d3GE_dxixjxks, cached. rewrite E. cbn. now split. }
    destruct (all_nonzero_dec self) as [Hp|[i [Hi Hn]]].
    + rewrite d3GE_dxixjxks_fresh by assumption. cbn. split.
      * unfold d3GE_dxixjxks_post. rewrite E. cbn.
        now rewrite xj_Lambda_ijs_post_model, lambdas_post_model.
      * now apply d3GE_dxixjxks_post_consistent.
    + assert (Hz : ¬ all_nonzero self) by (intros Hp; apply Hn, Hp, Hi).
      rewrite d3GE_dxixjxks_fresh_raise by assumption. cbn. split.
      * now rewrite xj_Lambda_ijs_post_model, lambdas_post_model.
      * assumption.
  - destruct (all_nonzero_dec self) as [Hp|[i [Hi Hn]]].
    + rewrite gammas_run by assumption. cbn. split.
      * now rewrite xj_Lambda_ijs_inv_post_model, lambdas_post_model.
      * apply xj_Lambda_ijs_inv_post_consistent; [assumption|].
        now rewrite lambdas_post_model.
    + assert (Hz : ¬ all_nonzero self) by (intros Hp; apply Hn, Hp, Hi).
      rewrite gammas_raise by assumption. cbn. split.
      * now rewrite xj_Lambda_ijs_post_model, lambdas_post_model.
      * assumption.
Qed.

(** Every object obtained from the constructor by any sequence of calls,
    returning or raising, is consistent and keeps its parameters. *)
Lemma reachable_consistent T0 xs0 ABCDEF (self : Wilson) :
  wf (__init__ T0 xs0 ABCDEF) → 0 < T0 →
  reachable (__init__ T0 xs0 ABCDEF) self →
  model self = model (__init__ T0 xs0 ABCDEF) ∧ consistent self.
Proof.
  intros Hwf HT Hr. induction Hr as [|c s Hr [Hm Hc]].
  - split; [reflexivity|apply init_consistent].
  - assert (HT' : 0 < T s).
    { rewrite Hm. destruct ABCDEF as [[[[[A B] C] D] E] F]. exact HT. }
    assert (Hwf' : wf s) by now rewrite Hm.
    destruct (after_consistent c s Hwf' HT' Hc) as [Hm' Hc'].
    split; [congruence|assumption].
Qed.

Lemma example_wf : wf example.
Proof.
  constructor; cbn; try lia;
    (split; cbn; [lia|intros [|[|i]] Hi; cbn; lia]).
Qed.

Lemma example_consistent : consistent example.
Proof. apply init_consistent. Qed.

Lemma example_T : 0 < T example.
Proof. cbn. lra. Qed.

Lemma example_row_sum (i : nat) :
  xj_Lambda example i = 1 / 4 * Lambda example i 0 + 3 / 4 * Lambda example i 1.
Proof.
  unfold xj_Lambda, Rsum, Rlist_sum. cbn [example __init__ N model length].
  cbn [seq map fold_right]. unfold x. cbn [xs example __init__ model nth]. ring.
Qed.

Lemma example_positive : all_positive example.
Proof.
  intros i _. rewrite example_row_sum.
  pose proof (exp_pos) as Hexp. unfold Lambda.
  match goal with |- 0 < _ * exp ?a + _ * exp ?b =>
    pose proof (exp_pos a); pose proof (exp_pos b) end.
  lra.
Qed.

Lemma C4_lambdas_GE_witness :
  wf example ∧ consistent example ∧ 0 < T example ∧
  (∃ L self', lambdas example = (Ok L, self')) ∧
  (∃ g self', GE example = (Ok g, self')).
Proof.
  split; [exact example_wf|]. split; [exact example_consistent|].
  split; [exact example_T|].
  destruct (C4_lambdas_GE example example_wf example_consistent example_T)
    as [[L [self' [H _]]] [_ Hge]].
  split; [exists L, self'; exact H|].
  apply Hge. exact example_positive.
Defined.



End WilsonFacts.

(** * Facts about the pressure-dependent property registry *)

Module TPDependentPropertyFacts.
Import TPDependentProperty.
Local Open Scope R_scope.

Lemma Rltb_true (a b : R) : Rltb a b = true ↔ a < b.
Proof. unfold Rltb. destruct (Rlt_dec a b); split; intros; auto; discriminate. Qed.

Lemma Rltb_false (a b : R) : Rltb a b = false ↔ ¬ a < b.
Proof. unfold Rltb. destruct (Rlt_dec a b); split; intros; auto; try discriminate; tauto. Qed.

(** [increasing] decides [strictly_increasing]. *)
Lemma increasing_spec (l : list R) :
  increasing l = true ↔ strictly_increasing l.
Proof.
  unfold increasing, strictly_increasing.
  induction l as [|a [|b l] IH].
  - split; [intros _ i a b Hi|reflexivity]. destruct i; discriminate.
  - split; [intros _ i x y Hi Hj|reflexivity].
    destruct i; discriminate.
  - cbn [tail zip zip_with forallb fst snd] in *. rewrite andb_true_iff, Rltb_true, IH.
    split.
    + intros [Hab Hrest] [|i] x y Hi Hj.
      * cbn in Hi, Hj. now injection Hi as <-; injection Hj as <-.
      * apply (Hrest i); assumption.
    + intros Hall. split.
      * now apply (Hall 0%nat).
      * intros i x y Hi Hj. now apply (Hall (S i)).
Qed.

(** C8: assigning a name absent from [all_methods_P] raises ValueError and
    leaves the object, hence the selected method, as it was; an assignment
    that succeeds clears [TP_cached], records the method and changes no
    other attribute; names in the registry (and [None]) are accepted. *)
Theorem C8_method_P_setter (self : TPDependentProperty) :
  (∀ m, m ∉ all_methods_P self →
     set_method_P (Some m) self
     = (Raise (ValueError "The given methods is not available for this chemical"),
        self))
  ∧ (∀ v self', set_method_P v self = (Ok tt, self') →
       TP_cached self' = None ∧ method_P self' = v
       ∧ all_methods_P self' = all_methods_P self
       ∧ tabular_data_P self' = tabular_data_P self
       ∧ all_methods self' = all_methods self
       ∧ tabular_data self' = tabular_data self
       ∧ T_limits self' = T_limits self
       ∧ tabular_extrapolation_permitted self' = tabular_extrapolation_permitted self
       ∧ RAISE_PROPERTY_CALCULATION_ERROR self' = RAISE_PROPERTY_CALCULATION_ERROR self
       ∧ _method self' = _method self
       ∧ prop_cached self' = prop_cached self)
  ∧ (∀ m, m ∈ all_methods_P self →
       ∃ self', set_method_P (Some m) self = (Ok tt, self')).
Proof.
  split; [|split].
  - intros m Hm. unfold set_method_P, not_in_methods.
    now rewrite bool_decide_eq_false_2.
  - intros v self' Hrun. unfold set_method_P in Hrun.
    destruct (not_in_methods v (all_methods_P self) && is_not_None v);
      [discriminate|].
    injection Hrun as <-. cbn. repeat split.
  - intros m Hm. unfold set_method_P, not_in_methods.
    rewrite bool_decide_eq_true_2 by assumption. cbn. eauto.
Qed.

Lemma not_increasing (l : list R) : ¬ strictly_increasing l → increasing l = false.
Proof.
  intros Hn. destruct (increasing l) eqn:E; [|reflexivity].
  now apply increasing_spec in E.
Qed.

Lemma all_valid `{PropertyMethods} (l : list R) :
  forallb test_property_validity l = true
  ↔ ∀ p, p ∈ l → test_property_validity p = true.
Proof.
  rewrite forallb_forall. split; intros Hall p Hp; apply Hall.
  - now apply list_elem_of_In.
  - now apply list_elem_of_In.
Qed.

Lemma some_invalid `{PropertyMethods} (l : list R) :
  (∃ p, p ∈ l ∧ test_property_validity p = false) →
  forallb test_property_validity l = false.
Proof.
  intros [p [Hp Hv]]. destruct (forallb _ l) eqn:E; [|reflexivity].
  rewrite all_valid in E. rewrite (E p Hp) in Hv. discriminate.
Qed.

(** C9: an axis that is not strictly increasing, or (with checking on) a
    property value rejected by [test_property_validity], makes the call
    raise ValueError and leaves the object untouched; otherwise the data
    set is stored under its name ("Tabular data series #n" with n the number
    of entries of [tabular_data] when no name is given), the name joins
    [all_methods_P] and becomes the selected method. *)
Theorem C9_add_tabular_data_P `{PropertyMethods} (Ts Ps : list R)
    (properties : list (list R)) (name : option string)
    (check_properties : bool) (self : TPDependentProperty) :
  let n := match name with
           | Some n => n
           | None => "Tabular data series #" +:+ pretty (size (tabular_data self))
           end in
  (¬ strictly_increasing Ts ∨ ¬ strictly_increasing Ps →
     ∃ msg, add_tabular_data_P Ts Ps properties name check_properties self
            = (Raise (ValueError msg), self))
  ∧ (check_properties = true →
     (∃ p, p ∈ concat properties ∧ test_property_validity p = false) →
     ∃ msg, add_tabular_data_P Ts Ps properties name check_properties self
            = (Raise (ValueError msg), self))
  ∧ (strictly_increasing Ts → strictly_increasing Ps →
     (check_properties = true →
      ∀ p, p ∈ concat properties → test_property_validity p = true) →
     ∃ self', add_tabular_data_P Ts Ps properties name check_properties self
              = (Ok tt, self')
       ∧ tabular_data_P self' !! n = Some (Ts, Ps, properties)
       ∧ n ∈ all_methods_P self'
       ∧ method_P self' = Some n
       ∧ TP_cached self' = None
       ∧ all_methods_P self' = {[n]} ∪ all_methods_P self
       ∧ ∀ m, m ≠ n → tabular_data_P self' !! m = tabular_data_P self !! m).
Proof.
  intros n. split; [|split].
  - intros Hbad. unfold add_tabular_data_P.
    rewrite run_bind; unfold lift.
    destruct (if check_properties then _ else _) as [[]|e] eqn:Echeck.
    2:{ destruct check_properties; [|discriminate].
        destruct (forallb _ _); [discriminate|].
        injection Echeck as <-. eauto. }
    rewrite run_bind.
    destruct (increasing Ts) eqn:ETs; [|eauto].
    rewrite run_bind.
    destruct (increasing Ps) eqn:EPs; [|eauto].
    apply increasing_spec in ETs, EPs. tauto.
  - intros -> Hinv. unfold add_tabular_data_P.
    rewrite run_bind; unfold lift. rewrite some_invalid by assumption. eauto.
  - intros HTs HPs Hval. unfold add_tabular_data_P.
    apply increasing_spec in HTs, HPs.
    assert (Hcheck : (if check_properties then
              if forallb test_property_validity (concat properties) then Ok tt
              else Raise (ValueError "One of the properties specified are not feasible")
            else Ok tt) = Ok tt).
    { destruct check_properties; [|reflexivity].
      now rewrite (proj2 (all_valid _) (Hval eq_refl)). }
    rewrite run_bind; unfold lift. rewrite Hcheck.
    rewrite run_bind, HTs, run_bind, HPs.
    mrun. fold n. unfold set_method_P, not_in_methods. cbn [all_methods_P add_method_P].
    rewrite bool_decide_eq_true_2 by set_solver.
    cbn [negb andb]. eexists. split; [reflexivity|]. cbn.
    split; [apply lookup_insert_eq|].
    split; [set_solver|].
    split; [reflexivity|]. split; [reflexivity|]. split; [reflexivity|].
    intros m Hm. now apply lookup_insert_ne.
Qed.

Lemma TP_dependent_property_selected `{PropertyMethods}
    (self : TPDependentProperty) (T P : R) (m : string) :
  _method_P self = Some m →
  TP_dependent_property self T P
  = (valid ← test_method_validity_P self T P m;
     if (valid : bool) then
       match calculate_P T P m with
       | Raise _ =>
           if RAISE_PROPERTY_CALCULATION_ERROR self
           then Raise (RuntimeError EvaluationFailed)
           else Ok None
       | Ok prop =>
           if test_property_validity prop then Ok (Some prop)
           else if RAISE_PROPERTY_CALCULATION_ERROR self
           then Raise (RuntimeError InvalidValue)
           else Ok None
       end
     else if RAISE_PROPERTY_CALCULATION_ERROR self
     then Raise (RuntimeError MethodNotValid)
     else Ok None).
Proof. intros Hm. unfold TP_dependent_property. now rewrite Hm. Qed.

(** C7 (amended): with a selected method that is valid at (T, P) and whose
    evaluation succeeds, the result is returned when it passes
    [test_property_validity]; when it fails that check, when the method is
    not valid at (T, P) or when the evaluation raises, the call raises a
    calculation error if RAISE_PROPERTY_CALCULATION_ERROR is set and
    returns no value otherwise. *)
Theorem C7_TP_dependent_property `{PropertyMethods}
    (self : TPDependentProperty) (T P : R) (m : string) :
  _method_P self = Some m →
  (∀ prop, test_method_validity_P self T P m = Ok true →
     calculate_P T P m = Ok prop →
     TP_dependent_property self T P
     = if test_property_validity prop then Ok (Some prop)
       else if RAISE_PROPERTY_CALCULATION_ERROR self
       then Raise (RuntimeError InvalidValue) else Ok None)
  ∧ (∀ e, test_method_validity_P self T P m = Ok true →
     calculate_P T P m = Raise e →
     TP_dependent_property self T P
     = if RAISE_PROPERTY_CALCULATION_ERROR self
       then Raise (RuntimeError EvaluationFailed) else Ok None)
  ∧ (test_method_validity_P self T P m = Ok false →
     TP_dependent_property self T P
     = if RAISE_PROPERTY_CALCULATION_ERROR self
       then Raise (RuntimeError MethodNotValid) else Ok None).
Proof.
  intros Hm. rewrite (TP_dependent_property_selected self T P m Hm).
  split; [|split].
  - intros prop -> ->. reflexivity.
  - intros e -> ->. reflexivity.
  - intros ->. reflexivity.
Qed.

Lemma quiet_registry_valid :
  @test_method_validity_P negative_methods quiet_registry 300 100000 "CORRELATION"
  = Ok true.
Proof.
  unfold test_method_validity_P.
  cbn [tabular_data_P quiet_registry negative_methods NEGLECT_P all_methods_P
       T_limits _method].
  rewrite lookup_empty.
  rewrite bool_decide_eq_false_2 by discriminate.
  rewrite bool_decide_eq_true_2 by set_solver.
  rewrite lookup_singleton_eq.
  replace (Rltb 200 300) with true by (symmetry; apply Rltb_true; lra).
  replace (Rltb 300 500) with true by (symmetry; apply Rltb_true; lra).
  reflexivity.
Qed.

Lemma negative_value_invalid :
  @test_property_validity negative_methods (-1) = false.
Proof. cbn. apply Rltb_false. lra. Qed.

(** C7 as stated fails: the method is valid at (300 K, 1e5 Pa), its
    evaluation succeeds with −1, the value fails [test_property_validity],
    and the call returns no value instead of raising. *)
Lemma C7_counterexample :
  _method_P quiet_registry = Some "CORRELATION"
  ∧ @test_method_validity_P negative_methods quiet_registry 300 100000 "CORRELATION"
    = Ok true
  ∧ @calculate_P negative_methods 300 100000 "CORRELATION" = Ok (-1)
  ∧ @test_property_validity negative_methods (-1) = false
  ∧ @TP_dependent_property negative_methods quiet_registry 300 100000 = Ok None.
Proof.
  split; [reflexivity|]. split; [exact quiet_registry_valid|].
  split; [reflexivity|]. split; [exact negative_value_invalid|].
  unfold TP_dependent_property. cbn [_method_P quiet_registry].
  rewrite quiet_registry_valid. cbn [mbind result_bind rbind calculate_P negative_methods].
  rewrite negative_value_invalid. reflexivity.
Qed.

Lemma C7_TP_dependent_property_witness :
  _method_P quiet_registry = Some "CORRELATION"
  ∧ @TP_dependent_property negative_methods quiet_registry 300 100000 = Ok None.
Proof.
  split; [reflexivity|].
  destruct (@C7_TP_dependent_property negative_methods quiet_registry
              300 100000 "CORRELATION" eq_refl) as [Hv _].
  rewrite (Hv (-1) quiet_registry_valid eq_refl).
  rewrite negative_value_invalid. reflexivity.
Defined.

End TPDependentPropertyFacts.

(** * Facts about the cubic equation of state *)

Module EOSFacts.
Import EOS.
Local Open Scope R_scope.

(** ** The argument check of the constructor *)

Lemma args_never_rejected (T P V : option R) : args_rejected T P V = false.
Proof. reflexivity. Qed.

Lemma quiet_Ok {A} (a : A) : quiet (Ok a).
Proof. intros e H. discriminate. Qed.

Lemma quiet_Raise {A B} (e : exn) : quiet (@Raise A e) → quiet (@Raise B e).
Proof. intros H e' [= <-]. now apply (H e). Qed.

Lemma quiet_bind {A B} (m : result A) (k : A → result B) :
  quiet m → (∀ a, quiet (k a)) → quiet (m ≫= k).
Proof.
  intros Hm Hk e. destruct m as [a|e']; cbn.
  - apply Hk.
  - intros [= <-]. now apply Hm.
Qed.

Lemma quiet_pdiv x y : quiet (pdiv x y).
Proof. unfold pdiv. destruct (Req_EM_T y 0); intros e0 [= <-]; discriminate. Qed.
Lemma quiet_psqrt x : quiet (psqrt x).
Proof. unfold psqrt. destruct (Rle_dec 0 x); intros e0 [= <-]; discriminate. Qed.
Lemma quiet_plog x : quiet (plog x).
Proof. unfold plog. destruct (Rlt_dec 0 x); intros e0 [= <-]; discriminate. Qed.
Lemma quiet_ppow x y : quiet (ppow x y).
Proof.
  unfold ppow. destruct (Rlt_dec x 0); [|destruct (Req_EM_T x 0)];
    intros e0 [= <-]; discriminate.
Qed.
Lemma quiet_pow_half x : quiet (pow_half x).
Proof. unfold pow_half. destruct (Rlt_dec x 0); intros e0 [= <-]; discriminate. Qed.
Lemma quiet_Cdiv z w : quiet (Cdiv z w).
Proof. unfold Cdiv. destruct (Req_EM_T _ 0); intros e0 [= <-]; discriminate. Qed.
Lemma quiet_need o : quiet (need o).
Proof. destruct o; intros e0 [= <-]; discriminate. Qed.
Lemma quiet_as_float v : quiet (as_float v).
Proof. destruct v; intros e0 [= <-]; discriminate. Qed.
Lemma quiet_util o : quiet (util o).
Proof. destruct o; intros e0 [= <-]; discriminate. Qed.
Lemma quiet_catanh x : quiet (catanh_real x).
Proof.
  unfold catanh_real. destruct (Req_EM_T x 1); [|destruct (Req_EM_T x (-1))];
    intros e0 [= <-]; discriminate.
Qed.
Lemma quiet_getitem {A} (xs : list A) i : quiet (getitem xs i).
Proof. unfold getitem. destruct (xs !! i); intros e0 [= <-]; discriminate. Qed.

Ltac quiet :=
  repeat first
    [ apply quiet_Ok | apply quiet_pdiv | apply quiet_psqrt | apply quiet_plog
    | apply quiet_ppow | apply quiet_pow_half | apply quiet_Cdiv
    | apply quiet_need | apply quiet_as_float | apply quiet_util
    | apply quiet_catanh | apply quiet_getitem
    | apply quiet_bind; [|intros ?]
    | match goal with |- quiet (let (_, _) := ?p in _) => destruct p end
    | match goal with |- quiet (if ?c then _ else _) => destruct c end ].

Lemma quiet_all_V T P b a_alpha : quiet (all_V T P b a_alpha).
Proof.
  unfold all_V. destruct (Req_EM_T P 0); [intros e0 [= <-]; discriminate|].
  quiet.
Qed.

Lemma quiet_derivs `{Utils} T P V b a_alpha da d2a :
  quiet (derivs T P V b a_alpha da d2a).
Proof.
  unfold derivs, first_derivatives, second_derivatives, second_derivatives_mixed.
  quiet.
Qed.

Lemma quiet_extremum pick best rest : quiet (extremum pick best rest).
Proof.
  revert best. induction rest as [|v rest IH]; intros best; cbn [extremum].
  - apply quiet_Ok.
  - apply quiet_bind; [apply quiet_as_float|intros x].
    apply quiet_bind; [apply quiet_as_float|intros y]. apply IH.
Qed.

Lemma quiet_py_min Vs : quiet (py_min Vs).
Proof.
  destruct Vs; cbn; [intros e0 [= <-]; discriminate|apply quiet_extremum].
Qed.

Lemma quiet_py_max Vs : quiet (py_max Vs).
Proof.
  destruct Vs; cbn; [intros e0 [= <-]; discriminate|apply quiet_extremum].
Qed.

Lemma quiet_set_derivs_from_phase `{Utils} T P V b a_alpha da d2a st :
  quiet (set_derivs_from_phase T P V b a_alpha da d2a st).1.
Proof.
  unfold set_derivs_from_phase. rewrite run_bind. unfold lift.
  pose proof (quiet_bind (as_float V)
    (λ V, derivs T P V b a_alpha da d2a) (quiet_as_float V)
    (λ V, quiet_derivs T P V b a_alpha da d2a)) as Hq.
  destruct (as_float V ≫= _) as [[ph vals]|e0]; [|cbn; exact (quiet_Raise _ Hq)].
  mrun. cbn. apply quiet_Ok.
Qed.

Lemma quiet_set_from_PT `{Utils} T P Vs b a_alpha da d2a st :
  quiet (set_from_PT T P Vs b a_alpha da d2a st).1.
Proof.
  unfold set_from_PT.
  destruct (Nat.eqb _ 2); [|destruct (Nat.eqb _ 1)].
  - rewrite run_bind. unfold lift.
    pose proof (quiet_getitem (filter (λ i, imag_is_zero i = true) Vs) 0) as Hg.
    destruct (getitem _ 0) as [V|e0]; [|cbn; exact (quiet_Raise _ Hg)].
    rewrite run_bind.
    pose proof (quiet_set_derivs_from_phase T P V b a_alpha da d2a st) as Hd.
    destruct (set_derivs_from_phase _ _ _ _ _ _ _ _) as [[ph|e0] st1]; [|cbn; exact (quiet_Raise _ Hd)].
    mrun. destruct ph; cbn; apply quiet_Ok.
  - rewrite run_bind. unfold lift.
    set (Vs' := filter _ Vs).
    pose proof (quiet_py_min Vs') as Hlo. pose proof (quiet_py_max Vs') as Hhi.
    destruct (py_min Vs') as [lo|e0]; [|cbn; exact (quiet_Raise _ Hlo)].
    destruct (py_max Vs') as [hi|e0]; [|cbn; exact (quiet_Raise _ Hhi)].
    cbn [mbind result_bind rbind]. mrun.
    pose proof (quiet_set_derivs_from_phase T P lo b a_alpha da d2a
                  (set_Vg hi (set_Vl lo st))) as Hd.
    destruct (set_derivs_from_phase _ _ lo _ _ _ _ _) as [[ph|e0] st1]; [|cbn; exact (quiet_Raise _ Hd)].
    rewrite run_bind.
    pose proof (quiet_set_derivs_from_phase T P hi b a_alpha da d2a st1) as Hd'.
    destruct (set_derivs_from_phase _ _ hi _ _ _ _ _) as [[ph'|e0] st2]; [|cbn; exact (quiet_Raise _ Hd')].
    cbn. apply quiet_Ok.
  - intros e0 [= <-]. discriminate.
Qed.

Lemma quiet_set_a_alpha a kappa Tc T : quiet (set_a_alpha a kappa Tc T).
Proof. unfold set_a_alpha. quiet. Qed.

Lemma quiet_solve_T Tc a b kappa P V : quiet (solve_T Tc a b kappa P V).
Proof. unfold solve_T. quiet. Qed.

(** The constructor never raises its invalid-input exception. *)
Lemma quiet_init `{Utils} Tc Pc omega T P V : quiet (__init__ Tc Pc omega T P V).
Proof.
  unfold __init__. rewrite args_never_rejected.
  apply quiet_bind; [apply quiet_pdiv|intros a].
  apply quiet_bind; [apply quiet_pdiv|intros b].
  apply quiet_bind.
  - destruct (truthy (arg V)); [|].
    + apply quiet_bind; [apply quiet_need|intros V'].
      destruct (truthy (arg P)).
      * apply quiet_bind; [apply quiet_need|intros P'].
        apply quiet_bind; [apply quiet_solve_T|intros T'].
        apply quiet_bind; [apply quiet_set_a_alpha|intros aa]. apply quiet_Ok.
      * apply quiet_bind; [apply quiet_need|intros T'].
        apply quiet_bind; [apply quiet_set_a_alpha|intros aa]. quiet.
    + apply quiet_bind; [apply quiet_need|intros T'].
      apply quiet_bind; [apply quiet_set_a_alpha|intros aa].
      apply quiet_bind; [apply quiet_need|intros P'].
      apply quiet_bind; [apply quiet_all_V|intros Vs]. apply quiet_Ok.
  - intros [[[T' P'] aa] Vs].
    apply quiet_bind; [apply quiet_pdiv|intros Tr].
    apply quiet_bind; [apply quiet_psqrt|intros r].
    apply quiet_bind; [apply quiet_pdiv|intros da].
    apply quiet_bind; [apply quiet_pdiv|intros q3].
    apply quiet_bind; [apply quiet_pdiv|intros q4].
    apply quiet_bind; [apply quiet_pdiv|intros d2a].
    pose proof (quiet_set_from_PT T' P' Vs b aa da d2a no_phases) as Hs.
    destruct (set_from_PT _ _ _ _ _ _ _ _) as [[[]|e0] st];
      [apply quiet_Ok|exact (quiet_Raise _ Hs)].
Qed.

Lemma float_truthy_nonzero (x : R) : x ≠ 0 → float_truthy x = true.
Proof. intros Hx. unfold float_truthy. now destruct (Req_EM_T x 0). Qed.

(** C1 (amended): when at least two of T, P, V are supplied the argument
    check rejects nothing and the constructor does not raise its
    invalid-input exception; when all three are supplied, with P and V
    non-zero, P and V are used and T is recomputed from them, so the outcome
    is that of the (P, V) construction. *)
Theorem C1_constructor_arguments `{Utils} (Tc Pc omega : R) (T P V : option R) :
  (2 ≤ supplied T P V)%nat →
  args_rejected T P V = false
  ∧ (∀ e, __init__ Tc Pc omega T P V = Raise e → e ≠ missing_args)
  ∧ (∀ t p v, T = Some t → P = Some p → V = Some v → p ≠ 0 → v ≠ 0 →
       __init__ Tc Pc omega T P V = __init__ Tc Pc omega None P V).
Proof.
  intros _. split; [reflexivity|]. split; [apply quiet_init|].
  intros t p v -> -> -> Hp Hv. unfold __init__.
  rewrite !args_never_rejected. cbn [arg].
  cbn [truthy]. rewrite !float_truthy_nonzero by assumption. reflexivity.
Qed.

Lemma C1_constructor_arguments_witness :
  (2 ≤ supplied (Some 299%R) (Some 1000000%R) (Some 0.00013%R))%nat
  ∧ @__init__ spec_utils 507.6 3025000 0.2975
      (Some 299) (Some 1000000) (Some 0.00013) ≠ Raise missing_args.
Proof.
  assert (Hs : (2 ≤ supplied (Some 299%R) (Some 1000000%R) (Some 0.00013%R))%nat)
    by (vm_compute; lia).
  split; [exact Hs|].
  intros Hr.
  exact (proj1 (proj2 (@C1_constructor_arguments spec_utils 507.6 3025000 0.2975
                   (Some 299) (Some 1000000) (Some 0.00013) Hs))
           missing_args Hr eq_refl).
Defined.

(** C1 as stated fails: with none of T, P, V supplied the constructor stops
    on a TypeError ([None / Tc]), not on its invalid-input exception; with
    all three supplied it does not raise the invalid-input exception. *)
Lemma C1_counterexample :
  (supplied None None None = 0%nat
   ∧ @__init__ spec_utils 507.6 3025000 0.2975 None None None = Raise TypeError)
  ∧ (supplied (Some 299) (Some 1000000) (Some 0.00013) = 3%nat
     ∧ @__init__ spec_utils 507.6 3025000 0.2975
         (Some 299) (Some 1000000) (Some 0.00013) ≠ Raise missing_args).
Proof.
  split; split; try reflexivity.
  - unfold __init__, pdiv.
    destruct (Req_EM_T 3025000 0) as [E|_]; [lra|]. reflexivity.
  - intros Hr. exact (quiet_init _ _ _ _ _ _ _ Hr eq_refl).
Qed.

(** ** Root classification *)

Lemma has_imag_true (v : number) : 1 / 1000000000 < Rabs (imag v) → has_imag v = true.
Proof. intros Hv. unfold has_imag. now destruct (Rlt_dec _ _). Qed.

Lemma has_imag_false (v : number) : Rabs (imag v) <= 1 / 1000000000 → has_imag v = false.
Proof. intros Hv. unfold has_imag. destruct (Rlt_dec _ _); [lra|reflexivity]. Qed.

Lemma imag_is_zero_false (v : number) : imag v ≠ 0 → imag_is_zero v = false.
Proof. intros Hv. unfold imag_is_zero. now destruct (Req_EM_T _ _). Qed.

Lemma imag_is_zero_true (v : number) : imag v = 0 → imag_is_zero v = true.
Proof. intros Hv. unfold imag_is_zero. now destruct (Req_EM_T _ _). Qed.

Lemma inexact_roots_count :
  length (filter (λ i, has_imag i = true) inexact_roots) = 2%nat.
Proof.
  unfold inexact_roots.
  rewrite filter_cons_False.
  2:{ rewrite has_imag_false; [discriminate|]. cbn [imag im].
      rewrite Rabs_pos_eq; lra. }
  rewrite filter_cons_True.
  2:{ apply has_imag_true. cbn [imag im]. rewrite Rabs_pos_eq; lra. }
  rewrite filter_cons_True.
  2:{ apply has_imag_true. cbn [imag im]. rewrite Rabs_left; lra. }
  reflexivity.
Qed.

Lemma inexact_roots_none_real :
  filter (λ i, imag_is_zero i = true) inexact_roots = [].
Proof.
  unfold inexact_roots.
  rewrite !filter_cons_False; [reflexivity|..];
    rewrite imag_is_zero_false; try discriminate; cbn [imag im]; lra.
Qed.

(** C2 at its failing input: two of the three candidates have an imaginary
    part above 1e-9 and the third one of 1e-20, so n = 2; the selection
    [[i for i in Vs if i.imag == 0][0]] then finds nothing and raises
    IndexError, and no root is selected or stored. *)
Theorem C2_inexact_root_IndexError `{Utils}
    (T P b a_alpha da_alpha_dT d2a_alpha_dT2 : R) (st : phases) :
  length (filter (λ i, has_imag i = true) inexact_roots) = 2%nat
  ∧ set_from_PT T P inexact_roots b a_alpha da_alpha_dT d2a_alpha_dT2 st
    = (Raise IndexError, st).
Proof.
  split; [exact inexact_roots_count|].
  unfold set_from_PT. rewrite inexact_roots_count. cbn [Nat.eqb].
  rewrite run_bind. unfold lift. rewrite inexact_roots_none_real. reflexivity.
Qed.

(** With no candidate above the threshold the call raises and writes
    nothing. *)
Lemma set_from_PT_three_real `{Utils} (T P : R) (Vs : list number)
    (b a_alpha da_alpha_dT d2a_alpha_dT2 : R) (st : phases) :
  length (filter (λ i, has_imag i = true) Vs) = 0%nat →
  set_from_PT T P Vs b a_alpha da_alpha_dT d2a_alpha_dT2 st
  = (Raise (Exception "Three roots not possible"), st).
Proof. intros Hn. unfold set_from_PT. rewrite Hn. reflexivity. Qed.

(** ** Departure functions *)

Lemma catanh_real_Ok (x q : R) : catanh_real x = Ok q → q = atanh_re x.
Proof.
  unfold catanh_real. destruct (Req_EM_T x 1); [discriminate|].
  destruct (Req_EM_T x (-1)); [discriminate|]. now intros [= <-].
Qed.

Lemma derivs_departures `{Utils} (T P V b a_alpha da_alpha_dT d2a_alpha_dT2 : R)
    (ph : phase_label) (B : bundle) :
  derivs T P V b a_alpha da_alpha_dT d2a_alpha_dT2 = Ok (ph, B) →
  H_dep B = P * V - Rgas * T
            + sqrt 2 * atanh_re ((V + b) * sqrt 2 / (2 * b))
              * (T * da_alpha_dT - a_alpha) / (2 * b)
  ∧ V_dep B = V - Rgas * T / P
  ∧ U_dep B = H_dep B - P * V_dep B
  ∧ G_dep B = H_dep B - T * S_dep B
  ∧ A_dep B = U_dep B - T * S_dep B
  ∧ fugacity B = P * exp (G_dep B / (Rgas * T))
  ∧ phi B = fugacity B / P.
Proof.
  intros Hd. unfold derivs in Hd.
  bind_step Hd. destruct v as [[[[[dP_dT dP_dV] dV_dT] dV_dP] dT_dV] dT_dP].
  bind_step Hd. destruct v as [[[[[d2P_dT2 d2P_dV2] d2V_dT2] d2V_dP2] d2T_dV2] d2T_dP2].
  bind_step Hd. destruct v as [[d2V_dPdT d2P_dTdV] d2T_dPdV].
  do 4 bind_step Hd. cbn zeta in Hd.
  bind_step Hd. apply pdiv_Ok in E6 as [-> Hb].
  bind_step Hd. apply catanh_real_Ok in E6 as ->.
  bind_step Hd. bind_step Hd. bind_step Hd. bind_step Hd.
  bind_step Hd. apply pdiv_Ok in E10 as [-> HP].
  injection Hd as <- <-. cbn.
  repeat split; try reflexivity.
  replace ((V + b) * sqrt 2 / (2 * b)) with ((V + b) * sqrt 2 / b / 2)
    by (field; assumption).
  field. assumption.
Qed.

(** C6: whenever [set_derivs_from_phase] returns for a real root, the
    bundle stored under the phase it returns satisfies
    H_dep = PV − RT + √2·Re[atanh((V+b)√2/(2b))]·(T·da_alpha/dT − a_alpha)/(2b),
    V_dep = V − RT/P, U_dep = H_dep − P·V_dep, G_dep = H_dep − T·S_dep,
    A_dep = U_dep − T·S_dep, fugacity = P·exp(G_dep/(RT)) and
    φ = fugacity/P. *)
Theorem C6_departure_properties `{Utils}
    (T P V b a_alpha da_alpha_dT d2a_alpha_dT2 : R)
    (st st' : phases) (ph : phase_label) :
  set_derivs_from_phase T P (Float V) b a_alpha da_alpha_dT d2a_alpha_dT2 st
  = (Ok ph, st') →
  ∃ B, props ph st' = Some B
    ∧ H_dep B = P * V - Rgas * T
                + sqrt 2 * atanh_re ((V + b) * sqrt 2 / (2 * b))
                  * (T * da_alpha_dT - a_alpha) / (2 * b)
    ∧ V_dep B = V - Rgas * T / P
    ∧ U_dep B = H_dep B - P * V_dep B
    ∧ G_dep B = H_dep B - T * S_dep B
    ∧ A_dep B = U_dep B - T * S_dep B
    ∧ fugacity B = P * exp (G_dep B / (Rgas * T))
    ∧ phi B = fugacity B / P.
Proof.
  intros Hrun. unfold set_derivs_from_phase in Hrun.
  rewrite run_bind in Hrun. unfold lift in Hrun. cbn [as_float] in Hrun.
  rewrite bind_Ok in Hrun.
  destruct (derivs T P V b a_alpha da_alpha_dT d2a_alpha_dT2)
    as [[ph' B]|e] eqn:Hd; [|discriminate].
  rewrite run_bind in Hrun. unfold setattr in Hrun. cbn in Hrun.
  injection Hrun as <- <-.
  exists B. split; [now destruct ph'|].
  now apply (derivs_departures T P V b a_alpha da_alpha_dT d2a_alpha_dT2 ph').
Qed.

Lemma quotient_nonzero (x y : R) : y ≠ 0 → quotient x y = Some (x / y).
Proof. intros Hy. unfold quotient. now destruct (Req_EM_T y 0). Qed.

Lemma sqrt2_gt_1 : 1 < sqrt 2.
Proof. rewrite <- sqrt_1 at 1. apply sqrt_lt_1_alt. lra. Qed.

Lemma catanh_real_above (x : R) : 1 < x → catanh_real x = Ok (atanh_re x).
Proof.
  intros Hx. unfold catanh_real.
  destruct (Req_EM_T x 1); [lra|]. destruct (Req_EM_T x (-1)); [lra|].
  reflexivity.
Qed.

Ltac eval_pdiv :=
  match goal with
  | |- context [pdiv ?x ?y] => rewrite (pdiv_nonzero x y) by creal
  | |- context [quotient ?x ?y] => rewrite (quotient_nonzero x y) by creal
  | |- context [plog ?x] => rewrite (plog_pos x) by creal
  | |- context [psqrt ?x] => rewrite (psqrt_nonneg x) by creal
  end.

(** evaluation of the constructor's arithmetic at closed rational inputs *)
Ltac eos_eval :=
  repeat first
    [ eval_pdiv
    | rewrite bind_Ok
    | progress cbv zeta
    | progress cbn [util isobaric_expansion isothermal_compressibility
                    Cp_minus_Cv phase_identification_parameter
                    phase_identification_parameter_phase spec_utils] ].

Lemma derivs_example :
  is_ok (@derivs spec_utils 1 1 2 1 49 0 0).
Proof.
  unfold derivs, first_derivatives, second_derivatives, second_derivatives_mixed.
  eos_eval.
  rewrite catanh_real_above by (pose proof sqrt2_gt_1; lra).
  eos_eval. eexists. reflexivity.
Qed.

Lemma C6_departure_properties_witness :
  ∃ ph st' B,
    @set_derivs_from_phase spec_utils 1 1 (Float 2) 1 49 0 0 no_phases = (Ok ph, st')
    ∧ props ph st' = Some B
    ∧ V_dep B = 2 - Rgas * 1 / 1
    ∧ U_dep B = H_dep B - 1 * V_dep B.
Proof.
  destruct derivs_example as [[ph B] Hd].
  assert (Hrun : @set_derivs_from_phase spec_utils 1 1 (Float 2) 1 49 0 0 no_phases
                 = (Ok ph, set_props ph B no_phases)).
  { unfold set_derivs_from_phase. rewrite run_bind. unfold lift.
    cbn [as_float]. rewrite bind_Ok, Hd. reflexivity. }
  exists ph, (set_props ph B no_phases).
  destruct (@C6_departure_properties spec_utils 1 1 2 1 49 0 0 no_phases
              (set_props ph B no_phases) ph Hrun) as [B' [HB [_ [HV [HU _]]]]].
  exists B'. repeat split; assumption.
Defined.

End EOSFacts.

(** * Round trips between the constructions of a Peng-Robinson object *)

Module EOSRoundTrip.
Import EOS EOSFacts.
Local Open Scope R_scope.

(** ** Cardano's formula *)

Section Cardano.
Variables k2 k1 k0 : R.

Lemma cardano_root (s C : R) :
  s * s = (Delta1 k2 k1 k0)^2 - 4 * (Delta0 k2 k1)^3 →
  C^3 = s / 2 + Delta1 k2 k1 k0 / 2 → C ≠ 0 →
  cubic k2 k1 k0 (- Delta0 k2 k1 / (3 * C) - C / 3 - k2 / 3) = 0.
Proof.
  intros Hs HC HC0.
  assert (HK : C^6 - Delta1 k2 k1 k0 * C^3 + (Delta0 k2 k1)^3 = 0).
  { replace (C^6) with ((C^3) * (C^3)) by ring. rewrite HC. nra. }
  unfold cubic.
  replace (_ + _ + _ + k0)
    with (- (C^6 - Delta1 k2 k1 k0 * C^3 + (Delta0 k2 k1)^3) / (27 * C^3)).
  - rewrite HK. field. assumption.
  - unfold Delta0, Delta1. field. assumption.
Qed.

(** With a positive [pair_imag_sq] the root is the only real one. *)
Lemma unique_root (V x : R) :
  0 < pair_imag_sq k2 k1 V → cubic k2 k1 k0 V = 0 → cubic k2 k1 k0 x = 0 → x = V.
Proof.
  intros HW HV Hx.
  assert (H : (x - V) * ((x + (k2 + V) / 2)^2 + pair_imag_sq k2 k1 V) = 0).
  { replace (_ * _) with (cubic k2 k1 k0 x - cubic k2 k1 k0 V)
      by (unfold cubic, pair_imag_sq; field).
    rewrite HV, Hx. ring. }
  apply Rmult_integral in H as [H|H]; [lra|].
  pose proof (pow2_ge_0 (x + (k2 + V) / 2)). lra.
Qed.

(** The radicand of the square root, in terms of a root. *)
Lemma radicand (V : R) :
  cubic k2 k1 k0 V = 0 →
  (Delta1 k2 k1 k0)^2 - 4 * (Delta0 k2 k1)^3
  = 108 * pair_imag_sq k2 k1 V * ((3 * V + k2)^2 / 4 + pair_imag_sq k2 k1 V)^2.
Proof.
  intros HV.
  assert (E : k0 = - (V^3 + k2 * V^2 + k1 * V)) by (unfold cubic in HV; lra).
  unfold Delta0, Delta1, pair_imag_sq. rewrite E. field.
Qed.

Lemma imag_square (C V : R) :
  C ≠ 0 → V = - Delta0 k2 k1 / (3 * C) - C / 3 - k2 / 3 →
  (sqrt 3 / 6 * (C - Delta0 k2 k1 / C))^2 = pair_imag_sq k2 k1 V.
Proof.
  intros HC HV.
  replace ((sqrt 3 / 6 * (C - Delta0 k2 k1 / C))^2)
    with ((sqrt 3 * sqrt 3) / 36 * (C - Delta0 k2 k1 / C)^2) by (field; assumption).
  rewrite sqrt_sqrt by lra. unfold pair_imag_sq. rewrite HV. unfold Delta0.
  field. assumption.
Qed.

End Cardano.

(** A volume on the pressure-explicit surface is a root of the cubic. *)
Lemma eos_root (T P V b a_alpha : R) :
  P ≠ 0 → V - b ≠ 0 → V * (V + b) + b * (V - b) ≠ 0 →
  P = P_eos T V b a_alpha →
  cubic (coef2 T P b) (coef1 T P b a_alpha) (coef0 T P b a_alpha) V = 0.
Proof.
  intros HP Hb HD HPe.
  assert (E : P * ((V - b) * (V * (V + b) + b * (V - b)))
              = Rgas * T * (V * (V + b) + b * (V - b)) - a_alpha * (V - b)).
  { rewrite HPe at 1. unfold P_eos. field. split; assumption. }
  unfold cubic, coef2, coef1, coef0.
  replace (_ + _ + _ + _)
    with ((P * ((V - b) * (V * (V + b) + b * (V - b)))
           - (Rgas * T * (V * (V + b) + b * (V - b)) - a_alpha * (V - b))) / P)
    by (field; assumption).
  rewrite E. field. assumption.
Qed.

(** ** The roots returned by [all_V] *)

Lemma Rpower_cube (x : R) : 0 < x → (Rpower x (1 / 3))^3 = x.
Proof.
  intros Hx. rewrite <- (Rpower_pow 3) by (unfold Rpower; apply exp_pos).
  rewrite Rpower_mult. replace (1 / 3 * INR 3) with 1 by (cbn; field).
  now apply Rpower_1.
Qed.

Lemma sqrt3_sq : sqrt 3 * sqrt 3 = 3.
Proof. apply sqrt_sqrt. lra. Qed.

(** the two complex candidates: their divisions succeed and their
    imaginary parts are ±(√3/6)(C − t/C) *)
Lemma pair_root_minus (t C c : R) :
  C ≠ 0 →
  ∃ q r,
    Cdiv (of_float (- t))
         (Cmul (Cmul (of_float 3) (mkC (-1 / 2) (- (sqrt 3 / 2)))) (of_float C)) = Ok q
    ∧ Cdiv (Cmul (mkC (-1 / 2) (- (sqrt 3 / 2))) (of_float C)) (of_float 3) = Ok r
    ∧ im (Csub (Csub q r) (of_float c)) = sqrt 3 / 6 * (C - t / C).
Proof.
  intros HC. pose proof sqrt3_sq as HS.
  assert (HC2 : 0 < C * C) by nra.
  unfold Cdiv. cbn [Cmul of_float re im].
  destruct (Req_EM_T _ 0) as [E|_]; [exfalso; nra|].
  destruct (Req_EM_T _ 0) as [E|_]; [exfalso; nra|].
  eexists _, _. split; [reflexivity|]. split; [reflexivity|].
  cbn [Csub of_float re im].
  match goal with |- ?n / ?d - _ - 0 = _ =>
    replace d with (9 * (C * C)) by nra end.
  field. assumption.
Qed.

Lemma pair_root_plus (t C c : R) :
  C ≠ 0 →
  ∃ q r,
    Cdiv (of_float (- t))
         (Cmul (Cmul (of_float 3) (mkC (-1 / 2) (sqrt 3 / 2))) (of_float C)) = Ok q
    ∧ Cdiv (Cmul (mkC (-1 / 2) (sqrt 3 / 2)) (of_float C)) (of_float 3) = Ok r
    ∧ im (Csub (Csub q r) (of_float c)) = - (sqrt 3 / 6 * (C - t / C)).
Proof.
  intros HC. pose proof sqrt3_sq as HS.
  assert (HC2 : 0 < C * C) by nra.
  unfold Cdiv. cbn [Cmul of_float re im].
  destruct (Req_EM_T _ 0) as [E|_]; [exfalso; nra|].
  destruct (Req_EM_T _ 0) as [E|_]; [exfalso; nra|].
  eexists _, _. split; [reflexivity|]. split; [reflexivity|].
  cbn [Csub of_float re im].
  match goal with |- ?n / ?d - _ - 0 = _ =>
    replace d with (9 * (C * C)) by nra end.
  field. assumption.
Qed.

Lemma abs_above (t x : R) : 0 <= t → t^2 < x^2 → t < Rabs x.
Proof.
  intros Ht Hsq. destruct (Rcase_abs x) as [Hx|Hx].
  - rewrite Rabs_left by assumption. nra.
  - rewrite Rabs_right by assumption. nra.
Qed.

(** [all_V] at a state of the pressure-explicit surface whose cubic has a
    conjugate pair beyond the threshold and a positive cube-root radicand:
    the first candidate is the volume itself. *)
Lemma all_V_single (T P V b a_alpha : R) :
  let k2 := coef2 T P b in
  let k1 := coef1 T P b a_alpha in
  let k0 := coef0 T P b a_alpha in
  P ≠ 0 → V - b ≠ 0 → V * (V + b) + b * (V - b) ≠ 0 →
  P = P_eos T V b a_alpha →
  (1 / 1000000000)^2 < pair_imag_sq k2 k1 V →
  0 <= Delta1 k2 k1 k0 ∨ Delta0 k2 k1 < 0 →
  ∃ Vs, all_V T P b a_alpha = Ok Vs ∧ single_real V Vs.
Proof.
  intros k2 k1 k0 HP Hb HD HPe HW Hrad.
  assert (HW0 : 0 < pair_imag_sq k2 k1 V) by lra.
  pose proof (eos_root T P V b a_alpha HP Hb HD HPe) as Hroot.
  fold k2 k1 k0 in Hroot.
  pose proof (radicand k2 k1 k0 V Hroot) as Hrd.
  assert (HDpos : 0 < (Delta1 k2 k1 k0)^2 - 4 * (Delta0 k2 k1)^3).
  { rewrite Hrd.
    assert (0 < (3 * V + k2)^2 / 4 + pair_imag_sq k2 k1 V)
      by (pose proof (pow2_ge_0 (3 * V + k2)); lra).
    apply Rmult_lt_0_compat; [lra|]. apply pow_lt. assumption. }
  unfold all_V. destruct (Req_EM_T P 0) as [E|_]; [contradiction|].
  cbv zeta.
  assert (Et1 : -3 * (-3 * P * b^2 - 2 * Rgas * T * b + a_alpha) / P
                + (P * b - Rgas * T)^2 / P^2 = Delta0 k2 k1)
    by (unfold Delta0, k2, k1, coef2, coef1; field; assumption).
  assert (Et2 : 27 * (P * b^3 + Rgas * T * b^2 - b * a_alpha) / P
                - 9 * (P * b - Rgas * T) * (-3 * P * b^2 - 2 * Rgas * T * b + a_alpha) / P^2
                + 2 * (P * b - Rgas * T)^3 / P^3 = Delta1 k2 k1 k0)
    by (unfold Delta1, k2, k1, k0, coef2, coef1, coef0; field; assumption).
  rewrite Et1, Et2.
  set (D0 := Delta0 k2 k1) in *. set (D1 := Delta1 k2 k1 k0) in *.
  rewrite psqrt_nonneg by lra. rewrite bind_Ok.
  set (s := sqrt (-4 * D0^3 + D1^2)).
  assert (Hs : s * s = D1^2 - 4 * D0^3) by (unfold s; rewrite sqrt_sqrt; lra).
  assert (Hs0 : 0 < s) by (unfold s; apply sqrt_lt_R0; lra).
  assert (Et3 : s / 2
            + 27 * (P * b^3 + Rgas * T * b^2 - b * a_alpha) / (2 * P)
            - 9 * (P * b - Rgas * T) * (-3 * P * b^2 - 2 * Rgas * T * b + a_alpha) / (2 * P^2)
            + (P * b - Rgas * T)^3 / P^3 = s / 2 + D1 / 2).
  { unfold D1, Delta1, k2, k1, k0, coef2, coef1, coef0. field. assumption. }
  rewrite Et3.
  assert (Ht3 : 0 < s / 2 + D1 / 2).
  { destruct Hrad as [H1|H0]; [lra|].
    assert (Hq : 0 < D0 * D0) by nra.
    assert (Hc : D0^3 < 0).
    { replace (D0^3) with (D0 * (D0 * D0)) by ring.
      rewrite <- (Rmult_0_l (D0 * D0)). apply Rmult_lt_compat_r; assumption. }
    assert (Hlt : D1^2 < s * s) by (rewrite Hs; lra).
    destruct (Rle_dec 0 D1) as [Hp|Hn]; [lra|]. nra. }
  unfold ppow.
  destruct (Rlt_dec (s / 2 + D1 / 2) 0) as [E|_]; [lra|].
  destruct (Req_EM_T (s / 2 + D1 / 2) 0) as [E|_]; [lra|].
  rewrite bind_Ok.
  set (C := Rpower (s / 2 + D1 / 2) (1 / 3)).
  assert (HC3 : C^3 = s / 2 + D1 / 2) by now apply Rpower_cube.
  assert (HC0 : 0 < C) by (unfold C, Rpower; apply exp_pos).
  rewrite pdiv_nonzero by lra. rewrite bind_Ok.
  destruct (pair_root_minus D0 C ((P * b - Rgas * T) / (3 * P)))
    as (q2 & r2 & Eq2 & Er2 & Hi2); [lra|].
  destruct (pair_root_plus D0 C ((P * b - Rgas * T) / (3 * P)))
    as (q3 & r3 & Eq3 & Er3 & Hi3); [lra|].
  rewrite Eq2, bind_Ok, Er2, bind_Ok, Eq3, bind_Ok, Er3, bind_Ok.
  eexists. split; [reflexivity|].
  assert (HV : V = - D0 / (3 * C) - C / 3 - k2 / 3).
  { symmetry. apply (unique_root k2 k1 k0); try assumption.
    apply (cardano_root k2 k1 k0 s C); try assumption. lra. }
  assert (Hsq : (sqrt 3 / 6 * (C - D0 / C))^2 = pair_imag_sq k2 k1 V).
  { apply imag_square; [lra|exact HV]. }
  exists (Csub (Csub q2 r2) (of_float ((P * b - Rgas * T) / (3 * P)))),
         (Csub (Csub q3 r3) (of_float ((P * b - Rgas * T) / (3 * P)))).
  split; [|split].
  - do 2 f_equal. symmetry. etransitivity; [exact HV|].
    unfold k2, coef2. field. repeat split; try assumption; lra.
  - apply has_imag_true. cbn [imag]. rewrite Hi2.
    apply abs_above; [lra|]. rewrite Hsq. exact HW.
  - apply has_imag_true. cbn [imag]. rewrite Hi3.
    apply abs_above; [lra|].
    replace ((- (sqrt 3 / 6 * (C - D0 / C)))^2)
      with ((sqrt 3 / 6 * (C - D0 / C))^2) by ring.
    rewrite Hsq. exact HW.
Qed.

(** below a zero discriminant the square root of the closed formula is
    outside its domain *)
Lemma all_V_three_real (T P b a_alpha : R) :
  let k2 := coef2 T P b in
  let k1 := coef1 T P b a_alpha in
  let k0 := coef0 T P b a_alpha in
  P ≠ 0 → (Delta1 k2 k1 k0)^2 < 4 * (Delta0 k2 k1)^3 →
  all_V T P b a_alpha = Raise (ValueError "math domain error").
Proof.
  intros k2 k1 k0 HP HD.
  unfold all_V. destruct (Req_EM_T P 0) as [E|_]; [contradiction|].
  cbv zeta.
  assert (Et1 : -3 * (-3 * P * b^2 - 2 * Rgas * T * b + a_alpha) / P
                + (P * b - Rgas * T)^2 / P^2 = Delta0 k2 k1)
    by (unfold Delta0, k2, k1, coef2, coef1; field; assumption).
  assert (Et2 : 27 * (P * b^3 + Rgas * T * b^2 - b * a_alpha) / P
                - 9 * (P * b - Rgas * T) * (-3 * P * b^2 - 2 * Rgas * T * b + a_alpha) / P^2
                + 2 * (P * b - Rgas * T)^3 / P^3 = Delta1 k2 k1 k0)
    by (unfold Delta1, k2, k1, k0, coef2, coef1, coef0; field; assumption).
  rewrite Et1, Et2. rewrite psqrt_neg by lra. reflexivity.
Qed.

(** ** Root selection on a single real candidate *)

Lemma has_imag_nonzero (v : number) : has_imag v = true → imag v ≠ 0.
Proof.
  unfold has_imag. destruct (Rlt_dec _ _) as [H|]; [|discriminate].
  intros _ E. rewrite E, Rabs_R0 in H. lra.
Qed.

Lemma single_real_count (V : R) (Vs : list number) :
  single_real V Vs →
  length (filter (λ i, has_imag i = true) Vs) = 2%nat
  ∧ filter (λ i, imag_is_zero i = true) Vs = [Float V].
Proof.
  intros (z2 & z3 & -> & H2 & H3). split.
  - rewrite filter_cons_False.
    2:{ rewrite has_imag_false; [discriminate|]. cbn [imag]. rewrite Rabs_R0. lra. }
    rewrite !filter_cons_True by assumption. reflexivity.
  - rewrite filter_cons_True by (apply imag_is_zero_true; reflexivity).
    rewrite !filter_cons_False; [reflexivity|..];
      rewrite imag_is_zero_false; try discriminate; now apply has_imag_nonzero.
Qed.

Lemma single_real_given (V : R) : single_real V [Float V; Complex j1; Complex j1].
Proof.
  exists j1, j1. split; [reflexivity|].
  assert (has_imag (Complex j1) = true).
  { apply has_imag_true. cbn [imag j1 im]. rewrite Rabs_R1. lra. }
  now split.
Qed.

(** what [set_from_PT] does with the one real candidate [V] *)
Lemma set_from_PT_single `{Utils} (T P V : R) (Vs : list number)
    (b a_alpha da d2a : R) (st : phases) :
  single_real V Vs →
  set_from_PT T P Vs b a_alpha da d2a st
  = (ph ← set_derivs_from_phase T P (Float V) b a_alpha da d2a;
     _ ← setattr (set_phase ph);
     match ph with
     | l => setattr (set_Vl (Float V))
     | g => setattr (set_Vg (Float V))
     end) st.
Proof.
  intros Hs. destruct (single_real_count V Vs Hs) as [Hn Hf].
  unfold set_from_PT. rewrite Hn, Hf. cbn [Nat.eqb].
  rewrite run_bind. unfold lift. cbn [getitem lookup]. reflexivity.
Qed.

Lemma finish_roots `{Utils} (Tc Pc omega : R) (Vopt : option R)
    (a b kappa T P a_alpha V : R) (Vs Vs' : list number) :
  single_real V Vs → single_real V Vs' →
  finish Tc Pc omega Vopt a b kappa T P a_alpha Vs
  = finish Tc Pc omega Vopt a b kappa T P a_alpha Vs'.
Proof.
  intros Hs Hs'. unfold finish.
  destruct (pdiv T Tc) as [Tr|]; [|reflexivity]. rewrite !bind_Ok.
  destruct (psqrt Tr) as [r|]; [|reflexivity]. rewrite !bind_Ok.
  destruct (pdiv (- a * _ * _ * _) T) as [da|]; [|reflexivity]. rewrite !bind_Ok.
  destruct (pdiv kappa Tc) as [q3|]; [|reflexivity]. rewrite !bind_Ok.
  destruct (pdiv (r * _) T) as [q4|]; [|reflexivity]. rewrite !bind_Ok.
  destruct (pdiv _ (2 * T)) as [d2a|]; [|reflexivity]. rewrite !bind_Ok.
  now rewrite (set_from_PT_single T P V Vs), (set_from_PT_single T P V Vs').
Qed.

Lemma finish_with_V `{Utils} (Tc Pc omega : R) (Vopt Vopt' : option R)
    (a b kappa T P a_alpha : R) (Vs : list number) (o : PR) :
  finish Tc Pc omega Vopt a b kappa T P a_alpha Vs = Ok o →
  finish Tc Pc omega Vopt' a b kappa T P a_alpha Vs = Ok (with_V Vopt' o).
Proof.
  unfold finish. intros Hf.
  do 6 bind_step Hf. rewrite E, bind_Ok, E0, bind_Ok, E1, bind_Ok, E2, bind_Ok,
    E3, bind_Ok, E4, bind_Ok.
  destruct (set_from_PT _ _ _ _ _ _ _ _) as [[[]|e] st]; [|discriminate].
  injection Hf as <-. reflexivity.
Qed.

(** what a finished object records *)
Lemma finish_fields `{Utils} (Tc0 Pc0 omega0 : R) (Vopt : option R)
    (a0 b0 kappa0 T0 P0 a_alpha0 : R) (Vs : list number) (o : PR) :
  finish Tc0 Pc0 omega0 Vopt a0 b0 kappa0 T0 P0 a_alpha0 Vs = Ok o →
  T o = T0 ∧ P o = P0 ∧ V o = Vopt ∧ a o = a0 ∧ b o = b0 ∧ kappa o = kappa0
  ∧ a_alpha o = a_alpha0.
Proof.
  unfold finish. intros Hf. do 6 bind_step Hf.
  destruct (set_from_PT _ _ _ _ _ _ _ _) as [[[]|e] st]; [|discriminate].
  injection Hf as <-. cbn. repeat split.
Qed.

(** where the derivative bundle is defined *)
Lemma derivs_defined `{Utils} (T P V b a_alpha da d2a : R)
    (r : phase_label * bundle) :
  derivs T P V b a_alpha da d2a = Ok r → P ≠ 0 ∧ 0 < V ∧ 0 < V - b ∧ b ≠ 0.
Proof.
  intros Hd. unfold derivs in Hd.
  bind_step Hd. destruct v as [[[[[dP_dT dP_dV] dV_dT] dV_dP] dT_dV] dT_dP].
  bind_step Hd. destruct v as [[[[[d2P_dT2 d2P_dV2] d2V_dT2] d2V_dP2] d2T_dV2] d2T_dP2].
  bind_step Hd. destruct v as [[d2V_dPdT d2P_dTdV] d2T_dPdV].
  do 4 bind_step Hd. cbn zeta in Hd.
  bind_step Hd. apply pdiv_Ok in E6 as [_ Hb].
  do 3 bind_step Hd.
  bind_step Hd. apply plog_Ok in E9 as [_ HV].
  bind_step Hd. apply plog_Ok in E9 as [_ HVb].
  bind_step Hd. apply pdiv_Ok in E9 as [_ HP].
  auto.
Qed.

(** a finished object with a single real candidate stores it under the
    phase found, after the derivative bundle was computed at non-zero [P] *)
Lemma finish_single `{Utils} (Tc0 Pc0 omega0 : R) (Vopt : option R)
    (a0 b0 kappa0 T0 P0 a_alpha0 V0 : R) (Vs : list number) (o : PR) :
  single_real V0 Vs →
  finish Tc0 Pc0 omega0 Vopt a0 b0 kappa0 T0 P0 a_alpha0 Vs = Ok o →
  (P0 ≠ 0 ∧ 0 < V0 ∧ 0 < V0 - b0 ∧ b0 ≠ 0)
  ∧ (phase o = Some l → Vl o = Some (Float V0))
  ∧ (phase o = Some g → Vg o = Some (Float V0))
  ∧ ∃ ph, phase o = Some ph.
Proof.
  intros Hs. unfold finish. intros Hf. do 6 bind_step Hf.
  rewrite (set_from_PT_single T0 P0 V0 Vs _ _ _ _ _ Hs) in Hf.
  rewrite run_bind in Hf. unfold set_derivs_from_phase in Hf.
  rewrite run_bind in Hf. unfold lift in Hf. cbn [as_float] in Hf.
  rewrite bind_Ok in Hf.
  destruct (derivs T0 P0 V0 b0 a_alpha0 v1 v4) as [[ph B]|e] eqn:Hd;
    [|discriminate].
  apply derivs_defined in Hd as (HP & HV & HVb & Hb).
  split; [auto|].
  destruct ph; cbn in Hf; injection Hf as <-; cbn;
    repeat split; try discriminate; eauto.
Qed.

(** ** The temperature from pressure and volume *)

Section SolveT.
Variables Tc a b kappa V s : R.
Let Dv := V * (V + b) + b * (V - b).
Let X := Rgas * Tc * Dv - a * kappa^2 * (V - b).
Let B := a * kappa * (1 + kappa) * (V - b).
Let T := Tc * s^2.
Let P := Rgas * T / (V - b) - a * (1 + kappa * (1 - s))^2 / Dv.

(** the radicand of the closed formula is a square *)
Lemma radicand_T :
  V - b ≠ 0 → Dv ≠ 0 →
  (V - b)^3 * (V^2 + 2 * V * b - b^2) * (P * Rgas * Tc * V^2 +
           2 * P * Rgas * Tc * V * b - P * Rgas * Tc * b^2 - P * V * a * kappa^2
           + P * a * b * kappa^2 + Rgas * Tc * a * kappa^2 +
           2 * Rgas * Tc * a * kappa + Rgas * Tc * a)
  = ((V - b) * (X * s + B))^2.
Proof.
  intros H1 H2. unfold P, T, X, B. unfold Dv in *. field. split; assumption.
Qed.

Lemma X_square :
  (Rgas^2 * Tc^2 * V^4 +
       4 * Rgas^2 * Tc^2 * V^3 * b + 2 * Rgas^2 * Tc^2 * V^2 * b^2 -
       4 * Rgas^2 * Tc^2 * V * b^3 + Rgas^2 * Tc^2 * b^4 -
       2 * Rgas * Tc * V^3 * a * kappa^2 -
       2 * Rgas * Tc * V^2 * a * b * kappa^2 +
       6 * Rgas * Tc * V * a * b^2 * kappa^2 -
       2 * Rgas * Tc * a * b^3 * kappa^2 + V^2 * a^2 * kappa^4 -
       2 * V * a^2 * b * kappa^4 + a^2 * b^2 * kappa^4) = X^2.
Proof. unfold X, Dv. ring. Qed.

Lemma solve_T_inverts :
  0 <= V - b → V - b ≠ 0 → Dv ≠ 0 → X ≠ 0 → 0 <= X * s + B →
  solve_T Tc a b kappa P V = Ok T.
Proof.
  intros H0 H1 H2 H3 H4. unfold solve_T.
  rewrite radicand_T by assumption.
  rewrite psqrt_nonneg by apply pow2_ge_0.
  rewrite bind_Ok.
  replace (sqrt (((V - b) * (X * s + B))^2)) with ((V - b) * (X * s + B)).
  2:{ symmetry. rewrite <- Rsqr_pow2. apply sqrt_Rsqr. now apply Rmult_le_pos. }
  rewrite X_square.
  assert (HX : Rgas * Tc * V^2 + 2 * Rgas * Tc * V * b - Rgas * Tc * b^2
               - V * a * kappa^2 + a * b * kappa^2 = X) by (unfold X, Dv; ring).
  rewrite HX.
  rewrite pdiv_nonzero.
  2:{ apply Rmult_integral_contrapositive_currified; apply pow_nonzero; assumption. }
  f_equal. unfold T, P, T, B. unfold X, Dv in *. field. repeat split; assumption.
Qed.
End SolveT.

(** ** The three cases of the constructor *)

Lemma init_finish `{Utils} (Tc Pc omega : R) (T P V : option R) :
  __init__ Tc Pc omega T P V
  = (a ← pdiv (c1 * Rgas^2 * Tc^2) Pc;
     b ← pdiv (c2 * Rgas * Tc) Pc;
     let kappa := kappa_of omega in
     '(T', P', a_alpha, Vs) ←
       (if truthy (arg V) then
          V' ← need V;
          if truthy (arg P) then
            P ← need P;
            T ← solve_T Tc a b kappa P V';
            a_alpha ← set_a_alpha a kappa Tc T;
            Ok (T, P, a_alpha, [Float V'; Complex j1; Complex j1])
          else
            T ← need T;
            a_alpha ← set_a_alpha a kappa Tc T;
            q1 ← pdiv (Rgas * T) (V' - b);
            q2 ← pdiv a_alpha (V' * (V' + b) + b * (V' - b));
            Ok (T, q1 - q2, a_alpha, [Float V'; Complex j1; Complex j1])
        else
          T ← need T;
          a_alpha ← set_a_alpha a kappa Tc T;
          P ← need P;
          Vs ← all_V T P b a_alpha;
          Ok (T, P, a_alpha, Vs));
     finish Tc Pc omega V a b kappa T' P' a_alpha Vs).
Proof. reflexivity. Qed.

Lemma set_a_alpha_Ok (a kappa Tc T a_alpha : R) :
  set_a_alpha a kappa Tc T = Ok a_alpha →
  Tc ≠ 0 ∧ T = Tc * sqrt (T / Tc)^2
  ∧ a_alpha = a * (1 + kappa * (1 - sqrt (T / Tc)))^2.
Proof.
  unfold set_a_alpha. intros Hs.
  bind_step Hs. apply pdiv_Ok in E as [-> HTc].
  bind_step Hs. unfold pow_half in E.
  destruct (Rlt_dec (T / Tc) 0) as [|Hr]; [discriminate|]. injection E as <-.
  injection Hs as <-. repeat split; [assumption|].
  rewrite <- Rsqr_pow2, Rsqr_sqrt by lra. field. assumption.
Qed.

(** what a constructor call from [T] and [V] that returned has computed *)
Lemma init_TV `{Utils} (Tc Pc omega T V : R) (o : PR) :
  __init__ Tc Pc omega (Some T) None (Some V) = Ok o →
  ∃ a b a_alpha,
    pdiv (c1 * Rgas^2 * Tc^2) Pc = Ok a
    ∧ pdiv (c2 * Rgas * Tc) Pc = Ok b
    ∧ set_a_alpha a (kappa_of omega) Tc T = Ok a_alpha
    ∧ V ≠ 0 ∧ V - b ≠ 0 ∧ V * (V + b) + b * (V - b) ≠ 0
    ∧ finish Tc Pc omega (Some V) a b (kappa_of omega) T
        (P_eos T V b a_alpha) a_alpha [Float V; Complex j1; Complex j1] = Ok o.
Proof.
  rewrite init_finish. intros Hi.
  bind_step Hi. bind_step Hi. cbv zeta in Hi.
  bind_step Hi. destruct v1 as [[[T' P'] a_alpha] Vs].
  exists v, v0, a_alpha. cbn [arg truthy need] in E1.
  unfold float_truthy in E1. destruct (Req_EM_T V 0) as [|HV].
  - rewrite bind_Ok in E1. bind_step E1. discriminate.
  - rewrite !bind_Ok in E1. bind_step E1.
    bind_step E1. apply pdiv_Ok in E3 as [-> HVb].
    bind_step E1. apply pdiv_Ok in E3 as [-> HD].
    injection E1 as <- <- <- <-. unfold P_eos. auto 10.
Qed.

(** C3 (amended): let [PR(Tc, Pc, omega, T=T, V=V)] return an object [o].
    Its root is stored under the phase found: an object in the liquid
    region has [V_l = V].  If at [(T, o.P)] the conjugate pair of the cubic
    has an imaginary part above 1e-9 and the cube root of [all_V] is taken
    of a positive number, then [PR(Tc, Pc, omega, T=T, P=o.P)] returns the
    same object (its attribute [V] apart, which is [None]), hence the same
    liquid root [V].  If the closed formula of the constructor for the
    temperature is on its non-negative branch, then
    [PR(Tc, Pc, omega, P=o.P, V=V)] returns [o] itself. *)
Theorem C3_round_trip `{Utils} (Tc Pc omega T V : R) (o : PR) :
  __init__ Tc Pc omega (Some T) None (Some V) = Ok o →
  (phase o = Some l → Vl o = Some (Float V))
  ∧ (cardano_single T (P o) V (b o) (a_alpha o) →
     ∃ o', __init__ Tc Pc omega (Some T) (Some (P o)) None = Ok o'
           ∧ o' = with_V None o
           ∧ (phase o = Some l → phase o' = Some l ∧ Vl o' = Some (Float V)))
  ∧ (solve_T_branch Tc (a o) (b o) (kappa o) T V →
     __init__ Tc Pc omega None (Some (P o)) (Some V) = Ok o).
Proof.
  intros Hi.
  destruct (init_TV _ _ _ _ _ _ Hi) as (a & b & a_alpha & Ea & Eb & Eal & HV & HVb & HD & Hf).
  destruct (finish_fields _ _ _ _ _ _ _ _ _ _ _ _ Hf) as (_ & HP & _ & Ha & Hb & Hk & Hal).
  destruct (finish_single _ _ _ _ _ _ _ _ _ _ V _ _ (single_real_given V) Hf)
    as ((HP0 & HVpos & HVb0 & Hb0) & Hl & _ & _).
  rewrite HP, Ha, Hb, Hk, Hal.
  split; [exact Hl|]. split.
  - intros [HW HC].
    destruct (all_V_single T (P_eos T V b a_alpha) V b a_alpha) as (Vs & EVs & Hs);
      try assumption; try reflexivity.
    exists (with_V None o). split; [|split; [reflexivity|]].
    + rewrite init_finish, Ea, bind_Ok, Eb, bind_Ok. cbv zeta.
      cbn [arg truthy need]. rewrite bind_Ok, Eal, !bind_Ok, EVs, !bind_Ok.
      cbn beta iota.
      rewrite (finish_roots _ _ _ _ _ _ _ _ _ _ V Vs [Float V; Complex j1; Complex j1])
        by (assumption || apply single_real_given).
      now apply (finish_with_V _ _ _ (Some V)).
    + intros Hph. split; [exact Hph|]. now apply Hl.
  - intros [HX Hbr].
    apply set_a_alpha_Ok in Eal as Hs. destruct Hs as (HTc & HT & Hal').
    rewrite init_finish, Ea, bind_Ok, Eb, bind_Ok. cbv zeta.
    cbn [arg truthy need]. rewrite !float_truthy_nonzero by assumption.
    rewrite !bind_Ok.
    assert (Hsol : solve_T Tc a b (kappa_of omega) (P_eos T V b a_alpha) V = Ok T).
    { rewrite HT at 2. rewrite Hal' at 1. unfold P_eos. rewrite HT at 1.
      apply solve_T_inverts; try assumption; lra. }
    rewrite Hsol, bind_Ok, Eal, bind_Ok. exact Hf.
Qed.

(** ** n-hexane at T = 0.64 Tc *)

Lemma sqrt_hexane : sqrt (hexane_T / hexane_Tc) = 4 / 5.
Proof.
  replace (hexane_T / hexane_Tc) with ((4 / 5) * (4 / 5)) by creal.
  apply sqrt_square. lra.
Qed.

Lemma hexane_a_Ok : pdiv (c1 * Rgas^2 * hexane_Tc^2) hexane_Pc = Ok hexane_a.
Proof. apply pdiv_nonzero. creal. Qed.

Lemma hexane_b_Ok : pdiv (c2 * Rgas * hexane_Tc) hexane_Pc = Ok hexane_b.
Proof. apply pdiv_nonzero. creal. Qed.

Lemma hexane_a_alpha_Ok :
  set_a_alpha hexane_a (kappa_of hexane_omega) hexane_Tc hexane_T
  = Ok hexane_a_alpha.
Proof.
  unfold set_a_alpha. rewrite pdiv_nonzero by creal. rewrite bind_Ok.
  unfold pow_half. destruct (Rlt_dec _ 0) as [Hn|_].
  - exfalso. apply (Rlt_not_le _ _ Hn). creal.
  - rewrite bind_Ok, sqrt_hexane. reflexivity.
Qed.

(** the attributes of a state of n-hexane built from [hexane_T] and [V] *)
Lemma hexane_state `{Utils} (V : R) (o : PR) :
  __init__ hexane_Tc hexane_Pc hexane_omega (Some hexane_T) None (Some V) = Ok o →
  P o = P_eos hexane_T V hexane_b hexane_a_alpha
  ∧ a o = hexane_a ∧ b o = hexane_b ∧ kappa o = kappa_of hexane_omega
  ∧ a_alpha o = hexane_a_alpha
  ∧ (phase o = Some l → Vl o = Some (Float V)).
Proof.
  intros Hi.
  destruct (init_TV _ _ _ _ _ _ Hi) as (a & b & a_alpha & Ea & Eb & Eal & _ & _ & _ & Hf).
  rewrite hexane_a_Ok in Ea. injection Ea as <-.
  rewrite hexane_b_Ok in Eb. injection Eb as <-.
  rewrite hexane_a_alpha_Ok in Eal. injection Eal as <-.
  destruct (finish_fields _ _ _ _ _ _ _ _ _ _ _ _ Hf) as (_ & HP & _ & Ha & Hb & Hk & Hal).
  destruct (finish_single _ _ _ _ _ _ _ _ _ _ V _ _ (single_real_given V) Hf)
    as (_ & Hl & _).
  auto 10.
Qed.

Lemma catanh_arg (x y : R) : 0 < y → 2 * y < x → 1 < x * sqrt 2 / y / 2.
Proof.
  intros Hy Hx. pose proof sqrt2_gt_1 as Hs.
  assert (Hq : 1 < x / (2 * y)).
  { apply Rmult_lt_reg_r with (2 * y); [lra|].
    replace (x / (2 * y) * (2 * y)) with x by (field; lra). lra. }
  replace (x * sqrt 2 / y / 2) with (x / (2 * y) * sqrt 2) by (field; lra).
  nra.
Qed.

Ltac hexane_eval :=
  repeat first
    [ rewrite hexane_a_Ok
    | rewrite hexane_b_Ok
    | rewrite hexane_a_alpha_Ok
    | rewrite sqrt_hexane
    | eval_pdiv
    | rewrite bind_Ok
    | progress cbv zeta
    | progress cbn [util isobaric_expansion isothermal_compressibility
                    Cp_minus_Cv phase_identification_parameter
                    phase_identification_parameter_phase spec_utils] ].

(** evaluation of [PR(Tc, Pc, omega, T=hexane_T, V=V)] for n-hexane at a
    closed rational volume of the liquid *)
Ltac hexane_liquid V :=
  rewrite init_finish; hexane_eval;
  cbn [arg truthy need]; rewrite (float_truthy_nonzero V) by creal;
  hexane_eval; cbn beta iota; unfold finish; hexane_eval;
  rewrite (set_from_PT_single _ _ V) by apply single_real_given;
  rewrite run_bind; unfold set_derivs_from_phase; rewrite run_bind;
  unfold lift; cbn [as_float]; rewrite bind_Ok;
  unfold derivs, first_derivatives, second_derivatives, second_derivatives_mixed;
  hexane_eval;
  rewrite catanh_real_above by (apply catanh_arg; creal);
  hexane_eval;
  match goal with
  | |- context [Rlt_dec 1 ?x] =>
      destruct (Rlt_dec 1 x) as [_|Hn]; [|exfalso; apply Hn; creal]
  end;
  cbn; eexists; split; reflexivity.

Lemma hexane_liquid_single :
  ∃ o, @__init__ spec_utils hexane_Tc hexane_Pc hexane_omega
         (Some hexane_T) None (Some hexane_V) = Ok o
       ∧ phase o = Some l.
Proof. hexane_liquid hexane_V. Qed.

Lemma hexane_liquid_loop :
  ∃ o, @__init__ spec_utils hexane_Tc hexane_Pc hexane_omega
         (Some hexane_T) None (Some hexane_V_loop) = Ok o
       ∧ phase o = Some l.
Proof. hexane_liquid hexane_V_loop. Qed.

Lemma C3_round_trip_witness :
  ∃ o, @__init__ spec_utils hexane_Tc hexane_Pc hexane_omega
         (Some hexane_T) None (Some hexane_V) = Ok o
       ∧ phase o = Some l
       ∧ Vl o = Some (Float hexane_V)
       ∧ @__init__ spec_utils hexane_Tc hexane_Pc hexane_omega
           (Some hexane_T) (Some (P o)) None = Ok (with_V None o)
       ∧ @__init__ spec_utils hexane_Tc hexane_Pc hexane_omega
           None (Some (P o)) (Some hexane_V) = Ok o.
Proof.
  destruct hexane_liquid_single as (o & Hi & Hl).
  destruct (@hexane_state spec_utils hexane_V o Hi) as (HP & Ha & Hb & Hk & Hal & _).
  destruct (@C3_round_trip spec_utils hexane_Tc hexane_Pc hexane_omega
              hexane_T hexane_V o Hi) as (H1 & H2 & H3).
  exists o. split; [exact Hi|]. split; [exact Hl|]. split; [exact (H1 Hl)|].
  split.
  - destruct H2 as (o' & Ho' & -> & _); [|exact Ho'].
    rewrite HP, Hb, Hal. unfold cardano_single. cbv zeta.
    split; [creal|right; creal].
  - apply H3. rewrite Ha, Hb, Hk. unfold solve_T_branch. cbv zeta.
    rewrite sqrt_hexane. split; creal.
Defined.

(** the liquid state of n-hexane at [hexane_T] and [hexane_V_loop]: the
    object is built from [T] and [V] and holds [V] as its liquid root, but
    at its pressure the cubic has three real roots and the construction
    from [T] and [P] raises *)
Lemma C3_counterexample :
  ∃ o, @__init__ spec_utils hexane_Tc hexane_Pc hexane_omega
         (Some hexane_T) None (Some hexane_V_loop) = Ok o
       ∧ phase o = Some l
       ∧ Vl o = Some (Float hexane_V_loop)
       ∧ @__init__ spec_utils hexane_Tc hexane_Pc hexane_omega
           (Some hexane_T) (Some (P o)) None
         = Raise (ValueError "math domain error").
Proof.
  destruct hexane_liquid_loop as (o & Hi & Hl).
  destruct (@hexane_state spec_utils hexane_V_loop o Hi) as (HP & _ & _ & _ & _ & HVl).
  exists o. split; [exact Hi|]. split; [exact Hl|]. split; [exact (HVl Hl)|].
  rewrite HP, init_finish, hexane_a_Ok, bind_Ok, hexane_b_Ok, bind_Ok.
  cbv zeta. cbn [arg truthy need].
  rewrite bind_Ok, hexane_a_alpha_Ok, !bind_Ok.
  rewrite all_V_three_real; [reflexivity|creal|creal].
Qed.

End EOSRoundTrip.

(** * Derivatives of closed-form expressions *)

Section Derivatives.
Local Open Scope R_scope.

Lemma D_eq (f : R → R) (x l l' : R) :
  derivable_pt_lim f x l → l = l' → derivable_pt_lim f x l'.
Proof. now intros H <-. Qed.

Lemma D_const (c x : R) : derivable_pt_lim (λ _, c) x 0.
Proof. apply derivable_pt_lim_const. Qed.

Lemma D_id (x : R) : derivable_pt_lim (λ t, t) x 1.
Proof. apply derivable_pt_lim_id. Qed.

Lemma D_plus (f g : R → R) (x a b : R) :
  derivable_pt_lim f x a → derivable_pt_lim g x b →
  derivable_pt_lim (λ t, f t + g t) x (a + b).
Proof. apply derivable_pt_lim_plus. Qed.

Lemma D_minus (f g : R → R) (x a b : R) :
  derivable_pt_lim f x a → derivable_pt_lim g x b →
  derivable_pt_lim (λ t, f t - g t) x (a - b).
Proof. apply derivable_pt_lim_minus. Qed.

Lemma D_opp (f : R → R) (x a : R) :
  derivable_pt_lim f x a → derivable_pt_lim (λ t, - f t) x (- a).
Proof. apply derivable_pt_lim_opp. Qed.

Lemma D_mult (f g : R → R) (x a b : R) :
  derivable_pt_lim f x a → derivable_pt_lim g x b →
  derivable_pt_lim (λ t, f t * g t) x (a * g x + f x * b).
Proof. apply derivable_pt_lim_mult. Qed.

Lemma D_div (f g : R → R) (x a b : R) :
  derivable_pt_lim f x a → derivable_pt_lim g x b → g x ≠ 0 →
  derivable_pt_lim (λ t, f t / g t) x ((a * g x - b * f x) / (g x)²).
Proof. apply derivable_pt_lim_div. Qed.

Lemma D_comp (f g : R → R) (x a b : R) :
  derivable_pt_lim f x a → derivable_pt_lim g (f x) b →
  derivable_pt_lim (λ t, g (f t)) x (b * a).
Proof. apply derivable_pt_lim_comp. Qed.

Lemma D_exp (f : R → R) (x a : R) :
  derivable_pt_lim f x a → derivable_pt_lim (λ t, exp (f t)) x (exp (f x) * a).
Proof. intros H. apply (D_comp f exp); [exact H|apply derivable_pt_lim_exp]. Qed.

Lemma D_ln (f : R → R) (x a : R) :
  derivable_pt_lim f x a → 0 < f x →
  derivable_pt_lim (λ t, ln (f t)) x (/ f x * a).
Proof. intros H Hx. apply (D_comp f ln); [exact H|now apply derivable_pt_lim_ln]. Qed.

Lemma D_sqrt (f : R → R) (x a : R) :
  derivable_pt_lim f x a → 0 < f x →
  derivable_pt_lim (λ t, sqrt (f t)) x (/ (2 * sqrt (f x)) * a).
Proof. intros H Hx. apply (D_comp f sqrt); [exact H|now apply derivable_pt_lim_sqrt]. Qed.

Lemma D_pow (f : R → R) (n : nat) (x a : R) :
  derivable_pt_lim f x a →
  derivable_pt_lim (λ t, f t ^ n) x (INR n * f x ^ pred n * a).
Proof.
  intros H. apply (D_comp f (λ y, y ^ n)); [exact H|apply derivable_pt_lim_pow].
Qed.

Lemma D_Rsqr (f : R → R) (x a : R) :
  derivable_pt_lim f x a →
  derivable_pt_lim (λ t, (f t)²) x (2 * f x * a).
Proof.
  intros H. unfold Rsqr. eapply D_eq; [apply D_mult; exact H|ring].
Qed.

Lemma D_list_sum {A} (f : A → R → R) (d : A → R) (l : list A) (x : R) :
  (∀ i, i ∈ l → derivable_pt_lim (f i) x (d i)) →
  derivable_pt_lim (λ t, Rlist_sum (map (λ i, f i t) l)) x (Rlist_sum (map d l)).
Proof.
  induction l as [|i l IH]; intros Hd.
  - exact (D_const 0 x).
  - cbn [map]. 
    apply (derivable_pt_lim_ext (λ t, f i t + Rlist_sum (map (λ i, f i t) l))).
    { intros z. reflexivity. }
    change (Rlist_sum (d i :: map d l)) with (d i + Rlist_sum (map d l)).
    apply D_plus.
    + apply Hd. left.
    + apply IH. intros j Hj. apply Hd. now right.
Qed.

Lemma D_Rsum (n : nat) (f : nat → R → R) (d : nat → R) (x : R) :
  (∀ i, (i < n)%nat → derivable_pt_lim (f i) x (d i)) →
  derivable_pt_lim (λ t, Rsum n (λ i, f i t)) x (Rsum n d).
Proof.
  intros Hd. unfold Rsum. apply D_list_sum.
  intros i Hi%elem_of_seq. apply Hd. lia.
Qed.

End Derivatives.

Ltac deriv_step :=
  first
    [ exact (D_const _ _)
    | exact (D_id _)
    | eapply D_plus
    | eapply D_minus
    | eapply D_opp
    | eapply D_pow
    | eapply D_Rsqr
    | eapply D_div
    | eapply D_mult
    | eapply D_exp
    | eapply D_ln
    | eapply D_sqrt ].

(** derivative of an expression in closed form: the rules give a value,
    [field] identifies it with the one stated *)
Ltac deriv :=
  eapply D_eq; [repeat deriv_step|cbv beta; cbn [INR Init.Nat.pred]; unfold Rsqr].

(** * Facts about calls, ranking and fallback of the registry *)

Module TPCallsFacts.
Import TPDependentProperty TPDependentPropertyFacts TPCalls.
Local Open Scope R_scope.

Section Calls.
Context `{PropertyMethods} `{BaseProperty}.

(** ** [__call__] and its cache *)

Lemma same_point_true (k : R * option R) (c : option (R * option R)) :
  same_point k c = true ↔ c = Some k.
Proof.
  unfold same_point. destruct c as [k'|]; [|split; discriminate].
  rewrite bool_decide_eq_true. split; congruence.
Qed.

Lemma TP_dependent_property_frame (s s' : TPDependentProperty) (T P : R) :
  _method_P s' = _method_P s →
  tabular_data_P s' = tabular_data_P s →
  all_methods_P s' = all_methods_P s →
  T_limits s' = T_limits s →
  tabular_extrapolation_permitted s' = tabular_extrapolation_permitted s →
  RAISE_PROPERTY_CALCULATION_ERROR s' = RAISE_PROPERTY_CALCULATION_ERROR s →
  _method s' = _method s →
  TP_dependent_property s' T P = TP_dependent_property s T P.
Proof.
  intros E1 E2 E3 E4 E5 E6 E7.
  unfold TP_dependent_property, test_method_validity_P.
  now rewrite E1, E2, E3, E4, E5, E6, E7.
Qed.

Lemma evaluate_cached (self : TPDependentProperty) k v T P :
  cache_blind →
  evaluate (set_TP_cached k (set_prop_cached v self)) T P = evaluate self T P.
Proof.
  intros Hb. unfold evaluate. destruct P as [p|].
  - now apply TP_dependent_property_frame.
  - apply Hb.
Qed.

(** X9: A call returns what a fresh evaluation returns, and leaves the cache
    coherent: on an object whose cache is coherent, [__call__(T, P)] gives
    the outcome (value, no value or exception) of
    [TP_dependent_property(T, P)], or of [T_dependent_property(T)] when [P]
    is [None], whether it is answered from the cache or not; the method
    setter and [add_tabular_data_P] keep the cache coherent too, because
    every successful assignment of [method_P] clears [TP_cached]. *)
Theorem call_cache_coherent (self : TPDependentProperty) :
  cache_blind → coherent self →
  (∀ T P, (__call__ T P self).1 = evaluate self T P
          ∧ coherent (__call__ T P self).2)
  ∧ (∀ m, coherent (set_method_P m self).2)
  ∧ (∀ Ts Ps properties name check,
       coherent (add_tabular_data_P Ts Ps properties name check self).2).
Proof.
  intros Hb Hc. split; [|split].
  - intros T P. unfold __call__.
    destruct (same_point (T, P) (TP_cached self)) eqn:Hhit.
    + apply same_point_true in Hhit.
      destruct (Hc _ Hhit) as (v & Hv & Hev). rewrite Hv. cbn. split; [|exact Hc].
      now rewrite <- Hev.
    + destruct (evaluate self T P) as [v|e] eqn:Hev; cbn; split; try reflexivity;
        try exact Hc.
      intros k [= <-]. exists v. split; [reflexivity|]. cbn [fst snd].
      now rewrite evaluate_cached.
  - intros m. unfold set_method_P.
    destruct (_ && _); cbn; [exact Hc|]. intros k Hk. discriminate.
  - intros Ts Ps properties name check. unfold add_tabular_data_P.
    rewrite run_bind. unfold lift.
    destruct (if check then _ else _) as [[]|e]; [|exact Hc].
    rewrite run_bind. destruct (increasing Ts); [|exact Hc].
    rewrite run_bind. destruct (increasing Ps); [|exact Hc].
    mrun. unfold set_method_P, not_in_methods. cbn [all_methods_P add_method_P].
    rewrite bool_decide_eq_true_2
      by (apply elem_of_union_l, elem_of_singleton; reflexivity).
    cbn. intros k Hk. discriminate.
Qed.

(** ** [TP_or_T_dependent_property] *)

Lemma TP_dependent_property_raising (self : TPDependentProperty) (T P : R) :
  RAISE_PROPERTY_CALCULATION_ERROR self = true →
  TP_dependent_property self T P ≠ Ok None.
Proof.
  intros HR. unfold TP_dependent_property. rewrite HR.
  destruct (_method_P self) as [m|]; [|discriminate].
  destruct (test_method_validity_P self T P m) as [[]|e]; cbn; try discriminate.
  destruct (calculate_P T P m) as [prop|e]; [|discriminate].
  destruct (test_property_validity prop); discriminate.
Qed.

(** X10: With a pressure, the value of the pressure-dependent method is returned
    when there is one, and the low-pressure method is evaluated exactly
    when [TP_dependent_property] returns no value, which does not happen
    when RAISE_PROPERTY_CALCULATION_ERROR is set: then the call is
    [TP_dependent_property] itself.  An exception of the pressure-dependent
    evaluation is not caught.  Without a pressure the call is
    [T_dependent_property]. *)
Theorem TP_or_T_fallback (self : TPDependentProperty) (T : R) :
  (∀ P v, TP_dependent_property self T P = Ok (Some v) →
     TP_or_T_dependent_property self T (Some P) = Ok (Some v))
  ∧ (∀ P, TP_dependent_property self T P = Ok None →
       TP_or_T_dependent_property self T (Some P) = T_dependent_property self T)
  ∧ (∀ P e, TP_dependent_property self T P = Raise e →
       TP_or_T_dependent_property self T (Some P) = Raise e)
  ∧ (RAISE_PROPERTY_CALCULATION_ERROR self = true →
     ∀ P, TP_or_T_dependent_property self T (Some P) = TP_dependent_property self T P)
  ∧ TP_or_T_dependent_property self T None = T_dependent_property self T.
Proof.
  unfold TP_or_T_dependent_property. repeat split.
  - intros P v ->. reflexivity.
  - intros P ->. reflexivity.
  - intros P e ->. reflexivity.
  - intros HR P. pose proof (TP_dependent_property_raising self T P HR) as Hn.
    destruct (TP_dependent_property self T P) as [[v|]|e]; try reflexivity.
    now destruct Hn.
Qed.

(** ** [valid_methods_P] *)

Lemma remove_first_subset (x : string) (l : list string) :
  ∀ y, y ∈ remove_first x l → y ∈ l.
Proof.
  induction l as [|z l IH]; intros y; cbn; [easy|].
  destruct (bool_decide (x = z)).
  - intros Hy. now right.
  - intros [->|Hy]%elem_of_cons; [left|right; now apply IH].
Qed.

Lemma remove_first_length (x : string) (l : list string) :
  x ∈ l → S (length (remove_first x l)) = length l.
Proof.
  induction l as [|z l IH]; cbn; [intros Hx; now apply elem_of_nil in Hx|].
  destruct (bool_decide (x = z)) eqn:E; [reflexivity|].
  apply bool_decide_eq_false in E.
  intros [->|Hx]%elem_of_cons; [now destruct E|]. cbn. now rewrite IH.
Qed.

Lemma filter_result_Ok {A} (f : A → result bool) (l r : list A) :
  filter_result f l = Ok r →
  ∀ i, i ∈ r ↔ i ∈ l ∧ f i = Ok true.
Proof.
  revert r. induction l as [|i l IH]; intros r; cbn.
  - intros [= <-] j. split; [intros Hj; now apply elem_of_nil in Hj|].
    intros [Hj _]. now apply elem_of_nil in Hj.
  - intros Hr. bind_step Hr. bind_step Hr. injection Hr as <-.
    specialize (IH _ E0). intros j. destruct v.
    + rewrite !elem_of_cons, IH. split.
      * intros [->|[Hj Hv]]; auto.
      * intros [[->|Hj] Hv]; auto.
    + rewrite elem_of_cons, IH. split.
      * intros [Hj Hv]; auto.
      * intros [[->|Hj] Hv]; [congruence|auto].
Qed.

Lemma filter_result_total {A} (f : A → result bool) (l : list A) :
  (∀ i, i ∈ l → ∃ keep, f i = Ok keep) → ∃ r, filter_result f l = Ok r.
Proof.
  induction l as [|i l IH]; intros Hall; cbn; [eauto|].
  destruct (Hall i) as [keep ->]; [left|]. rewrite bind_Ok.
  destruct IH as [r ->]; [intros j Hj; apply Hall; now right|].
  rewrite bind_Ok. eauto.
Qed.

(** X11: [valid_methods_P] lists ranked methods only: every name it returns is
    in [ranked_methods_P] and in [all_methods_P], so a selected method that
    is registered but not ranked (a tabular data set) never appears.
    Without a temperature the list is the ranked and registered methods,
    with the selected one moved to the front when it is ranked; with a
    temperature and a pressure a name is listed exactly when it is one of
    those and [test_method_validity_P] accepts it, and the call returns
    whenever that test does not raise on them. *)
Theorem valid_methods_P_ranked (self : TPDependentProperty) :
  let sorted := filter (λ i, i ∈ all_methods_P self) ranked_methods_P in
  (∀ T P r, valid_methods_P self T P = Ok r →
     ∀ m, m ∈ r → m ∈ ranked_methods_P ∧ m ∈ all_methods_P self)
  ∧ (∀ P, ∃ r, valid_methods_P self None P = Ok r
        ∧ length r = length sorted
        ∧ (∀ m, m ∈ r ↔ m ∈ sorted)
        ∧ (∀ m, _method_P self = Some m → m ∈ sorted → head r = Some m))
  ∧ (∀ t p r, valid_methods_P self (Some t) (Some p) = Ok r →
       ∀ m, m ∈ r ↔ m ∈ sorted ∧ test_method_validity_P self t p m = Ok true)
  ∧ (∀ t p, (∀ m, m ∈ sorted → ∃ v, test_method_validity_P self t p m = Ok v) →
       ∃ r, valid_methods_P self (Some t) (Some p) = Ok r).
Proof.
  intros sorted.
  set (moved := match _method_P self with
                | Some m => if bool_decide (m ∈ sorted)
                            then m :: remove_first m sorted else sorted
                | None => sorted
                end).
  assert (Hmoved : ∀ m, m ∈ moved ↔ m ∈ sorted).
  { intros m. unfold moved. destruct (_method_P self) as [c|]; [|reflexivity].
    destruct (bool_decide (c ∈ sorted)) eqn:Hc; [|reflexivity].
    apply bool_decide_eq_true in Hc. rewrite elem_of_cons. split.
    - intros [->|Hm]; [assumption|]. now apply (remove_first_subset c).
    - intros Hm. destruct (decide (m = c)) as [->|Hne]; [now left|right].
      clear Hc. induction sorted as [|z l IH]; [now apply elem_of_nil in Hm|].
      cbn. destruct (bool_decide (c = z)) eqn:Ez.
      + apply bool_decide_eq_true in Ez. subst z.
        apply elem_of_cons in Hm as [->|Hm]; [now destruct Hne|assumption].
      + apply elem_of_cons in Hm as [->|Hm]; [left|right; now apply IH]. }
  assert (Hsorted : ∀ m, m ∈ sorted → m ∈ ranked_methods_P ∧ m ∈ all_methods_P self).
  { intros m Hm. unfold sorted in Hm. apply list_elem_of_filter in Hm. tauto. }
  assert (Hrun : ∀ T P, valid_methods_P self T P
            = match T with
              | Some t =>
                  filter_result (λ i,
                    match P with
                    | Some p => test_method_validity_P self t p i
                    | None => test_method_validity_P_None self t i
                    end) moved
              | None => Ok moved
              end) by reflexivity.
  split; [|split; [|split]].
  - intros T P r Hr m Hm. rewrite Hrun in Hr. apply Hsorted, Hmoved.
    destruct T as [t|].
    + now apply (filter_result_Ok _ _ _ Hr).
    + now injection Hr as <-.
  - intros P. exists moved. rewrite Hrun. split; [reflexivity|].
    split; [|split; [exact Hmoved|]].
    + unfold moved. destruct (_method_P self) as [c|]; [|reflexivity].
      destruct (bool_decide (c ∈ sorted)) eqn:Hc; [|reflexivity].
      apply bool_decide_eq_true in Hc. cbn. now apply remove_first_length.
    + intros m Hm Hin. unfold moved. rewrite Hm.
      now rewrite bool_decide_eq_true_2.
  - intros t p r Hr m. rewrite Hrun in Hr.
    rewrite (filter_result_Ok _ _ _ Hr m), Hmoved. reflexivity.
  - intros t p Hall. rewrite Hrun. apply filter_result_total.
    intros m Hm. apply Hall. now apply Hmoved.
Qed.

(** ** Tabular data, once added *)

Lemma add_tabular_data_P_Ok (Ts Ps : list R) (properties : list (list R))
    (name : option string) (check : bool) (self self' : TPDependentProperty) :
  add_tabular_data_P Ts Ps properties name check self = (Ok tt, self') →
  let n := match name with Some n => n | None => default_name self end in
  increasing Ts = true ∧ increasing Ps = true
  ∧ self' = {| all_methods := all_methods self;
               all_methods_P := {[n]} ∪ all_methods_P self;
               tabular_data := tabular_data self;
               tabular_data_P := <[n := (Ts, Ps, properties)]> (tabular_data_P self);
               T_limits := T_limits self;
               tabular_extrapolation_permitted := tabular_extrapolation_permitted self;
               RAISE_PROPERTY_CALCULATION_ERROR := RAISE_PROPERTY_CALCULATION_ERROR self;
               _method := _method self;
               _method_P := Some n;
               TP_cached := None;
               prop_cached := prop_cached self |}.
Proof.
  unfold add_tabular_data_P. rewrite run_bind. unfold lift.
  destruct (if check then _ else _) as [[]|e]; [|discriminate].
  rewrite run_bind. destruct (increasing Ts); [|discriminate].
  rewrite run_bind. destruct (increasing Ps); [|discriminate].
  mrun. unfold set_method_P, not_in_methods. cbn [all_methods_P add_method_P].
  rewrite bool_decide_eq_true_2
    by (apply elem_of_union_l, elem_of_singleton; reflexivity).
  cbn. intros [= <-]. auto.
Qed.

Lemma strictly_inside_bounds (l : list R) (lo hi v : R) :
  head l = Some lo → last l = Some hi →
  strictly_inside l v = Ok (Rltb lo v && Rltb v hi).
Proof.
  intros Hlo Hhi. unfold strictly_inside, first, final, getitem.
  rewrite <- head_lookup, Hlo, bind_Ok, Hhi.
  destruct (Rltb lo v); reflexivity.
Qed.

(** X12: After [add_tabular_data_P] has returned, the property is evaluated
    with the table's name.  With extrapolation permitted (the default) the
    table is valid at every (T, P) and its axes are not read:
    [TP_dependent_property] is the validated value of [calculate_P] for
    that name.  With extrapolation forbidden the table is valid exactly
    strictly inside the first and last temperature and pressure.  Nothing
    checks that the axes are not empty: the empty table is accepted, and
    with extrapolation forbidden an empty temperature axis makes every
    later evaluation raise IndexError, an empty pressure axis every
    evaluation at a temperature inside the table, whatever
    RAISE_PROPERTY_CALCULATION_ERROR says. *)
Theorem tabular_data_P_in_use (Ts Ps : list R) (properties : list (list R))
    (name : option string) (check : bool) (self self' : TPDependentProperty) :
  add_tabular_data_P Ts Ps properties name check self = (Ok tt, self') →
  let n := match name with Some n => n | None => default_name self end in
  (tabular_extrapolation_permitted self = true →
   ∀ T P, test_method_validity_P self' T P n = Ok true
          ∧ TP_dependent_property self' T P
            = match calculate_P T P n with
              | Ok prop =>
                  if test_property_validity prop then Ok (Some prop)
                  else if RAISE_PROPERTY_CALCULATION_ERROR self
                  then Raise (RuntimeError InvalidValue) else Ok None
              | Raise _ =>
                  if RAISE_PROPERTY_CALCULATION_ERROR self
                  then Raise (RuntimeError EvaluationFailed) else Ok None
              end)
  ∧ (tabular_extrapolation_permitted self = false →
     ∀ T P T0 Tn P0 Pn,
       head Ts = Some T0 → last Ts = Some Tn →
       head Ps = Some P0 → last Ps = Some Pn →
       test_method_validity_P self' T P n
       = Ok (Rltb T0 T && Rltb T Tn && (Rltb P0 P && Rltb P Pn)))
  ∧ (tabular_extrapolation_permitted self = false → Ts = [] →
     ∀ T P, TP_dependent_property self' T P = Raise IndexError)
  ∧ (tabular_extrapolation_permitted self = false → Ps = [] →
     ∀ T P T0 Tn, head Ts = Some T0 → last Ts = Some Tn → T0 < T → T < Tn →
       TP_dependent_property self' T P = Raise IndexError)
  ∧ (∀ self0 name0 check0,
       ∃ self1, add_tabular_data_P [] [] [] name0 check0 self0 = (Ok tt, self1)).
Proof.
  intros Hadd n. destruct (add_tabular_data_P_Ok _ _ _ _ _ _ _ Hadd) as (_ & _ & ->).
  fold n. split; [|split; [|split; [|split]]].
  - intros Hx T P.
    assert (Hv : test_method_validity_P
              {| all_methods := all_methods self;
                 all_methods_P := {[n]} ∪ all_methods_P self;
                 tabular_data := tabular_data self;
                 tabular_data_P := <[n := (Ts, Ps, properties)]> (tabular_data_P self);
                 T_limits := T_limits self;
                 tabular_extrapolation_permitted := tabular_extrapolation_permitted self;
                 RAISE_PROPERTY_CALCULATION_ERROR := RAISE_PROPERTY_CALCULATION_ERROR self;
                 _method := _method self;
                 _method_P := Some n;
                 TP_cached := None;
                 prop_cached := prop_cached self |} T P n = Ok true).
    { unfold test_method_validity_P. cbn. now rewrite lookup_insert_eq, Hx. }
    split; [exact Hv|].
    unfold TP_dependent_property. cbn [_method_P]. rewrite Hv, bind_Ok. reflexivity.
  - intros Hx T P T0 Tn P0 Pn H1 H2 H3 H4.
    unfold test_method_validity_P. cbn. rewrite lookup_insert_eq, Hx.
    rewrite (strictly_inside_bounds Ts T0 Tn) by assumption. rewrite bind_Ok.
    destruct (Rltb T0 T && Rltb T Tn); [|reflexivity].
    now rewrite (strictly_inside_bounds Ps P0 Pn).
  - intros Hx -> T P. unfold TP_dependent_property. cbn [_method_P].
    unfold test_method_validity_P. cbn. now rewrite lookup_insert_eq, Hx.
  - intros Hx -> T P T0 Tn H1 H2 Hlo Hhi.
    unfold TP_dependent_property. cbn [_method_P].
    unfold test_method_validity_P. cbn. rewrite lookup_insert_eq, Hx.
    rewrite (strictly_inside_bounds Ts T0 Tn) by assumption. rewrite bind_Ok.
    rewrite (proj2 (Rltb_true T0 T) Hlo), (proj2 (Rltb_true T Tn) Hhi).
    reflexivity.
  - intros self0 name0 check0. unfold add_tabular_data_P.
    rewrite run_bind; unfold lift. destruct check0; cbn [concat forallb];
      rewrite run_bind; cbn [increasing]; rewrite run_bind;
      mrun; unfold set_method_P, not_in_methods; cbn [all_methods_P add_method_P];
      rewrite bool_decide_eq_true_2
        by (apply elem_of_union_l, elem_of_singleton; reflexivity);
      cbn; eauto.
Qed.

(** X13: The name given to an unnamed table counts the temperature-only tables
    ([len(self.tabular_data)]), which adding a (T, P) table does not
    change: a second unnamed table takes the name of the first and
    replaces it, so only the second one is stored. *)
Theorem unnamed_tables_overwrite (Ts1 Ps1 Ts2 Ps2 : list R)
    (props1 props2 : list (list R)) (check1 check2 : bool)
    (self s1 s2 : TPDependentProperty) :
  add_tabular_data_P Ts1 Ps1 props1 None check1 self = (Ok tt, s1) →
  add_tabular_data_P Ts2 Ps2 props2 None check2 s1 = (Ok tt, s2) →
  method_P s1 = Some (default_name self) ∧ method_P s2 = Some (default_name self)
  ∧ tabular_data_P s2
    = <[default_name self := (Ts2, Ps2, props2)]> (tabular_data_P self)
  ∧ all_methods_P s2 = all_methods_P s1.
Proof.
  intros H1 H2.
  destruct (add_tabular_data_P_Ok _ _ _ _ _ _ _ H1) as (_ & _ & ->).
  destruct (add_tabular_data_P_Ok _ _ _ _ _ _ _ H2) as (_ & _ & ->).
  unfold method_P, default_name. cbn.
  split; [reflexivity|]. split; [reflexivity|]. split.
  - apply insert_insert_eq.
  - now rewrite (assoc_L (∪)), (idemp_L (∪)).
Qed.

(** ** The selected method stays a registered one *)

(** X14: If the selected pressure-dependent method is a registered name, it
    still is after the method setter, [add_tabular_data_P] and [__call__],
    whether they return or raise.  On such an object the validity test of
    the selected method never takes its last branch (the ValueError of an
    unknown name): for a method that is neither a table nor the sentinel it
    is the comparison with the method's temperature limits. *)
Theorem selected_method_known (self : TPDependentProperty) :
  selected_known self →
  (∀ m, selected_known (set_method_P m self).2)
  ∧ (∀ Ts Ps properties name check,
       selected_known (add_tabular_data_P Ts Ps properties name check self).2)
  ∧ (∀ T P, selected_known (__call__ T P self).2)
  ∧ (∀ m T P, _method_P self = Some m →
       tabular_data_P self !! m = None → m ≠ NEGLECT_P →
       test_method_validity_P self T P m
       = match T_limits self !! m with
         | Some (Tmin, Tmax) => Ok (Rltb Tmin T && Rltb T Tmax)
         | None => Raise KeyError
         end).
Proof.
  intros Hk. split; [|split; [|split]].
  - intros m. unfold set_method_P.
    destruct (not_in_methods m (all_methods_P self) && is_not_None m) eqn:E;
      cbn; [exact Hk|].
    intros c [= ->]. unfold not_in_methods, is_not_None in E. cbn in E.
    rewrite andb_true_r in E. apply negb_false_iff in E.
    now apply bool_decide_eq_true in E.
  - intros Ts Ps properties name check.
    destruct (add_tabular_data_P Ts Ps properties name check self) as [[[]|e] s'] eqn:Ha.
    + destruct (add_tabular_data_P_Ok _ _ _ _ _ _ _ Ha) as (_ & _ & ->).
      cbn. intros c [= <-]. cbn. apply elem_of_union_l, elem_of_singleton. reflexivity.
    + cbn. revert Ha. unfold add_tabular_data_P. rewrite run_bind. unfold lift.
      destruct (if check then _ else _) as [[]|e']; [|now intros [= _ <-]].
      rewrite run_bind. destruct (increasing Ts); [|now intros [= _ <-]].
      rewrite run_bind. destruct (increasing Ps); [|now intros [= _ <-]].
      mrun. unfold set_method_P, not_in_methods. cbn [all_methods_P add_method_P].
      rewrite bool_decide_eq_true_2
        by (apply elem_of_union_l, elem_of_singleton; reflexivity).
      cbn. discriminate.
  - intros T P. unfold __call__.
    destruct (same_point _ _); [destruct (prop_cached self); exact Hk|].
    destruct (evaluate self T P); exact Hk.
  - intros m T P Hm Htab Hne. unfold test_method_validity_P. rewrite Htab.
    rewrite bool_decide_eq_false_2 by assumption.
    now rewrite bool_decide_eq_true_2 by (apply Hk; assumption).
Qed.

End Calls.

(** ** Instances *)

Lemma silent_base_blind : @cache_blind silent_base.
Proof. intros self k v T. reflexivity. Qed.

Lemma quiet_registry_coherent :
  @coherent negative_methods silent_base quiet_registry.
Proof. intros k Hk. discriminate. Qed.

Lemma call_cache_coherent_witness :
  (@__call__ negative_methods silent_base 300 (Some 100000) quiet_registry).1
  = @TP_dependent_property negative_methods quiet_registry 300 100000
  ∧ @coherent negative_methods silent_base
      (@__call__ negative_methods silent_base 300 (Some 100000) quiet_registry).2.
Proof.
  exact (proj1 (@call_cache_coherent negative_methods silent_base quiet_registry
                  silent_base_blind quiet_registry_coherent) 300 (Some 100000)).
Defined.

Lemma quiet_registry_no_value :
  @TP_dependent_property negative_methods quiet_registry 300 100000 = Ok None.
Proof.
  unfold TP_dependent_property. cbn [_method_P quiet_registry].
  rewrite quiet_registry_valid. cbn [mbind result_bind rbind calculate_P negative_methods].
  rewrite negative_value_invalid. reflexivity.
Qed.

Lemma TP_or_T_fallback_witness :
  @TP_or_T_dependent_property negative_methods silent_base quiet_registry 300
    (Some 100000)
  = @T_dependent_property silent_base quiet_registry 300.
Proof.
  exact (proj1 (proj2 (@TP_or_T_fallback negative_methods silent_base
                         quiet_registry 300)) 100000 quiet_registry_no_value).
Defined.

Lemma add_tabular_data_P_returns `{PropertyMethods} (Ts Ps : list R)
    (properties : list (list R)) (name : option string)
    (self : TPDependentProperty) :
  increasing Ts = true → increasing Ps = true →
  ∃ self', add_tabular_data_P Ts Ps properties name false self = (Ok tt, self').
Proof.
  intros HTs HPs. unfold add_tabular_data_P.
  rewrite run_bind; unfold lift. rewrite run_bind, HTs, run_bind, HPs.
  mrun. unfold set_method_P, not_in_methods. cbn [all_methods_P add_method_P].
  rewrite bool_decide_eq_true_2
    by (apply elem_of_union_l, elem_of_singleton; reflexivity).
  cbn. eauto.
Qed.

Lemma increasing_pair (a b : R) : a < b → increasing [a; b] = true.
Proof. intros Hab. cbn. now rewrite (proj2 (Rltb_true a b) Hab). Qed.

Lemma tabular_data_P_in_use_witness :
  ∃ self',
    @add_tabular_data_P negative_methods [300; 400] [100000; 200000]
      [[1; 2]; [3; 4]] (Some "TABLE") false quiet_registry = (Ok tt, self')
    ∧ @test_method_validity_P negative_methods self' 350 150000 "TABLE" = Ok true.
Proof.
  destruct (@add_tabular_data_P_returns negative_methods [300; 400] [100000; 200000]
              [[1; 2]; [3; 4]] (Some "TABLE") quiet_registry) as [self' Hadd];
    [apply increasing_pair; lra..|].
  exists self'. split; [exact Hadd|].
  exact (proj1 (proj1 (@tabular_data_P_in_use negative_methods _ _ _ _ _ _ _ Hadd)
                  eq_refl 350 150000)).
Defined.

Lemma unnamed_tables_overwrite_witness :
  ∃ s1 s2,
    @add_tabular_data_P negative_methods [300; 400] [100000; 200000]
      [[1; 2]; [3; 4]] None false quiet_registry = (Ok tt, s1)
    ∧ @add_tabular_data_P negative_methods [500; 600] [100000; 200000]
        [[5; 6]; [7; 8]] None false s1 = (Ok tt, s2)
    ∧ tabular_data_P s2
      = <[default_name quiet_registry := ([500; 600], [100000; 200000], [[5; 6]; [7; 8]])]>
          (tabular_data_P quiet_registry).
Proof.
  destruct (@add_tabular_data_P_returns negative_methods [300; 400] [100000; 200000]
              [[1; 2]; [3; 4]] None quiet_registry) as [s1 H1];
    [apply increasing_pair; lra..|].
  destruct (@add_tabular_data_P_returns negative_methods [500; 600] [100000; 200000]
              [[5; 6]; [7; 8]] None s1) as [s2 H2];
    [apply increasing_pair; lra..|].
  exists s1, s2. split; [exact H1|]. split; [exact H2|].
  exact (proj1 (proj2 (proj2 (@unnamed_tables_overwrite negative_methods
                                 _ _ _ _ _ _ _ _ _ _ _ H1 H2)))).
Defined.

Lemma quiet_registry_known : selected_known quiet_registry.
Proof.
  intros m [= <-]. cbn. apply elem_of_singleton. reflexivity.
Qed.

Lemma selected_method_known_witness :
  selected_known
    (@add_tabular_data_P negative_methods [300; 400] [100000; 200000]
       [[1; 2]; [3; 4]] None false quiet_registry).2.
Proof.
  exact (proj1 (proj2 (@selected_method_known negative_methods silent_base
                         quiet_registry quiet_registry_known)) _ _ _ _ _).
Defined.

End TPCallsFacts.

(** * Facts about the roots, the constructor paths and the derivatives of
      the equation of state *)

Module EOSFunctionsFacts.
Import EOS EOSFacts EOSRoundTrip EOSFunctions.
Local Open Scope R_scope.


(** what [all_V] has computed when it returns *)
Lemma all_V_Ok (T P b a_alpha : R) (Vs : list number) :
  let k2 := coef2 T P b in
  let k1 := coef1 T P b a_alpha in
  let k0 := coef0 T P b a_alpha in
  all_V T P b a_alpha = Ok Vs →
  P ≠ 0
  ∧ ∃ s C z2 z3,
      0 <= s ∧ s * s = (Delta1 k2 k1 k0)^2 - 4 * (Delta0 k2 k1)^3
      ∧ 0 < C ∧ C^3 = s / 2 + Delta1 k2 k1 k0 / 2
      ∧ Vs = [Float (- Delta0 k2 k1 / (3 * C) - C / 3 - k2 / 3);
              Complex z2; Complex z3]
      ∧ im z2 = sqrt 3 / 6 * (C - Delta0 k2 k1 / C)
      ∧ im z3 = - (sqrt 3 / 6 * (C - Delta0 k2 k1 / C)).
Proof.
  intros k2 k1 k0. unfold all_V.
  destruct (Req_EM_T P 0) as [E|HP]; [discriminate|]. cbv zeta.
  assert (Et1 : -3 * (-3 * P * b^2 - 2 * Rgas * T * b + a_alpha) / P
                + (P * b - Rgas * T)^2 / P^2 = Delta0 k2 k1)
    by (unfold Delta0, k2, k1, coef2, coef1; field; assumption).
  assert (Et2 : 27 * (P * b^3 + Rgas * T * b^2 - b * a_alpha) / P
                - 9 * (P * b - Rgas * T) * (-3 * P * b^2 - 2 * Rgas * T * b + a_alpha) / P^2
                + 2 * (P * b - Rgas * T)^3 / P^3 = Delta1 k2 k1 k0)
    by (unfold Delta1, k2, k1, k0, coef2, coef1, coef0; field; assumption).
  rewrite Et1, Et2.
  set (D0 := Delta0 k2 k1) in *. set (D1 := Delta1 k2 k1 k0) in *.
  intros Hrun. split; [exact HP|].
  bind_step Hrun. apply psqrt_Ok in E as [-> Hrad].
  set (s := sqrt (-4 * D0^3 + D1^2)) in *.
  assert (Hs : s * s = D1^2 - 4 * D0^3) by (unfold s; rewrite sqrt_sqrt; lra).
  assert (Hs0 : 0 <= s) by (unfold s; apply sqrt_pos).
  assert (Et3 : s / 2
            + 27 * (P * b^3 + Rgas * T * b^2 - b * a_alpha) / (2 * P)
            - 9 * (P * b - Rgas * T) * (-3 * P * b^2 - 2 * Rgas * T * b + a_alpha) / (2 * P^2)
            + (P * b - Rgas * T)^3 / P^3 = s / 2 + D1 / 2).
  { unfold D1, Delta1, k2, k1, k0, coef2, coef1, coef0. field. assumption. }
  rewrite Et3 in Hrun.
  bind_step Hrun. unfold ppow in E.
  destruct (Rlt_dec (s / 2 + D1 / 2) 0) as [|Hge]; [discriminate|].
  destruct (Req_EM_T (s / 2 + D1 / 2) 0) as [|Hne].
  { injection E as <-. bind_step Hrun. apply pdiv_Ok in E as [_ Hz]. lra. }
  injection E as <-.
  set (C := Rpower (s / 2 + D1 / 2) (1 / 3)) in *.
  assert (HC3 : C^3 = s / 2 + D1 / 2) by (apply Rpower_cube; lra).
  assert (HC0 : 0 < C) by (unfold C, Rpower; apply exp_pos).
  bind_step Hrun. apply pdiv_Ok in E as [-> _].
  destruct (pair_root_minus D0 C ((P * b - Rgas * T) / (3 * P)))
    as (q2 & r2 & Eq2 & Er2 & Hi2); [lra|].
  destruct (pair_root_plus D0 C ((P * b - Rgas * T) / (3 * P)))
    as (q3 & r3 & Eq3 & Er3 & Hi3); [lra|].
  rewrite Eq2, bind_Ok, Er2, bind_Ok, Eq3, bind_Ok, Er3, bind_Ok in Hrun.
  injection Hrun as <-.
  exists s, C. eexists _, _. repeat split; try eassumption.
  do 2 f_equal. unfold k2, coef2. field. split; [assumption|lra].
Qed.

(** the first candidate of [all_V] is a root of the cubic, hence a volume
    at which the pressure-explicit form gives back [P] *)
Lemma cubic_eos (T P V b a_alpha : R) :
  P ≠ 0 → V - b ≠ 0 → V * (V + b) + b * (V - b) ≠ 0 →
  cubic (coef2 T P b) (coef1 T P b a_alpha) (coef0 T P b a_alpha) V = 0 →
  P_eos T V b a_alpha = P.
Proof.
  intros HP Hb HD Hc.
  replace (P_eos T V b a_alpha)
    with (P - P * cubic (coef2 T P b) (coef1 T P b a_alpha) (coef0 T P b a_alpha) V
              / ((V - b) * (V * (V + b) + b * (V - b)))).
  - rewrite Hc. field. split; assumption.
  - unfold P_eos, cubic, coef2, coef1, coef0. field. repeat split; assumption.
Qed.

Lemma all_V_first_root (T P b a_alpha : R) (Vs : list number) :
  all_V T P b a_alpha = Ok Vs →
  ∃ V z2 z3,
    Vs = [Float V; Complex z2; Complex z3]
    ∧ cubic (coef2 T P b) (coef1 T P b a_alpha) (coef0 T P b a_alpha) V = 0
    ∧ (V - b ≠ 0 → V * (V + b) + b * (V - b) ≠ 0 → P_eos T V b a_alpha = P)
    ∧ im z3 = - im z2.
Proof.
  intros Hrun.
  destruct (all_V_Ok _ _ _ _ _ Hrun) as (HP & s & C & z2 & z3 & Hs0 & Hs & HC0 & HC3 & -> & H2 & H3).
  eexists _, z2, z3. split; [reflexivity|].
  assert (Hroot : cubic (coef2 T P b) (coef1 T P b a_alpha) (coef0 T P b a_alpha)
            (- Delta0 (coef2 T P b) (coef1 T P b a_alpha) / (3 * C) - C / 3
             - coef2 T P b / 3) = 0).
  { apply (cardano_root _ _ _ s C); try assumption. lra. }
  split; [exact Hroot|]. split.
  - intros Hb HD. now apply cubic_eos.
  - rewrite H2, H3. reflexivity.
Qed.

(** the calls on which [all_V] returns *)
Lemma all_V_returns (T P b a_alpha : R) :
  let k2 := coef2 T P b in
  let k1 := coef1 T P b a_alpha in
  let k0 := coef0 T P b a_alpha in
  P ≠ 0 → 4 * (Delta0 k2 k1)^3 <= (Delta1 k2 k1 k0)^2 →
  0 < sqrt ((Delta1 k2 k1 k0)^2 - 4 * (Delta0 k2 k1)^3) + Delta1 k2 k1 k0 →
  ∃ Vs, all_V T P b a_alpha = Ok Vs.
Proof.
  intros k2 k1 k0 HP HD H1. unfold all_V.
  destruct (Req_EM_T P 0) as [E|_]; [contradiction|]. cbv zeta.
  assert (Et1 : -3 * (-3 * P * b^2 - 2 * Rgas * T * b + a_alpha) / P
                + (P * b - Rgas * T)^2 / P^2 = Delta0 k2 k1)
    by (unfold Delta0, k2, k1, coef2, coef1; field; assumption).
  assert (Et2 : 27 * (P * b^3 + Rgas * T * b^2 - b * a_alpha) / P
                - 9 * (P * b - Rgas * T) * (-3 * P * b^2 - 2 * Rgas * T * b + a_alpha) / P^2
                + 2 * (P * b - Rgas * T)^3 / P^3 = Delta1 k2 k1 k0)
    by (unfold Delta1, k2, k1, k0, coef2, coef1, coef0; field; assumption).
  rewrite Et1, Et2.
  set (D0 := Delta0 k2 k1) in *. set (D1 := Delta1 k2 k1 k0) in *.
  rewrite psqrt_nonneg by lra. rewrite bind_Ok.
  replace (D1^2 - 4 * D0^3) with (-4 * D0^3 + D1^2) in H1 by ring.
  set (s := sqrt (-4 * D0^3 + D1^2)) in *.
  assert (Et3 : s / 2
            + 27 * (P * b^3 + Rgas * T * b^2 - b * a_alpha) / (2 * P)
            - 9 * (P * b - Rgas * T) * (-3 * P * b^2 - 2 * Rgas * T * b + a_alpha) / (2 * P^2)
            + (P * b - Rgas * T)^3 / P^3 = s / 2 + D1 / 2).
  { unfold D1, Delta1, k2, k1, k0, coef2, coef1, coef0. field. assumption. }
  rewrite Et3. unfold ppow.
  destruct (Rlt_dec (s / 2 + D1 / 2) 0) as [E|_]; [lra|].
  destruct (Req_EM_T (s / 2 + D1 / 2) 0) as [E|_]; [lra|].
  rewrite bind_Ok.
  set (C := Rpower (s / 2 + D1 / 2) (1 / 3)).
  assert (HC0 : 0 < C) by (unfold C, Rpower; apply exp_pos).
  rewrite pdiv_nonzero by lra. rewrite bind_Ok.
  destruct (pair_root_minus D0 C ((P * b - Rgas * T) / (3 * P)))
    as (q2 & r2 & Eq2 & Er2 & Hi2); [lra|].
  destruct (pair_root_plus D0 C ((P * b - Rgas * T) / (3 * P)))
    as (q3 & r3 & Eq3 & Er3 & Hi3); [lra|].
  rewrite Eq2, bind_Ok, Er2, bind_Ok, Eq3, bind_Ok, Er3, bind_Ok. eauto.
Qed.

(** [all_V] up to the cube root: the discriminant term and the number
    whose cube root is taken, in the coefficients of the monic cubic *)
Lemma all_V_head (T P b a_alpha : R) :
  let k2 := coef2 T P b in
  let k1 := coef1 T P b a_alpha in
  let k0 := coef0 T P b a_alpha in
  P ≠ 0 →
  ∃ rest,
    all_V T P b a_alpha
    = (s ← psqrt (-4 * (Delta0 k2 k1)^3 + (Delta1 k2 k1 k0)^2);
       C ← ppow (s / 2 + Delta1 k2 k1 k0 / 2) (1 / 3);
       q ← pdiv (- Delta0 k2 k1) (3 * C);
       rest C q).
Proof.
  intros k2 k1 k0 HP. unfold all_V.
  destruct (Req_EM_T P 0) as [E|_]; [contradiction|]. cbv zeta.
  assert (Et1 : -3 * (-3 * P * b^2 - 2 * Rgas * T * b + a_alpha) / P
                + (P * b - Rgas * T)^2 / P^2 = Delta0 k2 k1)
    by (unfold Delta0, k2, k1, coef2, coef1; field; assumption).
  assert (Et2 : 27 * (P * b^3 + Rgas * T * b^2 - b * a_alpha) / P
                - 9 * (P * b - Rgas * T) * (-3 * P * b^2 - 2 * Rgas * T * b + a_alpha) / P^2
                + 2 * (P * b - Rgas * T)^3 / P^3 = Delta1 k2 k1 k0)
    by (unfold Delta1, k2, k1, k0, coef2, coef1, coef0; field; assumption).
  rewrite Et1, Et2.
  eexists (λ C q, _).
  destruct (psqrt _) as [s|e]; [|reflexivity]. rewrite !bind_Ok.
  assert (Et3 : s / 2
            + 27 * (P * b^3 + Rgas * T * b^2 - b * a_alpha) / (2 * P)
            - 9 * (P * b - Rgas * T) * (-3 * P * b^2 - 2 * Rgas * T * b + a_alpha) / (2 * P^2)
            + (P * b - Rgas * T)^3 / P^3 = s / 2 + Delta1 k2 k1 k0 / 2).
  { unfold Delta1, k2, k1, k0, coef2, coef1, coef0. field. assumption. }
  rewrite Et3. reflexivity.
Qed.

(** a real root of the cubic of a state with T, b and a_alpha different
    from zero is neither the covolume nor a pole of the attractive term *)
Lemma root_off_poles (T P b a_alpha V : R) :
  P ≠ 0 → T ≠ 0 → b ≠ 0 → a_alpha ≠ 0 →
  cubic (coef2 T P b) (coef1 T P b a_alpha) (coef0 T P b a_alpha) V = 0 →
  V - b ≠ 0 ∧ V * (V + b) + b * (V - b) ≠ 0.
Proof.
  intros HP HT Hb Ha Hc.
  assert (E : P * cubic (coef2 T P b) (coef1 T P b a_alpha) (coef0 T P b a_alpha) V
              = P * (V - b) * (V * (V + b) + b * (V - b))
                - Rgas * T * (V * (V + b) + b * (V - b)) + a_alpha * (V - b))
    by (unfold cubic, coef2, coef1, coef0; field; assumption).
  rewrite Hc, Rmult_0_r in E.
  assert (HR : Rgas ≠ 0) by (unfold Rgas; lra).
  assert (Hvb : V - b ≠ 0).
  { intros Hz. assert (V = b) by lra. subst V.
    assert (Hq : Rgas * T * (b * b) = 0) by nra.
    apply Rmult_integral in Hq as [Hq|Hq].
    - apply Rmult_integral in Hq as [|]; contradiction.
    - apply Rmult_integral in Hq as [|]; contradiction. }
  split; [exact Hvb|].
  intros Hz. rewrite Hz in E.
  assert (Hq : a_alpha * (V - b) = 0) by lra.
  apply Rmult_integral in Hq as [|]; contradiction.
Qed.

(** X1: [all_V] raises ZeroDivisionError when the pressure is zero,
    ValueError when the discriminant term Δ1² − 4Δ0³ of the monic cubic is
    negative (the square root is [math.sqrt]), and ZeroDivisionError when
    the number whose cube root is taken is zero.  When the discriminant
    term is not negative and that number is positive, it returns one float
    and two complex numbers with opposite imaginary parts; the float is a
    root of the cubic, and for T, b and a_alpha different from zero it is
    a volume at which the pressure-explicit form of the equation gives
    back [P].  A negative number under the cube root, where the result
    depends on the version of Python, is left out. *)
Theorem all_V_candidates (T P b a_alpha : R) :
  let k2 := coef2 T P b in
  let k1 := coef1 T P b a_alpha in
  let k0 := coef0 T P b a_alpha in
  let D := (Delta1 k2 k1 k0)^2 - 4 * (Delta0 k2 k1)^3 in
  (P = 0 → all_V T P b a_alpha = Raise ZeroDivisionError)
  ∧ (P ≠ 0 → D < 0 →
     all_V T P b a_alpha = Raise (ValueError "math domain error"))
  ∧ (P ≠ 0 → 0 <= D → sqrt D + Delta1 k2 k1 k0 = 0 →
     all_V T P b a_alpha = Raise ZeroDivisionError)
  ∧ (P ≠ 0 → 0 <= D → 0 < sqrt D + Delta1 k2 k1 k0 →
     ∃ V z2 z3,
       all_V T P b a_alpha = Ok [Float V; Complex z2; Complex z3]
       ∧ cubic k2 k1 k0 V = 0
       ∧ im z3 = - im z2
       ∧ (T ≠ 0 → b ≠ 0 → a_alpha ≠ 0 → P_eos T V b a_alpha = P)).
Proof.
  intros k2 k1 k0 D.
  assert (ED : -4 * (Delta0 k2 k1)^3 + (Delta1 k2 k1 k0)^2 = D)
    by (unfold D; ring).
  split; [|split; [|split]].
  - intros ->. unfold all_V. now destruct (Req_EM_T 0 0).
  - intros HP HD. destruct (all_V_head T P b a_alpha HP) as [rest ->].
    fold k2 k1 k0. rewrite ED, psqrt_neg by assumption. reflexivity.
  - intros HP HD Hz. destruct (all_V_head T P b a_alpha HP) as [rest ->].
    fold k2 k1 k0. rewrite ED, psqrt_nonneg, bind_Ok by assumption.
    replace (sqrt D / 2 + Delta1 k2 k1 k0 / 2) with 0 by lra.
    unfold ppow. destruct (Rlt_dec 0 0) as [|_]; [lra|].
    destruct (Req_EM_T 0 0) as [_|]; [|contradiction].
    rewrite bind_Ok. unfold pdiv.
    destruct (Req_EM_T (3 * 0) 0) as [_|Hn]; [reflexivity|lra].
  - intros HP HD Hpos.
    destruct (all_V_returns T P b a_alpha HP) as [Vs HVs].
    { fold k2 k1 k0. unfold D in HD. lra. }
    { exact Hpos. }
    destruct (all_V_first_root _ _ _ _ _ HVs) as (V & z2 & z3 & -> & Hroot & _ & Him).
    exists V, z2, z3. split; [exact HVs|]. split; [exact Hroot|].
    split; [exact Him|].
    intros HT Hb Ha.
    destruct (root_off_poles T P b a_alpha V) as [H1 H2]; try assumption.
    now apply cubic_eos.
Qed.

(** ** Every path of the constructor *)

Lemma paired_given (v : R) : paired v [Float v; Complex j1; Complex j1].
Proof. exists j1, j1. now split. Qed.

Lemma init_Ok `{Utils} (Tc Pc omega : R) (T P V : option R) (o : PR) :
  __init__ Tc Pc omega T P V = Ok o →
  ∃ a b T' P' a_alpha Vs v,
    pdiv (c1 * Rgas^2 * Tc^2) Pc = Ok a
    ∧ pdiv (c2 * Rgas * Tc) Pc = Ok b
    ∧ set_a_alpha a (kappa_of omega) Tc T' = Ok a_alpha
    ∧ finish Tc Pc omega V a b (kappa_of omega) T' P' a_alpha Vs = Ok o
    ∧ paired v Vs
    ∧ (P = None ∨ V = None →
       T = Some T' ∧ (v - b ≠ 0 → v * (v + b) + b * (v - b) ≠ 0 →
                      P_eos T' v b a_alpha = P')).
Proof.
  rewrite init_finish. intros Hi.
  bind_step Hi. bind_step Hi. cbv zeta in Hi.
  bind_step Hi. destruct v1 as [[[T' P'] a_alpha] Vs].
  exists v, v0, T', P', a_alpha, Vs.
  destruct (truthy (arg V)) eqn:HV.
  - bind_step E1. destruct V as [V'|]; [|discriminate]. injection E2 as <-.
    exists V'.
    destruct (truthy (arg P)) eqn:HP.
    + bind_step E1. destruct P as [P0|]; [|discriminate]. injection E2 as <-.
      bind_step E1. bind_step E1. injection E1 as <- <- <- <-.
      repeat split; try assumption; try apply paired_given;
        destruct H0; discriminate.
    + bind_step E1. destruct T as [T0|]; [|discriminate]. injection E2 as <-.
      bind_step E1. bind_step E1. apply pdiv_Ok in E3 as [-> HVb].
      bind_step E1. apply pdiv_Ok in E3 as [-> HD].
      injection E1 as <- <- <- <-.
      repeat split; try assumption; apply paired_given.
  - bind_step E1. destruct T as [T0|]; [|discriminate]. injection E2 as <-.
    bind_step E1. bind_step E1. destruct P as [P0|]; [|discriminate].
    injection E3 as <-. bind_step E1. injection E1 as <- <- <- <-.
    destruct (all_V_first_root _ _ _ _ _ E3) as (V1 & z2 & z3 & -> & Hroot & Heos & Him).
    exists V1. repeat split; try assumption.
    exists z2, z3. split; [reflexivity|]. rewrite Him. apply Rabs_Ropp.
Qed.

Lemma has_imag_abs (z w : number) :
  Rabs (imag z) = Rabs (imag w) → has_imag z = has_imag w.
Proof. intros E. unfold has_imag. now rewrite E. Qed.

(** with a pair the count of [set_from_PT] is 2 or 0 *)
Lemma paired_count (v : R) (Vs : list number) :
  paired v Vs →
  single_real v Vs ∨ length (filter (λ i, has_imag i = true) Vs) = 0%nat.
Proof.
  intros (z2 & z3 & -> & Habs).
  assert (E : has_imag (Complex z3) = has_imag (Complex z2))
    by now apply has_imag_abs.
  destruct (has_imag (Complex z2)) eqn:H2.
  - left. exists z2, z3. auto.
  - right. rewrite !filter_cons_False; [reflexivity|..]; try congruence.
    rewrite has_imag_false; [discriminate|]. cbn [imag]. rewrite Rabs_R0. lra.
Qed.

Lemma derivs_denominator `{Utils} (T P V b a_alpha da d2a : R)
    (r : phase_label * bundle) :
  derivs T P V b a_alpha da d2a = Ok r → V * (V + b) + b * (V - b) ≠ 0.
Proof.
  intros Hd. unfold derivs in Hd. bind_step Hd.
  unfold first_derivatives in E. do 2 bind_step E.
  now apply pdiv_Ok in E1 as [_ HD].
Qed.

(** the state written by a constructor call that returns *)
Lemma finish_state `{Utils} (Tc0 Pc0 omega0 : R) (Vopt : option R)
    (a0 b0 kappa0 T0 P0 a_alpha0 v : R) (Vs : list number) (o : PR) :
  paired v Vs →
  finish Tc0 Pc0 omega0 Vopt a0 b0 kappa0 T0 P0 a_alpha0 Vs = Ok o →
  ∃ ph B,
    derivs T0 P0 v b0 a_alpha0 (da_alpha_dT o) (d2a_alpha_dT2 o) = Ok (ph, B)
    ∧ state o
      = match ph with
        | l => set_Vl (Float v) (set_phase l (set_props l B no_phases))
        | g => set_Vg (Float v) (set_phase g (set_props g B no_phases))
        end.
Proof.
  intros Hp. unfold finish. intros Hf. do 6 bind_step Hf.
  destruct (paired_count v Vs Hp) as [Hs|Hz].
  - rewrite (set_from_PT_single T0 P0 v Vs _ _ _ _ _ Hs) in Hf.
    rewrite run_bind in Hf. unfold set_derivs_from_phase in Hf.
    rewrite run_bind in Hf. unfold lift in Hf. cbn [as_float] in Hf.
    rewrite bind_Ok in Hf.
    destruct (derivs T0 P0 v b0 a_alpha0 v2 v5) as [[ph B]|e] eqn:Hd;
      [|discriminate].
    exists ph, B.
    destruct ph; cbn in Hf; injection Hf as <-; cbn; split; auto.
  - rewrite set_from_PT_three_real in Hf by assumption. discriminate.
Qed.

Lemma init_state `{Utils} (Tc Pc omega : R) (T P V : option R) (o : PR) :
  __init__ Tc Pc omega T P V = Ok o →
  ∃ ph v B,
    derivs (EOS.T o) (EOS.P o) v (b o) (a_alpha o) (da_alpha_dT o) (d2a_alpha_dT2 o)
      = Ok (ph, B)
    ∧ state o
      = match ph with
        | l => set_Vl (Float v) (set_phase l (set_props l B no_phases))
        | g => set_Vg (Float v) (set_phase g (set_props g B no_phases))
        end
    ∧ (P = None ∨ V = None →
       T = Some (EOS.T o) ∧ P_eos (EOS.T o) v (b o) (a_alpha o) = EOS.P o).
Proof.
  intros Hi.
  destruct (init_Ok _ _ _ _ _ _ _ Hi)
    as (a & b & T' & P' & a_alpha & Vs & v & Ea & Eb & Eal & Hf & Hp & Hpath).
  destruct (finish_fields _ _ _ _ _ _ _ _ _ _ _ _ Hf) as (HT & HP & _ & Ha & Hb & Hk & Hal).
  destruct (finish_state _ _ _ _ _ _ _ _ _ _ v _ _ Hp Hf) as (ph & B & Hd & Hst).
  rewrite HT, HP, Hb, Hal. exists ph, v, B. split; [exact Hd|]. split; [exact Hst|].
  intros Hnone. destruct (Hpath Hnone) as [-> Heos]. split; [reflexivity|].
  apply Heos.
  - destruct (derivs_defined _ _ _ _ _ _ _ _ Hd) as (_ & _ & HVb & _). lra.
  - exact (derivs_denominator _ _ _ _ _ _ _ _ Hd).
Qed.

(** X2: Every object the constructor returns holds one volume root: its phase
    is set, the root and its bundle are stored under that phase, and the
    attributes of the other phase are not assigned.  The branch of
    [set_from_PT] for two real roots is never taken. *)
Theorem constructor_single_root `{Utils} (Tc Pc omega : R) (T P V : option R) (o : PR) :
  __init__ Tc Pc omega T P V = Ok o →
  ∃ ph v B,
    phase o = Some ph ∧ props ph o = Some B
    ∧ 0 < v ∧ b o < v
    ∧ match ph with
      | l => Vl o = Some (Float v) ∧ Vg o = None ∧ props_g o = None
      | g => Vg o = Some (Float v) ∧ Vl o = None ∧ props_l o = None
      end.
Proof.
  intros Hi. destruct (init_state _ _ _ _ _ _ _ Hi) as (ph & v & B & Hd & Hst & _).
  destruct (derivs_defined _ _ _ _ _ _ _ _ Hd) as (_ & Hv & HVb & _).
  exists ph, v, B. unfold phase, props, Vl, Vg, props_l, props_g.
  rewrite Hst. destruct ph; cbn; repeat split; try reflexivity; lra.
Qed.

(** X3: An object built from a temperature and one of pressure and volume
    stores a volume at which the pressure-explicit form of the equation
    gives the stored pressure. *)
Theorem constructor_on_surface `{Utils} (Tc Pc omega : R) (T P V : option R) (o : PR) :
  __init__ Tc Pc omega T P V = Ok o → P = None ∨ V = None →
  T = Some (EOS.T o)
  ∧ ∃ v, (Vl o = Some (Float v) ∨ Vg o = Some (Float v))
         ∧ EOS.P o = Rgas * EOS.T o / (v - b o)
                     - a_alpha o / (v * (v + b o) + b o * (v - b o)).
Proof.
  intros Hi Hnone.
  destruct (init_state _ _ _ _ _ _ _ Hi) as (ph & v & B & Hd & Hst & Hs).
  destruct (Hs Hnone) as [HT Heos]. split; [exact HT|].
  exists v. split.
  - unfold Vl, Vg. rewrite Hst. destruct ph; cbn; auto.
  - symmetry. exact Heos.
Qed.

(** ** Derivatives *)

Lemma Ok_inj {A} (x y : A) : Ok x = Ok y → x = y.
Proof. now intros [= ->]. Qed.

Lemma finish_derivative_attributes `{Utils} (Tc0 Pc0 omega0 : R) (Vopt : option R)
    (a0 b0 kappa0 T0 P0 a_alpha0 : R) (Vs : list number) (o : PR) :
  finish Tc0 Pc0 omega0 Vopt a0 b0 kappa0 T0 P0 a_alpha0 Vs = Ok o →
  Tc0 ≠ 0 ∧ 0 < T0 / Tc0 ∧ T0 ≠ 0
  ∧ da_alpha_dT o = da_alpha_dT_at a0 kappa0 Tc0 T0
  ∧ d2a_alpha_dT2 o = d2a_alpha_dT2_at a0 kappa0 Tc0 T0.
Proof.
  unfold finish. intros Hf.
  bind_step Hf. apply pdiv_Ok in E as [-> HTc].
  bind_step Hf. apply psqrt_Ok in E as [-> Hr].
  bind_step Hf. apply pdiv_Ok in E as [-> HT].
  bind_step Hf. apply pdiv_Ok in E as [-> _].
  bind_step Hf. apply pdiv_Ok in E as [-> _].
  bind_step Hf. apply pdiv_Ok in E as [-> _].
  destruct (set_from_PT _ _ _ _ _ _ _ _) as [[[]|e] st]; [|discriminate].
  injection Hf as <-. cbn.
  assert (T0 / Tc0 ≠ 0).
  { unfold Rdiv. apply Rmult_integral_contrapositive_currified;
      [assumption|now apply Rinv_neq_0_compat]. }
  repeat split; try assumption; lra.
Qed.

Lemma D_a_alpha (a kappa Tc t : R) :
  Tc ≠ 0 → 0 < t / Tc → t ≠ 0 →
  derivable_pt_lim (a_alpha_at a kappa Tc) t (da_alpha_dT_at a kappa Tc t).
Proof.
  intros HTc Hr Ht. unfold a_alpha_at, da_alpha_dT_at.
  assert (Hs : 0 < sqrt (t / Tc)) by now apply sqrt_lt_R0.
  assert (Hss : sqrt (t / Tc) * sqrt (t / Tc) = t / Tc) by (apply sqrt_sqrt; lra).
  deriv; try assumption.
  set (s := sqrt (t / Tc)) in *. clearbody s.
  assert (E : t = Tc * (s * s)) by (rewrite Hss; field; assumption).
  subst t. field. repeat split; try assumption; lra.
Qed.

Lemma D_da_alpha (a kappa Tc t : R) :
  Tc ≠ 0 → 0 < t / Tc → t ≠ 0 →
  derivable_pt_lim (da_alpha_dT_at a kappa Tc) t (d2a_alpha_dT2_at a kappa Tc t).
Proof.
  intros HTc Hr Ht. unfold da_alpha_dT_at, d2a_alpha_dT2_at.
  assert (Hs : 0 < sqrt (t / Tc)) by now apply sqrt_lt_R0.
  assert (Hss : sqrt (t / Tc) * sqrt (t / Tc) = t / Tc) by (apply sqrt_sqrt; lra).
  deriv; try assumption.
  set (s := sqrt (t / Tc)) in *. clearbody s.
  assert (E : t = Tc * (s * s)) by (rewrite Hss; field; assumption).
  subst t. field. repeat split; try assumption; lra.
Qed.

(** X4: The attributes [da_alpha_dT] and [d2a_alpha_dT2] of an object the
    constructor returns are the first and second derivative, at the
    object's temperature, of the function of temperature that
    [set_a_alpha] evaluates. *)
Theorem constructor_a_alpha_derivatives `{Utils}
    (Tc Pc omega : R) (T P V : option R) (o : PR) :
  __init__ Tc Pc omega T P V = Ok o →
  a_alpha o = a_alpha_at (a o) (kappa o) Tc (EOS.T o)
  ∧ derivable_pt_lim (a_alpha_at (a o) (kappa o) Tc) (EOS.T o) (da_alpha_dT o)
  ∧ da_alpha_dT o = da_alpha_dT_at (a o) (kappa o) Tc (EOS.T o)
  ∧ derivable_pt_lim (da_alpha_dT_at (a o) (kappa o) Tc) (EOS.T o) (d2a_alpha_dT2 o).
Proof.
  intros Hi.
  destruct (init_Ok _ _ _ _ _ _ _ Hi)
    as (a & b & T' & P' & a_alpha & Vs & v & Ea & Eb & Eal & Hf & Hp & Hpath).
  destruct (finish_fields _ _ _ _ _ _ _ _ _ _ _ _ Hf) as (HT & HP & _ & Ha & Hb & Hk & Hal).
  destruct (finish_derivative_attributes _ _ _ _ _ _ _ _ _ _ _ _ Hf)
    as (HTc & Hr & HT0 & Hda & Hd2).
  apply set_a_alpha_Ok in Eal as (_ & _ & Eal).
  rewrite HT, Ha, Hk, Hal, Hda, Hd2.
  split; [exact Eal|]. split; [now apply D_a_alpha|].
  split; [reflexivity|now apply D_da_alpha].
Qed.

(** X5: [first_derivatives] returns the partial derivatives of the
    pressure-explicit form, ∂P/∂V along the isotherm and ∂P/∂T at constant
    volume (for any temperature function [A] with value [a_alpha] and
    derivative [da_alpha_dT] at [T]), and the derivatives of the implicit
    functions, which satisfy the reciprocity and triple-product rules. *)
Theorem first_derivatives_sound (T V b a_alpha da_alpha_dT d2a_alpha_dT2 : R)
    (A : R → R) (dP_dT dP_dV dV_dT dV_dP dT_dV dT_dP : R) :
  first_derivatives T V b a_alpha da_alpha_dT d2a_alpha_dT2
    = Ok (dP_dT, dP_dV, dV_dT, dV_dP, dT_dV, dT_dP) →
  A T = a_alpha → derivable_pt_lim A T da_alpha_dT →
  derivable_pt_lim (λ v, P_eos T v b a_alpha) V dP_dV
  ∧ derivable_pt_lim (λ t, P_eos t V b (A t)) T dP_dT
  ∧ dP_dV = dP_dV_at T b a_alpha V
  ∧ dP_dT = dP_dT_at b da_alpha_dT V
  ∧ dV_dT = - dP_dT / dP_dV
  ∧ dV_dP * dP_dV = 1 ∧ dT_dV * dV_dT = 1 ∧ dT_dP * dP_dT = 1
  ∧ dP_dT * dT_dV * dV_dP = -1.
Proof.
  intros H1 HA HdA.
  unfold first_derivatives in H1.
  bind_step H1. apply pdiv_Ok in E as [-> HVb].
  bind_step H1. apply pdiv_Ok in E as [-> HD].
  bind_step H1. apply pdiv_Ok in E as [-> _].
  bind_step H1. apply pdiv_Ok in E as [-> _].
  cbv zeta in H1.
  bind_step H1. apply pdiv_Ok in E as [-> HPV].
  bind_step H1. apply pdiv_Ok in E as [-> HPT].
  bind_step H1. apply pdiv_Ok in E as [-> HVT].
  bind_step H1. apply pdiv_Ok in E as [-> _].
  apply Ok_inj in H1. repeat apply pair_equal_spec in H1 as [H1 ?].
  subst dP_dT dP_dV dV_dT dV_dP dT_dV dT_dP.
  unfold dP_dV_at, dP_dT_at.
  split; [|split].
  { unfold P_eos. deriv; try assumption. field; repeat split; assumption. }
  { unfold P_eos. deriv; try eassumption. rewrite HA.
    field; repeat split; assumption. }
  set (pT := Rgas / (V - b) - da_alpha_dT / (V * (V + b) + b * (V - b))) in *.
  set (pV := - Rgas * T / (V - b)^2
             - (-2 * V - 2 * b) * a_alpha / (V * (V + b) + b * (V - b))^2) in *.
  clearbody pT pV.
  repeat match goal with |- _ ∧ _ => split end;
    try reflexivity; field; repeat split; assumption.
Qed.

(** X6: [second_derivatives] and [second_derivatives_mixed] return the second
    partial derivatives of the pressure: ∂²P/∂V² is the derivative of the
    ∂P/∂V of [first_derivatives] along the isotherm, ∂²P/∂T² that of ∂P/∂T
    at constant volume, and ∂²P/∂T∂V is both the volume derivative of ∂P/∂T
    and the temperature derivative of ∂P/∂V (for any functions [A] and [A']
    of temperature with values [a_alpha] and [da_alpha_dT] and derivatives
    [da_alpha_dT] and [d2a_alpha_dT2] at [T]).  [d2V_dT2] is the derivative
    of dV/dT = −(∂P/∂T)/(∂P/∂V) with respect to temperature at constant
    volume, [d2T_dV2] is its reciprocal, and the four other entries are the
    constant 0. *)
Theorem second_derivatives_sound (T V b a_alpha da_alpha_dT d2a_alpha_dT2 : R)
    (A A' : R → R)
    (d2P_dT2 d2P_dV2 d2V_dT2 d2V_dP2 d2T_dV2 d2T_dP2 : R)
    (d2V_dPdT d2P_dTdV d2T_dPdV : R) :
  second_derivatives T V b a_alpha da_alpha_dT d2a_alpha_dT2
    = Ok (d2P_dT2, d2P_dV2, d2V_dT2, d2V_dP2, d2T_dV2, d2T_dP2) →
  second_derivatives_mixed T V b a_alpha da_alpha_dT
    = Ok (d2V_dPdT, d2P_dTdV, d2T_dPdV) →
  A T = a_alpha → derivable_pt_lim A T da_alpha_dT →
  A' T = da_alpha_dT → derivable_pt_lim A' T d2a_alpha_dT2 →
  derivable_pt_lim (dP_dV_at T b a_alpha) V d2P_dV2
  ∧ derivable_pt_lim (λ t, dP_dT_at b (A' t) V) T d2P_dT2
  ∧ derivable_pt_lim (dP_dT_at b da_alpha_dT) V d2P_dTdV
  ∧ derivable_pt_lim (λ t, dP_dV_at t b (A t) V) T d2P_dTdV
  ∧ derivable_pt_lim (λ t, - dP_dT_at b (A' t) V / dP_dV_at t b (A t) V) T d2V_dT2
  ∧ d2T_dV2 * d2V_dT2 = 1
  ∧ d2V_dP2 = 0 ∧ d2T_dP2 = 0 ∧ d2V_dPdT = 0 ∧ d2T_dPdV = 0.
Proof.
  intros H2 H3 HA HdA HA' HdA'.
  unfold second_derivatives_mixed in H3. cbv zeta in H3.
  bind_step H3. apply pdiv_Ok in E as [-> _].
  bind_step H3. apply pdiv_Ok in E as [-> _].
  apply Ok_inj in H3. repeat apply pair_equal_spec in H3 as [H3 ?].
  subst d2V_dPdT d2P_dTdV d2T_dPdV.
  unfold second_derivatives in H2. cbv zeta in H2.
  bind_step H2. apply pdiv_Ok in E as [-> HD].
  bind_step H2. apply pdiv_Ok in E as [-> HVb].
  bind_step H2. apply pdiv_Ok in E as [-> _].
  bind_step H2. apply pdiv_Ok in E as [-> _].
  bind_step H2. apply pdiv_Ok in E as [-> _].
  bind_step H2. apply pdiv_Ok in E as [-> _].
  bind_step H2. apply pdiv_Ok in E as [-> _].
  bind_step H2. apply pdiv_Ok in E as [-> _].
  bind_step H2. apply pdiv_Ok in E as [-> _].
  bind_step H2. apply pdiv_Ok in E as [-> _].
  bind_step H2. apply pdiv_Ok in E as [-> HPV2].
  bind_step H2. apply pdiv_Ok in E as [-> _].
  bind_step H2. apply pdiv_Ok in E as [-> _].
  bind_step H2. apply pdiv_Ok in E as [-> _].
  bind_step H2. apply pdiv_Ok in E as [-> HVT].
  apply Ok_inj in H2. repeat apply pair_equal_spec in H2 as [H2 ?].
  subst d2P_dT2 d2P_dV2 d2V_dT2 d2V_dP2 d2T_dV2 d2T_dP2.
  assert (HVb' : V - b ≠ 0).
  { intros Hz. apply HVb. rewrite Hz. ring. }
  assert (HPV : - Rgas * T / (V - b)^2
                - (-2 * V - 2 * b) * a_alpha / (V * (V + b) + b * (V - b))^2 ≠ 0).
  { intros Hz. apply HPV2. rewrite Hz. ring. }
  unfold dP_dV_at, dP_dT_at.
  repeat match goal with |- _ ∧ _ => split end; try reflexivity.
  - deriv; try assumption; try (apply pow_nonzero; assumption).
    field; repeat split; assumption.
  - deriv; try eassumption. rewrite ?HA'. field; repeat split; assumption.
  - deriv; try assumption. field; repeat split; assumption.
  - deriv; try eassumption; try (apply pow_nonzero; assumption).
    rewrite ?HA. field; repeat split; assumption.
  - deriv; try eassumption; try (apply pow_nonzero; assumption);
      rewrite ?HA, ?HA'; try assumption.
    set (pV := - Rgas * T / (V - b)^2
               - (-2 * V - 2 * b) * a_alpha / (V * (V + b) + b * (V - b))^2) in *.
    field_simplify_eq; [|repeat split; assumption].
    unfold pV. field. repeat split; assumption.
  - unfold Rdiv. rewrite Rmult_1_l. apply Rinv_l. exact HVT.
Qed.

(** ** Arguments that are zero *)

Lemma finish_attr_V `{Utils} (Tc Pc omega : R) (Vopt : option R)
    (a b kappa T P a_alpha : R) (Vs : list number) :
  finish Tc Pc omega Vopt a b kappa T P a_alpha Vs
  = (o ← finish Tc Pc omega None a b kappa T P a_alpha Vs; Ok (with_V Vopt o)).
Proof.
  unfold finish.
  destruct (pdiv T Tc); [|reflexivity]. rewrite !bind_Ok.
  destruct (psqrt _); [|reflexivity]. rewrite !bind_Ok.
  destruct (pdiv (- a * _ * _ * _) T); [|reflexivity]. rewrite !bind_Ok.
  destruct (pdiv kappa Tc); [|reflexivity]. rewrite !bind_Ok.
  destruct (pdiv (_ * _) T); [|reflexivity]. rewrite !bind_Ok.
  destruct (pdiv _ (2 * T)); [|reflexivity]. rewrite !bind_Ok.
  destruct (set_from_PT _ _ _ _ _ _ _ _) as [[[]|e0] st]; reflexivity.
Qed.

(** X7: A pressure or a volume of [0.0] is false in [if P:] and [if V:]: with
    a volume, a zero pressure is ignored as if it were not given; a zero
    volume is ignored likewise, and only kept as the attribute [V]. *)
Theorem zero_argument_is_missing `{Utils} (Tc Pc omega : R) (T P : option R) :
  (∀ v, v ≠ 0 →
     __init__ Tc Pc omega T (Some 0) (Some v) = __init__ Tc Pc omega T None (Some v))
  ∧ __init__ Tc Pc omega T P (Some 0)
    = (o ← __init__ Tc Pc omega T P None; Ok (with_V (Some 0) o)).
Proof.
  split.
  - intros v Hv. rewrite !init_finish. cbn [arg truthy need].
    rewrite (float_truthy_nonzero v) by assumption.
    unfold float_truthy. destruct (Req_EM_T 0 0) as [_|Hn]; [reflexivity|].
    now destruct Hn.
  - rewrite !init_finish. cbn [arg truthy need].
    unfold float_truthy. destruct (Req_EM_T 0 0) as [_|Hn]; [|now destruct Hn].
    destruct (pdiv (c1 * _ * _) Pc) as [a|e]; [|reflexivity]. rewrite !bind_Ok.
    destruct (pdiv (c2 * _ * _) Pc) as [b|e]; [|reflexivity]. rewrite !bind_Ok.
    cbv zeta.
    destruct (need T ≫= _) as [[[[T' P'] a_alpha] Vs]|e]; [|reflexivity].
    rewrite !bind_Ok. apply finish_attr_V.
Qed.

(** ** The branch of [set_from_PT] for two real roots *)

Lemma py_min_pair (x y : R) : py_min [Float x; Float y] = Ok (Float (Rmin x y)).
Proof.
  cbn. unfold Rmin.
  destruct (Rlt_dec y x), (Rle_dec x y); try reflexivity; try lra;
    do 2 f_equal; lra.
Qed.

Lemma py_max_pair (x y : R) : py_max [Float x; Float y] = Ok (Float (Rmax x y)).
Proof.
  cbn. unfold Rmax.
  destruct (Rlt_dec x y), (Rle_dec x y); try reflexivity; try lra;
    do 2 f_equal; lra.
Qed.

(** X8: With one candidate beyond the threshold and two floats left, the
    smaller float becomes [Vl] and the larger [Vg], and [phase] is not
    assigned.  Each bundle is stored under the phase that its own
    identification parameter gives, not under the label of its volume:
    when both roots are identified alike, the bundle of the larger root
    replaces that of the smaller and the other phase receives none. *)
Theorem set_from_PT_two_roots `{Utils} (T P : R) (Vs : list number)
    (b a_alpha da_alpha_dT d2a_alpha_dT2 x y : R) (st st' : phases) :
  length (filter (λ i, has_imag i = true) Vs) = 1%nat →
  filter (λ i, imag_is_zero i = true) Vs = [Float x; Float y] →
  set_from_PT T P Vs b a_alpha da_alpha_dT d2a_alpha_dT2 st = (Ok tt, st') →
  Vl st' = Some (Float (Rmin x y)) ∧ Vg st' = Some (Float (Rmax x y))
  ∧ phase st' = phase st
  ∧ ∃ ph1 B1 ph2 B2,
      derivs T P (Rmin x y) b a_alpha da_alpha_dT d2a_alpha_dT2 = Ok (ph1, B1)
      ∧ derivs T P (Rmax x y) b a_alpha da_alpha_dT d2a_alpha_dT2 = Ok (ph2, B2)
      ∧ props ph2 st' = Some B2
      ∧ (ph1 ≠ ph2 → props ph1 st' = Some B1)
      ∧ (ph1 = ph2 → ∀ ph, ph ≠ ph1 → props ph st' = props ph st).
Proof.
  intros Hn Hf. unfold set_from_PT. rewrite Hn, Hf. cbn [Nat.eqb].
  rewrite run_bind. unfold lift. rewrite py_min_pair, bind_Ok, py_max_pair, bind_Ok.
  cbn beta iota. rewrite !run_bind. unfold setattr at 1 2. cbn beta iota.
  unfold set_derivs_from_phase. rewrite !run_bind. unfold lift.
  cbn [as_float]. rewrite !bind_Ok.
  destruct (derivs T P (Rmin x y) _ _ _ _) as [[ph1 B1]|e] eqn:H1; [|discriminate].
  rewrite run_bind. unfold setattr at 1. cbn beta iota.
  unfold mret at 1, M_ret at 1. cbn beta iota.
  rewrite !run_bind. unfold lift. cbn [as_float]. rewrite ?bind_Ok.
  destruct (derivs T P (Rmax x y) _ _ _ _) as [[ph2 B2]|e] eqn:H2; [|discriminate].
  rewrite run_bind. unfold setattr. cbn.
  intros [= <-].
  repeat match goal with |- _ ∧ _ => split end;
    try solve [destruct ph1, ph2; reflexivity].
  exists ph1, B1, ph2, B2. split; [reflexivity|]. split; [reflexivity|].
  split; [destruct ph1, ph2; reflexivity|]. split.
  - intros Hne. destruct ph1, ph2; try reflexivity; now destruct Hne.
  - intros <- ph Hne. destruct ph1, ph; try reflexivity; now destruct Hne.
Qed.

(** ** Instances *)

(** a state with R T = 1, P = 1, b = 1 and a_alpha = 8: the cubic is
    V³ + 3V − 6 *)
Lemma all_V_candidates_witness :
  ∃ V z2 z3,
    all_V (1000000000 / 8314462618) 1 1 8 = Ok [Float V; Complex z2; Complex z3]
    ∧ cubic (coef2 (1000000000 / 8314462618) 1 1)
            (coef1 (1000000000 / 8314462618) 1 1 8)
            (coef0 (1000000000 / 8314462618) 1 1 8) V = 0
    ∧ P_eos (1000000000 / 8314462618) V 1 8 = 1.
Proof.
  assert (H0 : Delta0 (coef2 (1000000000 / 8314462618) 1 1)
                 (coef1 (1000000000 / 8314462618) 1 1 8) = -9)
    by (unfold Delta0, coef2, coef1, Rgas; field).
  assert (H1 : Delta1 (coef2 (1000000000 / 8314462618) 1 1)
                 (coef1 (1000000000 / 8314462618) 1 1 8)
                 (coef0 (1000000000 / 8314462618) 1 1 8) = -162)
    by (unfold Delta1, coef2, coef1, coef0, Rgas; field).
  destruct (proj2 (proj2 (proj2 (all_V_candidates (1000000000 / 8314462618) 1 1 8))))
    as (V & z2 & z3 & HV & Hroot & _ & HP).
  - lra.
  - rewrite H0, H1. lra.
  - rewrite H0, H1.
    replace ((-162)^2 - 4 * (-9)^3) with 29160 by ring.
    assert (Hs : sqrt 29160 * sqrt 29160 = 29160) by (apply sqrt_sqrt; lra).
    pose proof (sqrt_pos 29160). nra.
  - exists V, z2, z3. split; [exact HV|]. split; [exact Hroot|].
    apply HP; lra.
Defined.
Lemma constructor_single_root_witness :
  ∃ o v,
    @__init__ spec_utils hexane_Tc hexane_Pc hexane_omega
      (Some hexane_T) None (Some hexane_V) = Ok o
    ∧ phase o = Some l ∧ Vl o = Some (Float v) ∧ Vg o = None.
Proof.
  destruct hexane_liquid_single as (o & Hi & Hl).
  destruct (@constructor_single_root spec_utils _ _ _ _ _ _ o Hi)
    as (ph & v & B & Hph & _ & _ & _ & Hst).
  exists o, v. split; [exact Hi|]. split; [exact Hl|].
  rewrite Hl in Hph. injection Hph as <-. destruct Hst as (HVl & HVg & _).
  auto.
Defined.

Lemma constructor_on_surface_witness :
  ∃ o v,
    @__init__ spec_utils hexane_Tc hexane_Pc hexane_omega
      (Some hexane_T) None (Some hexane_V) = Ok o
    ∧ (Vl o = Some (Float v) ∨ Vg o = Some (Float v))
    ∧ EOS.P o = Rgas * EOS.T o / (v - b o)
                - a_alpha o / (v * (v + b o) + b o * (v - b o)).
Proof.
  destruct hexane_liquid_single as (o & Hi & Hl).
  destruct (@constructor_on_surface spec_utils _ _ _ _ _ _ o Hi (or_introl eq_refl))
    as (_ & v & Hv & HP).
  exists o, v. auto.
Defined.

Lemma constructor_a_alpha_derivatives_witness :
  ∃ o,
    @__init__ spec_utils hexane_Tc hexane_Pc hexane_omega
      (Some hexane_T) None (Some hexane_V) = Ok o
    ∧ derivable_pt_lim (a_alpha_at (a o) (kappa o) hexane_Tc) (EOS.T o)
        (da_alpha_dT o).
Proof.
  destruct hexane_liquid_single as (o & Hi & Hl).
  destruct (@constructor_a_alpha_derivatives spec_utils _ _ _ _ _ _ o Hi)
    as (_ & Hd & _).
  exists o. auto.
Defined.

Lemma zero_argument_is_missing_witness :
  @__init__ spec_utils hexane_Tc hexane_Pc hexane_omega
    (Some hexane_T) (Some 0) (Some hexane_V)
  = @__init__ spec_utils hexane_Tc hexane_Pc hexane_omega
      (Some hexane_T) None (Some hexane_V).
Proof.
  apply (@zero_argument_is_missing spec_utils hexane_Tc hexane_Pc hexane_omega
           (Some hexane_T) None).
  unfold hexane_V. lra.
Defined.

Lemma first_derivatives_sound_witness :
  ∃ dP_dT dP_dV,
    derivable_pt_lim (λ v, P_eos 1 v 1 49) 2 dP_dV
    ∧ derivable_pt_lim (λ t, P_eos t 2 1 49) 1 dP_dT.
Proof.
  assert (Hf : ∃ r, first_derivatives 1 2 1 49 0 0 = Ok r).
  { unfold first_derivatives. eos_eval. eauto. }
  destruct Hf as [[[[[[dP_dT dP_dV] dV_dT] dV_dP] dT_dV] dT_dP] Hf].
  destruct (first_derivatives_sound 1 2 1 49 0 0 (λ _, 49) _ _ _ _ _ _ Hf eq_refl
              (D_const 49 1)) as (H1 & H2 & _).
  exists dP_dT, dP_dV. auto.
Defined.

Lemma second_derivatives_sound_witness :
  ∃ d2P_dV2 d2P_dTdV,
    derivable_pt_lim (dP_dV_at 1 1 49) 2 d2P_dV2
    ∧ derivable_pt_lim (dP_dT_at 1 0) 2 d2P_dTdV.
Proof.
  assert (Hs : ∃ r, second_derivatives 1 2 1 49 0 0 = Ok r).
  { unfold second_derivatives. eos_eval. eauto. }
  assert (Hm : ∃ r, second_derivatives_mixed 1 2 1 49 0 = Ok r).
  { unfold second_derivatives_mixed. eos_eval. eauto. }
  destruct Hs as [[[[[[d2P_dT2 d2P_dV2] d2V_dT2] d2V_dP2] d2T_dV2] d2T_dP2] Hs].
  destruct Hm as [[[d2V_dPdT d2P_dTdV] d2T_dPdV] Hm].
  destruct (second_derivatives_sound 1 2 1 49 0 0 (λ _, 49) (λ _, 0)
              _ _ _ _ _ _ _ _ _
              Hs Hm eq_refl (D_const 49 1) eq_refl (D_const 0 1)) as (H1 & _ & H3 & _).
  exists d2P_dV2, d2P_dTdV. auto.
Defined.

Lemma derivs_example_3 : is_ok (@derivs spec_utils 1 1 3 1 49 0 0).
Proof.
  unfold derivs, first_derivatives, second_derivatives, second_derivatives_mixed.
  eos_eval.
  rewrite catanh_real_above by (pose proof sqrt2_gt_1; lra).
  eos_eval. eexists. reflexivity.
Qed.

Lemma set_from_PT_two_roots_run `{Utils} (T P : R) (Vs : list number)
    (b a_alpha da d2a x y : R) (st : phases) :
  length (filter (λ i, has_imag i = true) Vs) = 1%nat →
  filter (λ i, imag_is_zero i = true) Vs = [Float x; Float y] →
  is_ok (derivs T P (Rmin x y) b a_alpha da d2a) →
  is_ok (derivs T P (Rmax x y) b a_alpha da d2a) →
  ∃ st', set_from_PT T P Vs b a_alpha da d2a st = (Ok tt, st').
Proof.
  intros Hn Hf [[ph1 B1] H1] [[ph2 B2] H2].
  unfold set_from_PT. rewrite Hn, Hf. cbn [Nat.eqb].
  rewrite run_bind. unfold lift. rewrite py_min_pair, bind_Ok, py_max_pair, bind_Ok.
  cbn beta iota. rewrite !run_bind. unfold setattr at 1 2. cbn beta iota.
  unfold set_derivs_from_phase. rewrite !run_bind. unfold lift.
  cbn [as_float]. rewrite !bind_Ok, H1.
  rewrite run_bind. unfold setattr at 1. cbn beta iota.
  unfold mret at 1, M_ret at 1. cbn beta iota.
  rewrite !run_bind. unfold lift. cbn [as_float]. rewrite ?bind_Ok, H2.
  rewrite run_bind. unfold setattr. cbn. eauto.
Qed.

Lemma two_roots_count :
  length (filter (λ i, has_imag i = true) [Float 3; Complex j1; Float 2]) = 1%nat
  ∧ filter (λ i, imag_is_zero i = true) [Float 3; Complex j1; Float 2]
    = [Float 3; Float 2].
Proof.
  split.
  - rewrite filter_cons_False.
    2:{ rewrite has_imag_false; [discriminate|]. cbn [imag]. rewrite Rabs_R0. lra. }
    rewrite filter_cons_True.
    2:{ apply has_imag_true. cbn [imag j1 im]. rewrite Rabs_R1. lra. }
    rewrite filter_cons_False; [reflexivity|].
    rewrite has_imag_false; [discriminate|]. cbn [imag]. rewrite Rabs_R0. lra.
  - rewrite filter_cons_True by (apply imag_is_zero_true; reflexivity).
    rewrite filter_cons_False.
    2:{ rewrite imag_is_zero_false; [discriminate|]. cbn [imag j1 im]. lra. }
    rewrite filter_cons_True by (apply imag_is_zero_true; reflexivity).
    reflexivity.
Qed.

Lemma set_from_PT_two_roots_witness :
  ∃ st',
    @set_from_PT spec_utils 1 1 [Float 3; Complex j1; Float 2] 1 49 0 0 no_phases
    = (Ok tt, st')
    ∧ Vl st' = Some (Float 2) ∧ Vg st' = Some (Float 3) ∧ phase st' = None.
Proof.
  destruct two_roots_count as [Hn Hf].
  assert (Emin : Rmin 3 2 = 2) by (unfold Rmin; destruct (Rle_dec 3 2); lra).
  assert (Emax : Rmax 3 2 = 3) by (unfold Rmax; destruct (Rle_dec 3 2); lra).
  destruct (@set_from_PT_two_roots_run spec_utils 1 1 _ 1 49 0 0 3 2 no_phases Hn Hf)
    as [st' Hrun].
  { rewrite Emin. exact derivs_example. }
  { rewrite Emax. exact derivs_example_3. }
  exists st'. split; [exact Hrun|].
  destruct (@set_from_PT_two_roots spec_utils 1 1 _ 1 49 0 0 3 2 no_phases st'
              Hn Hf Hrun) as (HVl & HVg & Hph & _).
  rewrite Emin in HVl. rewrite Emax in HVg. auto.
Defined.

End EOSFunctionsFacts.

(** * Facts about the temperature and composition derivatives of the
      Wilson model *)

Module WilsonDerivativesFacts.
Import Wilson WilsonFacts WilsonDerivatives.
Local Open Scope R_scope.

(** ** Items of the matrices and vectors *)

Lemma getitem_matrix_row (p : params) (m : params → nat → nat → R) (i : nat) :
  (i < N p)%nat →
  getitem (matrix_of p m) i = Ok (map (λ j, m p i j) (cmps p)).
Proof. intros Hi. unfold matrix_of, cmps. now rewrite getitem_map_seq. Qed.

Lemma getitem_matrix_entry (p : params) (m : params → nat → nat → R) (i j : nat) :
  (j < N p)%nat →
  getitem (map (λ j, m p i j) (cmps p)) j = Ok (m p i j).
Proof. intros Hj. unfold cmps. now rewrite getitem_map_seq. Qed.

Lemma getitem_vector (p : params) (v : params → nat → R) (i : nat) :
  (i < N p)%nat → getitem (vector_of p v) i = Ok (v p i).
Proof. intros Hi. unfold vector_of, cmps. now rewrite getitem_map_seq. Qed.

Lemma Lambda_matrix_of (p : params) : Lambda_matrix p = matrix_of p Lambda.
Proof. reflexivity. Qed.

Lemma xj_Lambda_vector_of (p : params) : xj_Lambda_vector p = vector_of p xj_Lambda.
Proof. reflexivity. Qed.

Lemma for_acc_Rsum (p : params) (step : R → nat → result R) (g : nat → R) :
  (∀ a i, (i < N p)%nat → step a i = Ok (a + g i)) →
  for_acc step (cmps p) 0 = Ok (Rsum (N p) g).
Proof.
  intros H. rewrite (for_acc_sum _ g).
  - rewrite Rsum_eq. f_equal. unfold cmps. lra.
  - intros a i Hi%in_cmps. now apply H.
Qed.

Lemma Rsum_minus (n : nat) (f g : nat → R) :
  Rsum n (λ i, f i - g i) = Rsum n f - Rsum n g.
Proof.
  rewrite (Rsum_ext _ _ (λ i, f i + -1 * g i)) by (intros; ring).
  rewrite Rsum_plus, Rsum_scal. ring.
Qed.

Lemma append_loop_vector (p : params) (f : nat → result R) (v : params → nat → R) :
  (∀ i, (i < N p)%nat → f i = Ok (v p i)) →
  append_loop f (cmps p) = (vector_of p v, None).
Proof.
  intros H. apply append_loop_map. intros i Hi%in_cmps. now apply H.
Qed.

Lemma append_loop_matrix (p : params) (f : nat → result (list R))
    (m : params → nat → nat → R) :
  (∀ i, (i < N p)%nat → f i = Ok (map (λ j, m p i j) (cmps p))) →
  append_loop f (cmps p) = (matrix_of p m, None).
Proof.
  intros H. apply (append_loop_map _ (λ i, map (λ j, m p i j) (cmps p))).
  intros i Hi%in_cmps. now apply H.
Qed.

Lemma comprehension_row (p : params) (f : nat → result R) (g : nat → R) :
  (∀ j, (j < N p)%nat → f j = Ok (g j)) →
  comprehension f (cmps p) = Ok (map g (cmps p)).
Proof.
  intros H. apply comprehension_map. intros j Hj%in_cmps. now apply H.
Qed.

Lemma getitem_cmps {A} (p : params) (g : nat → A) (j : nat) :
  (j < N p)%nat → getitem (map g (cmps p)) j = Ok (g j).
Proof. intros Hj. unfold cmps. now rewrite getitem_map_seq. Qed.

(** a prefix is all that a loop leaves when it raises *)
Lemma append_loop_raised {A B} (f : A → result B) (idx : list A)
    (rows : list B) (e : exn) :
  append_loop f idx = (rows, Some e) → (length rows < length idx)%nat.
Proof.
  revert rows. induction idx as [|i rest IH]; intros rows; cbn.
  - discriminate.
  - destruct (f i) as [b|e']; [|intros [= <- _]; cbn; lia].
    destruct (append_loop f rest) as [bs r] eqn:E.
    intros [= <- ->]. cbn. specialize (IH bs eq_refl). lia.
Qed.

Ltac items :=
  repeat first
    [ rewrite bind_Ok
    | rewrite getitem_x by assumption
    | rewrite getitem_matrix_row by assumption
    | rewrite getitem_cmps by assumption
    | rewrite getitem_vector by assumption ];
  cbn beta.

(** ** Calls on settled objects *)

Lemma settled_set_base (s : object) (b : Wilson) :
  settled s → consistent b → model b = model (base s) → settled (set_base b s).
Proof.
  intros [] Hc Hm. constructor; cbn; rewrite ?Hm; assumption.
Qed.

Ltac settle :=
  let Hs := fresh in
  intros Hs ->; destruct Hs; constructor; cbn; try assumption;
  let v := fresh in intros v [= <-]; reflexivity.

Lemma settled_dlambdas_dT s v :
  settled s → v = matrix_of (base s) dLambda → settled (set_dlambdas_dT v s).
Proof. settle. Qed.
Lemma settled_d2lambdas_dT2s s v :
  settled s → v = matrix_of (base s) d2Lambda → settled (set_d2lambdas_dT2s v s).
Proof. settle. Qed.
Lemma settled_d3lambdas_dT3s s v :
  settled s → v = matrix_of (base s) d3Lambda → settled (set_d3lambdas_dT3s v s).
Proof. settle. Qed.
Lemma settled_xj_dLambda_dTijs s v :
  settled s → v = vector_of (base s) (λ p, weighted p dLambda) →
  settled (set_xj_dLambda_dTijs v s).
Proof. settle. Qed.
Lemma settled_xj_d2Lambda_dT2ijs s v :
  settled s → v = vector_of (base s) (λ p, weighted p d2Lambda) →
  settled (set_xj_d2Lambda_dT2ijs v s).
Proof. settle. Qed.
Lemma settled_xj_d3Lambda_dT3ijs s v :
  settled s → v = vector_of (base s) (λ p, weighted p d3Lambda) →
  settled (set_xj_d3Lambda_dT3ijs v s).
Proof. settle. Qed.
Lemma settled_dGE_dT s v :
  settled s → v = dGE_dT_formula (base s) → settled (set_dGE_dT v s).
Proof. settle. Qed.
Lemma settled_d2GE_dT2 s v :
  settled s → v = d2GE_dT2_formula (base s) → settled (set_d2GE_dT2 v s).
Proof. settle. Qed.
Lemma settled_d3GE_dT3 s v :
  settled s → v = d3GE_dT3_formula (base s) → settled (set_d3GE_dT3 v s).
Proof. settle. Qed.
Lemma settled_dGE_dxs s v :
  settled s → v = vector_of (base s) dGE_dxs_formula → settled (set_dGE_dxs v s).
Proof. settle. Qed.
Lemma settled_d2GE_dTdxs s v :
  settled s → v = vector_of (base s) d2GE_dTdxs_formula →
  settled (set_d2GE_dTdxs v s).
Proof. settle. Qed.

Lemma settled_fresh (b : Wilson) : consistent b → settled (fresh b).
Proof. intros Hc. constructor; cbn; try assumption; discriminate. Qed.

Section Returns.
Context (p : params).

Lemma returns_bind {A B} (m : M object A) (k : A → M object B) (v : A) (w : B) :
  returns p m v → returns p (k v) w → returns p (m ≫= k) w.
Proof.
  intros Hm Hk s Hp Hs. destruct (Hm s Hp Hs) as (s1 & E1 & Hp1 & Hs1).
  destruct (Hk s1 Hp1 Hs1) as (s2 & E2 & Hp2 & Hs2).
  exists s2. rewrite run_bind, E1. auto.
Qed.

Lemma returns_lift {A} (r : result A) (v : A) : r = Ok v → returns p (lift r) v.
Proof. intros -> s Hp Hs. exists s. auto. Qed.

Lemma returns_ret {A} (v : A) : returns p (mret v) v.
Proof. intros s Hp Hs. exists s. auto. Qed.

Lemma returns_params : returns p params_of p.
Proof. intros s Hp Hs. exists s. unfold params_of, getattr. rewrite Hp. auto. Qed.

Lemma returns_cached {A} (attr : object → option A) (body : M object A) (v : A) :
  (∀ s, model (base s) = p → settled s → ∀ u, attr s = Some u → u = v) →
  returns p body v → returns p (cached_attr attr body) v.
Proof.
  intros Hattr Hbody s Hp Hs. unfold cached_attr.
  destruct (attr s) as [u|] eqn:E; [|now apply Hbody].
  rewrite (Hattr s Hp Hs u E). exists s. auto.
Qed.

Lemma returns_on_base {A} (m : M Wilson A) (v : A) :
  (∀ b, model b = p → consistent b →
     ∃ b', m b = (Ok v, b') ∧ model b' = p ∧ consistent b') →
  returns p (on_base m) v.
Proof.
  intros Hm s Hp Hs. destruct (Hm (base s) Hp (s_base _ Hs)) as (b' & E & Hp' & Hc').
  exists (set_base b' s). unfold on_base. rewrite E. split; [reflexivity|].
  split; [exact Hp'|]. apply settled_set_base; [assumption..|]. congruence.
Qed.

Lemma returns_store {A} (set : list A → object → object)
    (loop : list A * option exn) (rows : list A) :
  loop = (rows, None) →
  (∀ s, model (base s) = p → settled s →
     model (base (set rows s)) = p ∧ settled (set rows s)) →
  returns p (store_rows set loop) rows.
Proof.
  intros -> Hset s Hp Hs. exists (set rows s). split; [reflexivity|].
  now apply Hset.
Qed.

Lemma returns_setattr (f : object → object) :
  (∀ s, model (base s) = p → settled s → model (base (f s)) = p ∧ settled (f s)) →
  returns p (setattr f) tt.
Proof. intros Hf s Hp Hs. exists (f s). split; [reflexivity|]. now apply Hf. Qed.

Hypothesis Hwf : wf p.
Hypothesis HT : 0 < T p.

(** *** Methods of the first part *)

Lemma returns_lambdas : returns p (on_base lambdas) (matrix_of p Lambda).
Proof.
  apply returns_on_base. intros b <- Hc. exists (lambdas_post b).
  rewrite lambdas_run by assumption.
  split; [reflexivity|]. split; [apply lambdas_post_model|].
  now apply lambdas_post_consistent.
Qed.

Lemma returns_cached_lambdas :
  returns p (on_base (cached _lambdas lambdas)) (matrix_of p Lambda).
Proof.
  intros s Hp Hs. destruct (returns_lambdas s Hp Hs) as (s' & E & H').
  exists s'. unfold on_base in *. now rewrite cached_lambdas.
Qed.

Lemma returns_xj_Lambda_ijs : returns p (on_base xj_Lambda_ijs) (vector_of p xj_Lambda).
Proof.
  apply returns_on_base. intros b <- Hc. exists (xj_Lambda_ijs_post b).
  rewrite xj_Lambda_ijs_run by assumption.
  split; [reflexivity|]. split; [apply xj_Lambda_ijs_post_model|].
  now apply xj_Lambda_ijs_post_consistent.
Qed.

(** *** Temperature derivatives of the Λ_ij *)

Lemma T_nonzero : T p ≠ 0.
Proof. lra. Qed.

Lemma Lambda_nonzero (i j : nat) : Lambda p i j ≠ 0.
Proof. unfold Lambda. pose proof (exp_pos (
  entry (lambda_coeffs_A p) i j + entry (lambda_coeffs_B p) i j / T p
  + entry (lambda_coeffs_C p) i j * ln (T p) + entry (lambda_coeffs_D p) i j * T p
  + entry (lambda_coeffs_E p) i j / (T p)² + entry (lambda_coeffs_F p) i j * (T p)²)).
  lra.
Qed.

Lemma dlambdas_dT_rows :
  append_loop (λ i,
      lambdasi ← getitem (matrix_of p Lambda) i;
      lambda_coeffs_Bi ← getitem (lambda_coeffs_B p) i;
      lambda_coeffs_Ci ← getitem (lambda_coeffs_C p) i;
      lambda_coeffs_Di ← getitem (lambda_coeffs_D p) i;
      lambda_coeffs_Ei ← getitem (lambda_coeffs_E p) i;
      lambda_coeffs_Fi ← getitem (lambda_coeffs_F p) i;
      comprehension (λ j,
        f ← getitem lambda_coeffs_Fi j;
        d ← getitem lambda_coeffs_Di j;
        c ← getitem lambda_coeffs_Ci j;
        b ← getitem lambda_coeffs_Bi j;
        e ← getitem lambda_coeffs_Ei j;
        lij ← getitem lambdasi j;
        Ok (((T p + T p) * f + d + c * (1 / T p) + b * (- (1 / T p) * (1 / T p))
             + e * (2 * (- (1 / T p) * (1 / T p)) * (1 / T p))) * lij)) (cmps p))
      (cmps p)
  = (matrix_of p dLambda, None).
Proof.
  pose proof T_nonzero as HT0. destruct Hwf.
  apply append_loop_matrix. intros i Hi.
  rewrite getitem_matrix_row, bind_Ok by assumption.
  rewrite !(getitem_row (N p)), ?bind_Ok by assumption.
  apply comprehension_row. intros j Hj.
  rewrite !(getitem_entry (N p)), ?bind_Ok by assumption.
  rewrite getitem_cmps, bind_Ok by assumption.
  f_equal. unfold dLambda, g1. field. assumption.
Qed.

Lemma returns_dlambdas_dT : returns p dlambdas_dT (matrix_of p dLambda).
Proof.
  apply returns_cached.
  { intros s <- Hs u Hu. now apply (s_d1 _ Hs). }
  eapply returns_bind; [apply returns_params|]. cbv zeta.
  eapply returns_bind; [apply returns_cached_lambdas|].
  intros s Hp Hs. mrun. rewrite pdiv_nonzero by apply T_nonzero. mrun.
  unfold store_rows. rewrite dlambdas_dT_rows.
  eexists. split; [reflexivity|]. split; [exact Hp|].
  subst p. destruct Hs. constructor; cbn; try assumption.
  now intros v [= <-].
Qed.

Lemma returns_cached_dlambdas_dT :
  returns p (cached_attr _dlambdas_dT dlambdas_dT) (matrix_of p dLambda).
Proof.
  apply returns_cached; [|apply returns_dlambdas_dT].
  intros s <- Hs u Hu. now apply (s_d1 _ Hs).
Qed.

Lemma returns_d2lambdas_dT2 : returns p d2lambdas_dT2 (matrix_of p d2Lambda).
Proof.
  pose proof T_nonzero as HT0.
  eapply returns_bind; [apply returns_params|]. cbv zeta.
  eapply returns_bind; [apply returns_lambdas|].
  eapply returns_bind; [apply returns_dlambdas_dT|].
  eapply returns_bind; [apply returns_lift, pdiv_nonzero, T_nonzero|].
  apply returns_store.
  2:{ intros s <- Hs. split; [reflexivity|]. now apply settled_d2lambdas_dT2s. }
  destruct Hwf.
  apply append_loop_matrix. intros i Hi.
  rewrite !getitem_matrix_row, ?bind_Ok by assumption.
  rewrite !(getitem_row (N p)), ?bind_Ok by assumption.
  apply comprehension_row. intros j Hj.
  rewrite !(getitem_entry (N p)), ?bind_Ok by assumption.
  rewrite !getitem_cmps, ?bind_Ok by assumption. cbn beta.
  pose proof (Lambda_nonzero i j) as HL.
  rewrite pdiv_nonzero, bind_Ok by nra.
  f_equal. unfold d2Lambda, dLambda, g2. field. split; assumption.
Qed.

Lemma returns_d3lambdas_dT3 : returns p d3lambdas_dT3 (matrix_of p d3Lambda).
Proof.
  pose proof T_nonzero as HT0.
  apply returns_cached.
  { intros s <- Hs u Hu. now apply (s_d3 _ Hs). }
  eapply returns_bind; [apply returns_params|]. cbv zeta.
  eapply returns_bind; [apply returns_lambdas|].
  eapply returns_bind; [apply returns_dlambdas_dT|].
  eapply returns_bind; [apply returns_lift, pdiv_nonzero, T_nonzero|].
  apply returns_store.
  2:{ intros s <- Hs. split; [reflexivity|]. now apply settled_d3lambdas_dT3s. }
  destruct Hwf.
  apply append_loop_matrix. intros i Hi.
  rewrite !getitem_matrix_row, ?bind_Ok by assumption.
  rewrite !(getitem_row (N p)), ?bind_Ok by assumption.
  apply comprehension_row. intros j Hj.
  rewrite !(getitem_entry (N p)), ?bind_Ok by assumption.
  rewrite !getitem_cmps, ?bind_Ok by assumption. cbn beta.
  pose proof (Lambda_nonzero i j) as HL.
  rewrite pdiv_nonzero, bind_Ok by assumption.
  f_equal. unfold d3Lambda, dLambda, g3, g2. field. split; assumption.
Qed.

(** *** Weighted row sums *)

Lemma weighted_rows_run (m : params → nat → nat → R) :
  weighted_rows p (matrix_of p m) = (vector_of p (λ p, weighted p m), None).
Proof.
  unfold weighted_rows. apply append_loop_vector. intros i Hi.
  apply for_acc_Rsum. intros a j Hj.
  rewrite getitem_x, bind_Ok by assumption.
  rewrite getitem_matrix_row, bind_Ok by assumption.
  rewrite getitem_cmps, bind_Ok by assumption. reflexivity.
Qed.

Lemma returns_xj_dLambda_dTijs :
  returns p xj_dLambda_dTijs (vector_of p (λ p, weighted p dLambda)).
Proof.
  apply returns_cached.
  { intros s <- Hs u Hu. now apply (s_x1 _ Hs). }
  eapply returns_bind; [apply returns_cached_dlambdas_dT|].
  eapply returns_bind; [apply returns_params|].
  apply returns_store; [apply weighted_rows_run|].
  intros s <- Hs. split; [reflexivity|]. now apply settled_xj_dLambda_dTijs.
Qed.

Lemma returns_xj_d2Lambda_dT2ijs :
  returns p xj_d2Lambda_dT2ijs (vector_of p (λ p, weighted p d2Lambda)).
Proof.
  apply returns_cached.
  { intros s <- Hs u Hu. now apply (s_x2 _ Hs). }
  eapply returns_bind; [apply returns_d2lambdas_dT2|].
  eapply returns_bind; [apply returns_params|].
  apply returns_store; [apply weighted_rows_run|].
  intros s <- Hs. split; [reflexivity|]. now apply settled_xj_d2Lambda_dT2ijs.
Qed.

Lemma returns_xj_d3Lambda_dT3ijs :
  returns p xj_d3Lambda_dT3ijs (vector_of p (λ p, weighted p d3Lambda)).
Proof.
  apply returns_cached.
  { intros s <- Hs u Hu. now apply (s_x3 _ Hs). }
  eapply returns_bind; [apply returns_d3lambdas_dT3|].
  eapply returns_bind; [apply returns_params|].
  apply returns_store; [apply weighted_rows_run|].
  intros s <- Hs. split; [reflexivity|]. now apply settled_xj_d3Lambda_dT3ijs.
Qed.

(** *** Derivatives of the excess Gibbs energy *)

Hypothesis Hpos : all_positive p.

Lemma row_sum_nonzero (i : nat) : (i < N p)%nat → xj_Lambda p i ≠ 0.
Proof. intros Hi. specialize (Hpos i Hi). lra. Qed.

Lemma sum1_loop_run :
  sum1_loop p (vector_of p xj_Lambda) (vector_of p (λ p, weighted p dLambda))
  = Ok (Rsum (N p) (λ i, x p i * weighted p dLambda i / xj_Lambda p i)).
Proof.
  unfold sum1_loop. apply for_acc_Rsum. intros a i Hi.
  rewrite getitem_x, bind_Ok by assumption.
  rewrite !getitem_vector, ?bind_Ok by assumption.
  rewrite pdiv_nonzero, bind_Ok by now apply row_sum_nonzero.
  reflexivity.
Qed.

Lemma sum0_loop_run :
  sum0_loop p (vector_of p xj_Lambda) (vector_of p (λ p, weighted p dLambda))
    (vector_of p (λ p, weighted p d2Lambda))
  = Ok (Rsum (N p) (λ i,
          x p i * weighted p d2Lambda i / xj_Lambda p i
          - x p i * (weighted p dLambda i)^2 / (xj_Lambda p i)^2)).
Proof.
  unfold sum0_loop. apply for_acc_Rsum. intros a i Hi.
  pose proof (row_sum_nonzero i Hi) as Hnz.
  rewrite getitem_x, bind_Ok by assumption.
  rewrite !getitem_vector, ?bind_Ok by assumption.
  rewrite pdiv_nonzero, !bind_Ok by assumption.
  rewrite pdiv_nonzero, bind_Ok by nra.
  do 2 f_equal. field. assumption.
Qed.

Lemma returns_dGE_dT : returns p dGE_dT (dGE_dT_formula p).
Proof.
  apply returns_cached.
  { intros s <- Hs u Hu. now apply (s_G1 _ Hs). }
  eapply returns_bind; [apply returns_params|]. cbv zeta.
  eapply returns_bind; [apply returns_lambdas|].
  eapply returns_bind; [apply returns_dlambdas_dT|].
  eapply returns_bind; [apply returns_xj_Lambda_ijs|].
  eapply returns_bind; [apply returns_xj_dLambda_dTijs|].
  eapply returns_bind.
  { apply returns_lift.
    apply (for_acc_Rsum p _ (λ i, x p i * ln (xj_Lambda p i))). intros a i Hi.
    rewrite getitem_x, bind_Ok by assumption.
    rewrite getitem_vector, bind_Ok by assumption.
    rewrite plog_pos, bind_Ok by now apply Hpos. reflexivity. }
  eapply returns_bind; [apply returns_lift, sum1_loop_run|].
  assert (E : Rsum (N p) (λ i, x p i * ln (xj_Lambda p i)) * - Rgas
              - T p * Rgas * Rsum (N p) (λ i, x p i * weighted p dLambda i / xj_Lambda p i)
              = dGE_dT_formula p) by (unfold dGE_dT_formula; ring).
  rewrite E.
  eapply returns_bind; [|apply returns_ret].
  apply returns_setattr. intros s <- Hs. split; [reflexivity|].
  now apply settled_dGE_dT.
Qed.

Lemma returns_d2GE_dT2 : returns p d2GE_dT2 (d2GE_dT2_formula p).
Proof.
  apply returns_cached.
  { intros s <- Hs u Hu. now apply (s_G2 _ Hs). }
  eapply returns_bind; [apply returns_params|]. cbv zeta.
  eapply returns_bind; [apply returns_lambdas|].
  eapply returns_bind; [apply returns_dlambdas_dT|].
  eapply returns_bind; [apply returns_d2lambdas_dT2|].
  eapply returns_bind; [apply returns_xj_Lambda_ijs|].
  eapply returns_bind; [apply returns_xj_dLambda_dTijs|].
  eapply returns_bind; [apply returns_xj_d2Lambda_dT2ijs|].
  eapply returns_bind; [apply returns_lift, sum1_loop_run|].
  eapply returns_bind; [apply returns_lift, sum0_loop_run|].
  fold (d2GE_dT2_formula p).
  eapply returns_bind; [|apply returns_ret].
  apply returns_setattr. intros s <- Hs. split; [reflexivity|].
  now apply settled_d2GE_dT2.
Qed.

Lemma returns_d3GE_dT3 : returns p d3GE_dT3 (d3GE_dT3_formula p).
Proof.
  apply returns_cached.
  { intros s <- Hs u Hu. now apply (s_G3 _ Hs). }
  eapply returns_bind; [apply returns_params|]. cbv zeta.
  eapply returns_bind; [apply returns_lambdas|].
  eapply returns_bind; [apply returns_dlambdas_dT|].
  eapply returns_bind; [apply returns_d2lambdas_dT2|].
  eapply returns_bind; [apply returns_d3lambdas_dT3|].
  eapply returns_bind; [apply returns_xj_Lambda_ijs|].
  eapply returns_bind; [apply returns_xj_dLambda_dTijs|].
  eapply returns_bind; [apply returns_xj_d2Lambda_dT2ijs|].
  eapply returns_bind; [apply returns_xj_d3Lambda_dT3ijs|].
  eapply returns_bind; [apply returns_lift, sum0_loop_run|].
  eapply returns_bind.
  { apply returns_lift.
    apply (for_acc_Rsum p _ (λ i, x p i * weighted p d3Lambda i / xj_Lambda p i)).
    intros a i Hi. pose proof (row_sum_nonzero i Hi) as Hnz.
    rewrite getitem_x, bind_Ok by assumption.
    rewrite !getitem_vector, ?bind_Ok by assumption.
    rewrite pdiv_nonzero, bind_Ok by assumption. reflexivity. }
  eapply returns_bind.
  { apply returns_lift.
    apply (for_acc_Rsum p _ (λ i, 3 * x p i * weighted p d2Lambda i
                                   * weighted p dLambda i / (xj_Lambda p i)^2)).
    intros a i Hi. pose proof (row_sum_nonzero i Hi) as Hnz.
    rewrite getitem_x, bind_Ok by assumption.
    rewrite !getitem_vector, ?bind_Ok by assumption.
    rewrite pdiv_nonzero, bind_Ok by nra. do 2 f_equal. field. assumption. }
  eapply returns_bind.
  { apply returns_lift.
    apply (for_acc_Rsum p _ (λ i, 2 * x p i * (weighted p dLambda i)^3
                                   / (xj_Lambda p i)^3)).
    intros a i Hi. pose proof (row_sum_nonzero i Hi) as Hnz.
    rewrite getitem_x, bind_Ok by assumption.
    rewrite !getitem_vector, ?bind_Ok by assumption.
    rewrite pdiv_nonzero, bind_Ok
      by (repeat apply Rmult_integral_contrapositive_currified; assumption).
    do 2 f_equal. field. assumption. }
  match goal with |- returns _ (_ ← setattr (set_d3GE_dT3 ?v); _) _ =>
    assert (E : v = d3GE_dT3_formula p) end.
  { unfold d3GE_dT3_formula. rewrite Rsum_plus, !Rsum_minus. reflexivity. }
  rewrite E.
  eapply returns_bind; [|apply returns_ret].
  apply returns_setattr. intros s <- Hs. split; [reflexivity|].
  now apply settled_d3GE_dT3.
Qed.

Lemma tot2_loop_run (k : nat) :
  (k < N p)%nat →
  for_acc (λ tot i,
      xi ← getitem (xs p) i;
      li ← getitem (matrix_of p Lambda) i;
      lik ← getitem li k;
      si ← getitem (vector_of p xj_Lambda) i;
      q ← pdiv (xi * lik) si;
      Ok (tot + q)) (cmps p) 0
  = Ok (Rsum (N p) (λ i, x p i * Lambda p i k / xj_Lambda p i)).
Proof.
  intros Hk. apply for_acc_Rsum. intros a i Hi.
  rewrite getitem_x, bind_Ok by assumption.
  rewrite getitem_matrix_row, bind_Ok by assumption.
  rewrite getitem_cmps, bind_Ok by assumption.
  rewrite getitem_vector, bind_Ok by assumption.
  rewrite pdiv_nonzero, bind_Ok by now apply row_sum_nonzero.
  reflexivity.
Qed.

Lemma returns_dGE_dxs : returns p dGE_dxs (vector_of p dGE_dxs_formula).
Proof.
  apply returns_cached.
  { intros s <- Hs u Hu. now apply (s_Gx _ Hs). }
  eapply returns_bind; [apply returns_params|]. cbv zeta.
  eapply returns_bind; [apply returns_lambdas|].
  eapply returns_bind; [apply returns_xj_Lambda_ijs|].
  apply returns_store.
  2:{ intros s <- Hs. split; [reflexivity|]. now apply settled_dGE_dxs. }
  apply append_loop_vector. intros k Hk.
  rewrite tot2_loop_run, bind_Ok by assumption.
  rewrite getitem_vector, bind_Ok by assumption.
  rewrite plog_pos, bind_Ok by now apply Hpos.
  f_equal. unfold dGE_dxs_formula. ring.
Qed.

Lemma returns_d2GE_dTdxs : returns p d2GE_dTdxs (vector_of p d2GE_dTdxs_formula).
Proof.
  apply returns_cached.
  { intros s <- Hs u Hu. now apply (s_GTx _ Hs). }
  eapply returns_bind; [apply returns_params|]. cbv zeta.
  eapply returns_bind; [apply returns_lambdas|].
  eapply returns_bind; [apply returns_dlambdas_dT|].
  eapply returns_bind; [apply returns_d2lambdas_dT2|].
  eapply returns_bind; [apply returns_xj_Lambda_ijs|].
  eapply returns_bind; [apply returns_xj_dLambda_dTijs|].
  apply returns_store.
  2:{ intros s <- Hs. split; [reflexivity|]. now apply settled_d2GE_dTdxs. }
  apply append_loop_vector. intros k Hk.
  rewrite tot2_loop_run by assumption.
  rewrite (for_acc_Rsum p _ (λ i,
    x p i * dLambda p i k / xj_Lambda p i
    - x p i * weighted p dLambda i * Lambda p i k / (xj_Lambda p i)^2)).
  2:{ intros a i Hi. pose proof (row_sum_nonzero i Hi) as Hnz.
      items. rewrite pdiv_nonzero by assumption. items.
      rewrite pdiv_nonzero, bind_Ok by nra.
      do 2 f_equal. field. assumption. }
  rewrite bind_Ok.
  rewrite !getitem_vector, ?bind_Ok by assumption.
  rewrite pdiv_nonzero, bind_Ok by now apply row_sum_nonzero.
  cbv zeta. rewrite bind_Ok.
  rewrite plog_pos, bind_Ok by now apply Hpos.
  reflexivity.
Qed.

End Returns.

(** ** The formulas are derivatives *)

Lemma D_scal (f : R → R) (c x a : R) :
  derivable_pt_lim f x a → derivable_pt_lim (λ t, c * f t) x (c * a).
Proof.
  intros H. eapply D_eq; [apply D_mult; [exact (D_const c x)|exact H]|cbv beta; ring].
Qed.

(** ** −R t Σ x_i ln S_i(t) and its derivatives, for any row sums S_i(t) *)

Section Chain.
Context (n : nat) (xs : nat → R) (S S1 S2 S3 : nat → R → R) (t0 : R).
Hypothesis HS : ∀ i, (i < n)%nat → derivable_pt_lim (S i) t0 (S1 i t0).
Hypothesis HS1 : ∀ i, (i < n)%nat → derivable_pt_lim (S1 i) t0 (S2 i t0).
Hypothesis HS2 : ∀ i, (i < n)%nat → derivable_pt_lim (S2 i) t0 (S3 i t0).
Hypothesis Hpos : ∀ i, (i < n)%nat → 0 < S i t0.

Lemma D_log_term :
  derivable_pt_lim (λ t, Rsum n (λ i, xs i * ln (S i t))) t0
    (Rsum n (λ i, xs i * S1 i t0 / S i t0)).
Proof.
  apply D_Rsum. intros i Hi.
  eapply D_eq; [apply D_scal, D_ln; [apply HS, Hi|apply Hpos, Hi]|].
  specialize (Hpos i Hi). field. lra.
Qed.

Lemma D_ratio_term :
  derivable_pt_lim (λ t, Rsum n (λ i, xs i * S1 i t / S i t)) t0
    (Rsum n (λ i, xs i * S2 i t0 / S i t0 - xs i * (S1 i t0)^2 / (S i t0)^2)).
Proof.
  apply D_Rsum. intros i Hi. specialize (HS i Hi). specialize (HS1 i Hi).
  specialize (Hpos i Hi).
  deriv; try eassumption; try lra. field. lra.
Qed.

Lemma D_curvature_term :
  derivable_pt_lim
    (λ t, Rsum n (λ i, xs i * S2 i t / S i t - xs i * (S1 i t)^2 / (S i t)^2)) t0
    (Rsum n (λ i, xs i * S3 i t0 / S i t0
                  - 3 * xs i * S2 i t0 * S1 i t0 / (S i t0)^2
                  + 2 * xs i * (S1 i t0)^3 / (S i t0)^3)).
Proof.
  apply D_Rsum. intros i Hi. specialize (HS i Hi). specialize (HS1 i Hi).
  specialize (HS2 i Hi). specialize (Hpos i Hi).
  deriv; try eassumption; try (apply pow_nonzero; lra); try lra.
  field. lra.
Qed.

Lemma D_G :
  derivable_pt_lim (λ t, - Rgas * t * Rsum n (λ i, xs i * ln (S i t))) t0
    (- Rgas * Rsum n (λ i, xs i * ln (S i t0))
     - Rgas * t0 * Rsum n (λ i, xs i * S1 i t0 / S i t0)).
Proof.
  eapply D_eq.
  { apply D_mult; [apply D_scal, D_id|apply D_log_term]. }
  cbv beta. ring.
Qed.

Lemma D_G1 :
  derivable_pt_lim
    (λ t, - Rgas * Rsum n (λ i, xs i * ln (S i t))
          - Rgas * t * Rsum n (λ i, xs i * S1 i t / S i t)) t0
    (- Rgas * (t0 * Rsum n (λ i, xs i * S2 i t0 / S i t0
                                 - xs i * (S1 i t0)^2 / (S i t0)^2)
               + 2 * Rsum n (λ i, xs i * S1 i t0 / S i t0))).
Proof.
  eapply D_eq.
  { apply D_minus; [apply D_scal, D_log_term|].
    apply D_mult; [apply D_scal, D_id|apply D_ratio_term]. }
  cbv beta. ring.
Qed.

Lemma D_G2 :
  derivable_pt_lim
    (λ t, - Rgas * (t * Rsum n (λ i, xs i * S2 i t / S i t
                                     - xs i * (S1 i t)^2 / (S i t)^2)
                    + 2 * Rsum n (λ i, xs i * S1 i t / S i t))) t0
    (- Rgas * (3 * Rsum n (λ i, xs i * S2 i t0 / S i t0
                                - xs i * (S1 i t0)^2 / (S i t0)^2)
               + t0 * Rsum n (λ i, xs i * S3 i t0 / S i t0
                                   - 3 * xs i * S2 i t0 * S1 i t0 / (S i t0)^2
                                   + 2 * xs i * (S1 i t0)^3 / (S i t0)^3))).
Proof.
  eapply D_eq.
  { apply D_scal, D_plus.
    - apply D_mult; [apply D_id|apply D_curvature_term].
    - apply D_scal, D_ratio_term. }
  cbv beta. ring.
Qed.

End Chain.

Section InTemperature.
Context (p : params).
Hypothesis HT : 0 < T p.

Lemma D_Lambda (i j : nat) :
  derivable_pt_lim (λ t, Lambda (at_T p t) i j) (T p) (dLambda p i j).
Proof.
  unfold Lambda, at_T, dLambda, g1, Lambda.
  cbn [T lambda_coeffs_A lambda_coeffs_B lambda_coeffs_C lambda_coeffs_D
       lambda_coeffs_E lambda_coeffs_F].
  deriv; try lra.
  - unfold Rsqr. nra.
  - field. lra.
Qed.

Lemma D_g1 (i j : nat) :
  derivable_pt_lim (λ t, g1 (at_T p t) i j) (T p) (g2 p i j).
Proof.
  unfold g1, g2, at_T.
  cbn [T lambda_coeffs_A lambda_coeffs_B lambda_coeffs_C lambda_coeffs_D
       lambda_coeffs_E lambda_coeffs_F].
  deriv; try (apply pow_nonzero; lra); try lra.
  field. lra.
Qed.

Lemma D_g2 (i j : nat) :
  derivable_pt_lim (λ t, g2 (at_T p t) i j) (T p) (g3 p i j).
Proof.
  unfold g2, g3, at_T.
  cbn [T lambda_coeffs_A lambda_coeffs_B lambda_coeffs_C lambda_coeffs_D
       lambda_coeffs_E lambda_coeffs_F].
  deriv; try (apply pow_nonzero; lra); try lra.
  field. lra.
Qed.

Lemma D_dLambda (i j : nat) :
  derivable_pt_lim (λ t, dLambda (at_T p t) i j) (T p) (d2Lambda p i j).
Proof.
  unfold dLambda at 1.
  eapply D_eq; [apply D_mult; [apply D_g1|apply D_Lambda]|].
  unfold d2Lambda, dLambda. change (Lambda (at_T p (T p)) i j) with (Lambda p i j).
  change (g1 (at_T p (T p)) i j) with (g1 p i j). ring.
Qed.

Lemma D_d2Lambda (i j : nat) :
  derivable_pt_lim (λ t, d2Lambda (at_T p t) i j) (T p) (d3Lambda p i j).
Proof.
  unfold d2Lambda at 1.
  eapply D_eq.
  { apply D_mult; [|apply D_Lambda].
    apply D_plus; [apply D_g2|]. apply D_pow, D_g1. }
  unfold d3Lambda, dLambda. cbn [INR Init.Nat.pred].
  change (Lambda (at_T p (T p)) i j) with (Lambda p i j).
  change (g1 (at_T p (T p)) i j) with (g1 p i j).
  change (g2 (at_T p (T p)) i j) with (g2 p i j). ring.
Qed.

(** the row sums Σ_j x_j m_ij follow the entries *)
Lemma D_weighted (m m' : params → nat → nat → R) (i : nat) :
  (∀ j, derivable_pt_lim (λ t, m (at_T p t) i j) (T p) (m' p i j)) →
  derivable_pt_lim (λ t, weighted (at_T p t) m i) (T p) (weighted p m' i).
Proof.
  intros Hm. unfold weighted.
  change (derivable_pt_lim (λ t, Rsum (N p) (λ j, x p j * m (at_T p t) i j)) (T p)
            (Rsum (N p) (λ j, x p j * m' p i j))).
  apply D_Rsum. intros j _. apply D_scal, Hm.
Qed.

Lemma D_xj_Lambda (i : nat) :
  derivable_pt_lim (λ t, xj_Lambda (at_T p t) i) (T p) (weighted p dLambda i).
Proof. apply (D_weighted Lambda dLambda). intros j. apply D_Lambda. Qed.

Lemma D_xj_dLambda (i : nat) :
  derivable_pt_lim (λ t, weighted (at_T p t) dLambda i) (T p) (weighted p d2Lambda i).
Proof. apply D_weighted. intros j. apply D_dLambda. Qed.

Lemma D_xj_d2Lambda (i : nat) :
  derivable_pt_lim (λ t, weighted (at_T p t) d2Lambda i) (T p) (weighted p d3Lambda i).
Proof. apply D_weighted. intros j. apply D_d2Lambda. Qed.

Hypothesis Hpos : all_positive p.

Lemma D_GE :
  derivable_pt_lim (λ t, GE_formula (at_T p t)) (T p) (dGE_dT_formula p).
Proof.
  apply (D_G (N p) (x p) (λ i t, xj_Lambda (at_T p t) i)
           (λ i t, weighted (at_T p t) dLambda i) (T p)).
  - intros i _. apply D_xj_Lambda.
  - exact Hpos.
Qed.

Lemma D_dGE_dT :
  derivable_pt_lim (λ t, dGE_dT_formula (at_T p t)) (T p) (d2GE_dT2_formula p).
Proof.
  apply (D_G1 (N p) (x p) (λ i t, xj_Lambda (at_T p t) i)
           (λ i t, weighted (at_T p t) dLambda i)
           (λ i t, weighted (at_T p t) d2Lambda i) (T p)).
  - intros i _. apply D_xj_Lambda.
  - intros i _. apply D_xj_dLambda.
  - exact Hpos.
Qed.

Lemma D_d2GE_dT2 :
  derivable_pt_lim (λ t, d2GE_dT2_formula (at_T p t)) (T p) (d3GE_dT3_formula p).
Proof.
  apply (D_G2 (N p) (x p) (λ i t, xj_Lambda (at_T p t) i)
           (λ i t, weighted (at_T p t) dLambda i)
           (λ i t, weighted (at_T p t) d2Lambda i)
           (λ i t, weighted (at_T p t) d3Lambda i) (T p)).
  - intros i _. apply D_xj_Lambda.
  - intros i _. apply D_xj_dLambda.
  - intros i _. apply D_xj_d2Lambda.
  - exact Hpos.
Qed.

Lemma D_quot (f g : R → R) (c t a b : R) :
  derivable_pt_lim f t a → derivable_pt_lim g t b → g t ≠ 0 →
  derivable_pt_lim (λ t, c * f t / g t) t (c * a / g t - c * b * f t / (g t)^2).
Proof.
  intros Hf Hg Hn. deriv; try eassumption. field. assumption.
Qed.

Lemma D_dGE_dxs_T (k : nat) :
  (k < N p)%nat →
  derivable_pt_lim (λ t, dGE_dxs_formula (at_T p t) k) (T p)
    (d2GE_dTdxs_formula p k).
Proof.
  intros Hk. unfold dGE_dxs_formula.
  change (derivable_pt_lim
            (λ t, - Rgas * t
                  * (Rsum (N p) (λ i, x p i * Lambda (at_T p t) i k
                                      / xj_Lambda (at_T p t) i)
                     + ln (xj_Lambda (at_T p t) k))) (T p)
            (d2GE_dTdxs_formula p k)).
  eapply D_eq.
  { apply D_mult; [apply D_scal, D_id|]. apply D_plus.
    - apply (D_Rsum (N p) _ (λ i,
        x p i * dLambda p i k / xj_Lambda p i
        - x p i * weighted p dLambda i * Lambda p i k / (xj_Lambda p i)^2)).
      intros i Hi.
      apply (D_quot (λ t, Lambda (at_T p t) i k) (λ t, xj_Lambda (at_T p t) i)).
      + apply D_Lambda.
      + apply D_xj_Lambda.
      + specialize (Hpos i Hi). change (xj_Lambda p i ≠ 0). lra.
    - apply D_ln; [apply D_xj_Lambda|]. now apply Hpos. }
  cbv beta. unfold d2GE_dTdxs_formula.
  change (xj_Lambda (at_T p (T p)) k) with (xj_Lambda p k).
  change (Lambda (at_T p (T p))) with (Lambda p).
  rewrite (Rsum_ext (N p) (λ i, x p i * Lambda p i k / xj_Lambda (at_T p (T p)) i)
             (λ i, x p i * Lambda p i k / xj_Lambda p i)) by reflexivity.
  specialize (Hpos k Hk). field. lra.
Qed.

End InTemperature.

(** ** Composition *)

Lemma Rlist_sum_app (l1 l2 : list R) :
  Rlist_sum (l1 ++ l2) = Rlist_sum l1 + Rlist_sum l2.
Proof.
  induction l1 as [|a l1 IH]; cbn [app]; rewrite ?Rlist_sum_cons, ?Rlist_sum_nil;
    [|rewrite IH]; lra.
Qed.

Lemma Rsum_S (n : nat) (f : nat → R) : Rsum (S n) f = Rsum n f + f n.
Proof.
  unfold Rsum. rewrite seq_S, map_app, Rlist_sum_app. cbn [map].
  rewrite Rlist_sum_cons, Rlist_sum_nil. cbn. lra.
Qed.

Lemma Rsum_pick (n k : nat) (f : nat → R) :
  (k < n)%nat → Rsum n (λ i, if decide (i = k) then f i else 0) = f k.
Proof.
  induction n as [|n IH]; [lia|]. intros Hk. rewrite Rsum_S.
  destruct (decide (n = k)) as [->|Hne].
  - rewrite (Rsum_ext _ _ (λ _, 0)).
    + unfold Rsum. rewrite Rlist_sum_zero. lra.
    + intros i Hi. destruct (decide (i = k)); [lia|reflexivity].
  - rewrite IH by lia. lra.
Qed.

Lemma Rsum_opp (n : nat) (f : nat → R) : Rsum n (λ i, - f i) = - Rsum n f.
Proof.
  rewrite (Rsum_ext _ _ (λ i, -1 * f i)) by (intros; ring).
  rewrite Rsum_scal. ring.
Qed.

(** functions of one amount [v] around [c], the row sums being
    s_i + (v − c) a_i *)
Section Affine.
Context (n : nat) (xs s a : nat → R) (c : R).
Hypothesis Hpos : ∀ i, (i < n)%nat → 0 < s i.

Ltac at_point :=
  cbv beta; replace (c - c) with 0 by ring; rewrite ?Rmult_0_l, ?Rplus_0_r.

Lemma D_affine_log (i : nat) :
  (i < n)%nat →
  derivable_pt_lim (λ v, ln (s i + (v - c) * a i)) c (a i / s i).
Proof.
  intros Hi. specialize (Hpos i Hi).
  deriv.
  - at_point. assumption.
  - at_point. field. lra.
Qed.

Lemma D_affine_G (k : nat) :
  (k < n)%nat →
  derivable_pt_lim
    (λ v, Rsum n (λ i, xs i * ln (s i + (v - c) * a i))
          + (v - c) * ln (s k + (v - c) * a k)) c
    (Rsum n (λ i, xs i * a i / s i) + ln (s k)).
Proof.
  intros Hk. eapply D_eq.
  { apply D_plus.
    - apply (D_Rsum n _ (λ i, xs i * (a i / s i))). intros i Hi.
      apply D_scal, D_affine_log, Hi.
    - apply D_mult; [|apply D_affine_log, Hk].
      apply D_minus; [apply D_id|exact (D_const c c)]. }
  at_point. rewrite (Rsum_ext _ _ (λ i, xs i * a i / s i)).
  - ring.
  - intros i Hi. specialize (Hpos i Hi). field. lra.
Qed.

(** Σ_i x_i b_i / S_i + (v − c) b_m / S_m *)
Lemma D_affine_ratio (b w : nat → R) (m : nat) :
  (m < n)%nat →
  derivable_pt_lim
    (λ v, Rsum n (λ i, xs i * (b i + (v - c) * w i) / (s i + (v - c) * a i))
          + (v - c) * (b m + (v - c) * w m) / (s m + (v - c) * a m)) c
    (Rsum n (λ i, xs i * w i / s i - xs i * b i * a i / (s i)^2) + b m / s m).
Proof.
  intros Hm. eapply D_eq.
  { apply D_plus.
    - apply (D_Rsum n _ (λ i, xs i * w i / s i - xs i * b i * a i / (s i)^2)).
      intros i Hi. specialize (Hpos i Hi).
      deriv; [at_point; lra|]. at_point. field. lra.
    - repeat deriv_step. at_point. specialize (Hpos m Hm). lra. }
  at_point. specialize (Hpos m Hm). f_equal. unfold Rsqr. field. lra.
Qed.

(** Σ_i x_i b_i / S_i² + (v − c) b_m / S_m² *)
Lemma D_affine_square (b : nat → R) (m : nat) :
  (m < n)%nat →
  derivable_pt_lim
    (λ v, Rsum n (λ i, xs i * b i / (s i + (v - c) * a i)²)
          + (v - c) * b m / (s m + (v - c) * a m)²) c
    (- Rsum n (λ i, 2 * xs i * b i * a i / (s i * s i * s i)) + b m / (s m)²).
Proof.
  intros Hm. eapply D_eq.
  { apply D_plus.
    - apply (D_Rsum n _ (λ i, - (2 * xs i * b i * a i / (s i * s i * s i)))).
      intros i Hi. specialize (Hpos i Hi).
      deriv; [at_point; unfold Rsqr; nra|]. at_point. field. lra.
    - repeat deriv_step. at_point. specialize (Hpos m Hm). unfold Rsqr. nra. }
  at_point. rewrite Rsum_opp. specialize (Hpos m Hm). f_equal. unfold Rsqr. field. lra.
Qed.

Lemma D_affine_inv (e : R) (i : nat) :
  (i < n)%nat →
  derivable_pt_lim (λ v, e / (s i + (v - c) * a i)) c (- (e * a i / (s i)²)).
Proof.
  intros Hi. specialize (Hpos i Hi).
  deriv; [at_point; lra|]. at_point. field. lra.
Qed.

End Affine.

Section InComposition.
Context (p : params) (k : nat).
Hypothesis Hwf : wf p.
Hypothesis Hk : (k < N p)%nat.

Lemma x_at_x (v : R) (i : nat) :
  x (at_x p k v) i = if decide (i = k) then v else x p i.
Proof.
  unfold x, at_x. cbn [xs]. rewrite !nth_lookup.
  pose proof (wf_xs p Hwf).
  destruct (decide (i = k)) as [->|Hne].
  - rewrite list_lookup_insert_eq by lia. reflexivity.
  - rewrite list_lookup_insert_ne by congruence. reflexivity.
Qed.

Lemma x_at_x_same (i : nat) : x (at_x p k (x p k)) i = x p i.
Proof. rewrite x_at_x. now destruct (decide (i = k)) as [->|]. Qed.

(** Σ_i x_i f_i as a function of x_k *)
Lemma Rsum_at_x (v : R) (f : nat → R) :
  Rsum (N p) (λ i, x (at_x p k v) i * f i)
  = Rsum (N p) (λ i, x p i * f i) + (v - x p k) * f k.
Proof.
  rewrite (Rsum_ext _ _ (λ i, x p i * f i
                              + (if decide (i = k) then (v - x p i) * f i else 0))).
  - rewrite Rsum_plus, (Rsum_pick _ _ (λ i, (v - x p i) * f i)) by assumption.
    reflexivity.
  - intros i Hi. rewrite x_at_x. destruct (decide (i = k)); ring.
Qed.

Lemma weighted_at_x (m : params → nat → nat → R) (v : R) (i : nat) :
  (∀ j, m (at_x p k v) i j = m p i j) →
  weighted (at_x p k v) m i = weighted p m i + (v - x p k) * m p i k.
Proof.
  intros Hm. unfold weighted. change (N (at_x p k v)) with (N p).
  rewrite (Rsum_ext _ _ (λ j, x (at_x p k v) j * m p i j))
    by (intros j _; now rewrite Hm).
  apply Rsum_at_x.
Qed.

Lemma xj_Lambda_at_x (v : R) (i : nat) :
  xj_Lambda (at_x p k v) i = xj_Lambda p i + (v - x p k) * Lambda p i k.
Proof. apply (weighted_at_x (λ p, Lambda p)). reflexivity. Qed.

Hypothesis Hpos : all_positive p.

Lemma D_GE_x :
  derivable_pt_lim (λ v, GE_formula (at_x p k v)) (x p k) (dGE_dxs_formula p k).
Proof.
  apply (derivable_pt_lim_ext (λ v,
    - Rgas * T p
    * (Rsum (N p) (λ i, x p i * ln (xj_Lambda p i + (v - x p k) * Lambda p i k))
       + (v - x p k) * ln (xj_Lambda p k + (v - x p k) * Lambda p k k)))).
  { intros v. symmetry. unfold GE_formula.
    change (T (at_x p k v)) with (T p).
    change (N (at_x p k v)) with (N p).
    f_equal.
    rewrite (Rsum_ext _ _ (λ i, x (at_x p k v) i
                                * ln (xj_Lambda p i + (v - x p k) * Lambda p i k)))
      by (intros i _; now rewrite xj_Lambda_at_x).
    now rewrite Rsum_at_x. }
  apply D_scal.
  apply (D_affine_G (N p) (x p) (xj_Lambda p) (λ i, Lambda p i k)); assumption.
Qed.

(** the derivative of ∂G/∂x_j with respect to x_k *)
Lemma D_dGE_dxs_x (j : nat) :
  (j < N p)%nat →
  derivable_pt_lim (λ v, dGE_dxs_formula (at_x p k v) j) (x p k) (d2GE_formula p j k).
Proof.
  intros Hj.
  apply (derivable_pt_lim_ext (λ v,
    - Rgas * T p
    * ((Rsum (N p) (λ i, x p i * (Lambda p i j + (v - x p k) * 0)
                        / (xj_Lambda p i + (v - x p k) * Lambda p i k))
        + (v - x p k) * (Lambda p k j + (v - x p k) * 0)
          / (xj_Lambda p k + (v - x p k) * Lambda p k k))
       + ln (xj_Lambda p j + (v - x p k) * Lambda p j k)))).
  { intros v. symmetry. unfold dGE_dxs_formula.
    change (T (at_x p k v)) with (T p).
    change (N (at_x p k v)) with (N p).
    f_equal.
    rewrite xj_Lambda_at_x. f_equal.
    rewrite (Rsum_ext _ _ (λ i, x (at_x p k v) i
                                * (Lambda p i j / (xj_Lambda p i + (v - x p k) * Lambda p i k)))).
    2:{ intros i _. rewrite xj_Lambda_at_x.
        change (Lambda (at_x p k v) i j) with (Lambda p i j). unfold Rdiv. ring. }
    rewrite Rsum_at_x. f_equal.
    - apply Rsum_ext. intros i _. unfold Rdiv. ring.
    - unfold Rdiv. ring. }
  eapply D_eq.
  { apply D_scal, D_plus.
    - apply (D_affine_ratio (N p) (x p) (xj_Lambda p) (λ i, Lambda p i k) (x p k)
               Hpos (λ i, Lambda p i j) (λ _, 0) k Hk).
    - apply (D_affine_log (N p) (xj_Lambda p) (λ i, Lambda p i k) (x p k) Hpos j Hj). }
  unfold d2GE_formula.
  rewrite (Rsum_ext _ _ (λ i, - (x p i * Lambda p i j * Lambda p i k / (xj_Lambda p i)²))).
  2:{ intros i Hi. specialize (Hpos i Hi). unfold Rsqr. field. lra. }
  rewrite Rsum_opp. pose proof (Hpos j Hj). pose proof (Hpos k Hk). field. lra.
Qed.

(** the derivative of ∂²G/∂x_j∂x_m with respect to x_k *)
Lemma D_d2GE_x (j m : nat) :
  (j < N p)%nat → (m < N p)%nat →
  derivable_pt_lim (λ v, d2GE_formula (at_x p k v) j m) (x p k)
    (d3GE_formula p j m k).
Proof.
  intros Hj Hm.
  apply (derivable_pt_lim_ext (λ v,
    Rgas * T p
    * ((Rsum (N p) (λ i, x p i * (Lambda p i j * Lambda p i m)
                        / (xj_Lambda p i + (v - x p k) * Lambda p i k)²)
        + (v - x p k) * (Lambda p k j * Lambda p k m)
          / (xj_Lambda p k + (v - x p k) * Lambda p k k)²)
       - Lambda p j m / (xj_Lambda p j + (v - x p k) * Lambda p j k)
       - Lambda p m j / (xj_Lambda p m + (v - x p k) * Lambda p m k)))).
  { intros v. symmetry. unfold d2GE_formula.
    change (T (at_x p k v)) with (T p).
    change (N (at_x p k v)) with (N p).
    f_equal.
    rewrite !xj_Lambda_at_x. f_equal. f_equal.
    rewrite (Rsum_ext _ _ (λ i, x (at_x p k v) i
               * (Lambda p i j * Lambda p i m
                  / (xj_Lambda p i + (v - x p k) * Lambda p i k)²))).
    2:{ intros i _. rewrite xj_Lambda_at_x.
        change (Lambda (at_x p k v)) with (Lambda p). unfold Rdiv. ring. }
    rewrite Rsum_at_x. f_equal.
    - apply Rsum_ext. intros i _. unfold Rdiv. ring.
    - unfold Rdiv. ring. }
  eapply D_eq.
  { apply D_scal, D_minus; [apply D_minus|].
    - apply (D_affine_square (N p) (x p) (xj_Lambda p) (λ i, Lambda p i k) (x p k)
               Hpos (λ i, Lambda p i j * Lambda p i m) k Hk).
    - apply (D_affine_inv (N p) (xj_Lambda p) (λ i, Lambda p i k) (x p k) Hpos
               (Lambda p j m) j Hj).
    - apply (D_affine_inv (N p) (xj_Lambda p) (λ i, Lambda p i k) (x p k) Hpos
               (Lambda p m j) m Hm). }
  unfold d3GE_formula.
  rewrite (Rsum_ext _ _ (λ i, 2 * x p i * Lambda p i j * Lambda p i m * Lambda p i k
                              / (xj_Lambda p i * xj_Lambda p i * xj_Lambda p i))).
  2:{ intros i Hi. specialize (Hpos i Hi). field. lra. }
  pose proof (Hpos j Hj). pose proof (Hpos k Hk). pose proof (Hpos m Hm).
  unfold Rsqr. field. lra.
Qed.

(** the derivative of ∂G/∂T with respect to x_k *)
Lemma D_dGE_dT_x :
  derivable_pt_lim (λ v, dGE_dT_formula (at_x p k v)) (x p k)
    (d2GE_dTdxs_formula p k).
Proof.
  apply (derivable_pt_lim_ext (λ v,
    - Rgas
    * (Rsum (N p) (λ i, x p i * ln (xj_Lambda p i + (v - x p k) * Lambda p i k))
       + (v - x p k) * ln (xj_Lambda p k + (v - x p k) * Lambda p k k))
    - Rgas * T p
      * (Rsum (N p) (λ i, x p i * (weighted p dLambda i + (v - x p k) * dLambda p i k)
                          / (xj_Lambda p i + (v - x p k) * Lambda p i k))
         + (v - x p k) * (weighted p dLambda k + (v - x p k) * dLambda p k k)
           / (xj_Lambda p k + (v - x p k) * Lambda p k k)))).
  { intros v. symmetry. unfold dGE_dT_formula.
    change (T (at_x p k v)) with (T p).
    change (N (at_x p k v)) with (N p).
    f_equal; f_equal.
    - rewrite (Rsum_ext _ _ (λ i, x (at_x p k v) i
                 * ln (xj_Lambda p i + (v - x p k) * Lambda p i k)))
        by (intros i _; now rewrite xj_Lambda_at_x).
      now rewrite Rsum_at_x.
    - rewrite (Rsum_ext _ _ (λ i, x (at_x p k v) i
                 * ((weighted p dLambda i + (v - x p k) * dLambda p i k)
                    / (xj_Lambda p i + (v - x p k) * Lambda p i k)))).
      2:{ intros i _. rewrite xj_Lambda_at_x, (weighted_at_x dLambda) by reflexivity.
          unfold Rdiv. ring. }
      rewrite Rsum_at_x. f_equal.
      + apply Rsum_ext. intros i _. unfold Rdiv. ring.
      + unfold Rdiv. ring. }
  eapply D_eq.
  { apply D_minus.
    - apply D_scal.
      apply (D_affine_G (N p) (x p) (xj_Lambda p) (λ i, Lambda p i k) (x p k) Hpos k Hk).
    - apply D_scal.
      apply (D_affine_ratio (N p) (x p) (xj_Lambda p) (λ i, Lambda p i k) (x p k)
               Hpos (λ i, weighted p dLambda i) (λ i, dLambda p i k) k Hk). }
  unfold d2GE_dTdxs_formula. cbv beta. ring.
Qed.

End InComposition.

Lemma item2_matrix_of (p : params) (m : params → nat → nat → R) (i j : nat) :
  (i < N p)%nat → (j < N p)%nat → item2 (matrix_of p m) i j = Some (m p i j).
Proof.
  intros Hi Hj. unfold item2, matrix_of, cmps.
  rewrite list_lookup_fmap, lookup_seq_lt by assumption. cbn.
  rewrite list_lookup_fmap, lookup_seq_lt by assumption. reflexivity.
Qed.

Lemma lookup_vector_of (p : params) (v : params → nat → R) (i : nat) :
  (i < N p)%nat → vector_of p v !! i = Some (v p i).
Proof.
  intros Hi. unfold vector_of, cmps.
  rewrite list_lookup_fmap, lookup_seq_lt by assumption. reflexivity.
Qed.

Lemma length_vector_of (p : params) (v : params → nat → R) :
  length (vector_of p v) = N p.
Proof. unfold vector_of, cmps. now rewrite length_map, length_seq. Qed.

Lemma nth_vector_of (p : params) (v : params → nat → R) (i : nat) :
  (i < N p)%nat → nth i (vector_of p v) 0 = v p i.
Proof.
  intros Hi. apply nth_lookup_Some with (d := 0). now apply lookup_vector_of.
Qed.

(** a composition without negative amounts, and not empty, makes every row
    sum positive *)
Lemma composition_positive (p : params) :
  (∀ j, (j < N p)%nat → 0 <= x p j) → (∃ j, (j < N p)%nat ∧ 0 < x p j) →
  all_positive p.
Proof.
  intros Hnn [j0 [Hj0 Hx0]] i Hi. unfold xj_Lambda.
  assert (HL : ∀ j, 0 < Lambda p i j) by (intros j; unfold Lambda; apply exp_pos).
  assert (Hge : ∀ n, (n ≤ N p)%nat →
            0 <= Rsum n (λ j, x p j * Lambda p i j)
            ∧ ((j0 < n)%nat → 0 < Rsum n (λ j, x p j * Lambda p i j))).
  { induction n as [|n IH]; intros Hn.
    - split; [unfold Rsum; cbn; lra|lia].
    - rewrite Rsum_S. destruct IH as [IH0 IH1]; [lia|].
      assert (0 <= x p n * Lambda p i n).
      { apply Rmult_le_pos; [apply Hnn; lia|]. specialize (HL n). lra. }
      split; [lra|]. intros Hlt.
      destruct (decide (j0 = n)) as [->|Hne].
      + assert (0 < x p n * Lambda p i n) by (apply Rmult_lt_0_compat; auto).
        lra.
      + specialize (IH1 ltac:(lia)). lra. }
  now apply (Hge (N p)).
Qed.

(** *** Methods of the first part that need positive row sums *)

Lemma d2GE_dxixjs_post_model self : model (d2GE_dxixjs_post self) = model self.
Proof.
  unfold d2GE_dxixjs_post. destruct (_d2GE_dxixjs self); [reflexivity|].
  cbn. now rewrite xj_Lambda_ijs_post_model, lambdas_post_model.
Qed.

Lemma d3GE_dxixjxks_post_model self : model (d3GE_dxixjxks_post self) = model self.
Proof.
  unfold d3GE_dxixjxks_post. destruct (_d3GE_dxixjxks self); [reflexivity|].
  cbn. now rewrite xj_Lambda_ijs_post_model, lambdas_post_model.
Qed.

Section Positive.
Context (p : params).
Hypothesis Hwf : wf p.
Hypothesis HT : 0 < T p.
Hypothesis Hpos : all_positive p.

Lemma returns_GE : returns p (on_base GE) (GE_formula p).
Proof.
  apply returns_on_base. intros b <- Hc. exists (GE_post b).
  rewrite GE_run by assumption.
  split; [reflexivity|]. split; [apply GE_post_model|].
  now apply GE_post_consistent.
Qed.

Lemma returns_gammas : returns p (on_base gammas) (gamma_vector p).
Proof.
  apply returns_on_base. intros b <- Hc.
  exists (xj_Lambda_ijs_inv_post (lambdas_post b)).
  rewrite gammas_run by (try apply all_positive_nonzero; assumption).
  split; [reflexivity|].
  split; [now rewrite xj_Lambda_ijs_inv_post_model, lambdas_post_model|].
  apply xj_Lambda_ijs_inv_post_consistent.
  - now apply lambdas_post_consistent.
  - rewrite lambdas_post_model. now apply all_positive_nonzero.
Qed.

Lemma returns_d2GE_dxixjs : returns p (on_base d2GE_dxixjs) (d2GE_matrix p).
Proof.
  apply returns_on_base. intros b <- Hc. exists (d2GE_dxixjs_post b).
  rewrite d2GE_dxixjs_run by (try apply all_positive_nonzero; assumption).
  split; [reflexivity|]. split; [apply d2GE_dxixjs_post_model|].
  apply d2GE_dxixjs_post_consistent; [assumption|].
  now apply all_positive_nonzero.
Qed.

Lemma returns_d3GE_dxixjxks : returns p (on_base d3GE_dxixjxks) (d3GE_tensor p).
Proof.
  apply returns_on_base. intros b <- Hc. exists (d3GE_dxixjxks_post b).
  rewrite d3GE_dxixjxks_run by (try apply all_positive_nonzero; assumption).
  split; [reflexivity|]. split; [apply d3GE_dxixjxks_post_model|].
  apply d3GE_dxixjxks_post_consistent; [assumption|].
  now apply all_positive_nonzero.
Qed.

(** Σ_k x_k ∂G/∂x_k = G − R T Σ_k x_k *)
Lemma euler_sum :
  Rsum (N p) (λ k, x p k * dGE_dxs_formula p k)
  = GE_formula p - Rgas * T p * Rsum (N p) (x p).
Proof.
  unfold dGE_dxs_formula, GE_formula.
  rewrite (Rsum_ext _ _ (λ k,
    - Rgas * T p * Rsum (N p) (λ i, x p k * (Lambda p i k * x p i / xj_Lambda p i))
    + - Rgas * T p * (x p k * ln (xj_Lambda p k)))).
  2:{ intros k Hk. rewrite Rsum_scal.
      rewrite (Rsum_ext _ (λ i, Lambda p i k * x p i / xj_Lambda p i)
                 (λ i, x p i * Lambda p i k / xj_Lambda p i)); [ring|].
      intros i Hi. unfold Rdiv. ring. }
  rewrite Rsum_plus, !Rsum_scal.
  rewrite weighted_column_sum by now apply all_positive_nonzero. ring.
Qed.

Lemma gamma_from_gradient (k : nat) :
  (k < N p)%nat →
  gamma_formula p k = exp (1 + dGE_dxs_formula p k / (Rgas * T p)).
Proof.
  intros Hk. specialize (Hpos k Hk).
  assert (HR : Rgas ≠ 0) by (unfold Rgas; lra).
  replace (1 + dGE_dxs_formula p k / (Rgas * T p))
    with (1 - Rsum (N p) (λ j, Lambda p j k * x p j / xj_Lambda p j)
          + - ln (xj_Lambda p k)).
  - rewrite exp_plus, exp_Ropp, exp_ln by assumption.
    unfold gamma_formula. field. lra.
  - unfold dGE_dxs_formula.
    rewrite (Rsum_ext _ _ (λ i, x p i * Lambda p i k / xj_Lambda p i))
      by (intros i Hi; unfold Rdiv; ring).
    field. split; lra.
Qed.

End Positive.

(** *** When a loop raises *)

Lemma append_loop_some_raise {A B} (f : A → result B) (idx : list A) (i : A)
    (e : exn) :
  i ∈ idx → f i = Raise e →
  ∃ rows e', append_loop f idx = (rows, Some e') ∧ (length rows < length idx)%nat.
Proof.
  intros Hi Hf. induction idx as [|a rest IH]; [now apply elem_of_nil in Hi|].
  cbn. destruct (f a) as [b|e0] eqn:Ea.
  - apply elem_of_cons in Hi as [->|Hi]; [congruence|].
    destruct (IH Hi) as (rows & e' & -> & Hlen).
    exists (b :: rows), e'. cbn. split; [reflexivity|lia].
  - exists [], e0. cbn. split; [reflexivity|lia].
Qed.

(** ** The theorems *)

(** X15: The temperature derivatives of the interaction terms.  On every
    settled object with a well-formed model and T > 0, [dlambdas_dT],
    [d2lambdas_dT2] and [d3lambdas_dT3] return, and the entries (i, j) of
    the three matrices are the first, second and third derivative, at the
    object's temperature, of
    Λ_ij(T) = exp(A_ij + B_ij/T + C_ij ln T + D_ij T + E_ij/T² + F_ij T²). *)
Theorem lambda_temperature_derivatives (s : object) :
  wf (base s) → 0 < T (base s) → settled s →
  ∃ v1 v2 v3 s1 s2 s3,
    dlambdas_dT s = (Ok v1, s1) ∧ d2lambdas_dT2 s1 = (Ok v2, s2)
    ∧ d3lambdas_dT3 s2 = (Ok v3, s3) ∧ settled s3
    ∧ ∀ i j, (i < N (base s))%nat → (j < N (base s))%nat →
        item2 v1 i j = Some (dLambda (base s) i j)
        ∧ item2 v2 i j = Some (d2Lambda (base s) i j)
        ∧ item2 v3 i j = Some (d3Lambda (base s) i j)
        ∧ derivable_pt_lim (λ t, Lambda (at_T (base s) t) i j) (T (base s))
            (dLambda (base s) i j)
        ∧ derivable_pt_lim (λ t, dLambda (at_T (base s) t) i j) (T (base s))
            (d2Lambda (base s) i j)
        ∧ derivable_pt_lim (λ t, d2Lambda (at_T (base s) t) i j) (T (base s))
            (d3Lambda (base s) i j).
Proof.
  intros Hwf HT Hs.
  destruct (returns_dlambdas_dT _ Hwf HT s eq_refl Hs) as (s1 & E1 & Hp1 & Hs1).
  destruct (returns_d2lambdas_dT2 _ Hwf HT s1 Hp1 Hs1) as (s2 & E2 & Hp2 & Hs2).
  destruct (returns_d3lambdas_dT3 _ Hwf HT s2 Hp2 Hs2) as (s3 & E3 & Hp3 & Hs3).
  eexists _, _, _, s1, s2, s3.
  split; [exact E1|]. split; [exact E2|]. split; [exact E3|]. split; [exact Hs3|].
  intros i j Hi Hj. rewrite !item2_matrix_of by assumption.
  repeat split.
  - now apply D_Lambda.
  - now apply D_dLambda.
  - now apply D_d2Lambda.
Qed.

(** X16: The temperature derivatives of the row sums.  [xj_dLambda_dTijs],
    [xj_d2Lambda_dT2ijs] and [xj_d3Lambda_dT3ijs] return, and their entries
    are the first, second and third temperature derivative of the entry
    Σ_j x_j Λ_ij that [xj_Lambda_ijs] returns. *)
Theorem row_sum_temperature_derivatives (s : object) :
  wf (base s) → 0 < T (base s) → settled s →
  ∃ v0 v1 v2 v3 s0 s1 s2 s3,
    on_base xj_Lambda_ijs s = (Ok v0, s0) ∧ xj_dLambda_dTijs s0 = (Ok v1, s1)
    ∧ xj_d2Lambda_dT2ijs s1 = (Ok v2, s2) ∧ xj_d3Lambda_dT3ijs s2 = (Ok v3, s3)
    ∧ settled s3
    ∧ ∀ i, (i < N (base s))%nat →
        v0 !! i = Some (xj_Lambda (base s) i)
        ∧ v1 !! i = Some (weighted (base s) dLambda i)
        ∧ v2 !! i = Some (weighted (base s) d2Lambda i)
        ∧ v3 !! i = Some (weighted (base s) d3Lambda i)
        ∧ derivable_pt_lim (λ t, xj_Lambda (at_T (base s) t) i) (T (base s))
            (weighted (base s) dLambda i)
        ∧ derivable_pt_lim (λ t, weighted (at_T (base s) t) dLambda i) (T (base s))
            (weighted (base s) d2Lambda i)
        ∧ derivable_pt_lim (λ t, weighted (at_T (base s) t) d2Lambda i) (T (base s))
            (weighted (base s) d3Lambda i).
Proof.
  intros Hwf HT Hs.
  destruct (returns_xj_Lambda_ijs _ Hwf HT s eq_refl Hs) as (s0 & E0 & Hp0 & Hs0).
  destruct (returns_xj_dLambda_dTijs _ Hwf HT s0 Hp0 Hs0) as (s1 & E1 & Hp1 & Hs1).
  destruct (returns_xj_d2Lambda_dT2ijs _ Hwf HT s1 Hp1 Hs1) as (s2 & E2 & Hp2 & Hs2).
  destruct (returns_xj_d3Lambda_dT3ijs _ Hwf HT s2 Hp2 Hs2) as (s3 & E3 & Hp3 & Hs3).
  eexists _, _, _, _, s0, s1, s2, s3.
  split; [exact E0|]. split; [exact E1|]. split; [exact E2|]. split; [exact E3|].
  split; [exact Hs3|].
  intros i Hi. rewrite !lookup_vector_of by assumption.
  repeat split.
  - now apply D_xj_Lambda.
  - now apply D_xj_dLambda.
  - now apply D_xj_d2Lambda.
Qed.

(** X17: [dGE_dT] returns the temperature derivative of the excess Gibbs energy:
    with positive row sums, [GE] returns G(T) = −R T Σ_i x_i ln Σ_j x_j Λ_ij(T)
    and [dGE_dT] returns the derivative of G at the object's temperature. *)
Theorem dGE_dT_is_derivative (s : object) :
  wf (base s) → 0 < T (base s) → all_positive (base s) → settled s →
  ∃ G dG s1 s2,
    on_base GE s = (Ok G, s1) ∧ dGE_dT s1 = (Ok dG, s2) ∧ settled s2
    ∧ G = GE_formula (base s) ∧ dG = dGE_dT_formula (base s)
    ∧ derivable_pt_lim (λ t, GE_formula (at_T (base s) t)) (T (base s)) dG.
Proof.
  intros Hwf HT Hpos Hs.
  destruct (returns_GE _ Hwf HT Hpos s eq_refl Hs) as (s1 & E1 & Hp1 & Hs1).
  destruct (returns_dGE_dT _ Hwf HT Hpos s1 Hp1 Hs1) as (s2 & E2 & Hp2 & Hs2).
  eexists _, _, s1, s2.
  split; [exact E1|]. split; [exact E2|]. split; [exact Hs2|].
  split; [reflexivity|]. split; [reflexivity|].
  now apply D_GE.
Qed.

(** X18: [d2GE_dT2] and [d3GE_dT3] return the second and third temperature
    derivative of the excess Gibbs energy: the derivative of what [dGE_dT]
    returns as a function of temperature, and the derivative of that. *)
Theorem d2GE_dT2_d3GE_dT3_are_derivatives (s : object) :
  wf (base s) → 0 < T (base s) → all_positive (base s) → settled s →
  ∃ d2 d3 s1 s2,
    d2GE_dT2 s = (Ok d2, s1) ∧ d3GE_dT3 s1 = (Ok d3, s2) ∧ settled s2
    ∧ d2 = d2GE_dT2_formula (base s)
    ∧ derivable_pt_lim (λ t, dGE_dT_formula (at_T (base s) t)) (T (base s)) d2
    ∧ derivable_pt_lim (λ t, d2GE_dT2_formula (at_T (base s) t)) (T (base s)) d3.
Proof.
  intros Hwf HT Hpos Hs.
  destruct (returns_d2GE_dT2 _ Hwf HT Hpos s eq_refl Hs) as (s1 & E1 & Hp1 & Hs1).
  destruct (returns_d3GE_dT3 _ Hwf HT Hpos s1 Hp1 Hs1) as (s2 & E2 & Hp2 & Hs2).
  eexists _, _, s1, s2.
  split; [exact E1|]. split; [exact E2|]. split; [exact Hs2|].
  split; [reflexivity|]. split; [now apply D_dGE_dT|now apply D_d2GE_dT2].
Qed.

(** X19: [dGE_dxs] returns the gradient of the excess Gibbs energy in the
    amounts: entry k is the derivative of G with respect to x_k, the other
    amounts fixed.  The entries satisfy Σ_k x_k ∂G/∂x_k = G − R T Σ_k x_k,
    and the activity coefficients that [gammas] returns are
    γ_k = exp(1 + (∂G/∂x_k) / (R T)). *)
Theorem dGE_dxs_is_gradient (s : object) :
  wf (base s) → 0 < T (base s) → all_positive (base s) → settled s →
  ∃ v g s1 s2,
    dGE_dxs s = (Ok v, s1) ∧ on_base gammas s1 = (Ok g, s2) ∧ settled s2
    ∧ length v = N (base s)
    ∧ (∀ k, (k < N (base s))%nat →
         ∃ d, v !! k = Some d
              ∧ derivable_pt_lim (λ y, GE_formula (at_x (base s) k y))
                  (x (base s) k) d
              ∧ g !! k = Some (exp (1 + d / (Rgas * T (base s)))))
    ∧ Rsum (N (base s)) (λ k, x (base s) k * nth k v 0)
      = GE_formula (base s) - Rgas * T (base s) * Rsum (N (base s)) (x (base s)).
Proof.
  intros Hwf HT Hpos Hs.
  destruct (returns_dGE_dxs _ Hwf HT Hpos s eq_refl Hs) as (s1 & E1 & Hp1 & Hs1).
  destruct (returns_gammas _ Hwf HT Hpos s1 Hp1 Hs1) as (s2 & E2 & Hp2 & Hs2).
  eexists _, _, s1, s2.
  split; [exact E1|]. split; [exact E2|]. split; [exact Hs2|].
  split; [apply length_vector_of|]. split.
  - intros k Hk. exists (dGE_dxs_formula (base s) k).
    split; [now apply lookup_vector_of|]. split; [now apply D_GE_x|].
    unfold gamma_vector, cmps.
    rewrite list_lookup_fmap, lookup_seq_lt by assumption. cbn.
    now rewrite gamma_from_gradient.
  - rewrite <- euler_sum by assumption. apply Rsum_ext. intros k Hk.
    now rewrite nth_vector_of.
Qed.

(** X20: The matrix returned by [d2GE_dxixjs] is the Jacobian of the gradient
    that [dGE_dxs] computes, and the tensor returned by [d3GE_dxixjxks] is
    the derivative of that matrix: entry (j, k) is the derivative of
    ∂G/∂x_j with respect to x_k, entry (j, m, k) the derivative of
    ∂²G/∂x_j∂x_m with respect to x_k. *)
Theorem hessian_is_jacobian (self : Wilson) :
  wf self → 0 < T self → consistent self → all_positive self →
  ∃ h t s1 s2,
    d2GE_dxixjs self = (Ok h, s1) ∧ d3GE_dxixjxks s1 = (Ok t, s2)
    ∧ (∀ j k, (j < N self)%nat → (k < N self)%nat →
         ∃ d, item2 h j k = Some d
              ∧ derivable_pt_lim (λ y, dGE_dxs_formula (at_x self k y) j)
                  (x self k) d)
    ∧ (∀ j m k, (j < N self)%nat → (m < N self)%nat → (k < N self)%nat →
         ∃ d, item3 t j m k = Some d
              ∧ derivable_pt_lim (λ y, d2GE_formula (at_x self k y) j m)
                  (x self k) d).
Proof.
  intros Hwf HT Hc Hpos.
  assert (Hnz := all_positive_nonzero _ Hpos).
  exists (d2GE_matrix self), (d3GE_tensor self), (d2GE_dxixjs_post self),
    (d3GE_dxixjxks_post (d2GE_dxixjs_post self)).
  split; [now apply d2GE_dxixjs_run|]. split.
  { rewrite d3GE_dxixjxks_run; rewrite ?d2GE_dxixjs_post_model; try assumption.
    - reflexivity.
    - now apply d2GE_dxixjs_post_consistent. }
  split.
  - intros j k Hj Hk. exists (d2GE_formula self j k). split.
    + rewrite item2_matrix. destruct (decide _) as [_|Hn]; [reflexivity|tauto].
    + now apply D_dGE_dxs_x.
  - intros j m k Hj Hm Hk. exists (d3GE_formula self j m k). split.
    + rewrite item3_tensor. destruct (decide _) as [_|Hn]; [reflexivity|tauto].
    + now apply D_d2GE_x.
Qed.

(** X21: The vector returned by [d2GE_dTdxs] is the mixed second derivative:
    entry k is the temperature derivative of ∂G/∂x_k (what [dGE_dxs]
    computes) and also the derivative with respect to x_k of ∂G/∂T (what
    [dGE_dT] computes). *)
Theorem d2GE_dTdxs_is_mixed_derivative (s : object) :
  wf (base s) → 0 < T (base s) → all_positive (base s) → settled s →
  ∃ v s1,
    d2GE_dTdxs s = (Ok v, s1) ∧ settled s1 ∧ length v = N (base s)
    ∧ ∀ k, (k < N (base s))%nat →
        ∃ d, v !! k = Some d
             ∧ derivable_pt_lim (λ t, dGE_dxs_formula (at_T (base s) t) k)
                 (T (base s)) d
             ∧ derivable_pt_lim (λ y, dGE_dT_formula (at_x (base s) k y))
                 (x (base s) k) d.
Proof.
  intros Hwf HT Hpos Hs.
  destruct (returns_d2GE_dTdxs _ Hwf HT Hpos s eq_refl Hs) as (s1 & E1 & Hp1 & Hs1).
  eexists _, s1. split; [exact E1|]. split; [exact Hs1|].
  split; [apply length_vector_of|].
  intros k Hk. exists (d2GE_dTdxs_formula (base s) k).
  split; [now apply lookup_vector_of|].
  split; [now apply D_dGE_dxs_T|now apply D_dGE_dT_x].
Qed.

(** X22: A call of [dGE_dxs] that raises leaves a truncated list behind.  When
    some row sum is not positive the first call raises, after the attribute
    was bound to the list being filled; the next call finds the attribute
    and returns, without raising, a list with fewer entries than
    components. *)
Theorem dGE_dxs_truncated_after_raise (s : object) :
  wf (base s) → 0 < T (base s) → settled s → _dGE_dxs s = None →
  ¬ all_positive (base s) →
  ∃ e v s1,
    dGE_dxs s = (Raise e, s1) ∧ dGE_dxs s1 = (Ok v, s1)
    ∧ (length v < N (base s))%nat.
Proof.
  intros Hwf HT Hs Hnone Hneg.
  destruct (all_positive_dec (base s)) as [Hp|[i [Hi Hn]]]; [contradiction|].
  destruct (returns_lambdas _ Hwf HT s eq_refl Hs) as (s1 & E1 & Hp1 & Hs1).
  destruct (returns_xj_Lambda_ijs _ Hwf HT s1 Hp1 Hs1) as (s2 & E2 & Hp2 & Hs2).
  match type of E2 with
  | _ = (Ok ?S, _) => set (Sv := S) in *
  end.
  set (f := λ k : nat,
    tot ← for_acc (λ tot i,
        xi ← getitem (xs (base s)) i;
        li ← getitem (matrix_of (base s) Lambda) i;
        lik ← getitem li k;
        si ← getitem Sv i;
        q ← pdiv (xi * lik) si;
        Ok (tot + q)) (cmps (base s)) 0;
    sk ← getitem Sv k;
    lg ← plog sk;
    Ok (- T (base s) * Rgas * (tot + lg))).
  assert (Hfi : ∃ e, f i = Raise e).
  { unfold f. destruct (for_acc _ _ _) as [tot|e]; [|eauto].
    rewrite bind_Ok. unfold Sv. rewrite getitem_vector, bind_Ok by assumption.
    unfold plog. destruct (Rlt_dec 0 (xj_Lambda (base s) i)); [contradiction|].
    eauto. }
  destruct Hfi as [e Hfi].
  destruct (append_loop_some_raise f (cmps (base s)) i e) as (rows & e' & El & Hlen);
    [now apply in_cmps|exact Hfi|].
  exists e', rows, (set_dGE_dxs rows s2).
  split; [|split].
  - unfold dGE_dxs, cached_attr. rewrite Hnone.
    rewrite run_bind. unfold params_of, getattr. cbn beta iota zeta.
    rewrite run_bind, E1. rewrite run_bind, E2.
    unfold store_rows. fold f. rewrite El. reflexivity.
  - reflexivity.
  - unfold cmps in Hlen. now rewrite length_seq in Hlen.
Qed.

(** *** The constructor *)

Lemma comprehension_Raise {A B} (f : A → result B) (idx : list A) (e : exn) :
  comprehension f idx = Raise e → ∃ i, i ∈ idx ∧ f i = Raise e.
Proof.
  induction idx as [|i rest IH]; cbn; [discriminate|].
  destruct (f i) as [b|e'] eqn:Ei; cbn.
  - destruct (comprehension f rest) as [bs|e'] eqn:Er; cbn; [discriminate|].
    intros [= ->]. destruct (IH eq_refl) as (j & Hj & Ej).
    exists j. split; [now right|exact Ej].
  - intros [= ->]. exists i. split; [left|exact Ei].
Qed.

Lemma comprehension_Ok {A B} (f : A → result B) (idx : list A) (r : list B) :
  comprehension f idx = Ok r → ∀ i, i ∈ idx → is_ok (f i).
Proof.
  revert r. induction idx as [|a rest IH]; intros r; cbn.
  - intros _ i Hi. now apply elem_of_nil in Hi.
  - destruct (f a) as [b|e] eqn:Ea; cbn; [|discriminate].
    destruct (comprehension f rest) as [bs|e] eqn:Er; cbn; [|discriminate].
    intros _ i [->|Hi]%elem_of_cons; [rewrite Ea; now exists b|].
    now apply (IH bs).
Qed.

Lemma coefficient_deep (k : nat) (lc : list (list (list R))) :
  deep k lc → coefficient k lc = Ok (plane k lc).
Proof.
  intros Hd. unfold coefficient, plane. apply comprehension_map.
  intros l Hl. apply comprehension_map. intros c Hc.
  apply getitem_nth.
  unfold deep in Hd. rewrite Forall_forall in Hd. specialize (Hd l Hl).
  rewrite Forall_forall in Hd. now apply Hd.
Qed.

Lemma coefficient_shallow (k : nat) (lc : list (list (list R))) :
  ¬ deep k lc → coefficient k lc = Raise IndexError.
Proof.
  intros Hn. destruct (coefficient k lc) as [r|e] eqn:E.
  - destruct Hn. unfold deep. rewrite Forall_forall. intros l Hl.
    rewrite Forall_forall. intros c Hc.
    destruct (comprehension_Ok _ _ _ E l Hl) as [row Hrow].
    destruct (comprehension_Ok _ _ _ Hrow c Hc) as [v Hv].
    unfold getitem in Hv. destruct (c !! k) eqn:Ek; [|discriminate].
    now apply lookup_lt_Some in Ek.
  - apply comprehension_Raise in E as (l & _ & E).
    apply comprehension_Raise in E as (c & _ & E).
    unfold getitem in E. destruct (c !! k); [discriminate|]. congruence.
Qed.

Lemma deep_le (j k : nat) (lc : list (list (list R))) :
  (j ≤ k)%nat → deep k lc → deep j lc.
Proof.
  intros Hjk Hd. unfold deep in *.
  eapply Forall_impl; [exact Hd|]. intros l Hl.
  eapply Forall_impl; [exact Hl|]. intros c Hc. cbn in *. lia.
Qed.

Lemma deep_dec (k : nat) (lc : list (list (list R))) : {deep k lc} + {¬ deep k lc}.
Proof.
  unfold deep. apply Forall_dec. intros l. apply Forall_dec. intros c.
  apply lt_dec.
Qed.

(** X24: The two ways of giving the coefficients.  With [ABCDEF] the six
    matrices are used as they are, whatever [lambda_coeffs] is; with
    [lambda_coeffs] alone, a nested list whose entry (i, j) holds at least
    six numbers, the object is the one built from the six matrices of
    first, second, ... sixth numbers; an entry with fewer than six numbers
    raises IndexError, and with neither argument the constructor raises
    TypeError. *)
Theorem constructor_paths (T0 : R) (xs0 : list R) :
  __init__ T0 xs0 None None = Raise TypeError
  ∧ (∀ lc ABCDEF,
       __init__ T0 xs0 lc (Some ABCDEF) = Ok (Wilson.__init__ T0 xs0 ABCDEF))
  ∧ (∀ lc, deep 5 lc →
       __init__ T0 xs0 (Some lc) None
       = Ok (Wilson.__init__ T0 xs0
               (plane 0 lc, plane 1 lc, plane 2 lc,
                plane 3 lc, plane 4 lc, plane 5 lc)))
  ∧ (∀ lc, ¬ deep 5 lc → __init__ T0 xs0 (Some lc) None = Raise IndexError).
Proof.
  split; [reflexivity|]. split; [reflexivity|]. split.
  - intros lc Hd. unfold __init__.
    rewrite !coefficient_deep by (eapply deep_le; [|exact Hd]; lia).
    rewrite !bind_Ok. unfold Wilson.__init__. do 3 f_equal.
    unfold plane. now rewrite length_map.
  - intros lc Hn. unfold __init__.
    destruct (deep_dec 0 lc) as [H0|H0];
      [rewrite (coefficient_deep 0) by assumption|
       now rewrite (coefficient_shallow 0) by assumption].
    destruct (deep_dec 1 lc) as [H1|H1];
      [rewrite (coefficient_deep 1) by assumption|
       now rewrite (coefficient_shallow 1) by assumption].
    destruct (deep_dec 2 lc) as [H2|H2];
      [rewrite (coefficient_deep 2) by assumption|
       now rewrite (coefficient_shallow 2) by assumption].
    destruct (deep_dec 3 lc) as [H3|H3];
      [rewrite (coefficient_deep 3) by assumption|
       now rewrite (coefficient_shallow 3) by assumption].
    destruct (deep_dec 4 lc) as [H4|H4];
      [rewrite (coefficient_deep 4) by assumption|
       now rewrite (coefficient_shallow 4) by assumption].
    now rewrite (coefficient_shallow 5) by assumption.
Qed.

(** ** Instances *)

Lemma example_settled : settled (fresh example).
Proof. apply settled_fresh, example_consistent. Qed.

Lemma example_amounts :
  (∀ j, (j < N example)%nat → 0 <= x example j)
  ∧ (∃ j, (j < N example)%nat ∧ 0 < x example j).
Proof.
  split.
  - intros [|[|j]] Hj; cbn in Hj; [cbn; lra..|lia].
  - exists 0%nat. cbn. split; [lia|lra].
Qed.

Lemma starved_wf : wf starved.
Proof.
  constructor; cbn; try lia;
    (split; cbn; [lia|intros [|[|i]] Hi; cbn; lia]).
Qed.

Lemma starved_not_positive : ¬ all_positive starved.
Proof.
  intros H.
  assert (E : xj_Lambda starved 0 = 0).
  { unfold xj_Lambda, Rsum, Rlist_sum. cbn [starved Wilson.__init__ N model length].
    cbn [seq map fold_right]. unfold x. cbn [xs starved Wilson.__init__ model nth]. ring. }
  assert (H0 : (0 < N starved)%nat) by (cbn; lia).
  specialize (H 0%nat H0). rewrite E in H. lra.
Qed.

Lemma lambda_temperature_derivatives_witness :
  wf example ∧ 0 < T example ∧ settled (fresh example)
  ∧ ∃ v1 s1, dlambdas_dT (fresh example) = (Ok v1, s1)
             ∧ item2 v1 0 1 = Some (dLambda example 0 1)
             ∧ derivable_pt_lim (λ t, Lambda (at_T example t) 0 1) (T example)
                 (dLambda example 0 1).
Proof.
  split; [exact example_wf|]. split; [exact example_T|].
  split; [exact example_settled|].
  destruct (lambda_temperature_derivatives (fresh example) example_wf example_T
              example_settled)
    as (v1 & v2 & v3 & s1 & s2 & s3 & E1 & _ & _ & _ & H).
  exists v1, s1. split; [exact E1|].
  destruct (H 0%nat 1%nat) as (H1 & _ & _ & HD & _); [cbn; lia..|].
  split; [exact H1|exact HD].
Defined.

Lemma row_sum_temperature_derivatives_witness :
  wf example ∧ 0 < T example ∧ settled (fresh example)
  ∧ ∃ v0 s0 v1 s1,
      on_base xj_Lambda_ijs (fresh example) = (Ok v0, s0)
      ∧ xj_dLambda_dTijs s0 = (Ok v1, s1)
      ∧ v1 !! 0%nat = Some (weighted example dLambda 0)
      ∧ derivable_pt_lim (λ t, xj_Lambda (at_T example t) 0) (T example)
          (weighted example dLambda 0).
Proof.
  split; [exact example_wf|]. split; [exact example_T|].
  split; [exact example_settled|].
  destruct (row_sum_temperature_derivatives (fresh example) example_wf example_T
              example_settled)
    as (v0 & v1 & v2 & v3 & s0 & s1 & s2 & s3 & E0 & E1 & _ & _ & _ & H).
  exists v0, s0, v1, s1. split; [exact E0|]. split; [exact E1|].
  destruct (H 0%nat) as (_ & H1 & _ & _ & HD & _); [cbn; lia|].
  split; [exact H1|exact HD].
Defined.

Lemma dGE_dT_is_derivative_witness :
  wf example ∧ 0 < T example ∧ all_positive example ∧ settled (fresh example)
  ∧ ∃ G dG s1 s2,
      on_base GE (fresh example) = (Ok G, s1) ∧ dGE_dT s1 = (Ok dG, s2)
      ∧ derivable_pt_lim (λ t, GE_formula (at_T example t)) (T example) dG.
Proof.
  split; [exact example_wf|]. split; [exact example_T|].
  split; [exact example_positive|]. split; [exact example_settled|].
  destruct (dGE_dT_is_derivative (fresh example) example_wf example_T
              example_positive example_settled)
    as (G & dG & s1 & s2 & E1 & E2 & _ & _ & _ & HD).
  exists G, dG, s1, s2. split; [exact E1|]. split; [exact E2|exact HD].
Defined.

Lemma d2GE_dT2_d3GE_dT3_are_derivatives_witness :
  wf example ∧ 0 < T example ∧ all_positive example ∧ settled (fresh example)
  ∧ ∃ d2 d3 s1 s2,
      d2GE_dT2 (fresh example) = (Ok d2, s1) ∧ d3GE_dT3 s1 = (Ok d3, s2)
      ∧ derivable_pt_lim (λ t, dGE_dT_formula (at_T example t)) (T example) d2.
Proof.
  split; [exact example_wf|]. split; [exact example_T|].
  split; [exact example_positive|]. split; [exact example_settled|].
  destruct (d2GE_dT2_d3GE_dT3_are_derivatives (fresh example) example_wf example_T
              example_positive example_settled)
    as (d2 & d3 & s1 & s2 & E1 & E2 & _ & _ & HD & _).
  exists d2, d3, s1, s2. split; [exact E1|]. split; [exact E2|exact HD].
Defined.

Lemma dGE_dxs_is_gradient_witness :
  wf example ∧ 0 < T example ∧ all_positive example ∧ settled (fresh example)
  ∧ ∃ v s1 d,
      dGE_dxs (fresh example) = (Ok v, s1) ∧ length v = 2%nat
      ∧ v !! 1%nat = Some d
      ∧ derivable_pt_lim (λ y, GE_formula (at_x example 1 y)) (x example 1) d.
Proof.
  split; [exact example_wf|]. split; [exact example_T|].
  split; [exact example_positive|]. split; [exact example_settled|].
  destruct (dGE_dxs_is_gradient (fresh example) example_wf example_T
              example_positive example_settled)
    as (v & g & s1 & s2 & E1 & _ & _ & Hlen & H & _).
  destruct (H 1%nat) as (d & Hd & HD & _); [cbn; lia|].
  exists v, s1, d. split; [exact E1|]. split; [exact Hlen|].
  split; [exact Hd|exact HD].
Defined.

Lemma hessian_is_jacobian_witness :
  wf example ∧ 0 < T example ∧ consistent example ∧ all_positive example
  ∧ ∃ h s1 d,
      d2GE_dxixjs example = (Ok h, s1) ∧ item2 h 0 1 = Some d
      ∧ derivable_pt_lim (λ y, dGE_dxs_formula (at_x example 1 y) 0)
          (x example 1) d.
Proof.
  split; [exact example_wf|]. split; [exact example_T|].
  split; [exact example_consistent|]. split; [exact example_positive|].
  destruct (hessian_is_jacobian example example_wf example_T example_consistent
              example_positive)
    as (h & t & s1 & s2 & E1 & _ & H & _).
  destruct (H 0%nat 1%nat) as (d & Hd & HD); [cbn; lia..|].
  exists h, s1, d. split; [exact E1|]. split; [exact Hd|exact HD].
Defined.

Lemma d2GE_dTdxs_is_mixed_derivative_witness :
  wf example ∧ 0 < T example ∧ all_positive example ∧ settled (fresh example)
  ∧ ∃ v s1 d,
      d2GE_dTdxs (fresh example) = (Ok v, s1) ∧ v !! 0%nat = Some d
      ∧ derivable_pt_lim (λ t, dGE_dxs_formula (at_T example t) 0) (T example) d
      ∧ derivable_pt_lim (λ y, dGE_dT_formula (at_x example 0 y)) (x example 0) d.
Proof.
  split; [exact example_wf|]. split; [exact example_T|].
  split; [exact example_positive|]. split; [exact example_settled|].
  destruct (d2GE_dTdxs_is_mixed_derivative (fresh example) example_wf example_T
              example_positive example_settled)
    as (v & s1 & E1 & _ & _ & H).
  destruct (H 0%nat) as (d & Hd & HD1 & HD2); [cbn; lia|].
  exists v, s1, d. split; [exact E1|]. split; [exact Hd|].
  split; [exact HD1|exact HD2].
Defined.

Lemma dGE_dxs_truncated_after_raise_witness :
  wf starved ∧ 0 < T starved ∧ settled (fresh starved)
  ∧ ¬ all_positive starved
  ∧ ∃ e v s1,
      dGE_dxs (fresh starved) = (Raise e, s1) ∧ dGE_dxs s1 = (Ok v, s1)
      ∧ (length v < 2)%nat.
Proof.
  assert (HT : 0 < T starved) by (cbn; lra).
  assert (Hs : settled (fresh starved)) by apply settled_fresh, init_consistent.
  split; [exact starved_wf|]. split; [exact HT|]. split; [exact Hs|].
  split; [exact starved_not_positive|].
  exact (dGE_dxs_truncated_after_raise (fresh starved) starved_wf HT Hs eq_refl
           starved_not_positive).
Defined.

End WilsonDerivativesFacts.

(** * Rounding in the composition derivatives of the Wilson model *)

Module WilsonBinary64Facts.
Import PrimFloat WilsonBinary64.
Local Open Scope float_scope.
Set Warnings "-inexact-float".






End WilsonBinary64Facts.
